(** * architecture-journey: the recommendation engine, the tree validator,
      the tree service and its routes

    A shallow embedding of
    - [backend/src/types/index.ts] (the data model),
    - [backend/src/services/RecommendationEngine.ts] (path validation,
      score accumulation, winner determination, tie-break, confidence),
    - the [DecisionTreeValidator] (basic structure, questions, references,
      reachability, results; what the floating-point score-balance stage
      warns about is a section variable),
    - [DecisionTreeService] (the trees it loads), [ErrorHandler] and the
      routes [/trees] and [/recommend],
    followed by the properties the specification states about them.

    The engine and the validator are each given twice.
    - [RecommendationEngine] holds scores as integers ([Z]) and reads a
      score object by its own keys. [Exact] is the engine as it runs on
      every tree with integer scores: a score is a double, and the
      objects [scores] and [tree.results] inherit the members of
      [Object.prototype]. The two agree when no scored key is the name
      of such a member and the absolute values of the points add up to
      less than 2^52 ([ExactFacts.calculate_exact]); a property of
      [calculate] that needs these conditions states them.
    - [DecisionTreeValidator] takes the questions and results at their
      declared type. [AnyTree] is the validator on a tree of which any
      field may be missing, where a stage can throw a [TypeError].

    Conventions of the embedding.
    - A [string] is a Rocq [string]; its characters stand for the code
      units that [===] and the default [Array.prototype.sort] compare.
    - A plain object used as a dictionary ([Record<string, V>]) is the list
      of its own enumerable properties in enumeration order, see [Js];
      [Js.inherited] tells the names it inherits.
    - [throw] is the [Thrown] constructor of [Outcome]. *)

From Stdlib Require Import List String Ascii ZArith NArith Lia Bool PeanoNat.
From Stdlib Require Import Permutation Sorted DecimalString.
Import ListNotations.
Local Open Scope string_scope.
Local Open Scope list_scope.
Local Open Scope Z_scope.

Set Implicit Arguments.

(* ===================================================================== *)
(** * JavaScript values the engine relies on                            *)
(* ===================================================================== *)

Module Js.

(** [`${n}`] for a non-negative integer (a length, a loop index). *)
Definition string_of_nat (n : nat) : string :=
  NilEmpty.string_of_uint (Nat.to_uint n).

(** [Array.prototype.join]. *)
Fixpoint join (sep : string) (xs : list string) : string :=
  match xs with
  | [] => EmptyString
  | [x] => x
  | x :: rest => (x ++ sep ++ join sep rest)%string
  end.

(** [s.trim().length === 0] for the white space of the Latin-1 range:
    tab, line feed, vertical tab, form feed, carriage return, space and
    the no-break space. *)
Definition is_space (c : ascii) : bool :=
  let n := N_of_ascii c in
  ((9 <=? n) && (n <=? 13) || (n =? 32) || (n =? 160))%N.

Fixpoint all_space (s : string) : bool :=
  match s with
  | EmptyString => true
  | String c r => is_space c && all_space r
  end.

(** Truthiness of a string: only the empty string is falsy. *)
Definition truthy (s : string) : bool :=
  match s with EmptyString => false | String _ _ => true end.

(** ** Objects as dictionaries

    [JsObj V] lists the own enumerable string-keyed properties of an
    object in the order [Object.keys] reports them: array-index keys
    first, in ascending numeric order, then the other keys in the order
    they were created. *)
Definition JsObj (V : Type) : Type := list (string * V).

Definition js_keys {V} (o : JsObj V) : list string := map fst o.
Definition js_values {V} (o : JsObj V) : list V := map snd o.
Definition js_entries {V} (o : JsObj V) : list (string * V) := o.

(** [o[k]]; [None] is [undefined]. *)
Fixpoint js_get {V} (o : JsObj V) (k : string) : option V :=
  match o with
  | [] => None
  | (k', v) :: r => if (k' =? k)%string then Some v else js_get r k
  end.

Definition js_has {V} (o : JsObj V) (k : string) : bool :=
  match js_get o k with Some _ => true | None => false end.

(** The names of the members of [Object.prototype], which an object
    literal and an object made by [JSON.parse] inherit. All of them are
    functions, except [__proto__], an accessor that answers with
    [Object.prototype] itself. *)
Definition objectPrototype : list string :=
  ["constructor"; "__defineGetter__"; "__defineSetter__"; "hasOwnProperty";
   "__lookupGetter__"; "__lookupSetter__"; "isPrototypeOf";
   "propertyIsEnumerable"; "toString"; "valueOf"; "__proto__";
   "toLocaleString"].

Definition inherited (k : string) : bool :=
  existsb (String.eqb k) objectPrototype.

(** [o[k]] is truthy, for an object whose own values are objects: [k] is
    an own property, or the name of an inherited member. *)
Definition js_truthy_at {V} (o : JsObj V) (k : string) : bool :=
  js_has o k || inherited k.

(** A canonical numeric string below 2^32 - 1 is an array index. *)
Definition digit_of (c : ascii) : option N :=
  let n := N_of_ascii c in
  if ((48 <=? n) && (n <=? 57))%N then Some (n - 48)%N else None.

Fixpoint parse_digits (acc : N) (s : string) : option N :=
  match s with
  | EmptyString => Some acc
  | String c r =>
      match digit_of c with
      | Some d => parse_digits (acc * 10 + d)%N r
      | None => None
      end
  end.

Definition arrayIndex (s : string) : option N :=
  match s with
  | EmptyString => None
  | String c r =>
      if (N_of_ascii c =? 48)%N
      then match r with EmptyString => Some 0%N | String _ _ => None end
      else match parse_digits 0 s with
           | Some n => if (n <? 4294967295)%N then Some n else None
           | None => None
           end
  end.

(** Overwriting an existing property keeps its place. *)
Fixpoint js_replace {V} (o : JsObj V) (k : string) (v : V) : JsObj V :=
  match o with
  | [] => []
  | (k', v') :: r =>
      if (k' =? k)%string then (k, v) :: r else (k', v') :: js_replace r k v
  end.

(** A new array-index key goes before the first key that is a larger
    index or no index at all. *)
Fixpoint js_insert_index {V} (o : JsObj V) (i : N) (k : string) (v : V)
  : JsObj V :=
  match o with
  | [] => [(k, v)]
  | (k', v') :: r =>
      match arrayIndex k' with
      | Some j =>
          if (i <? j)%N then (k, v) :: (k', v') :: r
          else (k', v') :: js_insert_index r i k v
      | None => (k, v) :: (k', v') :: r
      end
  end.

(** [o[k] = v]. *)
Definition js_set {V} (o : JsObj V) (k : string) (v : V) : JsObj V :=
  if js_has o k then js_replace o k v
  else match arrayIndex k with
       | Some i => js_insert_index o i k v
       | None => o ++ [(k, v)]
       end.

(** [new Map(entries)] with [get]: a later entry with the same key
    replaces the earlier one, so [get] answers with the last. *)
Definition JsMap (V : Type) : Type := list (string * V).

Fixpoint Map_get {V} (m : JsMap V) (k : string) : option V :=
  match m with
  | [] => None
  | (k', v) :: r =>
      match Map_get r k with
      | Some v' => Some v'
      | None => if (k' =? k)%string then Some v else None
      end
  end.

(** [Math.max(...xs)]; [None] is the [-Infinity] of an empty call. *)
Definition Math_max (xs : list Z) : option Z :=
  fold_left
    (fun acc x => Some match acc with None => x | Some a => Z.max a x end)
    xs None.

(** The default [Array.prototype.sort] on strings: ascending by code
    unit. Equal strings are identical, so any stable or unstable
    algorithm gives this list; insertion sort is the one written here. *)
Fixpoint sort_insert (x : string) (xs : list string) : list string :=
  match xs with
  | [] => [x]
  | y :: r => if (x <=? y)%string then x :: y :: r else y :: sort_insert x r
  end.

Fixpoint sort (xs : list string) : list string :=
  match xs with
  | [] => []
  | x :: r => sort_insert x (sort r)
  end.

End Js.
Import Js.

(* ===================================================================== *)
(** * The data model ([types/index.ts])                                  *)
(* ===================================================================== *)

(** [interface Option]; the fields [id] and [label] carry a prefix since
    three records of the source share the name [id]. *)
Record Option : Type := {
  o_id : string;
  o_label : string;
  nextQuestionId : option string;   (* None = null = end of tree *)
  scores : JsObj Z
}.

Record Question : Type := {
  q_id : string;
  q_text : string;
  options : list Option
}.

Record Result : Type := {
  name : string;
  reasoning : string;
  tradeoffs : list string;
  whenToReconsider : string;
  bestFor : string
}.

Record DecisionTree : Type := {
  t_id : string;
  t_title : string;
  t_description : string;
  t_version : string;
  questions : list Question;
  results : JsObj Result
}.

Record Answer : Type := {
  questionId : string;
  optionId : string
}.

Inductive Confidence : Type := high | medium | low.

(** [interface RecommendationResult]; [scores] and [answers] carry a
    prefix to keep them apart from the field of [Option] and from the
    argument of [calculate]. *)
Record RecommendationResult : Type := {
  recommendation : string;
  r_scores : JsObj Z;
  result : Result;
  r_answers : list Answer;
  tieBreaker : option string;
  confidence : Confidence
}.

Inductive ErrorCode : Type :=
| TREE_NOT_FOUND | TREE_INVALID
| QUESTION_NOT_FOUND | INVALID_QUESTION_ID
| OPTION_NOT_FOUND | INVALID_OPTION
| MISSING_ANSWERS | INVALID_ANSWER_PATH
| SAVE_FAILED | SLUG_COLLISION
| NO_RECOMMENDATION | RESULT_NOT_FOUND
| VALIDATION_ERROR | INTERNAL_ERROR | RATE_LIMIT_EXCEEDED.

(** A thrown [Error]: its message and the [code] property that
    [createError] sets; a plain [new Error(msg)] has none. *)
Record JsError : Type := {
  message : string;
  code : option ErrorCode
}.

Inductive Outcome (A : Type) : Type :=
| Returned (a : A)
| Thrown (e : JsError).
Arguments Returned {A} a.
Arguments Thrown {A} e.

Definition bind {A B} (c : Outcome A) (k : A -> Outcome B) : Outcome B :=
  match c with
  | Returned a => k a
  | Thrown e => Thrown e
  end.

Notation "x <- c ;; k" := (bind c (fun x => k))
  (at level 61, c at next level, right associativity).

(* ===================================================================== *)
(** * [class RecommendationEngine]                                       *)
(* ===================================================================== *)

(** The engine with integer scores and score objects read by their own
    keys: what the code does on trees whose scored keys are no names of
    members of [Object.prototype] and whose points are small. [Exact]
    below is the engine on every tree; the path validation is the same
    in both. *)

Module RecommendationEngine.

(** [createError(code, message)]. *)
Definition createError (c : ErrorCode) (msg : string) : JsError :=
  {| message := msg; code := Some c |}.

(** [new Error(message)]. *)
Definition plainError (msg : string) : JsError :=
  {| message := msg; code := None |}.

(** [new Map(tree.questions.map(q => [q.id, q]))]. *)
Definition questionMap (tree : DecisionTree) : JsMap Question :=
  map (fun q => (q_id q, q)) (questions tree).

(** [tree.questions[0]?.id || null]: no question, or an entry question
    whose id is the empty string, leaves [null]. *)
Definition entryQuestionId (tree : DecisionTree) : option string :=
  match questions tree with
  | [] => None
  | q :: _ => if truthy (q_id q) then Some (q_id q) else None
  end.

(** [`${expectedQuestionId}`] of a [string | null]. *)
Definition show_expected (e : option string) : string :=
  match e with Some s => s | None => "null" end.

(** [answer.questionId !== expectedQuestionId], negated. *)
Definition is_expected (qid : string) (e : option string) : bool :=
  match e with Some s => (qid =? s)%string | None => false end.

(** [question.options.find(opt => opt.id === optionId)]. *)
Definition findOption (question : Question) (oid : string) : option Option :=
  find (fun opt => (o_id opt =? oid)%string) (options question).

(** The [for] loop of [validateAnswerPath], from position [i] on; it
    returns the value [expectedQuestionId] holds when the loop is left,
    by exhaustion or by [break]. *)
Fixpoint validateAnswerPath_loop (qm : JsMap Question)
    (expectedQuestionId : option string) (i : nat) (answers : list Answer)
  : Outcome (option string) :=
  match answers with
  | [] => Returned expectedQuestionId
  | answer :: rest =>
      if negb (is_expected (questionId answer) expectedQuestionId) then
        Thrown (createError INVALID_ANSWER_PATH
          ("Expected question " ++ show_expected expectedQuestionId
           ++ " but got " ++ questionId answer
           ++ " at position " ++ string_of_nat i)%string)
      else
        match Map_get qm (questionId answer) with
        | None =>
            Thrown (createError QUESTION_NOT_FOUND
              ("Question " ++ questionId answer ++ " not found in tree")%string)
        | Some question =>
            match findOption question (optionId answer) with
            | None =>
                Thrown (createError OPTION_NOT_FOUND
                  ("Option " ++ optionId answer ++ " not found in question "
                   ++ questionId answer)%string)
            | Some option =>
                match nextQuestionId option with
                | None => Returned None
                | Some next =>
                    validateAnswerPath_loop qm (Some next) (S i) rest
                end
            end
        end
  end.

Definition validateAnswerPath (tree : DecisionTree) (answers : list Answer)
  : Outcome unit :=
  if Nat.eqb (List.length answers) 0 then
    Thrown (createError MISSING_ANSWERS "No answers provided")
  else
    expectedQuestionId <-
      validateAnswerPath_loop (questionMap tree) (entryQuestionId tree)
        0 answers ;;
    match expectedQuestionId with
    | Some _ =>
        Thrown (createError INVALID_ANSWER_PATH
          "Answer path did not reach a valid end node")
    | None => Returned tt
    end.

(** [scores[tech] = (scores[tech] || 0) + points], for a key that is
    no inherited name and a sum that is exact; [Exact.addPoints] has
    every case. *)
Definition addPoints (acc : JsObj Z) (entry : string * Z) : JsObj Z :=
  let (tech, points) := entry in
  js_set acc tech
    (match js_get acc tech with Some s => s | None => 0 end + points).

(** The body of the [for (const answer of answers)] loop. *)
Definition scoreAnswer (qm : JsMap Question) (acc : JsObj Z)
    (answer : Answer) : JsObj Z :=
  match Map_get qm (questionId answer) with
  | None => acc
  | Some question =>
      match findOption question (optionId answer) with
      | None => acc
      | Some option => fold_left addPoints (js_entries (scores option)) acc
      end
  end.

Definition calculateScores (tree : DecisionTree) (answers : list Answer)
  : JsObj Z :=
  fold_left (scoreAnswer (questionMap tree)) answers [].

(** [scores[tech] === maxScore]: [undefined] and [-Infinity] equal no
    score. *)
Definition is_max (v : option Z) (maxScore : option Z) : bool :=
  match v, maxScore with
  | Some a, Some b => a =? b
  | _, _ => false
  end.

(** [tree.results[tech]] as a condition, for a key that is no inherited
    name. *)
Definition has_result (tree : DecisionTree) (tech : string) : bool :=
  js_has (results tree) tech.

Definition tie_explanation (tiedTechnologies : list string) : string :=
  ("Tied with " ++ string_of_nat (List.length tiedTechnologies) ++ " options ("
   ++ join ", " tiedTechnologies ++ "). "
   ++ "Consider reviewing your requirements - both may be equally suitable.")%string.

(** [breakTie]; [alphabetical[0]] of an empty array would be
    [undefined], which every later use turns into the string written
    here ([winners_nonempty] shows the array is never empty). *)
Definition breakTie (tiedTechnologies : list string) (_scores : JsObj Z)
    (tree : DecisionTree) : string * string :=
  let withResults := filter (has_result tree) tiedTechnologies in
  match withResults with
  | [w] => (w, "Selected based on available documentation and guidance")
  | _ =>
      let alphabetical := Js.sort tiedTechnologies in
      (hd "undefined" alphabetical, tie_explanation tiedTechnologies)
  end.

Definition winnersOf (scores : JsObj Z) : list string :=
  let maxScore := Math_max (js_values scores) in
  filter (fun tech => is_max (js_get scores tech) maxScore) (js_keys scores).

Definition determineWinner (scores : JsObj Z) (tree : DecisionTree)
  : Outcome (string * option string) :=
  let technologies := js_keys scores in
  if Nat.eqb (List.length technologies) 0 then
    Thrown (createError NO_RECOMMENDATION "No technologies scored any points")
  else
    let winners := winnersOf scores in
    match winners with
    | [w] => Returned (w, None)
    | _ =>
        let (winner, explanation) := breakTie winners scores tree in
        Returned (winner, Some explanation)
    end.

(** [calculateConfidence]. A [winner] that is no key of [scores] makes
    [winnerScore] undefined and [difference] NaN, which fails both
    threshold tests; [Math.max] always receives the trailing [0]. *)
Definition calculateConfidence (scores : JsObj Z) (winner : string)
  : Confidence :=
  let scoreValues := js_values scores in
  match js_get scores winner with
  | None => low
  | Some winnerScore =>
      let otherScores :=
        filter (fun s =>
                  negb (s =? winnerScore)
                  || Nat.ltb 1 (List.length (filter (fun sv => sv =? winnerScore)
                                               scoreValues)))
               scoreValues in
      match Math_max (otherScores ++ [0]) with
      | None => high
      | Some secondHighest =>
          let difference := winnerScore - secondHighest in
          if 5 <=? difference then high
          else if 2 <=? difference then medium
          else low
      end
  end.

Definition calculate (tree : DecisionTree) (answers : list Answer)
  : Outcome RecommendationResult :=
  _checked <- validateAnswerPath tree answers ;;
  let scores := calculateScores tree answers in
  wt <- determineWinner scores tree ;;
  let (winner, tieBreaker) := wt in
  let confidence := calculateConfidence scores winner in
  match js_get (results tree) winner with
  | None =>
      Thrown (plainError ("Result not found for technology: " ++ winner)%string)
  | Some result =>
      Returned {| recommendation := winner;
                  r_scores := scores;
                  result := result;
                  r_answers := answers;
                  tieBreaker := tieBreaker;
                  confidence := confidence |}
  end.

End RecommendationEngine.

(** ** The tree of [tests/services/RecommendationEngine.test.ts] *)

Module TestData.

Definition mkOption (i : string) (next : option string) (sc : JsObj Z) : Option :=
  {| o_id := i; o_label := "Option"; nextQuestionId := next; scores := sc |}.

Definition mkQuestion (i : string) (os : list Option) : Question :=
  {| q_id := i; q_text := "Question?"; options := os |}.

Definition mkResult (n : string) : Result :=
  {| name := n; reasoning := "reasoning"; tradeoffs := ["Tradeoff"];
     whenToReconsider := "When X happens"; bestFor := "Use case" |}.

Definition mkTree (qs : list Question) (rs : JsObj Result) : DecisionTree :=
  {| t_id := "test-tree"; t_title := "Test Tree";
     t_description := "Test description"; t_version := "1.0.0";
     questions := qs; results := rs |}.

Definition mkAnswer (q o : string) : Answer :=
  {| questionId := q; optionId := o |}.

Definition mockResults : JsObj Result :=
  [("tech1", mkResult "Technology 1"); ("tech2", mkResult "Technology 2")].

Definition mockTree : DecisionTree :=
  mkTree
    [ mkQuestion "q1"
        [ mkOption "opt1" (Some "q2") [("tech1", 3); ("tech2", 1)];
          mkOption "opt2" None [("tech1", 1); ("tech2", 3)] ];
      mkQuestion "q2"
        [ mkOption "opt3" None [("tech1", 2); ("tech2", 1)] ] ]
    mockResults.

Definition singleOptionTree (sc : JsObj Z) (rs : JsObj Result) : DecisionTree :=
  mkTree [ mkQuestion "q1" [ mkOption "opt1" None sc ] ] rs.

End TestData.

(* ===================================================================== *)
(** * [class DecisionTreeValidator]                                      *)
(* ===================================================================== *)

(** The validator pushes onto two arrays, [errors] and [warnings], that
    [validate] creates and hands to every stage. A stage is a computation
    in the state monad [V] over the two arrays ([Report]); the local
    [Set]s of a stage are threaded through its loops.

    [validate] takes [tree: any]. [RawTree] keeps what
    [validateBasicStructure] can find wrong with it: [None] for the tree
    is [null] or [undefined], [None] for [id] or [title] a missing or
    non-string value, for [questions] a value that is no array, for
    [results] a missing value or one that is no object. The later stages
    are declared on [DecisionTree], and the elements of [questions] and
    [results] are taken at that type: an id, text, label or name that is
    missing is the empty string, and a score is a number. What the
    stages do with a tree of another shape is the matter of [AnyTree]
    below. *)

Module DecisionTreeValidator.

Inductive IssueType : Type := error | warning.

(** [interface ValidationError] and [interface ValidationWarning], which
    differ in the [type] tag only; [type], [code] and [message] carry a
    prefix ([code] and [message] are the fields of [JsError]). *)
Record ValidationIssue : Type := {
  issue_type : IssueType;
  issue_code : string;
  issue_message : string;
  location : option string
}.

Definition ValidationError : Type := ValidationIssue.
Definition ValidationWarning : Type := ValidationIssue.

Record ValidationResult : Type := {
  isValid : bool;
  errors : list ValidationError;
  warnings : list ValidationWarning
}.

Record RawTree : Type := {
  raw_id : option string;
  raw_title : option string;
  raw_description : string;
  raw_version : string;
  raw_questions : option (list Question);
  raw_results : option (JsObj Result)
}.

(** The two arrays. *)
Record Report : Type := {
  errs : list ValidationError;
  warns : list ValidationWarning
}.

Definition empty : Report := {| errs := []; warns := [] |}.

Definition V (A : Type) : Type := Report -> A * Report.

Definition ret {A} (a : A) : V A := fun r => (a, r).

Definition bindV {A B} (m : V A) (k : A -> V B) : V B :=
  fun r => let (a, r') := m r in k a r'.

Notation "x <~ m ;; k" := (bindV m (fun x => k))
  (at level 61, m at next level, right associativity).
Notation "m ;;> k" := (bindV m (fun _ => k))
  (at level 61, right associativity).

(** [errors.push({type: 'error', code, message, location})]. *)
Definition pushError (c msg : string) (loc : option string) : V unit :=
  fun r =>
    (tt, {| errs := errs r ++ [{| issue_type := error; issue_code := c;
                                  issue_message := msg; location := loc |}];
            warns := warns r |}).

Definition pushWarning (c msg : string) (loc : option string) : V unit :=
  fun r =>
    (tt, {| errs := errs r;
            warns := warns r ++ [{| issue_type := warning; issue_code := c;
                                    issue_message := msg; location := loc |}] |}).

(** [if (c) { m }]. *)
Definition when (c : bool) (m : V unit) : V unit := if c then m else ret tt.

(** [xs.forEach((x, index) => ...)], from [index] on, with the local
    variables the callback updates as [s]. *)
Fixpoint forEach {A St} (f : St -> nat -> A -> V St) (xs : list A)
    (index : nat) (s : St) : V St :=
  match xs with
  | [] => ret s
  | x :: rest => s' <~ f s index x ;; forEach f rest (S index) s'
  end.

(** A [Set<string>]. *)
Definition set_has (s : list string) (x : string) : bool :=
  existsb (String.eqb x) s.

Definition set_add (s : list string) (x : string) : list string :=
  if set_has s x then s else s ++ [x].

(** The double-quote character of the messages. *)
Definition dq : string := String (ascii_of_nat 34) EmptyString.

(** ** [validateBasicStructure] *)

Definition validateBasicStructure (tree : option RawTree) : V unit :=
  match tree with
  | None => pushError "TREE_NULL" "Tree is null or undefined" None
  | Some tree =>
      when (negb match raw_id tree with Some s => truthy s | None => false end)
           (pushError "MISSING_TREE_ID" "Tree must have a valid id" None) ;;>
      when (negb match raw_title tree with Some s => truthy s | None => false end)
           (pushError "MISSING_TREE_TITLE" "Tree must have a title" None) ;;>
      match raw_questions tree with
      | None =>
          pushError "INVALID_QUESTIONS" "Tree must have a questions array" None
      | Some qs =>
          when (Nat.eqb (List.length qs) 0)
               (pushError "EMPTY_TREE" "Tree must have at least one question"
                          None) ;;>
          when (match raw_results tree with Some _ => false | None => true end)
               (pushError "INVALID_RESULTS" "Tree must have a results object"
                          None)
      end
  end.

(** The tree the later stages see once the basic structure is accepted. *)
Definition asDecisionTree (tree : option RawTree) : DecisionTree :=
  match tree with
  | Some tree =>
      {| t_id := match raw_id tree with Some s => s | None => EmptyString end;
         t_title := match raw_title tree with Some s => s | None => EmptyString end;
         t_description := raw_description tree;
         t_version := raw_version tree;
         questions := match raw_questions tree with Some qs => qs | None => [] end;
         results := match raw_results tree with Some rs => rs | None => [] end |}
  | None =>
      {| t_id := EmptyString; t_title := EmptyString;
         t_description := EmptyString; t_version := EmptyString;
         questions := []; results := [] |}
  end.

(** ** [validateOptions]

    The tests [!option.scores], [typeof option.scores !== 'object'] and
    [typeof score !== 'number'] cannot hold for an [Option]; their
    branches (MISSING_SCORES, INVALID_SCORE) push nothing here, and are
    part of [AnyTree.validateOptions]. *)
Definition validateOptions (options : list Option) (questionLocation : string)
  : V unit :=
  forEach
    (fun (optionIds : list string) index option =>
       let location :=
         (questionLocation ++ ".options[" ++ string_of_nat index ++ "]")%string in
       optionIds' <~
         (if negb (truthy (o_id option)) then
            pushError "MISSING_OPTION_ID" "Option missing id" (Some location) ;;>
            ret optionIds
          else if set_has optionIds (o_id option) then
            pushError "DUPLICATE_OPTION_ID"
                      ("Duplicate option id: " ++ o_id option)%string
                      (Some location) ;;>
            ret optionIds
          else ret (set_add optionIds (o_id option))) ;;
       when (negb (truthy (o_label option)) || all_space (o_label option))
            (pushError "MISSING_OPTION_LABEL" "Option missing label"
                       (Some location)) ;;>
       when (Nat.eqb (List.length (js_keys (scores option))) 0)
            (pushWarning "EMPTY_SCORES" "Option has no scores defined"
                         (Some location)) ;;>
       ret optionIds')
    options 0%nat [] ;;>
  ret tt.

(** ** [validateQuestions] *)
Definition validateQuestions (tree : DecisionTree) : V unit :=
  forEach
    (fun (questionIds : list string) index question =>
       let location := ("questions[" ++ string_of_nat index ++ "]")%string in
       questionIds' <~
         (if negb (truthy (q_id question)) then
            pushError "MISSING_QUESTION_ID" "Question missing id"
                      (Some location) ;;>
            ret questionIds
          else if set_has questionIds (q_id question) then
            pushError "DUPLICATE_QUESTION_ID"
                      ("Duplicate question id: " ++ q_id question)%string
                      (Some location) ;;>
            ret questionIds
          else ret (set_add questionIds (q_id question))) ;;
       when (negb (truthy (q_text question)) || all_space (q_text question))
            (pushError "MISSING_QUESTION_TEXT" "Question missing text"
                       (Some location)) ;;>
       (if Nat.eqb (List.length (options question)) 0 then
          pushError "MISSING_OPTIONS" "Question must have at least one option"
                    (Some location)
        else validateOptions (options question) location) ;;>
       ret questionIds')
    (questions tree) 0%nat [] ;;>
  ret tt.

(** ** [validateReferences] *)
Definition validateReferences (tree : DecisionTree) : V unit :=
  let questionIds := map q_id (questions tree) in
  forEach
    (fun (_ : unit) qIndex question =>
       forEach
         (fun (_ : unit) oIndex option =>
            let location :=
              ("questions[" ++ string_of_nat qIndex ++ "].options["
               ++ string_of_nat oIndex ++ "]")%string in
            match nextQuestionId option with
            | Some next =>
                when (negb (set_has questionIds next))
                     (pushError "INVALID_REFERENCE"
                        ("nextQuestionId " ++ dq ++ next ++ dq
                         ++ " does not exist")%string
                        (Some location)) ;;>
                when (next =? q_id question)%string
                     (pushError "CIRCULAR_REFERENCE"
                        "Option references its own question (infinite loop)"
                        (Some location))
            | None => ret tt
            end ;;>
            forEach
              (fun (_ : unit) _ tech =>
                 when (negb (js_truthy_at (results tree) tech))
                      (pushError "MISSING_RESULT"
                         ("Score references technology " ++ dq ++ tech ++ dq
                          ++ " but no result exists")%string
                         (Some (location ++ ".scores." ++ tech)%string)))
              (js_keys (scores option)) 0%nat tt)
         (options question) 0%nat tt)
    (questions tree) 0%nat tt.

(** ** [validateReachability] *)

(** [for (const x of xs)] around a body that may run out of fuel. *)
Fixpoint forOf {A St} (f : St -> A -> V (option St)) (xs : list A) (s : St)
  : V (option St) :=
  match xs with
  | [] => ret (Some s)
  | x :: rest =>
      o <~ f s x ;;
      match o with
      | Some s' => forOf f rest s'
      | None => ret None
      end
  end.

(** The closure [dfs]; the pair holds the sets [reachable] and [visited]
    it updates. [None] is returned when [fuel] nested calls were not
    enough ([dfs_terminates] shows that the fuel [validateReachability]
    gives always is). *)
Fixpoint dfs (fuel : nat) (tree : DecisionTree) (questionId : string)
    (path : list string) (sets : list string * list string)
  : V (option (list string * list string)) :=
  match fuel with
  | O => ret None
  | S fuel' =>
      let (reachable, visited) := sets in
      if set_has visited questionId then
        when (existsb (String.eqb questionId) path)
             (pushError "CIRCULAR_REFERENCE"
                ("Circular reference detected: "
                 ++ join " -> " (path ++ [questionId]))%string
                None) ;;>
        ret (Some sets)
      else
        let sets' := (set_add reachable questionId, set_add visited questionId) in
        match find (fun q => (q_id q =? questionId)%string) (questions tree) with
        | None => ret (Some sets')
        | Some question =>
            forOf
              (fun sets option =>
                 match nextQuestionId option with
                 | Some next =>
                     if truthy next
                     then dfs fuel' tree next (path ++ [questionId]) sets
                     else ret (Some sets)
                 | None => ret (Some sets)
                 end)
              (options question) sets'
        end
  end.

(** Every id [dfs] can be called with: the entry question's and the
    targets of the options. *)
Definition targets (tree : DecisionTree) : list string :=
  flat_map
    (fun q =>
       flat_map
         (fun o => match nextQuestionId o with Some n => [n] | None => [] end)
         (options q))
    (questions tree).

Definition dfs_fuel (tree : DecisionTree) (entry : string) : nat :=
  S (List.length (entry :: targets tree)).

Definition validateReachability (tree : DecisionTree) : V unit :=
  match questions tree with
  | [] => ret tt
  | first :: _ =>
      o <~ dfs (dfs_fuel tree (q_id first)) tree (q_id first) [] ([], []) ;;
      match o with
      | None => ret tt
      | Some (reachable, _) =>
          let allQuestionIds := map q_id (questions tree) in
          let unreachable :=
            filter (fun id => negb (set_has reachable id)) allQuestionIds in
          forEach
            (fun (_ : unit) _ id =>
               pushWarning "UNREACHABLE_QUESTION"
                 ("Question " ++ dq ++ id ++ dq
                  ++ " is not reachable from the starting question")%string
                 None)
            unreachable 0%nat tt
      end
  end.

(** ** [validateResults] *)
Definition validateResults (tree : DecisionTree) : V unit :=
  let resultKeys := js_keys (results tree) in
  if Nat.eqb (List.length resultKeys) 0 then
    pushError "NO_RESULTS" "Tree must have at least one result definition" None
  else
    forEach
      (fun (_ : unit) _ key =>
         match js_get (results tree) key with
         | None => ret tt
         | Some result =>
             let location := Some ("results." ++ key)%string in
             when (negb (truthy (name result)))
                  (pushError "MISSING_RESULT_NAME" "Result missing name"
                             location) ;;>
             when (negb (truthy (reasoning result)))
                  (pushWarning "MISSING_REASONING" "Result missing reasoning"
                               location) ;;>
             when (Nat.eqb (List.length (tradeoffs result)) 0)
                  (pushWarning "MISSING_TRADEOFFS" "Result missing tradeoffs"
                               location) ;;>
             when (negb (truthy (whenToReconsider result)))
                  (pushWarning "MISSING_RECONSIDER"
                               "Result missing whenToReconsider" location)
         end)
      resultKeys 0%nat tt.

Section ScoreBalance.

(** [validateScoreBalance] divides and compares doubles; what it decides
    is left open here. It only ever pushes warnings: [scoreImbalances]
    stands for the technologies it warns about, in order, each with the
    message it builds. *)
Variable scoreImbalances : DecisionTree -> list string.

Definition validateScoreBalance (tree : DecisionTree) : V unit :=
  forEach
    (fun (_ : unit) _ msg => pushWarning "SCORE_IMBALANCE" msg None)
    (scoreImbalances tree) 0%nat tt.

(** ** [validate] *)
Definition validate (tree : option RawTree) : ValidationResult :=
  let (_, r) := validateBasicStructure tree empty in
  if Nat.ltb 0 (List.length (errs r)) then
    {| isValid := false; errors := errs r; warnings := warns r |}
  else
    let tree := asDecisionTree tree in
    let (_, r) :=
      (validateQuestions tree ;;>
       validateReferences tree ;;>
       validateReachability tree ;;>
       validateResults tree ;;>
       validateScoreBalance tree) r in
    {| isValid := Nat.eqb (List.length (errs r)) 0;
       errors := errs r;
       warnings := warns r |}.

End ScoreBalance.

(** What a stage pushes when it starts from empty arrays. *)
Definition errors_of {A} (m : V A) : list ValidationError := errs (snd (m empty)).
Definition warnings_of {A} (m : V A) : list ValidationWarning :=
  warns (snd (m empty)).

(** Every structural problem some check of the validator reports for a
    tree: the errors of the basic-structure stage and of the four later
    stages that push errors. *)
Definition structural_problems (tree : option RawTree) : list ValidationError :=
  errors_of (validateBasicStructure tree)
  ++ errors_of (validateQuestions (asDecisionTree tree))
  ++ errors_of (validateReferences (asDecisionTree tree))
  ++ errors_of (validateReachability (asDecisionTree tree))
  ++ errors_of (validateResults (asDecisionTree tree)).

End DecisionTreeValidator.

(* ===================================================================== *)
(** * Vocabulary of the specification                                    *)
(* ===================================================================== *)

Module Spec.
Import RecommendationEngine TestData.

(** [Steps tree e answers os e']: starting with [e] as the expected
    question, every answer of [answers] in order names the expected
    question and an existing option of it; [os] are the options selected
    and [e'] is where the last of them leads ([e] itself when there is
    no answer). After a terminal option nothing is expected, so no
    answer can follow it. *)
Inductive Steps (tree : DecisionTree)
  : option string -> list Answer -> list Option -> option string -> Prop :=
| steps_done e : Steps tree e [] [] e
| steps_answer e answer question option rest os e' :
    e = Some (questionId answer) ->
    Map_get (questionMap tree) (questionId answer) = Some question ->
    findOption question (optionId answer) = Some option ->
    Steps tree (nextQuestionId option) rest os e' ->
    Steps tree e (answer :: rest) (option :: os) e'.

(** A single legal linear walk from the entry question to a terminal
    option, with no trailing answers. *)
Definition LegalWalk (tree : DecisionTree) (answers : list Answer)
    (os : list Option) : Prop :=
  answers <> [] /\ Steps tree (entryQuestionId tree) answers os None.

(** A walk whose answers run out while a question is still expected. *)
Definition OpenWalk (tree : DecisionTree) (answers : list Answer)
    (os : list Option) (next : string) : Prop :=
  answers <> [] /\ Steps tree (entryQuestionId tree) answers os (Some next).

(** The contributions of the selected options, in selection order. *)
Definition contributions (os : list Option) : list (string * Z) :=
  flat_map (fun o => js_entries (scores o)) os.

(** Some selected option mentions [tech]. *)
Definition mentioned (tech : string) (es : list (string * Z)) : bool :=
  existsb (fun e => (fst e =? tech)%string) es.

(** The sum of the points [es] gives to [tech]. *)
Fixpoint points_for (tech : string) (es : list (string * Z)) : Z :=
  match es with
  | [] => 0
  | (k, p) :: r => (if (k =? tech)%string then p else 0) + points_for tech r
  end.

(** [m] is the largest value of the mapping. *)
Definition is_maximum (scores : JsObj Z) (m : Z) : Prop :=
  In m (js_values scores) /\ forall v, In v (js_values scores) -> v <= m.

(** The keys holding the largest value. *)
Definition tied_at (scores : JsObj Z) (m : Z) : list string :=
  filter (fun k => is_max (js_get scores k) (Some m)) (js_keys scores).

(** [s] occurs in [t] as a substring. *)
Definition occurs_in (s t : string) : Prop :=
  exists pre post, t = (pre ++ s ++ post)%string.

(** The classification of a score gap. *)
Definition classify (difference : Z) : Confidence :=
  if 5 <=? difference then high
  else if 2 <=? difference then medium
  else low.

(** The values that compete with the winner, as the specification words
    them: every value different from [winnerScore], and [winnerScore]
    itself when at least two entries hold it. *)
Definition competitors (scores : JsObj Z) (winnerScore : Z) : list Z :=
  filter (fun s =>
            negb (s =? winnerScore)
            || Nat.leb 2 (List.length (filter (fun sv => sv =? winnerScore)
                                              (js_values scores))))
         (js_values scores).

(** The second highest score as the specification words it: the
    maximum of the competitors, and 0 only when there is none. *)
Definition claimed_secondHighest (scores : JsObj Z) (winnerScore : Z) : Z :=
  match Math_max (competitors scores winnerScore) with
  | Some m => m
  | None => 0
  end.

Definition claimed_confidence (scores : JsObj Z) (winner : string)
  : option Confidence :=
  match js_get scores winner with
  | Some winnerScore =>
      Some (classify (winnerScore - claimed_secondHighest scores winnerScore))
  | None => None
  end.

(** The order of the default sort: ascending by code unit. *)
Definition code_unit_le (a b : string) : Prop := (a <=? b)%string = true.

(** [v || 0] for a score that may be [undefined]. *)
Definition or_zero (v : option Z) : Z :=
  match v with Some s => s | None => 0 end.

(** The untyped error of [calculate]. *)
Definition result_not_found (winner : string) : JsError :=
  plainError ("Result not found for technology: " ++ winner)%string.

(** The error of an empty score mapping. *)
Definition no_recommendation : JsError :=
  createError NO_RECOMMENDATION "No technologies scored any points".

(** A tree with one question whose only option is terminal and scores
    nothing. *)
Definition silentTree : DecisionTree := singleOptionTree [] mockResults.

(** The explanation of the documentation-completeness strategy. *)
Definition documentation_note : string :=
  "Selected based on available documentation and guidance".

(** A tree whose only option scores [sc] and whose results lack every
    scored key. *)
Definition undocumentedTree (sc : JsObj Z) : DecisionTree :=
  singleOptionTree sc [("other", mkResult "Other")].

End Spec.

(** ** Vocabulary for the validator *)

Module ValidatorSpec.
Import DecisionTreeValidator.

(** The arrays [r] after everything in [d] was pushed onto them. *)
Definition pushed (r d : Report) : Report :=
  {| errs := errs r ++ errs d; warns := warns r ++ warns d |}.

(** [m] reads neither array: its value does not depend on them and all it
    does to them is push what it pushes onto empty ones. *)
Definition Appends {A} (m : V A) : Prop :=
  forall r, m r = (fst (m empty), pushed r (snd (m empty))).

(** The ids of [ids] the search has not visited yet. *)
Definition unvisited (ids visited : list string) : list string :=
  filter (fun x => negb (set_has visited x)) ids.

(** [m] leaves the warnings alone. *)
Definition NoWarning {A} (m : V A) : Prop :=
  forall r, warns (snd (m r)) = warns r.

(** [m] leaves the errors alone. *)
Definition NoError {A} (m : V A) : Prop :=
  forall r, errs (snd (m r)) = errs r.

(** The stages [validate] runs once the basic structure is accepted. *)
Definition laterStages (scoreImbalances : DecisionTree -> list string)
    (tree : DecisionTree) : V unit :=
  validateQuestions tree ;;>
  validateReferences tree ;;>
  validateReachability tree ;;>
  validateResults tree ;;>
  validateScoreBalance scoreImbalances tree.

(** A tree without an id whose only question has a blank text and no
    option, and whose results are empty. *)
Definition anonymousTree : RawTree :=
  {| raw_id := None; raw_title := Some "Databases";
     raw_description := "Choosing a database"; raw_version := "1.0.0";
     raw_questions :=
       Some [{| q_id := "q1"; q_text := " "; options := [] |}];
     raw_results := Some [] |}.

(** The error the question stage reports for a blank text. *)
Definition missing_question_text : ValidationError :=
  {| issue_type := error; issue_code := "MISSING_QUESTION_TEXT";
     issue_message := "Question missing text";
     location := Some "questions[0]" |}.

End ValidatorSpec.

(** ** Vocabulary for further properties of the engine *)

Module EngineSpec.
Import RecommendationEngine.

(** The score entries the loop of [calculateScores] adds for one answer:
    those of the option it names, none when the question or the option
    is not found. *)
Definition selected (tree : DecisionTree) (answer : Answer)
  : list (string * Z) :=
  match Map_get (questionMap tree) (questionId answer) with
  | Some question =>
      match findOption question (optionId answer) with
      | Some option => js_entries (scores option)
      | None => []
      end
  | None => []
  end.

(** Every entry added for a list of answers, in order. *)
Definition all_contributions (tree : DecisionTree) (answers : list Answer)
  : list (string * Z) :=
  flat_map (selected tree) answers.

(** The codes of the errors [createError] is called with in the engine. *)
Definition engine_codes : list (option ErrorCode) :=
  [Some MISSING_ANSWERS; Some INVALID_ANSWER_PATH; Some QUESTION_NOT_FOUND;
   Some OPTION_NOT_FOUND; Some NO_RECOMMENDATION].

End EngineSpec.

(* ===================================================================== *)
(** * The engine on every tree                                           *)
(* ===================================================================== *)

(** [RecommendationEngine] above reads a score object by its own keys and
    adds scores as integers. That is what the code does as long as no
    scored key is the name of a member of [Object.prototype] and the sums
    stay exact in a double ([ExactFacts.calculate_exact]). [Exact] lifts
    both conditions: a score is an integer-valued double, [Infinity] or
    [NaN]; [scores] is the object literal [{}], which inherits from
    [Object.prototype], and so is [tree.results]. A score written [z] in
    a tree stands for the double nearest to [z]. *)

Module Exact.
Import RecommendationEngine.

(** ** Integer-valued doubles *)

Inductive number : Type :=
| Fin (z : Z)
| PosInf
| NegInf
| NaN.

(** The double nearest to the integer [z], ties to the even
    significand: [z] itself up to 53 bits, [Infinity] from
    [2^1024 - 2^970] on. *)
Definition round64 (z : Z) : number :=
  let a := Z.abs z in
  let k := Z.log2 a - 52 in
  if k <=? 0 then Fin z
  else
    let q := a / 2 ^ k in
    let r := a mod 2 ^ k in
    let half := 2 ^ (k - 1) in
    let q' :=
      if r <? half then q
      else if half <? r then q + 1
      else if Z.even q then q else q + 1 in
    let m := q' * 2 ^ k in
    if 2 ^ 1024 <=? m then (if z <? 0 then NegInf else PosInf)
    else Fin (Z.sgn z * m).

(** [a + b]: the exact sum, rounded once. *)
Definition add (a b : number) : number :=
  match a, b with
  | NaN, _ | _, NaN => NaN
  | PosInf, NegInf | NegInf, PosInf => NaN
  | PosInf, _ | _, PosInf => PosInf
  | NegInf, _ | _, NegInf => NegInf
  | Fin x, Fin y => round64 (x + y)
  end.

Definition neg (a : number) : number :=
  match a with
  | Fin x => Fin (- x)
  | PosInf => NegInf
  | NegInf => PosInf
  | NaN => NaN
  end.

(** [a - b]. *)
Definition sub (a b : number) : number := add a (neg b).

(** [a === b] on numbers: [NaN] equals nothing. *)
Definition eqb (a b : number) : bool :=
  match a, b with
  | Fin x, Fin y => x =? y
  | PosInf, PosInf | NegInf, NegInf => true
  | _, _ => false
  end.

(** [a >= b]: false when either is [NaN]. *)
Definition geb (a b : number) : bool :=
  match a, b with
  | NaN, _ | _, NaN => false
  | PosInf, _ => true
  | _, NegInf => true
  | NegInf, _ => false
  | _, PosInf => false
  | Fin x, Fin y => y <=? x
  end.

(** A number in a condition: [0] and [NaN] are falsy. *)
Definition falsy (a : number) : bool :=
  match a with
  | Fin 0 | NaN => true
  | _ => false
  end.

(** [Math.max(...xs)]: [-Infinity] for no argument, [NaN] as soon as one
    argument is [NaN]. *)
Definition max2 (a b : number) : number :=
  match a, b with
  | NaN, _ | _, NaN => NaN
  | _, _ => if geb a b then a else b
  end.

Definition Math_max (xs : list number) : number := fold_left max2 xs NegInf.

(** ** What a score object can hold *)

(** The text of an inherited member when it is made a string: the source
    text of a native function as V8 prints it, and [[object Object]] for
    [Object.prototype], which [__proto__] answers with. *)
Definition memberText (member : string) : string :=
  if (member =? "__proto__")%string then "[object Object]"
  else
    ("function "
     ++ (if (member =? "constructor")%string then "Object" else member)
     ++ "() { [native code] }")%string.

(** A value of [scores]: a number, or the string [memberText member ++
    suffix] that adding to an inherited member leaves. *)
Inductive ScoreValue : Type :=
| Num (n : number)
| Text (member : string) (suffix : string).

(** [Number(v)]: a text that starts like [memberText] is no numeral. *)
Definition toNumber (v : ScoreValue) : number :=
  match v with
  | Num n => n
  | Text _ _ => NaN
  end.

(** [v === w]. *)
Definition strict_eq (v w : ScoreValue) : bool :=
  match v, w with
  | Num a, Num b => eqb a b
  | Text m s, Text m' s' =>
      (memberText m ++ s =? memberText m' ++ s')%string
  | _, _ => false
  end.

(** What [tree.results[key]] gives when it is truthy. *)
Inductive ResultValue : Type :=
| descriptor (r : Result)
| member (name : string).

(** [tree.results[key]], [None] for [undefined]. *)
Definition resultAt (tree : DecisionTree) (key : string) : option ResultValue :=
  match js_get (results tree) key with
  | Some r => Some (descriptor r)
  | None => if inherited key then Some (member key) else None
  end.

(** A property key or a template literal made of a [winner] that may be
    [undefined]. *)
Definition show (winner : option string) : string :=
  match winner with Some w => w | None => "undefined" end.

(** The [RecommendationResult] as the code fills it. *)
Record RecommendationResult : Type := {
  recommendation : option string;      (* None = undefined *)
  r_scores : JsObj ScoreValue;
  result : ResultValue;
  r_answers : list Answer;
  tieBreaker : option string;
  confidence : Confidence
}.

Section Engine.

(** [`${n}`] and [String(n)] for a number; the engine never reads the
    digits it writes. *)
Variable numberToString : number -> string.

(** [(scores[tech] || 0) + points]. *)
Definition accumulate (scores : JsObj ScoreValue) (tech : string)
    (points : number) : ScoreValue :=
  match js_get scores tech with
  | Some (Num n) => Num (add (if falsy n then Fin 0 else n) points)
  | Some (Text m s) => Text m (s ++ numberToString points)
  | None =>
      if inherited tech then Text tech (numberToString points)
      else Num (add (Fin 0) points)
  end.

(** [scores[tech] = v] for a number or a string [v]: the setter of
    [__proto__] ignores such a value. *)
Definition store (scores : JsObj ScoreValue) (tech : string) (v : ScoreValue)
  : JsObj ScoreValue :=
  if (tech =? "__proto__")%string && negb (js_has scores tech) then scores
  else js_set scores tech v.

(** [scores[tech] = (scores[tech] || 0) + points]. *)
Definition addPoints (acc : JsObj ScoreValue) (entry : string * Z)
  : JsObj ScoreValue :=
  let (tech, points) := entry in
  store acc tech (accumulate acc tech (round64 points)).

Definition scoreAnswer (qm : JsMap Question) (acc : JsObj ScoreValue)
    (answer : Answer) : JsObj ScoreValue :=
  match Map_get qm (questionId answer) with
  | None => acc
  | Some question =>
      match findOption question (optionId answer) with
      | None => acc
      | Some option => fold_left addPoints (js_entries (scores option)) acc
      end
  end.

Definition calculateScores (tree : DecisionTree) (answers : list Answer)
  : JsObj ScoreValue :=
  fold_left (scoreAnswer (questionMap tree)) answers [].

End Engine.

(** [tree.results[tech]] as a condition. *)
Definition has_result (tree : DecisionTree) (tech : string) : bool :=
  js_truthy_at (results tree) tech.

(** [breakTie]; [alphabetical[0]] of an empty array is [undefined]. *)
Definition breakTie (tiedTechnologies : list string)
    (_scores : JsObj ScoreValue) (tree : DecisionTree)
  : option string * string :=
  let withResults := filter (has_result tree) tiedTechnologies in
  match withResults with
  | [w] => (Some w, "Selected based on available documentation and guidance")
  | _ =>
      let alphabetical := Js.sort tiedTechnologies in
      (hd_error alphabetical, tie_explanation tiedTechnologies)
  end.

(** [technologies.filter(tech => scores[tech] === maxScore)]. *)
Definition winnersOf (scores : JsObj ScoreValue) : list string :=
  let maxScore := Math_max (map toNumber (js_values scores)) in
  filter (fun tech =>
            match js_get scores tech with
            | Some v => strict_eq v (Num maxScore)
            | None => false
            end)
         (js_keys scores).

Definition determineWinner (scores : JsObj ScoreValue) (tree : DecisionTree)
  : Outcome (option string * option string) :=
  let technologies := js_keys scores in
  if Nat.eqb (List.length technologies) 0 then
    Thrown (createError NO_RECOMMENDATION "No technologies scored any points")
  else
    let winners := winnersOf scores in
    match winners with
    | [w] => Returned (Some w, None)
    | _ =>
        let (winner, explanation) := breakTie winners scores tree in
        Returned (winner, Some explanation)
    end.

(** [scores[winner]]: an own value, an inherited member or [undefined]. *)
Inductive Read : Type :=
| own (v : ScoreValue)
| inheritedMember
| undefined.

Definition scoreAt (scores : JsObj ScoreValue) (key : string) : Read :=
  match js_get scores key with
  | Some v => own v
  | None => if inherited key then inheritedMember else undefined
  end.

(** [s === winnerScore]. *)
Definition same (winnerScore : Read) (s : ScoreValue) : bool :=
  match winnerScore with
  | own v => strict_eq s v
  | _ => false
  end.

Definition calculateConfidence (scores : JsObj ScoreValue)
    (winner : option string) : Confidence :=
  let scoreValues := js_values scores in
  let winnerScore := scoreAt scores (show winner) in
  let otherScores :=
    filter (fun s =>
              negb (same winnerScore s)
              || Nat.ltb 1 (List.length (filter (same winnerScore) scoreValues)))
           scoreValues in
  let secondHighest := Math_max (map toNumber otherScores ++ [Fin 0]) in
  let difference :=
    sub (match winnerScore with own v => toNumber v | _ => NaN end)
        secondHighest in
  if geb difference (Fin 5) then high
  else if geb difference (Fin 2) then medium
  else low.

Definition calculate (numberToString : number -> string)
    (tree : DecisionTree) (answers : list Answer)
  : Outcome RecommendationResult :=
  _checked <- validateAnswerPath tree answers ;;
  let scores := calculateScores numberToString tree answers in
  wt <- determineWinner scores tree ;;
  let (winner, tieBreaker) := wt in
  let confidence := calculateConfidence scores winner in
  match resultAt tree (show winner) with
  | None =>
      Thrown (plainError
                ("Result not found for technology: " ++ show winner)%string)
  | Some result =>
      Returned {| recommendation := winner;
                  r_scores := scores;
                  result := result;
                  r_answers := answers;
                  tieBreaker := tieBreaker;
                  confidence := confidence |}
  end.

End Exact.

(** ** Vocabulary for the properties of [Exact] *)

Module ExactSpec.
Import RecommendationEngine.

(** No key that is given points is the name of a member of
    [Object.prototype]. *)
Definition PlainKeys (es : list (string * Z)) : Prop :=
  forall e, In e es -> inherited (fst e) = false.

(** The sum of the absolute values of the points given. *)
Fixpoint weight (es : list (string * Z)) : Z :=
  match es with
  | [] => 0
  | (_, p) :: r => Z.abs p + weight r
  end.

(** The points are small enough for every sum and difference of sums to
    be exact in a double. *)
Definition SmallPoints (es : list (string * Z)) : Prop :=
  weight es < 2 ^ 52.

(** Every value held and every sum still to come is small. *)
Definition Bounded (acc : JsObj Z) (es : list (string * Z)) : Prop :=
  forall k,
    Z.abs (match js_get acc k with Some v => v | None => 0 end) + weight es
    < 2 ^ 52.

(** The score object of integers as the code holds it. *)
Definition numeric (scores : JsObj Z) : JsObj Exact.ScoreValue :=
  map (fun e => (fst e, Exact.Num (Exact.Fin (snd e)))) scores.

(** The result of [RecommendationEngine.calculate] as the code holds
    it. *)
Definition asReturned (r : RecommendationResult) : Exact.RecommendationResult :=
  {| Exact.recommendation := Some (recommendation r);
     Exact.r_scores := numeric (r_scores r);
     Exact.result := Exact.descriptor (result r);
     Exact.r_answers := r_answers r;
     Exact.tieBreaker := tieBreaker r;
     Exact.confidence := confidence r |}.

Definition asOutcome (c : Outcome RecommendationResult)
  : Outcome Exact.RecommendationResult :=
  match c with
  | Returned r => Returned (asReturned r)
  | Thrown e => Thrown e
  end.

(** The decimal digits of an integer: what [`${n}`] gives for an integer
    up to 53 bits. *)
Definition decimal (n : Exact.number) : string :=
  match n with
  | Exact.Fin z => NilEmpty.string_of_int (Z.to_int z)
  | Exact.PosInf => "Infinity"
  | Exact.NegInf => "-Infinity"
  | Exact.NaN => "NaN"
  end.

(** One question whose only option is terminal and scores [constructor];
    the results describe a key [undefined]. *)
Definition inheritedKeyTree : DecisionTree :=
  TestData.mkTree
    [ TestData.mkQuestion "q1"
        [ TestData.mkOption "opt1" None [("constructor", 1)] ] ]
    [("undefined", TestData.mkResult "Nothing")].

(** The same, with a descriptor for [constructor]. *)
Definition describedKeyTree : DecisionTree :=
  TestData.mkTree
    [ TestData.mkQuestion "q1"
        [ TestData.mkOption "opt1" None [("constructor", 1)] ] ]
    [("constructor", TestData.mkResult "Constructor")].

(** Two questions that give [2^53] and then [1] to the same key, and
    [2^53] to another. *)
Definition largeScoreTree : DecisionTree :=
  TestData.mkTree
    [ TestData.mkQuestion "q1"
        [ TestData.mkOption "opt1" (Some "q2")
            [("tech1", 2 ^ 53); ("tech2", 2 ^ 53)] ];
      TestData.mkQuestion "q2"
        [ TestData.mkOption "opt2" None [("tech1", 1)] ] ]
    TestData.mockResults.

End ExactSpec.

(** ** Vocabulary for further properties of the validator *)

Module WellFormed.
Import DecisionTreeValidator.

(** [!s || s.trim().length === 0]. *)
Definition blank (s : string) : bool := negb (truthy s) || all_space s.

(** What [validateBasicStructure] asks of the raw tree. *)
Definition BasicOk (tree : option RawTree) : Prop :=
  exists t,
    tree = Some t
    /\ (exists i, raw_id t = Some i /\ i <> EmptyString)
    /\ (exists ti, raw_title t = Some ti /\ ti <> EmptyString)
    /\ (exists qs, raw_questions t = Some qs /\ qs <> [])
    /\ (exists rs, raw_results t = Some rs).

Definition GoodOption (o : Option) : Prop :=
  o_id o <> EmptyString /\ blank (o_label o) = false.

Definition GoodQuestion (q : Question) : Prop :=
  q_id q <> EmptyString
  /\ blank (q_text q) = false
  /\ options q <> []
  /\ Forall GoodOption (options q)
  /\ NoDup (map o_id (options q)).

(** Every question and option has an id, a text or label and, for a
    question, an option; no id is used twice. *)
Definition QuestionsOk (t : DecisionTree) : Prop :=
  Forall GoodQuestion (questions t) /\ NoDup (map q_id (questions t)).

(** Every option leads to a question of the tree other than its own, or
    nowhere, and at every key it scores [tree.results] holds something:
    a descriptor of its own, or a member every object inherits. *)
Definition ReferencesOk (t : DecisionTree) : Prop :=
  forall q o,
    In q (questions t) -> In o (options q) ->
    (forall next, nextQuestionId o = Some next ->
                  In next (map q_id (questions t)) /\ next <> q_id q)
    /\ (forall tech, In tech (js_keys (scores o)) ->
                     js_truthy_at (results t) tech = true).

(** There is a result, and every result has a name. *)
Definition ResultsOk (t : DecisionTree) : Prop :=
  results t <> []
  /\ forall key r, js_get (results t) key = Some r -> name r <> EmptyString.

(** The codes [calculate] can still fail with on a valid tree. *)
Definition client_codes : list (option ErrorCode) :=
  [Some MISSING_ANSWERS; Some INVALID_ANSWER_PATH; Some OPTION_NOT_FOUND;
   Some NO_RECOMMENDATION].

End WellFormed.

(** ** The graph the reachability search walks *)

From Stdlib Require Import Relations.

Module Graph.
Import DecisionTreeValidator.

(** [tree.questions.find(q => q.id === questionId)]. *)
Definition questionById (tree : DecisionTree) (questionId : string)
  : option Question :=
  find (fun q => (q_id q =? questionId)%string) (questions tree).

(** [v] is the target of an option of the question [dfs] finds for [u];
    the search skips a target that is [null] or the empty string. *)
Definition Edge (tree : DecisionTree) (u v : string) : Prop :=
  exists question opt,
    questionById tree u = Some question
    /\ In opt (options question)
    /\ nextQuestionId opt = Some v
    /\ truthy v = true.

(** [v] can be reached from the first question of the tree. *)
Definition Reachable (tree : DecisionTree) (v : string) : Prop :=
  match questions tree with
  | first :: _ => clos_refl_trans string (Edge tree) (q_id first) v
  | [] => False
  end.

(** No question that can be reached leads back to itself. *)
Definition Acyclic (tree : DecisionTree) : Prop :=
  forall u, Reachable tree u -> ~ clos_trans string (Edge tree) u u.

(** The value a stage computes on empty arrays. *)
Definition value_of {A} (m : V A) : A := fst (m empty).

(** The successors of the visited ids that are not on the path are
    visited. *)
Definition SuccVisited (tree : DecisionTree) (visited path : list string)
  : Prop :=
  forall w v, In w visited -> ~ In w path -> Edge tree w v -> In v visited.

(** The visited ids that are not on the path are closed under [Edge] and
    none of them lies on a cycle. *)
Definition Finished (tree : DecisionTree) (visited path : list string)
  : Prop :=
  (forall w v, In w visited -> ~ In w path -> Edge tree w v ->
               In v visited /\ ~ In v path)
  /\ (forall w, In w visited -> ~ In w path ->
                ~ clos_trans string (Edge tree) w w).

(** The body of the loop of [dfs] over the options of a question. *)
Definition visitOption (tree : DecisionTree) (fuel : nat) (path : list string)
    (sets : list string * list string) (opt : Option)
  : V (option (list string * list string)) :=
  match nextQuestionId opt with
  | Some next =>
      if truthy next then dfs fuel tree next path sets else ret (Some sets)
  | None => ret (Some sets)
  end.

(** What a call of [dfs] for [u] adds to the visited ids: [u] and ids
    that can be reached from it, and with them the successors of every
    id that is no longer on the path. *)
Definition Visits (tree : DecisionTree) (u : string) (path : list string)
    (visited visited' : list string) : Prop :=
  incl visited visited'
  /\ In u visited'
  /\ (forall x, In x visited' ->
                In x visited \/ clos_refl_trans string (Edge tree) u x)
  /\ (incl path visited -> SuccVisited tree visited path ->
      SuccVisited tree visited' path).

(** The warning [validateReachability] pushes for a question id. *)
Definition unreachable_warning (id : string) : ValidationWarning :=
  {| issue_type := warning; issue_code := "UNREACHABLE_QUESTION";
     issue_message :=
       ("Question " ++ dq ++ id ++ dq
        ++ " is not reachable from the starting question")%string;
     location := None |}.

End Graph.

(** ** A raw tree the validator accepts *)

Module ValidData.
Import DecisionTreeValidator TestData.

(** [mockTree] as the JSON value [validate] is given. *)
Definition rawMockTree : RawTree :=
  {| raw_id := Some (t_id mockTree);
     raw_title := Some (t_title mockTree);
     raw_description := t_description mockTree;
     raw_version := t_version mockTree;
     raw_questions := Some (questions mockTree);
     raw_results := Some (results mockTree) |}.

(** A tree of the declared shape as the JSON value [validate] is
    given. *)
Definition asRaw (t : DecisionTree) : RawTree :=
  {| raw_id := Some (t_id t);
     raw_title := Some (t_title t);
     raw_description := t_description t;
     raw_version := t_version t;
     raw_questions := Some (questions t);
     raw_results := Some (results t) |}.

(** A tree whose second question leads back to the first. *)
Definition loopTree : DecisionTree :=
  mkTree
    [ mkQuestion "q1" [ mkOption "opt1" (Some "q2") [("tech1", 1)] ];
      mkQuestion "q2" [ mkOption "opt2" (Some "q1") [("tech1", 1)] ] ]
    mockResults.

End ValidData.

(* ===================================================================== *)
(** * [DecisionTreeValidator] on a tree of any shape                     *)
(* ===================================================================== *)

(** [validate] takes [tree: any], and the stages after the basic
    structure read the tree without knowing its shape. [AnyTree] is the
    validator on a tree value of which any field may be missing:
    - an id, text, label or name is missing or a string;
    - [nextQuestionId] is missing, [null] or a string;
    - [options] is an array of objects, or anything else ([None]);
    - [scores] is missing or [null] ([None]), or an object whose values
      are numbers or strings;
    - [results] is an object whose values are objects.
    A stage that reads a property of [undefined], or calls what is no
    function, throws a [TypeError], which [validate] does not catch: a
    stage is a computation over the two arrays that may throw.
    [DecisionTreeValidator] above is this validator on the trees of the
    declared shape ([AnyTreeFacts.validate_declared]). *)

Module AnyTree.
Import DecisionTreeValidator.

(** A value of [option.scores]: a number, written as the integer it
    holds, or a string. *)
Inductive ScoreJson : Type :=
| number_score (z : Z)
| string_score (s : string).

Inductive NextJson : Type :=
| next_missing
| next_null
| next_string (s : string).

Record OptionJson : Type := {
  j_o_id : option string;
  j_label : option string;
  j_nextQuestionId : NextJson;
  j_scores : option (JsObj ScoreJson)
}.

Record QuestionJson : Type := {
  j_q_id : option string;
  j_text : option string;
  j_options : option (list OptionJson)
}.

Record ResultJson : Type := {
  j_name : option string;
  j_reasoning : option string;
  j_tradeoffs : option (list string);
  j_whenToReconsider : option string;
  j_bestFor : option string
}.

(** The tree: [None] for an [id] or [title] that is missing or no
    string, for [questions] that are no array, for [results] that are
    missing or no object. *)
Record TreeJson : Type := {
  j_id : option string;
  j_title : option string;
  j_description : option string;
  j_version : option string;
  j_questions : option (list QuestionJson);
  j_results : option (JsObj ResultJson)
}.

(** What the stages after the basic structure read: the questions and
    the results, which the basic structure found to be an array and an
    object. *)
Record Checked : Type := {
  c_questions : list QuestionJson;
  c_results : JsObj ResultJson
}.

(** ** Computations that may throw *)

Definition T (A : Type) : Type := Report -> option (A * Report).

Definition retT {A} (a : A) : T A := fun r => Some (a, r).

Definition bindT {A B} (m : T A) (k : A -> T B) : T B :=
  fun r =>
    match m r with
    | Some (a, r') => k a r'
    | None => None
    end.

(** A computation that cannot throw. *)
Definition lift {A} (m : V A) : T A := fun r => Some (m r).

(** [throw new TypeError(...)]. *)
Definition throwTypeError {A} : T A := fun _ => None.

Notation "x <~? m ;; k" := (bindT m (fun x => k))
  (at level 61, m at next level, right associativity).
Notation "m ;;? k" := (bindT m (fun _ => k))
  (at level 61, right associativity).

Fixpoint forEachT {A St} (f : St -> nat -> A -> T St) (xs : list A)
    (index : nat) (s : St) : T St :=
  match xs with
  | [] => retT s
  | x :: rest => s' <~? f s index x ;; forEachT f rest (S index) s'
  end.

(** ** Values that may be [undefined] *)

(** [!v] is false. *)
Definition present (v : option string) : bool :=
  match v with
  | Some s => truthy s
  | None => false
  end.

(** [!v || v.trim().length === 0]. *)
Definition blank (v : option string) : bool :=
  match v with
  | Some s => negb (truthy s) || all_space s
  | None => true
  end.

(** [a === b]. *)
Definition same (a b : option string) : bool :=
  match a, b with
  | Some x, Some y => (x =? y)%string
  | None, None => true
  | _, _ => false
  end.

(** [set.has(x)] and [array.includes(x)]. *)
Definition has (s : list (option string)) (x : option string) : bool :=
  existsb (same x) s.

Definition add (s : list (option string)) (x : option string)
  : list (option string) :=
  if has s x then s else s ++ [x].

(** [`${v}`]. *)
Definition shown (v : option string) : string :=
  match v with
  | Some s => s
  | None => "undefined"
  end.

(** An element of an array in [join]: [undefined] gives the empty
    string. *)
Definition joined (v : option string) : string :=
  match v with
  | Some s => s
  | None => EmptyString
  end.

(** ** [validateBasicStructure] *)

Definition validateBasicStructure (tree : option TreeJson) : V unit :=
  match tree with
  | None => pushError "TREE_NULL" "Tree is null or undefined" None
  | Some tree =>
      when (negb (present (j_id tree)))
           (pushError "MISSING_TREE_ID" "Tree must have a valid id" None) ;;>
      when (negb (present (j_title tree)))
           (pushError "MISSING_TREE_TITLE" "Tree must have a title" None) ;;>
      match j_questions tree with
      | None =>
          pushError "INVALID_QUESTIONS" "Tree must have a questions array" None
      | Some qs =>
          when (Nat.eqb (List.length qs) 0)
               (pushError "EMPTY_TREE" "Tree must have at least one question"
                          None) ;;>
          when (match j_results tree with Some _ => false | None => true end)
               (pushError "INVALID_RESULTS" "Tree must have a results object"
                          None)
      end
  end.

(** The tree the later stages read once the basic structure is
    accepted. *)
Definition checked (tree : option TreeJson) : Checked :=
  match tree with
  | Some tree =>
      {| c_questions := match j_questions tree with Some qs => qs | None => [] end;
         c_results := match j_results tree with Some rs => rs | None => [] end |}
  | None => {| c_questions := []; c_results := [] |}
  end.

(** ** [validateOptions] *)
Definition validateOptions (options : list OptionJson)
    (questionLocation : string) : V unit :=
  forEach
    (fun (optionIds : list string) index option =>
       let location :=
         (questionLocation ++ ".options[" ++ string_of_nat index ++ "]")%string in
       optionIds' <~
         (match j_o_id option with
          | Some id =>
              if negb (truthy id) then
                pushError "MISSING_OPTION_ID" "Option missing id"
                          (Some location) ;;>
                ret optionIds
              else if set_has optionIds id then
                pushError "DUPLICATE_OPTION_ID"
                          ("Duplicate option id: " ++ id)%string
                          (Some location) ;;>
                ret optionIds
              else ret (set_add optionIds id)
          | None =>
              pushError "MISSING_OPTION_ID" "Option missing id"
                        (Some location) ;;>
              ret optionIds
          end) ;;
       when (blank (j_label option))
            (pushError "MISSING_OPTION_LABEL" "Option missing label"
                       (Some location)) ;;>
       match j_scores option with
       | None =>
           pushError "MISSING_SCORES" "Option missing scores object"
                     (Some location)
       | Some scores =>
           when (Nat.eqb (List.length (js_keys scores)) 0)
                (pushWarning "EMPTY_SCORES" "Option has no scores defined"
                             (Some location)) ;;>
           forEach
             (fun (_ : unit) _ (entry : string * ScoreJson) =>
                let (tech, score) := entry in
                match score with
                | number_score _ => ret tt
                | string_score _ =>
                    pushError "INVALID_SCORE"
                      ("Score for " ++ tech ++ " must be a number")%string
                      (Some (location ++ ".scores." ++ tech)%string)
                end)
             (js_entries scores) 0%nat tt
       end ;;>
       ret optionIds')
    options 0%nat [] ;;>
  ret tt.

(** ** [validateQuestions] *)
Definition validateQuestions (tree : Checked) : V unit :=
  forEach
    (fun (questionIds : list string) index question =>
       let location := ("questions[" ++ string_of_nat index ++ "]")%string in
       questionIds' <~
         (match j_q_id question with
          | Some id =>
              if negb (truthy id) then
                pushError "MISSING_QUESTION_ID" "Question missing id"
                          (Some location) ;;>
                ret questionIds
              else if set_has questionIds id then
                pushError "DUPLICATE_QUESTION_ID"
                          ("Duplicate question id: " ++ id)%string
                          (Some location) ;;>
                ret questionIds
              else ret (set_add questionIds id)
          | None =>
              pushError "MISSING_QUESTION_ID" "Question missing id"
                        (Some location) ;;>
              ret questionIds
          end) ;;
       when (blank (j_text question))
            (pushError "MISSING_QUESTION_TEXT" "Question missing text"
                       (Some location)) ;;>
       match j_options question with
       | Some (o :: os) => validateOptions (o :: os) location
       | _ =>
           pushError "MISSING_OPTIONS" "Question must have at least one option"
                     (Some location)
       end ;;>
       ret questionIds')
    (c_questions tree) 0%nat [] ;;>
  ret tt.

(** ** [validateReferences]

    [question.options.forEach] throws when [options] is no array. *)

(** [option.nextQuestionId] when it is not [null]. *)
Definition nextValue (next : NextJson) : option (option string) :=
  match next with
  | next_null => None
  | next_missing => Some None
  | next_string s => Some (Some s)
  end.

Definition validateReferences (tree : Checked) : T unit :=
  let questionIds := map j_q_id (c_questions tree) in
  forEachT
    (fun (_ : unit) qIndex question =>
       match j_options question with
       | None => throwTypeError
       | Some options =>
           lift
             (forEach
                (fun (_ : unit) oIndex option =>
                   let location :=
                     ("questions[" ++ string_of_nat qIndex ++ "].options["
                      ++ string_of_nat oIndex ++ "]")%string in
                   match nextValue (j_nextQuestionId option) with
                   | Some next =>
                       when (negb (has questionIds next))
                            (pushError "INVALID_REFERENCE"
                               ("nextQuestionId " ++ dq ++ shown next ++ dq
                                ++ " does not exist")%string
                               (Some location)) ;;>
                       when (same next (j_q_id question))
                            (pushError "CIRCULAR_REFERENCE"
                               "Option references its own question (infinite loop)"
                               (Some location))
                   | None => ret tt
                   end ;;>
                   match j_scores option with
                   | None => ret tt
                   | Some scores =>
                       forEach
                         (fun (_ : unit) _ tech =>
                            when (negb (js_truthy_at (c_results tree) tech))
                                 (pushError "MISSING_RESULT"
                                    ("Score references technology " ++ dq
                                     ++ tech ++ dq
                                     ++ " but no result exists")%string
                                    (Some (location ++ ".scores." ++ tech)%string)))
                         (js_keys scores) 0%nat tt
                   end)
                options 0%nat tt)
       end)
    (c_questions tree) 0%nat tt.

(** ** [validateReachability]

    [for (const option of question.options)] throws when [options] is
    no array. *)

(** [for (const x of xs)] around a body that may throw or run out of
    fuel ([AnyTreeFacts.search_terminates] shows that the fuel
    [validateReachability] gives is always enough). *)
Fixpoint forOfT {A St} (f : St -> A -> T (option St)) (xs : list A) (s : St)
  : T (option St) :=
  match xs with
  | [] => retT (Some s)
  | x :: rest =>
      o <~? f s x ;;
      match o with
      | Some s' => forOfT f rest s'
      | None => retT None
      end
  end.

Fixpoint dfs (fuel : nat) (tree : Checked) (questionId : option string)
    (path : list (option string))
    (sets : list (option string) * list (option string))
  : T (option (list (option string) * list (option string))) :=
  match fuel with
  | O => retT None
  | S fuel' =>
      let (reachable, visited) := sets in
      if has visited questionId then
        lift
          (when (has path questionId)
                (pushError "CIRCULAR_REFERENCE"
                   ("Circular reference detected: "
                    ++ join " -> " (map joined (path ++ [questionId])))%string
                   None) ;;>
           ret (Some sets))
      else
        let sets' := (add reachable questionId, add visited questionId) in
        match find (fun q => same (j_q_id q) questionId) (c_questions tree) with
        | None => retT (Some sets')
        | Some question =>
            match j_options question with
            | None => throwTypeError
            | Some options =>
                forOfT
                  (fun sets option =>
                     match j_nextQuestionId option with
                     | next_string next =>
                         if truthy next
                         then dfs fuel' tree (Some next) (path ++ [questionId])
                                  sets
                         else retT (Some sets)
                     | _ => retT (Some sets)
                     end)
                  options sets'
            end
        end
  end.

(** Every value [dfs] can be called with: the id of the first question
    and the targets of the options. *)
Definition targets (tree : Checked) : list string :=
  flat_map
    (fun q =>
       flat_map
         (fun o =>
            match j_nextQuestionId o with
            | next_string n => [n]
            | _ => []
            end)
         (match j_options q with Some os => os | None => [] end))
    (c_questions tree).

Definition dfs_fuel (tree : Checked) : nat :=
  S (S (List.length (targets tree))).

Definition validateReachability (tree : Checked) : T unit :=
  match c_questions tree with
  | [] => retT tt
  | first :: _ =>
      o <~? dfs (dfs_fuel tree) tree (j_q_id first) [] ([], []) ;;
      match o with
      | None => retT tt
      | Some (reachable, _) =>
          let allQuestionIds := map j_q_id (c_questions tree) in
          let unreachable :=
            filter (fun id => negb (has reachable id)) allQuestionIds in
          lift
            (forEach
               (fun (_ : unit) _ id =>
                  pushWarning "UNREACHABLE_QUESTION"
                    ("Question " ++ dq ++ shown id ++ dq
                     ++ " is not reachable from the starting question")%string
                    None)
               unreachable 0%nat tt)
      end
  end.

(** ** [validateResults] *)
Definition validateResults (tree : Checked) : V unit :=
  let resultKeys := js_keys (c_results tree) in
  if Nat.eqb (List.length resultKeys) 0 then
    pushError "NO_RESULTS" "Tree must have at least one result definition" None
  else
    forEach
      (fun (_ : unit) _ key =>
         match js_get (c_results tree) key with
         | None => ret tt
         | Some result =>
             let location := Some ("results." ++ key)%string in
             when (negb (present (j_name result)))
                  (pushError "MISSING_RESULT_NAME" "Result missing name"
                             location) ;;>
             when (negb (present (j_reasoning result)))
                  (pushWarning "MISSING_REASONING" "Result missing reasoning"
                               location) ;;>
             when (match j_tradeoffs result with
                   | Some ts => Nat.eqb (List.length ts) 0
                   | None => true
                   end)
                  (pushWarning "MISSING_TRADEOFFS" "Result missing tradeoffs"
                               location) ;;>
             when (negb (present (j_whenToReconsider result)))
                  (pushWarning "MISSING_RECONSIDER"
                               "Result missing whenToReconsider" location)
         end)
      resultKeys 0%nat tt.

Section ScoreBalance.

(** The technologies [validateScoreBalance] warns about, in order, each
    with the message it builds, as in [DecisionTreeValidator]. *)
Variable scoreImbalances : Checked -> list string.

(** ** [validateScoreBalance]

    [question.options.forEach] throws when [options] is no array, and
    [Object.entries(option.scores)] when [scores] is missing or
    [null]. *)
Definition validateScoreBalance (tree : Checked) : T unit :=
  forEachT
    (fun (_ : unit) _ question =>
       match j_options question with
       | None => throwTypeError
       | Some options =>
           forEachT
             (fun (_ : unit) _ option =>
                match j_scores option with
                | None => throwTypeError
                | Some _ => retT tt
                end)
             options 0%nat tt
       end)
    (c_questions tree) 0%nat tt ;;?
  lift
    (forEach
       (fun (_ : unit) _ msg => pushWarning "SCORE_IMBALANCE" msg None)
       (scoreImbalances tree) 0%nat tt).

(** ** [validate]: [None] when a stage throws. *)
Definition validate (tree : option TreeJson) : option ValidationResult :=
  let (_, r) := validateBasicStructure tree empty in
  if Nat.ltb 0 (List.length (errs r)) then
    Some {| isValid := false; errors := errs r; warnings := warns r |}
  else
    let tree := checked tree in
    match
      (lift (validateQuestions tree) ;;?
       validateReferences tree ;;?
       validateReachability tree ;;?
       lift (validateResults tree) ;;?
       validateScoreBalance tree) r
    with
    | Some (_, r) =>
        Some {| isValid := Nat.eqb (List.length (errs r)) 0;
                errors := errs r;
                warnings := warns r |}
    | None => None
    end.

End ScoreBalance.

(** ** The trees of the declared shape *)

Definition optionJson (o : Option) : OptionJson :=
  {| j_o_id := Some (o_id o);
     j_label := Some (o_label o);
     j_nextQuestionId :=
       match nextQuestionId o with
       | Some next => next_string next
       | None => next_null
       end;
     j_scores := Some (map (fun e => (fst e, number_score (snd e))) (scores o)) |}.

Definition questionJson (q : Question) : QuestionJson :=
  {| j_q_id := Some (q_id q);
     j_text := Some (q_text q);
     j_options := Some (map optionJson (options q)) |}.

Definition resultJson (r : Result) : ResultJson :=
  {| j_name := Some (name r);
     j_reasoning := Some (reasoning r);
     j_tradeoffs := Some (tradeoffs r);
     j_whenToReconsider := Some (whenToReconsider r);
     j_bestFor := Some (bestFor r) |}.

Definition treeJson (t : RawTree) : TreeJson :=
  {| j_id := raw_id t;
     j_title := raw_title t;
     j_description := Some (raw_description t);
     j_version := Some (raw_version t);
     j_questions := option_map (map questionJson) (raw_questions t);
     j_results :=
       option_map (map (fun e => (fst e, resultJson (snd e)))) (raw_results t) |}.

(** ** Reading a tree at the declared shape

    A question or an option can be read when none of its fields is
    missing, [nextQuestionId] is [null] or a string and every score is a
    number. A result can always be read: a field it lacks is read as the
    empty string or the empty array, which the validator does not tell
    from a missing one. *)

Fixpoint readAll {A B} (f : A -> option B) (xs : list A) : option (list B) :=
  match xs with
  | [] => Some []
  | x :: rest =>
      match f x, readAll f rest with
      | Some y, Some ys => Some (y :: ys)
      | _, _ => None
      end
  end.

Definition readScore (entry : string * ScoreJson) : option (string * Z) :=
  match snd entry with
  | number_score z => Some (fst entry, z)
  | string_score _ => None
  end.

Definition readNext (next : NextJson) : option (option string) :=
  match next with
  | next_missing => None
  | next_null => Some None
  | next_string s => Some (Some s)
  end.

Definition readOption (o : OptionJson) : option Option :=
  match j_o_id o, j_label o, readNext (j_nextQuestionId o), j_scores o with
  | Some id, Some label, Some next, Some scores =>
      match readAll readScore scores with
      | Some scores =>
          Some {| o_id := id; o_label := label; nextQuestionId := next;
                  scores := scores |}
      | None => None
      end
  | _, _, _, _ => None
  end.

Definition readQuestion (q : QuestionJson) : option Question :=
  match j_q_id q, j_text q, j_options q with
  | Some id, Some text, Some options =>
      match readAll readOption options with
      | Some options =>
          Some {| q_id := id; q_text := text; options := options |}
      | None => None
      end
  | _, _, _ => None
  end.

Definition readResult (r : ResultJson) : Result :=
  {| name := joined (j_name r);
     reasoning := joined (j_reasoning r);
     tradeoffs := match j_tradeoffs r with Some ts => ts | None => [] end;
     whenToReconsider := joined (j_whenToReconsider r);
     bestFor := joined (j_bestFor r) |}.

Definition readResults (rs : JsObj ResultJson) : JsObj Result :=
  map (fun e => (fst e, readResult (snd e))) rs.

(** The tree at the declared shape, when its questions can be read. *)
Definition read (tree : TreeJson) : option RawTree :=
  match j_questions tree with
  | None =>
      Some {| raw_id := j_id tree;
              raw_title := j_title tree;
              raw_description := joined (j_description tree);
              raw_version := joined (j_version tree);
              raw_questions := None;
              raw_results := option_map readResults (j_results tree) |}
  | Some qs =>
      match readAll readQuestion qs with
      | Some questions =>
          Some {| raw_id := j_id tree;
                  raw_title := j_title tree;
                  raw_description := joined (j_description tree);
                  raw_version := joined (j_version tree);
                  raw_questions := Some questions;
                  raw_results := option_map readResults (j_results tree) |}
      | None => None
      end
  end.

(** Every field of an option can be read, [nextQuestionId] left
    aside, and so for a question and its options. *)
Definition OptionFields (o : OptionJson) : Prop :=
  j_o_id o <> None
  /\ j_label o <> None
  /\ exists sc scores,
       j_scores o = Some sc /\ readAll readScore sc = Some scores.

Definition QuestionFields (q : QuestionJson) : Prop :=
  j_q_id q <> None
  /\ j_text q <> None
  /\ exists os, j_options q = Some os /\ Forall OptionFields os.

(** The values of [ids] the search has not visited yet. *)
Definition unvisited (ids visited : list (option string))
  : list (option string) :=
  filter (fun x => negb (has visited x)) ids.

(** The search did not run out of fuel: it threw, or it returned with
    every value visited before still visited. *)
Definition Searched (visited : list (option string))
    (run : option (option (list (option string) * list (option string))
                   * Report)) : Prop :=
  match run with
  | Some (Some (_, visited'), _) =>
      forall y, has visited y = true -> has visited' y = true
  | Some (None, _) => False
  | None => True
  end.

(** A question without an options array, or with an option without
    scores: what the stages after [validateQuestions] do not expect. *)
Definition NoOptions (q : QuestionJson) : Prop := j_options q = None.

Definition NoScores (q : QuestionJson) : Prop :=
  exists os o, j_options q = Some os /\ In o os /\ j_scores o = None.

(** [tree] is what the later stages read of a tree that reads as [t]. *)
Definition Reads (tree : Checked) (t : DecisionTree) : Prop :=
  c_questions tree = map questionJson (questions t)
  /\ results t = readResults (c_results tree).

(** [m] reads neither array: whether it throws does not depend on them,
    and all it does to them is push what it pushes onto empty ones. *)
Definition AppendsT {A} (m : T A) : Prop :=
  forall r,
    m r = match m empty with
          | Some (a, d) => Some (a, ValidatorSpec.pushed r d)
          | None => None
          end.

(** The sets of [DecisionTreeValidator.dfs] as [dfs] holds them. *)
Definition someSets (sets : list string * list string)
  : list (option string) * list (option string) :=
  (map Some (fst sets), map Some (snd sets)).

(** The outcome of a stage of [DecisionTreeValidator] as the outcome of
    a stage that may throw. *)
Definition declared {A B} (h : A -> B) (run : A * Report)
  : option (B * Report) :=
  Some (h (fst run), snd run).

(** ** Two trees that are not well formed *)

(** A tree whose only question has no [options]. *)
Definition noOptionsTree : TreeJson :=
  {| j_id := Some "databases"; j_title := Some "Databases";
     j_description := None; j_version := None;
     j_questions :=
       Some [{| j_q_id := Some "q1"; j_text := Some "Which one?";
                j_options := None |}];
     j_results := Some [] |}.

(** A tree whose only option has no [scores]. *)
Definition noScoresTree : TreeJson :=
  {| j_id := Some "databases"; j_title := Some "Databases";
     j_description := None; j_version := None;
     j_questions :=
       Some [{| j_q_id := Some "q1"; j_text := Some "Which one?";
                j_options :=
                  Some [{| j_o_id := Some "opt1"; j_label := Some "This one";
                           j_nextQuestionId := next_null;
                           j_scores := None |}] |}];
     j_results := Some [("tech1", resultJson (TestData.mkResult "Technology 1"))] |}.

(** The issue a stage pushes for [code] at [location]. *)
Definition issue (kind : IssueType) (code message : string)
    (location : option string) : ValidationIssue :=
  {| issue_type := kind; issue_code := code; issue_message := message;
     location := location |}.

End AnyTree.

(* ===================================================================== *)
(** * [utils/ErrorHandler]                                               *)
(* ===================================================================== *)

Module ErrorHandler.

(** The string each member of [enum ErrorCode] stands for. *)
Definition codeString (c : ErrorCode) : string :=
  match c with
  | TREE_NOT_FOUND => "TREE_NOT_FOUND"
  | TREE_INVALID => "TREE_INVALID"
  | QUESTION_NOT_FOUND => "QUESTION_NOT_FOUND"
  | INVALID_QUESTION_ID => "INVALID_QUESTION_ID"
  | OPTION_NOT_FOUND => "OPTION_NOT_FOUND"
  | INVALID_OPTION => "INVALID_OPTION"
  | MISSING_ANSWERS => "MISSING_ANSWERS"
  | INVALID_ANSWER_PATH => "INVALID_ANSWER_PATH"
  | SAVE_FAILED => "SAVE_FAILED"
  | SLUG_COLLISION => "SLUG_COLLISION"
  | NO_RECOMMENDATION => "NO_RECOMMENDATION"
  | RESULT_NOT_FOUND => "RESULT_NOT_FOUND"
  | VALIDATION_ERROR => "VALIDATION_ERROR"
  | INTERNAL_ERROR => "INTERNAL_ERROR"
  | RATE_LIMIT_EXCEEDED => "RATE_LIMIT_EXCEEDED"
  end.

(** [Object.values(ErrorCode)], as members. *)
Definition ErrorCode_values : list ErrorCode :=
  [TREE_NOT_FOUND; TREE_INVALID; QUESTION_NOT_FOUND; INVALID_QUESTION_ID;
   OPTION_NOT_FOUND; INVALID_OPTION; MISSING_ANSWERS; INVALID_ANSWER_PATH;
   SAVE_FAILED; SLUG_COLLISION; NO_RECOMMENDATION; RESULT_NOT_FOUND;
   VALIDATION_ERROR; INTERNAL_ERROR; RATE_LIMIT_EXCEEDED].

(** What the handler reads of its surroundings: the clock
    ([new Date().toISOString()]) and two variables of [process.env]. *)
Record Env : Type := {
  now : string;
  API_VERSION : option string;
  NODE_ENV : option string
}.

Record Meta : Type := {
  timestamp : string;
  version : string
}.

(** The [code] property of a caught value: missing, a string or a
    number. *)
Inductive CodeProperty : Type :=
| no_code
| string_code (s : string)
| number_code (n : Z).

Section Any.

(** The values the handler passes on without reading them, and a
    string as such a value. *)
Variable Any : Type.
Variable ofString : string -> Any.

(** [interface APIError]. *)
Record APIError : Type := {
  e_code : ErrorCode;
  e_message : string;
  details : option Any;
  field : option string
}.

(** [interface APIResponse<T>]. *)
Record APIResponse (T : Type) : Type := {
  success : bool;
  data : option T;
  api_error : option APIError;
  meta : option Meta
}.

(** [error: any] as [handleError] reads it. *)
Record Caught : Type := {
  caught_name : string;
  caught_message : string;
  caught_code : CodeProperty;
  caught_details : option Any;
  caught_errors : option Any;
  caught_keyValue : option Any
}.

(** [process.env.API_VERSION || '1.0.0']. *)
Definition apiVersion (env : Env) : string :=
  match API_VERSION env with
  | Some v => if truthy v then v else "1.0.0"
  | None => "1.0.0"
  end.

Definition createErrorResponse {T} (env : Env) (code : ErrorCode)
    (message : string) (details : option Any) (field : option string)
  : APIResponse T :=
  {| success := false;
     data := None;
     api_error := Some {| e_code := code; e_message := message;
                          details := details; field := field |};
     meta := Some {| timestamp := now env; version := apiVersion env |} |}.

Definition createSuccessResponse {T} (env : Env) (data : T) : APIResponse T :=
  {| success := true;
     data := Some data;
     api_error := None;
     meta := Some {| timestamp := now env; version := apiVersion env |} |}.

(** [error.code && Object.values(ErrorCode).includes(error.code)]: the
    member the code is, if it is one. *)
Definition knownCode (c : CodeProperty) : option ErrorCode :=
  match c with
  | string_code s =>
      if truthy s
      then find (fun m => (codeString m =? s)%string) ErrorCode_values
      else None
  | number_code _ => None
  | no_code => None
  end.

(** [process.env.NODE_ENV === 'development' ? error.message : undefined]. *)
Definition developmentMessage (env : Env) (error : Caught) : option Any :=
  match NODE_ENV env with
  | Some mode =>
      if (mode =? "development")%string
      then Some (ofString (caught_message error))
      else None
  | None => None
  end.

Definition handleError {T} (env : Env) (error : Caught) : APIResponse T :=
  match knownCode (caught_code error) with
  | Some code =>
      createErrorResponse env code
        (if truthy (caught_message error) then caught_message error
         else "An error occurred")
        (caught_details error) None
  | None =>
      if (caught_name error =? "ValidationError")%string then
        createErrorResponse env VALIDATION_ERROR "Validation failed"
          (caught_errors error) None
      else if ((caught_name error =? "MongoError")
               || (caught_name error =? "MongoServerError"))%string then
        match caught_code error with
        | number_code 11000 =>
            createErrorResponse env SLUG_COLLISION
              "A record with this identifier already exists"
              (caught_keyValue error) None
        | _ =>
            createErrorResponse env INTERNAL_ERROR "Database error occurred"
              (developmentMessage env error) None
        end
      else
        createErrorResponse env INTERNAL_ERROR "An unexpected error occurred"
          (developmentMessage env error) None
  end.

(** An [Error] of the given [name] with the message and code of [e] and
    no other property the handler reads: [new Error(message)] with its
    [code] set, and [new AppError(code, message)]. *)
Definition caught (name : string) (e : JsError) : Caught :=
  {| caught_name := name;
     caught_message := message e;
     caught_code := match code e with
                    | Some c => string_code (codeString c)
                    | None => no_code
                    end;
     caught_details := None;
     caught_errors := None;
     caught_keyValue := None |}.

End Any.

Arguments success {Any T} a.
Arguments data {Any T} a.
Arguments api_error {Any T} a.
Arguments meta {Any T} a.
Arguments createErrorResponse {Any T} env code message details field.
Arguments createSuccessResponse {Any T} env data.
Arguments handleError {Any} ofString {T} env error.
Arguments developmentMessage {Any} ofString env error.

(** The entries of [statusMap]. *)
Definition statusMap (code : ErrorCode) : nat :=
  match code with
  | TREE_NOT_FOUND => 404
  | TREE_INVALID => 400
  | QUESTION_NOT_FOUND => 404
  | INVALID_QUESTION_ID => 400
  | OPTION_NOT_FOUND => 404
  | INVALID_OPTION => 400
  | MISSING_ANSWERS => 400
  | INVALID_ANSWER_PATH => 400
  | SAVE_FAILED => 500
  | SLUG_COLLISION => 409
  | NO_RECOMMENDATION => 422
  | RESULT_NOT_FOUND => 404
  | VALIDATION_ERROR => 400
  | INTERNAL_ERROR => 500
  | RATE_LIMIT_EXCEEDED => 429
  end.

(** [statusMap[code] || 500]. *)
Definition getStatusCode (code : ErrorCode) : nat :=
  if Nat.eqb (statusMap code) 0 then 500%nat else statusMap code.

(** The [TypeError] of a template literal whose value cannot be made a
    string. *)
Definition notPrimitive : JsError :=
  {| message := "Cannot convert object to primitive value"; code := None |}.

(** [throwError.treeNotFound]: the [AppError] it throws. *)
Definition treeNotFound (treeId : string) : JsError :=
  {| message := ("Decision tree " ++ DecisionTreeValidator.dq ++ treeId
                 ++ DecisionTreeValidator.dq ++ " not found")%string;
     code := Some TREE_NOT_FOUND |}.

End ErrorHandler.

(* ===================================================================== *)
(** * [class DecisionTreeService]: the trees it holds                    *)
(* ===================================================================== *)

Module DecisionTreeService.
Import DecisionTreeValidator ErrorHandler.

(** [Map.prototype.set]: a key the map has keeps its place. The service
    only ever builds its map with [set], so no key is listed twice
    ([loadTrees_keys]). *)
Fixpoint Map_set {V} (m : JsMap V) (k : string) (v : V) : JsMap V :=
  match m with
  | [] => [(k, v)]
  | (k', v') :: r =>
      if (k' =? k)%string then (k', v) :: r else (k', v') :: Map_set r k v
  end.

(** [Array.from(map.values())]. *)
Definition Map_values {V} (m : JsMap V) : list V := map snd m.

(** [String.prototype.endsWith]. *)
Definition endsWith (s suffix : string) : bool :=
  let n := String.length s in
  let m := String.length suffix in
  (m <=? n)%nat && (substring (n - m) m s =? suffix)%string.

(** A file of the trees directory: its name and what [JSON.parse] makes
    of its content, [None] when reading or parsing throws. *)
Record TreeFile : Type := {
  fileName : string;
  parsed : option (option RawTree)
}.

Section Service.
Variable scoreImbalances : DecisionTree -> list string.

(** The body of the loop over the JSON files. *)
Definition loadFile (trees : JsMap DecisionTree) (file : TreeFile)
  : JsMap DecisionTree :=
  match parsed file with
  | None => trees
  | Some tree =>
      let validation := validate scoreImbalances tree in
      if negb (isValid validation) then trees
      else Map_set trees (t_id (asDecisionTree tree)) (asDecisionTree tree)
  end.

(** [loadTrees]; [None] for the directory when it does not exist or
    cannot be listed. *)
Definition loadTrees (directory : option (list TreeFile))
    (trees : JsMap DecisionTree) : JsMap DecisionTree :=
  match directory with
  | None => trees
  | Some files =>
      let jsonFiles := filter (fun f => endsWith (fileName f) ".json") files in
      fold_left loadFile jsonFiles trees
  end.

(** The map of a service just constructed, and after [reload]. *)
Definition service (directory : option (list TreeFile)) : JsMap DecisionTree :=
  loadTrees directory [].

End Service.

Definition getAllTrees (trees : JsMap DecisionTree) : list DecisionTree :=
  Map_values trees.

Definition getTree (trees : JsMap DecisionTree) (treeId : string)
  : Outcome DecisionTree :=
  match Map_get trees treeId with
  | Some tree => Returned tree
  | None => Thrown (treeNotFound treeId)
  end.

End DecisionTreeService.

(* ===================================================================== *)
(** * [routes/api]: the routes over the trees                            *)
(* ===================================================================== *)

Module Routes.
Import RecommendationEngine ErrorHandler DecisionTreeService.

(** [Math.floor(n / 5)] and [Math.ceil(n / 5)] of a count. *)
Definition floor5 (n : nat) : nat := (n / 5)%nat.
Definition ceil5 (n : nat) : nat :=
  if Nat.eqb (n mod 5) 0 then (n / 5)%nat else S (n / 5).

Definition estimateTime (questionCount : nat) : string :=
  let minutesPerQuestion := 1%nat in
  let totalMinutes := (questionCount * minutesPerQuestion)%nat in
  if (totalMinutes <? 5)%nat then (string_of_nat totalMinutes ++ " minutes")%string
  else if (totalMinutes <=? 10)%nat
  then (string_of_nat totalMinutes ++ " minutes")%string
  else (string_of_nat (floor5 totalMinutes * 5) ++ "-"
        ++ string_of_nat (ceil5 totalMinutes * 5) ++ " minutes")%string.

(** [interface TreeSummary]. *)
Record TreeSummary : Type := {
  s_id : string;
  s_title : string;
  s_description : string;
  questionCount : nat;
  estimatedTime : string
}.

(** [interface GetTreesResponse]. *)
Record GetTreesResponse : Type := {
  trees : list TreeSummary
}.

(** [body.treeId], whatever value the request holds there: a value
    that is missing or falsy ([null], [false], [0]; the empty string is
    [string_id] of it), a string, or a truthy value that is no string (a
    number, [true], an array or an object), of which [shown] is what a
    template literal makes, [None] when it cannot be made a string. *)
Inductive TreeIdValue : Type :=
| no_id
| string_id (s : string)
| other_id (shown : option string).

(** The body of a request to [/recommend], an object as [express.json()]
    leaves it: [None] for [answers] that are missing or no array. The
    elements of an [answers] array are taken at their declared type
    [Answer], as the engine takes them. *)
Record RecommendBody : Type := {
  treeId : TreeIdValue;
  answers : option (list Answer)
}.

Section Any.
Variable Any : Type.
Variable ofString : string -> Any.
Variable numberToString : Exact.number -> string.

(** A response: the status ([res.json] alone leaves 200) and the body. *)
Definition Response (T : Type) : Type := (nat * APIResponse Any T)%type.

(** The [catch] block of every route. [handleError] always fills
    [error], so [errorResponse.error!.code] is read from it. *)
Definition respondError {T} (env : Env) (error : Caught Any) : Response T :=
  let errorResponse : APIResponse Any T := handleError ofString env error in
  match api_error errorResponse with
  | Some e => (getStatusCode (e_code e), errorResponse)
  | None => (500%nat, errorResponse)
  end.

(** [GET /trees]. *)
Definition getTrees (env : Env) (held : JsMap DecisionTree)
  : Response GetTreesResponse :=
  let allTrees := getAllTrees held in
  (200%nat,
   createSuccessResponse env
     {| trees :=
          map (fun tree =>
                 {| s_id := t_id tree;
                    s_title := t_title tree;
                    s_description := t_description tree;
                    questionCount := List.length (questions tree);
                    estimatedTime :=
                      estimateTime (List.length (questions tree)) |})
              allTrees |}).

(** [GET /trees/:id]. *)
Definition getTreeById (env : Env) (trees : JsMap DecisionTree) (id : string)
  : Response DecisionTree :=
  match getTree trees id with
  | Returned tree => (200%nat, createSuccessResponse env tree)
  | Thrown e => respondError env (caught Any "AppError" e)
  end.

(** The answer to a request without a [treeId] or an [answers] array. *)
Definition invalidRequest {T} (env : Env) : Response T :=
  (400%nat,
   createErrorResponse env VALIDATION_ERROR
     "Invalid request: treeId and answers array required" None None).

(** [POST /recommend]. A truthy [treeId] that is no string finds no
    tree, the keys of the map being strings, and
    [throwError.treeNotFound] makes a string of it or throws a
    [TypeError]. *)
Definition recommend (env : Env) (trees : JsMap DecisionTree)
    (body : RecommendBody) : Response Exact.RecommendationResult :=
  match answers body with
  | None => invalidRequest env
  | Some answers =>
      match treeId body with
      | no_id => invalidRequest env
      | string_id id =>
          if truthy id then
            match getTree trees id with
            | Thrown e => respondError env (caught Any "AppError" e)
            | Returned tree =>
                match Exact.calculate numberToString tree answers with
                | Thrown e => respondError env (caught Any "Error" e)
                | Returned result =>
                    (200%nat, createSuccessResponse env result)
                end
            end
          else invalidRequest env
      | other_id (Some text) =>
          respondError env (caught Any "AppError" (treeNotFound text))
      | other_id None =>
          respondError env (caught Any "TypeError" notPrimitive)
      end
  end.

End Any.

Arguments respondError {Any} ofString {T} env error.
Arguments invalidRequest {Any T} env.
Arguments getTreeById {Any} ofString env trees id.
Arguments recommend {Any} ofString numberToString env trees body.


End Routes.

(** ** Vocabulary for the properties of the service and the routes *)

Module ServiceSpec.
Import DecisionTreeValidator ErrorHandler DecisionTreeService Routes ValidData.

(** [loadTrees] takes the tree [t] from the file [f]: a JSON file that
    parses to a tree the validator accepts. *)
Definition Loads (scoreImbalances : DecisionTree -> list string)
    (f : TreeFile) (t : DecisionTree) : Prop :=
  endsWith (fileName f) ".json" = true
  /\ exists raw,
       parsed f = Some raw
       /\ isValid (validate scoreImbalances raw) = true
       /\ t = asDecisionTree raw.

(** [t] is the tree of the last file of [files] that loads a tree with
    the id [id]. *)
Definition LastLoaded (scoreImbalances : DecisionTree -> list string)
    (files : list TreeFile) (id : string) (t : DecisionTree) : Prop :=
  exists before f after,
    files = before ++ f :: after
    /\ Loads scoreImbalances f t
    /\ t_id t = id
    /\ forall f' t', In f' after -> Loads scoreImbalances f' t' ->
                     t_id t' <> id.

(** The codes [/recommend] answers with over the trees of the service. *)
Definition served_codes : list ErrorCode :=
  [VALIDATION_ERROR; TREE_NOT_FOUND; MISSING_ANSWERS; INVALID_ANSWER_PATH;
   OPTION_NOT_FOUND; NO_RECOMMENDATION].

(** The messages [handleError] writes itself. *)
Definition fixed_messages : list string :=
  ["Validation failed"; "A record with this identifier already exists";
   "Database error occurred"; "An unexpected error occurred"].

(** The body names a tree and brings an answers array. *)
Definition okBody (body : RecommendBody) (id : string) (answers : list Answer)
  : Prop :=
  treeId body = string_id id /\ truthy id = true
  /\ Routes.answers body = Some answers.

(** The response to an error that carries no code. *)
Definition unexpected {Any} (ofString : string -> Any) (env : Env)
    (name : string) (e : JsError) : Response Any Exact.RecommendationResult :=
  (500%nat,
   createErrorResponse env INTERNAL_ERROR "An unexpected error occurred"
     (developmentMessage ofString env (caught Any name e)) None).

(** The same error with another message. *)
Definition with_message {Any} (error : Caught Any) (message : string)
  : Caught Any :=
  {| caught_name := caught_name error;
     caught_message := message;
     caught_code := caught_code error;
     caught_details := caught_details error;
     caught_errors := caught_errors error;
     caught_keyValue := caught_keyValue error |}.

(** What a summary of [/trees] says of a tree. *)
Definition Summarises (s : TreeSummary) (t : DecisionTree) : Prop :=
  s_id s = t_id t
  /\ s_title s = t_title t
  /\ s_description s = t_description t
  /\ questionCount s = List.length (questions t)
  /\ estimatedTime s = estimateTime (List.length (questions t)).

Definition mockFile : TreeFile :=
  {| fileName := "test-tree.json"; parsed := Some (Some rawMockTree) |}.

Definition production : Env :=
  {| now := "2024-01-01T00:00:00.000Z"; API_VERSION := None;
     NODE_ENV := Some "production" |}.

End ServiceSpec.

(* ===================================================================== *)
(** * Facts about the JavaScript values                                  *)
(* ===================================================================== *)

Module JsFacts.

Section Objects.
Context {V : Type}.
Implicit Types (o : JsObj V) (k : string) (v : V).

Lemma js_get_app o1 o2 k :
  js_get (o1 ++ o2) k =
  match js_get o1 k with Some v => Some v | None => js_get o2 k end.
Proof.
  induction o1 as [|[k1 v1] o1 IH]; simpl; [reflexivity|].
  destruct (k1 =? k)%string; auto.
Qed.

Lemma js_get_replace o k v k' :
  js_get o k <> None ->
  js_get (js_replace o k v) k' =
  if (k =? k')%string then Some v else js_get o k'.
Proof.
  induction o as [|[k1 v1] o IH]; simpl; [congruence|].
  intros Hk. destruct (String.eqb_spec k1 k) as [->|Hne]; simpl.
  - destruct (k =? k')%string; reflexivity.
  - rewrite IH by exact Hk.
    destruct (String.eqb_spec k1 k'), (String.eqb_spec k k'); congruence.
Qed.

Lemma js_get_insert_index o i k v k' :
  js_get o k = None ->
  js_get (js_insert_index o i k v) k' =
  if (k =? k')%string then Some v else js_get o k'.
Proof.
  induction o as [|[k1 v1] o IH]; simpl; [reflexivity|].
  destruct (String.eqb_spec k1 k) as [->|Hne]; [discriminate|].
  intros Hk.
  destruct (arrayIndex k1) as [j|]; [destruct (i <? j)%N|]; simpl;
    try reflexivity.
  rewrite IH by exact Hk.
  destruct (String.eqb_spec k1 k'), (String.eqb_spec k k'); congruence.
Qed.

(** Reading after writing. *)
Lemma js_get_set o k v k' :
  js_get (js_set o k v) k' =
  if (k =? k')%string then Some v else js_get o k'.
Proof.
  unfold js_set, js_has.
  destruct (js_get o k) as [v0|] eqn:Hk.
  - apply js_get_replace. congruence.
  - destruct (arrayIndex k) as [i|].
    + apply js_get_insert_index; exact Hk.
    + rewrite js_get_app. simpl.
      destruct (String.eqb_spec k k') as [->|]; [rewrite Hk|];
        destruct (js_get o k'); reflexivity.
Qed.

Lemma js_get_Some_In o k v : js_get o k = Some v -> In (k, v) o.
Proof.
  induction o as [|[k1 v1] o IH]; simpl; [discriminate|].
  destruct (String.eqb_spec k1 k) as [->|]; intros H.
  - injection H as ->. now left.
  - right. auto.
Qed.

Lemma js_get_None_iff o k : js_get o k = None <-> ~ In k (js_keys o).
Proof.
  induction o as [|[k1 v1] o IH]; simpl; [tauto|].
  destruct (String.eqb_spec k1 k) as [->|Hne].
  - split; [discriminate|]. intros H; exfalso; apply H; now left.
  - rewrite IH. tauto.
Qed.

Lemma js_get_In_keys o k v : js_get o k = Some v -> In k (js_keys o).
Proof.
  intros H. apply js_get_Some_In in H.
  change k with (fst (k, v)). now apply in_map.
Qed.

Lemma In_keys_js_get o k : In k (js_keys o) -> exists v, js_get o k = Some v.
Proof.
  intros H. destruct (js_get o k) as [v|] eqn:E; [now exists v|].
  apply js_get_None_iff in E. contradiction.
Qed.

Lemma js_get_In_values o k v : js_get o k = Some v -> In v (js_values o).
Proof.
  intros H. apply js_get_Some_In in H.
  change v with (snd (k, v)). now apply in_map.
Qed.

(** In an object (no key twice) every listed entry is what reading
    its key gives. *)
Lemma In_js_get o k v : NoDup (js_keys o) -> In (k, v) o -> js_get o k = Some v.
Proof.
  induction o as [|[k1 v1] o IH]; simpl; [tauto|].
  intros Hnd [Heq|Hin].
  - injection Heq as -> ->. now rewrite String.eqb_refl.
  - inversion Hnd as [|? ? Hnotin Hnd']; subst.
    destruct (String.eqb_spec k1 k) as [->|]; [|auto].
    exfalso. apply Hnotin. change k with (fst (k, v)). now apply in_map.
Qed.

Lemma js_keys_replace o k v :
  js_get o k <> None -> js_keys (js_replace o k v) = js_keys o.
Proof.
  induction o as [|[k1 v1] o IH]; simpl; [congruence|].
  destruct (String.eqb_spec k1 k) as [->|]; simpl; [reflexivity|].
  intros H. now rewrite IH.
Qed.

Lemma js_keys_insert_index o i k v :
  Permutation (js_keys (js_insert_index o i k v)) (k :: js_keys o).
Proof.
  induction o as [|[k1 v1] o IH]; simpl; [reflexivity|].
  destruct (arrayIndex k1) as [j|]; [destruct (i <? j)%N|]; simpl;
    try reflexivity.
  rewrite IH. apply perm_swap.
Qed.

(** Writing a key adds it when it is new and changes no other key. *)
Lemma js_keys_set o k v :
  Permutation (js_keys (js_set o k v))
              (if js_has o k then js_keys o else k :: js_keys o).
Proof.
  unfold js_set, js_has.
  destruct (js_get o k) as [v0|] eqn:Hk.
  - rewrite js_keys_replace by congruence. reflexivity.
  - destruct (arrayIndex k) as [i|].
    + apply js_keys_insert_index.
    + unfold js_keys. rewrite map_app. simpl.
      symmetry. apply Permutation_cons_append.
Qed.

Lemma js_set_NoDup o k v :
  NoDup (js_keys o) -> NoDup (js_keys (js_set o k v)).
Proof.
  intros Hnd.
  eapply Permutation_NoDup; [symmetry; apply js_keys_set|].
  unfold js_has. destruct (js_get o k) eqn:Hk; [exact Hnd|].
  constructor; [|exact Hnd]. now apply js_get_None_iff.
Qed.

End Objects.

Section MaxFacts.

Lemma Math_max_fold xs acc :
  fold_left
    (fun acc x => Some match acc with None => x | Some a => Z.max a x end)
    xs (Some acc)
  = Some (fold_left Z.max xs acc).
Proof.
  revert acc. induction xs as [|x xs IH]; intros acc; simpl; [reflexivity|].
  apply IH.
Qed.

Lemma fold_max_ge xs acc : acc <= fold_left Z.max xs acc.
Proof.
  revert acc. induction xs as [|x xs IH]; intros acc; simpl; [lia|].
  specialize (IH (Z.max acc x)). lia.
Qed.

Lemma fold_max_upper xs acc v : In v xs -> v <= fold_left Z.max xs acc.
Proof.
  revert acc. induction xs as [|x xs IH]; intros acc; simpl; [tauto|].
  intros [->|Hin]; [|now apply IH].
  pose proof (fold_max_ge xs (Z.max acc v)). lia.
Qed.

Lemma fold_max_attained xs acc :
  fold_left Z.max xs acc = acc \/ In (fold_left Z.max xs acc) xs.
Proof.
  revert acc. induction xs as [|x xs IH]; intros acc; simpl; [now left|].
  destruct (IH (Z.max acc x)) as [H|H]; [|now right; right].
  rewrite H. destruct (Z.max_spec acc x) as [[_ ->]|[_ ->]]; auto.
Qed.

Lemma Math_max_cons x xs : Math_max (x :: xs) = Some (fold_left Z.max xs x).
Proof. unfold Math_max. simpl. apply Math_max_fold. Qed.

Lemma Math_max_nil : Math_max [] = None.
Proof. reflexivity. Qed.

(** [Math.max] of a non-empty call is an argument that bounds the
    others. *)
Lemma Math_max_spec xs m :
  Math_max xs = Some m <-> In m xs /\ forall v, In v xs -> v <= m.
Proof.
  destruct xs as [|x xs].
  - rewrite Math_max_nil. split; [discriminate|]. intros [[] _].
  - rewrite Math_max_cons. split.
    + intros H. injection H as <-. split.
      * destruct (fold_max_attained xs x) as [->|H]; [now left|now right].
      * intros v [->|Hin]; [apply fold_max_ge|now apply fold_max_upper].
    + intros [Hin Hub]. f_equal.
      assert (Hle : fold_left Z.max xs x <= m).
      { destruct (fold_max_attained xs x) as [->|H];
          apply Hub; [now left|now right]. }
      assert (Hge : m <= fold_left Z.max xs x).
      { destruct Hin as [->|Hin];
          [apply fold_max_ge|now apply fold_max_upper]. }
      lia.
Qed.

Lemma Math_max_nonempty xs : xs <> [] -> exists m, Math_max xs = Some m.
Proof.
  destruct xs as [|x xs]; [congruence|]. intros _.
  rewrite Math_max_cons. eauto.
Qed.

End MaxFacts.

End JsFacts.

(** ** The order of the default sort *)

Module SortFacts.
Import Spec.

Lemma ascii_compare_lt_trans a b c :
  Ascii.compare a b = Lt -> Ascii.compare b c = Lt -> Ascii.compare a c = Lt.
Proof.
  unfold Ascii.compare. rewrite !N.compare_lt_iff. lia.
Qed.

Lemma compare_lt_trans s1 : forall s2 s3,
  String.compare s1 s2 = Lt -> String.compare s2 s3 = Lt ->
  String.compare s1 s3 = Lt.
Proof.
  induction s1 as [|a s1 IH]; intros [|b s2] [|c s3]; simpl;
    try discriminate; try reflexivity.
  destruct (Ascii.compare a b) eqn:Hab; try discriminate;
    destruct (Ascii.compare b c) eqn:Hbc; try discriminate; intros H1 H2.
  - apply Ascii.compare_eq_iff in Hab, Hbc. subst.
    replace (Ascii.compare c c) with Eq
      by (symmetry; unfold Ascii.compare; apply N.compare_refl).
    eauto.
  - apply Ascii.compare_eq_iff in Hab. subst. now rewrite Hbc.
  - apply Ascii.compare_eq_iff in Hbc. subst. now rewrite Hab.
  - now rewrite (ascii_compare_lt_trans _ _ _ Hab Hbc).
Qed.

Lemma compare_refl s : String.compare s s = Eq.
Proof.
  induction s as [|a s IH]; simpl; [reflexivity|].
  unfold Ascii.compare. now rewrite N.compare_refl.
Qed.

Lemma le_refl s : code_unit_le s s.
Proof. unfold code_unit_le, String.leb. now rewrite compare_refl. Qed.

Lemma le_trans a b c : code_unit_le a b -> code_unit_le b c -> code_unit_le a c.
Proof.
  unfold code_unit_le, String.leb.
  destruct (String.compare a b) eqn:Hab; try discriminate;
    destruct (String.compare b c) eqn:Hbc; try discriminate; intros _ _.
  - apply String.compare_eq_iff in Hab, Hbc. subst. now rewrite compare_refl.
  - apply String.compare_eq_iff in Hab. subst. now rewrite Hbc.
  - apply String.compare_eq_iff in Hbc. subst. now rewrite Hab.
  - now rewrite (compare_lt_trans _ _ _ Hab Hbc).
Qed.

Lemma le_total a b : code_unit_le a b \/ code_unit_le b a.
Proof. apply String.leb_total. Qed.

Lemma le_antisym a b : code_unit_le a b -> code_unit_le b a -> a = b.
Proof. apply String.leb_antisym. Qed.

Lemma sort_insert_perm x xs : Permutation (sort_insert x xs) (x :: xs).
Proof.
  induction xs as [|y r IH]; simpl; [reflexivity|].
  destruct (x <=? y)%string; [reflexivity|].
  rewrite IH. apply perm_swap.
Qed.

(** The sort rearranges its argument. *)
Lemma sort_perm xs : Permutation (Js.sort xs) xs.
Proof.
  induction xs as [|x r IH]; simpl; [reflexivity|].
  rewrite sort_insert_perm. now constructor.
Qed.

Lemma sort_insert_sorted x xs :
  StronglySorted code_unit_le xs -> StronglySorted code_unit_le (sort_insert x xs).
Proof.
  induction 1 as [|y r Hs IH Hall]; simpl.
  - repeat constructor.
  - destruct (x <=? y)%string eqn:Hxy.
    + constructor; [now constructor|].
      constructor; [exact Hxy|].
      eapply Forall_impl; [|exact Hall].
      intros z Hz. eapply le_trans; eassumption.
    + constructor; [exact IH|].
      assert (Hyx : code_unit_le y x).
      { destruct (le_total x y) as [H|H]; [unfold code_unit_le in H; congruence|exact H]. }
      rewrite Forall_forall in *. intros z Hz.
      apply (Permutation_in _ (sort_insert_perm x r)) in Hz.
      destruct Hz as [<-|Hz]; auto.
Qed.

(** The sort leaves an ascending list. *)
Lemma sort_sorted xs : StronglySorted code_unit_le (Js.sort xs).
Proof.
  induction xs as [|x r IH]; simpl; [constructor|].
  now apply sort_insert_sorted.
Qed.

(** The first element of the sorted array is a least element of the
    array. *)
Lemma sort_hd_least d xs :
  xs <> [] ->
  In (hd d (Js.sort xs)) xs /\ forall y, In y xs -> code_unit_le (hd d (Js.sort xs)) y.
Proof.
  intros Hne.
  pose proof (sort_perm xs) as Hp. pose proof (sort_sorted xs) as Hs.
  destruct (Js.sort xs) as [|m r] eqn:E.
  - apply Permutation_nil in Hp. congruence.
  - simpl. split.
    + apply (Permutation_in _ Hp). now left.
    + intros y Hy. apply (Permutation_in _ (Permutation_sym Hp)) in Hy.
      inversion Hs as [|? ? _ Hall]; subst.
      destruct Hy as [<-|Hy]; [apply le_refl|].
      rewrite Forall_forall in Hall. auto.
Qed.

End SortFacts.

(* ===================================================================== *)
(** * Path validation                                                    *)
(* ===================================================================== *)

Module PathFacts.
Import RecommendationEngine Spec JsFacts.

Lemma is_expected_same s : is_expected s (Some s) = true.
Proof. simpl. apply String.eqb_refl. Qed.

Lemma is_expected_iff s e : is_expected s e = true <-> e = Some s.
Proof.
  destruct e as [x|]; simpl; [|split; discriminate].
  rewrite String.eqb_eq. split; congruence.
Qed.

(** Nothing can be answered once nothing is expected. *)
Lemma Steps_from_null tree answers os e' :
  Steps tree None answers os e' -> answers = [] /\ os = [] /\ e' = None.
Proof. inversion 1; subst; [auto|discriminate]. Qed.

(** The loop follows the steps and leaves with what the last selected
    option expects next. *)
Lemma loop_follows_Steps tree e answers os e' :
  Steps tree e answers os e' ->
  forall i,
    validateAnswerPath_loop (questionMap tree) e i answers = Returned e'.
Proof.
  induction 1 as [e|e answer question option rest os e' He Hq Ho Hrest IH];
    intros i; simpl; [reflexivity|].
  subst e. rewrite is_expected_same. simpl. rewrite Hq, Ho.
  destruct (nextQuestionId option) as [next|] eqn:Hnext; [apply IH|].
  apply Steps_from_null in Hrest. destruct Hrest as (_ & _ & ->). reflexivity.
Qed.

(** Once a terminal option is selected the loop is left: whatever
    follows in the array is not looked at. *)
Lemma loop_ignores_trailing tree e answers os trailing :
  Steps tree e answers os None -> answers <> [] ->
  forall i,
    validateAnswerPath_loop (questionMap tree) e i (answers ++ trailing)
    = Returned None.
Proof.
  intros Hs. remember None as e' eqn:He'. revert He'.
  induction Hs as [e|e answer question option rest os e' He Hq Ho Hrest IH];
    intros He' Hne i; [congruence|]. subst e e'. simpl.
  rewrite String.eqb_refl. simpl. rewrite Hq, Ho.
  destruct (nextQuestionId option) as [next|] eqn:Hnext; [|reflexivity].
  apply IH; [reflexivity|].
  intros ->. inversion Hrest.
Qed.

Lemma validateAnswerPath_nonempty tree answers :
  answers <> [] ->
  validateAnswerPath tree answers =
  (expectedQuestionId <-
     validateAnswerPath_loop (questionMap tree) (entryQuestionId tree)
       0 answers ;;
   match expectedQuestionId with
   | Some _ =>
       Thrown (createError INVALID_ANSWER_PATH
         "Answer path did not reach a valid end node")
   | None => Returned tt
   end).
Proof. destruct answers; [congruence|reflexivity]. Qed.

Lemma validateAnswerPath_LegalWalk tree answers os :
  LegalWalk tree answers os -> validateAnswerPath tree answers = Returned tt.
Proof.
  intros [Hne Hs]. rewrite validateAnswerPath_nonempty by exact Hne.
  now rewrite (loop_follows_Steps Hs).
Qed.

Lemma validateAnswerPath_trailing tree answers os trailing :
  LegalWalk tree answers os ->
  validateAnswerPath tree (answers ++ trailing) = Returned tt.
Proof.
  intros [Hne Hs]. rewrite validateAnswerPath_nonempty.
  - now rewrite (loop_ignores_trailing trailing Hs Hne).
  - destruct answers; [congruence|discriminate].
Qed.

Lemma validateAnswerPath_OpenWalk tree answers os next :
  OpenWalk tree answers os next ->
  validateAnswerPath tree answers =
  Thrown (createError INVALID_ANSWER_PATH
            "Answer path did not reach a valid end node").
Proof.
  intros [Hne Hs]. rewrite validateAnswerPath_nonempty by exact Hne.
  now rewrite (loop_follows_Steps Hs).
Qed.

(** An entry question whose id is the empty string is never expected:
    every non-empty answer list is then rejected at position 0. *)
Lemma entry_without_id_rejects tree answer rest :
  entryQuestionId tree = None ->
  validateAnswerPath tree (answer :: rest) =
  Thrown (createError INVALID_ANSWER_PATH
            ("Expected question null but got " ++ questionId answer
             ++ " at position 0")%string).
Proof. intros H. unfold validateAnswerPath. simpl. now rewrite H. Qed.

End PathFacts.

(* ===================================================================== *)
(** * Score accumulation                                                 *)
(* ===================================================================== *)

Module ScoreFacts.
Import RecommendationEngine Spec JsFacts.

Lemma addPoints_get acc tech points k :
  js_get (addPoints acc (tech, points)) k =
  if (tech =? k)%string then Some (or_zero (js_get acc tech) + points)
  else js_get acc k.
Proof. unfold addPoints. now rewrite js_get_set. Qed.

Lemma points_for_unmentioned k es :
  mentioned k es = false -> points_for k es = 0.
Proof.
  induction es as [|[tech points] es IH]; simpl; [reflexivity|].
  destruct (tech =? k)%string; simpl; [discriminate|]. intros H. now rewrite IH.
Qed.

(** Adding a list of contributions to a running total. *)
Lemma fold_addPoints_get es : forall acc k,
  js_get (fold_left addPoints es acc) k =
  if mentioned k es then Some (or_zero (js_get acc k) + points_for k es)
  else js_get acc k.
Proof.
  induction es as [|[tech points] es IH]; intros acc k; [reflexivity|].
  cbn [fold_left mentioned existsb points_for fst].
  fold (mentioned k es). rewrite IH, addPoints_get.
  destruct (String.eqb_spec tech k) as [->|Hne]; cbn [orb or_zero].
  - destruct (mentioned k es) eqn:Hm; f_equal; [lia|].
    rewrite (points_for_unmentioned _ _ Hm). lia.
  - destruct (mentioned k es); [f_equal; lia|reflexivity].
Qed.

Lemma fold_addPoints_NoDup es : forall acc,
  NoDup (js_keys acc) -> NoDup (js_keys (fold_left addPoints es acc)).
Proof.
  induction es as [|[tech points] es IH]; intros acc Hnd; [exact Hnd|].
  simpl. apply IH. now apply js_set_NoDup.
Qed.

Lemma scoreAnswer_NoDup qm acc answer :
  NoDup (js_keys acc) -> NoDup (js_keys (scoreAnswer qm acc answer)).
Proof.
  intros Hnd. unfold scoreAnswer.
  destruct (Map_get qm (questionId answer)) as [question|]; [|exact Hnd].
  destruct (findOption question (optionId answer)) as [option|]; [|exact Hnd].
  now apply fold_addPoints_NoDup.
Qed.

Lemma fold_scoreAnswer_NoDup qm answers : forall acc,
  NoDup (js_keys acc) ->
  NoDup (js_keys (fold_left (scoreAnswer qm) answers acc)).
Proof.
  induction answers as [|a answers IH]; intros acc Hnd; [exact Hnd|].
  simpl. apply IH. now apply scoreAnswer_NoDup.
Qed.

(** The accumulated scores are an object: no key is listed twice. *)
Lemma calculateScores_NoDup tree answers :
  NoDup (js_keys (calculateScores tree answers)).
Proof. apply fold_scoreAnswer_NoDup. constructor. Qed.

(** Along a walk the loop adds exactly the contributions of the
    selected options. *)
Lemma fold_scoreAnswer_Steps tree e answers os e' :
  Steps tree e answers os e' ->
  forall acc,
    fold_left (scoreAnswer (questionMap tree)) answers acc =
    fold_left addPoints (contributions os) acc.
Proof.
  induction 1 as [e|e answer question option rest os e' He Hq Ho Hrest IH];
    intros acc; [reflexivity|].
  cbn [fold_left contributions flat_map]. rewrite fold_left_app.
  fold (contributions os). rewrite <- IH.
  unfold scoreAnswer at 2. now rewrite Hq, Ho.
Qed.

(** The loop of [calculateScores] runs over the whole array: answers
    after a terminal step are scored like the others. *)
Lemma calculateScores_app tree answers trailing :
  calculateScores tree (answers ++ trailing) =
  fold_left (scoreAnswer (questionMap tree)) trailing
            (calculateScores tree answers).
Proof. unfold calculateScores. apply fold_left_app. Qed.

Lemma calculateScores_LegalWalk tree answers os :
  LegalWalk tree answers os ->
  forall tech,
    js_get (calculateScores tree answers) tech =
    if mentioned tech (contributions os)
    then Some (points_for tech (contributions os))
    else None.
Proof.
  intros [_ Hs] tech. unfold calculateScores.
  rewrite (fold_scoreAnswer_Steps Hs), fold_addPoints_get. reflexivity.
Qed.

Lemma calculateScores_empty_iff tree answers os :
  LegalWalk tree answers os ->
  (calculateScores tree answers = [] <-> contributions os = []).
Proof.
  intros Hw. pose proof (calculateScores_LegalWalk Hw) as Hget. split.
  - intros Hnil. destruct (contributions os) as [|[k p] es] eqn:E; [reflexivity|].
    specialize (Hget k). rewrite Hnil in Hget. simpl in Hget.
    rewrite String.eqb_refl in Hget. discriminate.
  - intros Hnil. rewrite Hnil in Hget.
    destruct (calculateScores tree answers) as [|[k v] r]; [reflexivity|].
    specialize (Hget k). simpl in Hget.
    rewrite String.eqb_refl in Hget. discriminate.
Qed.

End ScoreFacts.

(* ===================================================================== *)
(** * Winner determination and tie-break                                 *)
(* ===================================================================== *)

Module WinnerFacts.
Import RecommendationEngine Spec JsFacts SortFacts.

Lemma is_max_Some v m : is_max v (Some m) = true <-> v = Some m.
Proof.
  destruct v as [a|]; simpl; [|split; discriminate].
  rewrite Z.eqb_eq. split; congruence.
Qed.

Lemma is_maximum_Math_max scores m :
  is_maximum scores m <-> Math_max (js_values scores) = Some m.
Proof. unfold is_maximum. symmetry. apply Math_max_spec. Qed.

Lemma winnersOf_tied scores m :
  is_maximum scores m -> winnersOf scores = tied_at scores m.
Proof.
  intros H. apply is_maximum_Math_max in H.
  unfold winnersOf, tied_at. now rewrite H.
Qed.

Lemma In_tied_at scores m k :
  In k (tied_at scores m) <-> js_get scores k = Some m.
Proof.
  unfold tied_at. rewrite filter_In, is_max_Some. split; [tauto|].
  intros H. split; [|exact H]. eapply js_get_In_keys; eassumption.
Qed.

(** Some key holds the largest value, provided the mapping is an
    object. *)
Lemma tied_at_nonempty scores m :
  NoDup (js_keys scores) -> is_maximum scores m -> tied_at scores m <> [].
Proof.
  intros Hnd [Hin _]. unfold js_values in Hin.
  apply in_map_iff in Hin. destruct Hin as ([k v] & Hv & Hin).
  simpl in Hv. subst v.
  apply (In_js_get _ _ _ Hnd), In_tied_at in Hin.
  intros E. rewrite E in Hin. exact Hin.
Qed.

Lemma nonempty_has_maximum (scores : JsObj Z) :
  scores <> [] -> exists m, is_maximum scores m.
Proof.
  intros Hne. destruct (Math_max_nonempty (xs := js_values scores)) as [m Hm].
  - destruct scores; [congruence|discriminate].
  - exists m. now apply is_maximum_Math_max.
Qed.

Lemma winners_nonempty scores :
  NoDup (js_keys scores) -> scores <> [] -> winnersOf scores <> [].
Proof.
  intros Hnd Hne. destruct (nonempty_has_maximum Hne) as [m Hm].
  rewrite (winnersOf_tied Hm). now apply tied_at_nonempty.
Qed.

(** Both strategies pick among the tied keys. *)
Lemma breakTie_In tied scores tree :
  tied <> [] -> In (fst (breakTie tied scores tree)) tied.
Proof.
  intros Hne. unfold breakTie.
  destruct (filter (has_result tree) tied) as [|w [|w' r]] eqn:E; simpl;
    try (apply (sort_hd_least "undefined" Hne)).
  assert (Hin : In w (filter (has_result tree) tied)) by (rewrite E; now left).
  apply filter_In in Hin. tauto.
Qed.

Lemma determineWinner_empty tree :
  determineWinner [] tree =
  Thrown (createError NO_RECOMMENDATION "No technologies scored any points").
Proof. reflexivity. Qed.

Lemma determineWinner_nonempty scores tree :
  scores <> [] ->
  determineWinner scores tree =
  match winnersOf scores with
  | [w] => Returned (w, None)
  | winners =>
      Returned (fst (breakTie winners scores tree),
                Some (snd (breakTie winners scores tree)))
  end.
Proof.
  intros Hne. unfold determineWinner.
  destruct scores as [|e scores]; [congruence|]. cbn [js_keys map List.length Nat.eqb].
  destruct (winnersOf (e :: scores)) as [|w [|w' r]]; try reflexivity;
    now destruct (breakTie _ _ _).
Qed.

(** Whoever wins is one of the keys holding the maximum. *)
Lemma determineWinner_In scores tree w tb :
  NoDup (js_keys scores) ->
  determineWinner scores tree = Returned (w, tb) ->
  scores <> [] /\ In w (winnersOf scores).
Proof.
  intros Hnd H.
  assert (Hne : scores <> []).
  { intros ->. rewrite determineWinner_empty in H. discriminate. }
  split; [exact Hne|].
  rewrite (determineWinner_nonempty tree Hne) in H.
  pose proof (winners_nonempty Hnd Hne) as Hw.
  destruct (winnersOf scores) as [|w1 [|w2 r]] eqn:E; [congruence| |].
  - injection H as <- _. now left.
  - injection H as <- _. apply breakTie_In. discriminate.
Qed.

Lemma calculate_Returned tree answers r :
  calculate tree answers = Returned r ->
  validateAnswerPath tree answers = Returned tt
  /\ r_scores r = calculateScores tree answers
  /\ determineWinner (calculateScores tree answers) tree
     = Returned (recommendation r, tieBreaker r)
  /\ confidence r
     = calculateConfidence (calculateScores tree answers) (recommendation r)
  /\ js_get (results tree) (recommendation r) = Some (result r)
  /\ r_answers r = answers.
Proof.
  unfold calculate.
  destruct (validateAnswerPath tree answers) as [[]|e]; simpl; [|discriminate].
  destruct (determineWinner (calculateScores tree answers) tree)
    as [[w tb]|e]; simpl; [|discriminate].
  destruct (js_get (results tree) w) as [res|] eqn:Hres; [|discriminate].
  intros H. injection H as <-. simpl. repeat split; auto.
Qed.

End WinnerFacts.

(* ===================================================================== *)
(** * Confidence                                                         *)
(* ===================================================================== *)

Module ConfidenceFacts.
Import RecommendationEngine Spec JsFacts WinnerFacts.

Lemma Math_max_with_zero xs :
  Math_max (xs ++ [0]) =
  Some (Z.max 0 match Math_max xs with Some m => m | None => 0 end).
Proof.
  destruct xs as [|x r]; [reflexivity|].
  rewrite <- app_comm_cons, !Math_max_cons, fold_left_app. simpl.
  f_equal. apply Z.max_comm.
Qed.

(** The filter of the source and the competitors of the specification
    are the same list. *)
Lemma otherScores_competitors scores winnerScore :
  filter (fun s =>
            negb (s =? winnerScore)
            || Nat.ltb 1 (List.length (filter (fun sv => sv =? winnerScore)
                                              (js_values scores))))
         (js_values scores)
  = competitors scores winnerScore.
Proof. reflexivity. Qed.

Lemma calculateConfidence_eq scores winner winnerScore :
  js_get scores winner = Some winnerScore ->
  calculateConfidence scores winner =
  classify (winnerScore
            - Z.max 0 (claimed_secondHighest scores winnerScore)).
Proof.
  intros Hw. unfold calculateConfidence. rewrite Hw.
  rewrite otherScores_competitors, Math_max_with_zero. reflexivity.
Qed.

(** In an object the entries holding [m] are as many as the keys that
    read [m]. *)
Lemma tied_keys_entries (o o' : JsObj Z) m :
  (forall k v, In (k, v) o -> js_get o' k = Some v) ->
  filter (fun k => is_max (js_get o' k) (Some m)) (js_keys o)
  = map fst (filter (fun e => snd e =? m) o).
Proof.
  induction o as [|[k v] o IH]; intros Hget; [reflexivity|].
  cbn [js_keys map filter fst snd].
  rewrite (Hget k v) by now left. cbn [is_max].
  fold (js_keys o). rewrite IH by (intros; apply Hget; now right).
  now destruct (v =? m).
Qed.

Lemma filter_values (o : JsObj Z) m :
  filter (fun sv => sv =? m) (js_values o)
  = map snd (filter (fun e => snd e =? m) o).
Proof.
  induction o as [|[k v] o IH]; [reflexivity|].
  cbn [js_values map filter snd]. fold (js_values o). rewrite IH.
  now destruct (v =? m).
Qed.

Lemma count_tied scores m :
  NoDup (js_keys scores) ->
  List.length (filter (fun sv => sv =? m) (js_values scores))
  = List.length (tied_at scores m).
Proof.
  intros Hnd. unfold tied_at.
  rewrite (@tied_keys_entries scores scores m)
    by (intros; now apply In_js_get).
  now rewrite filter_values, !length_map.
Qed.

Lemma competitors_all scores m :
  2 <= Z.of_nat (List.length (filter (fun sv => sv =? m) (js_values scores))) ->
  competitors scores m = js_values scores.
Proof.
  intros H. unfold competitors.
  assert (E : Nat.leb 2 (List.length (filter (fun sv => sv =? m)
                                             (js_values scores))) = true)
    by (apply Nat.leb_le; lia).
  rewrite E. clear.
  induction (js_values scores) as [|v vs IH]; [reflexivity|].
  simpl. rewrite orb_true_r. now f_equal.
Qed.

(** A score shared at the top competes with itself. *)
Lemma calculateConfidence_tie scores m w :
  NoDup (js_keys scores) ->
  is_maximum scores m ->
  (2 <= List.length (tied_at scores m))%nat ->
  In w (tied_at scores m) ->
  calculateConfidence scores w = low.
Proof.
  intros Hnd Hmax Htie Hw.
  apply In_tied_at in Hw. rewrite (calculateConfidence_eq _ _ Hw).
  unfold claimed_secondHighest.
  rewrite competitors_all by (rewrite count_tied by exact Hnd; lia).
  apply is_maximum_Math_max in Hmax. rewrite Hmax.
  unfold classify.
  destruct (Z.leb_spec 5 (m - Z.max 0 m)); [lia|].
  destruct (Z.leb_spec 2 (m - Z.max 0 m)); [lia|reflexivity].
Qed.

End ConfidenceFacts.

(* ===================================================================== *)
(** * The three ways [calculate] ends once the path is accepted          *)
(* ===================================================================== *)

Module CalculateFacts.
Import RecommendationEngine Spec JsFacts WinnerFacts ScoreFacts.

Lemma determineWinner_total scores tree :
  scores <> [] -> exists w tb, determineWinner scores tree = Returned (w, tb).
Proof.
  intros Hne. rewrite (determineWinner_nonempty tree Hne).
  destruct (winnersOf scores) as [|w [|w' r]]; eauto.
Qed.

Lemma calculate_cases tree answers :
  validateAnswerPath tree answers = Returned tt ->
  let scores := calculateScores tree answers in
  (scores = [] /\ calculate tree answers = Thrown no_recommendation)
  \/ (exists w tb,
        determineWinner scores tree = Returned (w, tb)
        /\ In w (winnersOf scores)
        /\ ((js_get (results tree) w = None
             /\ calculate tree answers = Thrown (result_not_found w))
            \/ (exists res,
                  js_get (results tree) w = Some res
                  /\ calculate tree answers =
                     Returned {| recommendation := w;
                                 r_scores := scores;
                                 result := res;
                                 r_answers := answers;
                                 tieBreaker := tb;
                                 confidence := calculateConfidence scores w |}))).
Proof.
  intros Hv scores. unfold calculate. rewrite Hv. cbn [bind]. fold scores.
  destruct scores as [|e0 rest] eqn:E; [left; split; reflexivity|].
  right. rewrite <- E.
  assert (Hne : scores <> []) by (subst scores; rewrite E; discriminate).
  destruct (determineWinner_total tree Hne) as (w & tb & Hw).
  exists w, tb. rewrite Hw. cbn [bind].
  split; [reflexivity|]. split.
  - eapply determineWinner_In; [apply calculateScores_NoDup|exact Hw].
  - destruct (js_get (results tree) w) as [res|]; [right; eauto|left; auto].
Qed.

Lemma winner_is_key scores w : In w (winnersOf scores) -> In w (js_keys scores).
Proof. unfold winnersOf. rewrite filter_In. tauto. Qed.

End CalculateFacts.

(* ===================================================================== *)
(** * The claims about the recommendation engine                         *)
(* ===================================================================== *)

Module EngineClaims.
Import RecommendationEngine Spec TestData.
Import JsFacts SortFacts PathFacts ScoreFacts WinnerFacts ConfidenceFacts
       CalculateFacts.

(** C6. For every tree, [calculate] on an empty answer list throws the
    typed error [MISSING_ANSWERS] ("No answers provided"); the test on
    the length is the first statement of [validateAnswerPath], so no
    property of the tree can produce another error. *)
Theorem calculate_no_answers (tree : DecisionTree) :
  validateAnswerPath tree [] =
    Thrown (createError MISSING_ANSWERS "No answers provided")
  /\ calculate tree [] =
    Thrown {| message := "No answers provided";
              code := Some MISSING_ANSWERS |}.
Proof. split; reflexivity. Qed.

(** C7. When every answer in order names the expected question and an
    existing option of it, and the non-empty list ends while the last
    selected option still leads to a question, [calculate] throws the
    typed error [INVALID_ANSWER_PATH] with the message that the path
    did not reach a valid end node. *)
Theorem calculate_incomplete_path (tree : DecisionTree)
    (answers : list Answer) (os : list Option) (next : string) :
  OpenWalk tree answers os next ->
  calculate tree answers =
    Thrown {| message := "Answer path did not reach a valid end node";
              code := Some INVALID_ANSWER_PATH |}.
Proof.
  intros Hopen. unfold calculate.
  now rewrite (validateAnswerPath_OpenWalk Hopen).
Qed.

Lemma calculate_incomplete_path_witness :
  OpenWalk mockTree [mkAnswer "q1" "opt1"]
           [mkOption "opt1" (Some "q2") [("tech1", 3); ("tech2", 1)]] "q2"
  /\ calculate mockTree [mkAnswer "q1" "opt1"] =
       Thrown {| message := "Answer path did not reach a valid end node";
                 code := Some INVALID_ANSWER_PATH |}.
Proof.
  assert (H : OpenWalk mockTree [mkAnswer "q1" "opt1"]
           [mkOption "opt1" (Some "q2") [("tech1", 3); ("tech2", 1)]] "q2").
  { split; [discriminate|].
    eapply steps_answer; [reflexivity|reflexivity|reflexivity|].
    apply steps_done. }
  split; [exact H|].
  exact (calculate_incomplete_path H).
Defined.

Lemma silentTree_walk :
  LegalWalk silentTree [mkAnswer "q1" "opt1"] [mkOption "opt1" None []].
Proof.
  split; [discriminate|].
  eapply steps_answer; [reflexivity|reflexivity|reflexivity|].
  apply steps_done.
Qed.

(** A legal walk under [RecommendationEngine]: the path validation
    succeeds and the accumulated scores map each outcome key to the sum
    of the points the selected options give it, keys no selected option
    mentions being absent. [calculate] returns these scores whenever it
    returns; it returns when some selected option scores something and
    every scored key has a descriptor; and when it throws, it is
    [NO_RECOMMENDATION] because nothing was scored, or the untyped
    error about a scored winner without a descriptor. *)
Lemma legal_walk_scores (tree : DecisionTree) (answers : list Answer)
    (os : list Option) :
  LegalWalk tree answers os ->
  let sums := calculateScores tree answers in
  validateAnswerPath tree answers = Returned tt
  /\ (forall tech,
        js_get sums tech =
        if mentioned tech (contributions os)
        then Some (points_for tech (contributions os))
        else None)
  /\ NoDup (js_keys sums)
  /\ (forall r, calculate tree answers = Returned r -> r_scores r = sums)
  /\ (contributions os <> [] ->
      (forall tech, mentioned tech (contributions os) = true ->
                    has_result tree tech = true) ->
      exists r, calculate tree answers = Returned r)
  /\ (forall e,
        calculate tree answers = Thrown e ->
        (e = no_recommendation /\ contributions os = [])
        \/ (exists w,
              e = result_not_found w
              /\ mentioned w (contributions os) = true
              /\ js_get (results tree) w = None)).
Proof.
  intros Hw sums.
  pose proof (validateAnswerPath_LegalWalk Hw) as Hv.
  pose proof (calculateScores_LegalWalk Hw) as Hget. fold sums in Hget.
  assert (Hmentioned : forall w, In w (winnersOf sums) ->
                                 mentioned w (contributions os) = true).
  { intros w Hin. apply winner_is_key, In_keys_js_get in Hin.
    destruct Hin as [v Hv']. rewrite Hget in Hv'.
    destruct (mentioned w (contributions os)); [reflexivity|discriminate]. }
  split; [exact Hv|]. split; [exact Hget|].
  split; [apply calculateScores_NoDup|].
  destruct (calculate_cases _ _ Hv)
    as [[Hnil Hc]|(w & tb & Hdw & Hin & [[Hnone Hc]|(res & Hsome & Hc)])];
    fold sums in Hnil || fold sums in Hin; rewrite Hc.
  - split; [discriminate|]. split.
    + intros Hne _. apply (calculateScores_empty_iff Hw) in Hnil. contradiction.
    + intros e He. injection He as <-. left. split; [reflexivity|].
      now apply (calculateScores_empty_iff Hw).
  - split; [discriminate|]. split.
    + intros _ Hall. specialize (Hall w (Hmentioned w Hin)).
      unfold has_result, js_has in Hall. rewrite Hnone in Hall. discriminate.
    + intros e He. injection He as <-. right. exists w. auto.
  - split; [intros r Hr; now injection Hr as <-|]. split.
    + intros _ _. eauto.
    + discriminate.
Qed.

(** Whenever [RecommendationEngine.calculate] returns, the recommended
    key is a key of the returned scores and its score is the largest
    value of that mapping: the outright winner and both tie-break
    strategies pick among the keys holding the maximum. *)
Lemma winner_attains_maximum (tree : DecisionTree) (answers : list Answer)
    (r : RecommendationResult) :
  calculate tree answers = Returned r ->
  In (recommendation r) (js_keys (r_scores r))
  /\ exists m,
       js_get (r_scores r) (recommendation r) = Some m
       /\ is_maximum (r_scores r) m.
Proof.
  intros Hr. apply calculate_Returned in Hr.
  destruct Hr as (_ & Hs & Hw & _). rewrite Hs.
  pose proof (calculateScores_NoDup tree answers) as Hnd.
  destruct (@determineWinner_In _ _ _ _ Hnd Hw) as [Hne Hin].
  destruct (nonempty_has_maximum Hne) as [m Hm].
  split; [now apply winner_is_key|].
  exists m. split; [|exact Hm].
  rewrite (winnersOf_tied Hm) in Hin. now apply In_tied_at.
Qed.

(** *** Strings that list the tied keys *)

Lemma append_nil_r (s : string) : (s ++ EmptyString)%string = s.
Proof. induction s as [|c s IH]; simpl; [reflexivity|now rewrite IH]. Qed.

Lemma append_assoc (a b c : string) :
  ((a ++ b) ++ c)%string = (a ++ (b ++ c))%string.
Proof. induction a as [|x a IH]; simpl; [reflexivity|now rewrite IH]. Qed.

Lemma occurs_in_refl s : occurs_in s s.
Proof. exists EmptyString, EmptyString. simpl. now rewrite append_nil_r. Qed.

Lemma occurs_in_prepend s t u : occurs_in s t -> occurs_in s (u ++ t)%string.
Proof.
  intros (pre & post & ->). exists (u ++ pre)%string, post.
  now rewrite append_assoc.
Qed.

Lemma occurs_in_append s t u : occurs_in s t -> occurs_in s (t ++ u)%string.
Proof.
  intros (pre & post & ->). exists pre, (post ++ u)%string.
  now rewrite !append_assoc.
Qed.

Lemma join_occurs sep xs k : In k xs -> occurs_in k (join sep xs).
Proof.
  induction xs as [|x xs IH]; [intros []|].
  intros Hin. destruct xs as [|y xs].
  - destruct Hin as [->|[]]. apply occurs_in_refl.
  - change (join sep (x :: y :: xs))
      with (x ++ sep ++ join sep (y :: xs))%string.
    destruct Hin as [->|Hin].
    + apply occurs_in_append, occurs_in_refl.
    + apply occurs_in_prepend, occurs_in_prepend, IH, Hin.
Qed.

Lemma tie_explanation_lists tied k :
  In k tied -> occurs_in k (tie_explanation tied).
Proof.
  intros Hin. unfold tie_explanation.
  do 3 apply occurs_in_prepend. apply occurs_in_append.
  now apply join_occurs.
Qed.

Lemma tie_explanation_nonempty tied : tie_explanation tied <> EmptyString.
Proof. unfold tie_explanation. simpl. discriminate. Qed.

(** C4. When two or more outcome keys tie for the maximum score and every
    tied key has a Result descriptor, the winner is the tied key that
    comes first in ascending code-unit order, the tie-break explanation
    is attached, is not empty and lists every tied key, and the
    confidence is low; [calculate] returns this winner, explanation and
    confidence for every accepted answer list that accumulates such
    scores. For the scores [{a: 5, b: 5}] the winner is [a]. *)
Theorem tie_break_alphabetical (tree : DecisionTree) (scores : JsObj Z)
    (m : Z) :
  NoDup (js_keys scores) ->
  is_maximum scores m ->
  (2 <= List.length (tied_at scores m))%nat ->
  (forall k, In k (tied_at scores m) -> has_result tree k = true) ->
  exists winner,
    determineWinner scores tree
      = Returned (winner, Some (tie_explanation (tied_at scores m)))
    /\ In winner (tied_at scores m)
    /\ (forall k, In k (tied_at scores m) -> (winner <=? k)%string = true)
    /\ tie_explanation (tied_at scores m) <> EmptyString
    /\ (forall k, In k (tied_at scores m) ->
                  occurs_in k (tie_explanation (tied_at scores m)))
    /\ calculateConfidence scores winner = low
    /\ (forall answers,
          validateAnswerPath tree answers = Returned tt ->
          calculateScores tree answers = scores ->
          exists r,
            calculate tree answers = Returned r
            /\ recommendation r = winner
            /\ tieBreaker r = Some (tie_explanation (tied_at scores m))
            /\ confidence r = low).
Proof.
  intros Hnd Hmax Htie Hres.
  assert (Hne : scores <> []).
  { intros ->. destruct Hmax as [[] _]. }
  assert (Htied : tied_at scores m <> []).
  { intros E. rewrite E in Htie. simpl in Htie. lia. }
  destruct (sort_hd_least "undefined" Htied) as [Hin Hleast].
  set (winner := hd "undefined" (Js.sort (tied_at scores m))) in *.
  assert (Hdw : determineWinner scores tree
                = Returned (winner, Some (tie_explanation (tied_at scores m)))).
  { rewrite (determineWinner_nonempty tree Hne), (winnersOf_tied Hmax).
    subst winner.
    destruct (tied_at scores m) as [|k1 [|k2 ks]] eqn:E;
      [congruence|simpl in Htie; lia|].
    unfold breakTie.
    assert (Hall : filter (has_result tree) (k1 :: k2 :: ks) = k1 :: k2 :: ks).
    { apply forallb_filter_id, forallb_forall. exact Hres. }
    rewrite Hall. reflexivity. }
  assert (Hlow : calculateConfidence scores winner = low)
    by now apply (@calculateConfidence_tie _ _ _ Hnd Hmax Htie).
  exists winner.
  split; [exact Hdw|]. split; [exact Hin|]. split; [exact Hleast|].
  split; [apply tie_explanation_nonempty|].
  split; [intros k Hk; now apply tie_explanation_lists|].
  split; [exact Hlow|].
  intros answers Hv Hs. unfold calculate.
  rewrite Hv. cbn [bind]. rewrite Hs, Hdw. cbn [bind].
  specialize (Hres winner Hin). unfold has_result, js_has in Hres.
  destruct (js_get (results tree) winner) as [res|]; [|discriminate].
  eexists. split; [reflexivity|]. cbn. auto.
Qed.

Lemma tie_break_alphabetical_witness :
  determineWinner [("a", 5); ("b", 5)]
                  (mkTree [] [("a", mkResult "A"); ("b", mkResult "B")])
    = Returned ("a",
                Some "Tied with 2 options (a, b). Consider reviewing your requirements - both may be equally suitable.")
  /\ calculateConfidence [("a", 5); ("b", 5)] "a" = low.
Proof.
  destruct (@tie_break_alphabetical
              (mkTree [] [("a", mkResult "A"); ("b", mkResult "B")])
              [("a", 5); ("b", 5)] 5)
    as (w & Hw & _ & _ & _ & _ & Hc & _).
  - repeat constructor; simpl; intuition discriminate.
  - split; [now left|]. simpl. intros v Hv. lia.
  - simpl. lia.
  - simpl. intros k [<-|[<-|[]]]; reflexivity.
  - vm_compute in Hw. injection Hw as <-. split; [reflexivity|exact Hc].
Defined.

(** The order in which the tied keys were first scored does not matter
    to the winner, only to the order in which the explanation lists
    them. *)
Example tie_break_other_insertion_order :
  determineWinner [("b", 5); ("a", 5)]
                  (mkTree [] [("a", mkResult "A"); ("b", mkResult "B")])
    = Returned ("a",
                Some "Tied with 2 options (b, a). Consider reviewing your requirements - both may be equally suitable.").
Proof. reflexivity. Qed.

(** The tie test of the engine's test file, end to end. *)
Example calculate_tie_end_to_end :
  exists r,
    calculate (singleOptionTree [("tech1", 5); ("tech2", 5)] mockResults)
              [mkAnswer "q1" "opt1"] = Returned r
    /\ recommendation r = "tech1"
    /\ tieBreaker r <> None
    /\ confidence r = low.
Proof. eexists. split; [reflexivity|]. simpl. repeat split. discriminate. Qed.

(** C2, as stated, fails: with scores [{a: 3, b: -4}] the winner is [a]
    and the only competitor is [-4]; the specification's second highest
    is [-4] and its gap 7 reads [high], while the source takes
    [Math.max(-4, 0) = 0], a gap of 3, and answers [medium]. *)
Lemma confidence_not_claimed :
  ~ (forall (tree : DecisionTree) (scores : JsObj Z) (winner : string)
            (tb : option string),
       scores <> [] ->
       NoDup (js_keys scores) ->
       determineWinner scores tree = Returned (winner, tb) ->
       Some (calculateConfidence scores winner)
       = claimed_confidence scores winner).
Proof.
  intros H.
  specialize (H (mkTree [] []) [("a", 3); ("b", -4)] "a" None).
  assert (Hnd : NoDup (js_keys [("a", 3); ("b", -4)])).
  { repeat constructor; simpl; intuition discriminate. }
  specialize (H ltac:(discriminate) Hnd eq_refl).
  vm_compute in H. discriminate.
Qed.

(** C2, amended. For a winner that is a key of the score mapping, the
    confidence is read off [difference = winnerScore - secondHighest],
    where [secondHighest] is the maximum of 0 and the competing values
    (the values different from [winnerScore], and [winnerScore] itself
    when at least two entries hold it): [secondHighest] is never
    negative, it is 0 when nothing competes, and otherwise 0 or a
    competing value, whichever is larger. [difference >= 5] gives high,
    [2 <= difference < 5] medium, anything else low. When no competing
    value is negative this is the second highest of the specification. *)
Theorem confidence_thresholds (scores : JsObj Z) (winner : string)
    (winnerScore : Z) :
  js_get scores winner = Some winnerScore ->
  let secondHighest := Z.max 0 (claimed_secondHighest scores winnerScore) in
  let difference := winnerScore - secondHighest in
  (forall v, In v (competitors scores winnerScore) -> v <= secondHighest)
  /\ (secondHighest = 0 \/ In secondHighest (competitors scores winnerScore))
  /\ (competitors scores winnerScore = [] -> secondHighest = 0)
  /\ ((forall v, In v (competitors scores winnerScore) -> 0 <= v) ->
      secondHighest = claimed_secondHighest scores winnerScore)
  /\ (5 <= difference -> calculateConfidence scores winner = high)
  /\ (2 <= difference < 5 -> calculateConfidence scores winner = medium)
  /\ (difference < 2 -> calculateConfidence scores winner = low).
Proof.
  intros Hw secondHighest difference.
  rewrite (calculateConfidence_eq _ _ Hw). fold secondHighest difference.
  assert (Hclassify :
            (5 <= difference -> classify difference = high)
            /\ (2 <= difference < 5 -> classify difference = medium)
            /\ (difference < 2 -> classify difference = low)).
  { unfold classify.
    destruct (Z.leb_spec 5 difference); destruct (Z.leb_spec 2 difference);
      repeat split; intros; try reflexivity; lia. }
  subst secondHighest. unfold claimed_secondHighest in *.
  destruct (Math_max (competitors scores winnerScore)) as [m|] eqn:Hm.
  - apply Math_max_spec in Hm. destruct Hm as [Hin Hub].
    split; [intros v Hv; specialize (Hub v Hv); lia|].
    split; [destruct (Z.max_spec 0 m) as [[_ ->]|[_ ->]]; auto|].
    split; [intros E; rewrite E in Hin; destruct Hin|].
    split; [intros Hpos; specialize (Hpos m Hin); lia|exact Hclassify].
  - split.
    { intros v Hv. destruct (competitors scores winnerScore) as [|x xs];
        [destruct Hv|]. rewrite Math_max_cons in Hm. discriminate. }
    split; [now left|]. split; [reflexivity|]. split; [reflexivity|].
    exact Hclassify.
Qed.

Lemma confidence_thresholds_witness :
  calculateConfidence [("a", 10); ("b", 2)] "a" = high
  /\ calculateConfidence [("a", 7); ("b", 5)] "a" = medium
  /\ calculateConfidence [("a", 5); ("b", 4)] "a" = low
  /\ calculateConfidence [("a", 3); ("b", -4)] "a" = medium.
Proof.
  destruct (@confidence_thresholds [("a", 10); ("b", 2)] "a" 10 eq_refl)
    as (_ & _ & _ & _ & Hhigh & _).
  destruct (@confidence_thresholds [("a", 7); ("b", 5)] "a" 7 eq_refl)
    as (_ & _ & _ & _ & _ & Hmedium & _).
  destruct (@confidence_thresholds [("a", 5); ("b", 4)] "a" 5 eq_refl)
    as (_ & _ & _ & _ & _ & _ & Hlow).
  destruct (@confidence_thresholds [("a", 3); ("b", -4)] "a" 3 eq_refl)
    as (_ & _ & _ & _ & _ & Hclamped & _).
  split; [|split; [|split]].
  - apply Hhigh. vm_compute. discriminate.
  - apply Hmedium. vm_compute. split; [discriminate|reflexivity].
  - apply Hlow. vm_compute. reflexivity.
  - apply Hclamped. vm_compute. split; [discriminate|reflexivity].
Defined.

(** *** The untyped failure *)

Lemma documented_winner scores tree w :
  determineWinner scores tree = Returned (w, Some documentation_note) ->
  js_get (results tree) w <> None.
Proof.
  intros H.
  assert (Hne : scores <> []).
  { intros ->. rewrite determineWinner_empty in H. discriminate. }
  rewrite (determineWinner_nonempty tree Hne) in H.
  assert (Hbreak : forall tied,
             Returned (fst (breakTie tied scores tree),
                       Some (snd (breakTie tied scores tree)))
             = Returned (w, Some documentation_note) ->
             js_get (results tree) w <> None).
  { intros tied Hb. unfold breakTie in Hb.
    destruct (filter (has_result tree) tied) as [|x [|y r]] eqn:E;
      simpl in Hb.
    1,3: exfalso; injection Hb as _ Hnote;
         unfold tie_explanation in Hnote; simpl in Hnote; discriminate.
    injection Hb as Hw. subst x.
    assert (Hin : In w (filter (has_result tree) tied)) by (rewrite E; now left).
    apply filter_In in Hin. destruct Hin as [_ Hhas].
    unfold has_result, js_has in Hhas.
    destruct (js_get (results tree) w); [discriminate|discriminate]. }
  destruct (winnersOf scores) as [|w1 [|w2 r]]; [now apply (Hbreak []) | |].
  - discriminate.
  - now apply (Hbreak (w1 :: w2 :: r)).
Qed.

(** C9. [calculate] has a failure outside the five typed errors: when
    the determined winner has no entry in [tree.results] it throws a
    plain [Error] "Result not found for technology: <winner>" that
    carries no code. A winner chosen by the documentation-completeness
    strategy always has a descriptor, so the failure cannot follow it;
    an outright winner and a lexicographic winner can both lack one. *)
Theorem result_not_found_is_untyped :
  (forall tree answers w tb,
      validateAnswerPath tree answers = Returned tt ->
      determineWinner (calculateScores tree answers) tree = Returned (w, tb) ->
      js_get (results tree) w = None ->
      calculate tree answers =
        Thrown {| message := ("Result not found for technology: " ++ w)%string;
                  code := None |})
  /\ (forall scores tree w,
        determineWinner scores tree = Returned (w, Some documentation_note) ->
        js_get (results tree) w <> None)
  /\ (exists tree answers w,
        determineWinner (calculateScores tree answers) tree = Returned (w, None)
        /\ calculate tree answers = Thrown (result_not_found w))
  /\ (exists tree answers w tied,
        determineWinner (calculateScores tree answers) tree
          = Returned (w, Some (tie_explanation tied))
        /\ calculate tree answers = Thrown (result_not_found w)).
Proof.
  split; [|split; [|split]].
  - intros tree answers w tb Hv Hw Hnone.
    unfold calculate. rewrite Hv. cbn [bind]. rewrite Hw. cbn [bind].
    now rewrite Hnone.
  - intros scores tree w. apply documented_winner.
  - exists (undocumentedTree [("a", 5); ("b", 1)]), [mkAnswer "q1" "opt1"], "a".
    split; reflexivity.
  - exists (undocumentedTree [("b", 5); ("a", 5)]), [mkAnswer "q1" "opt1"], "a",
      ["b"; "a"].
    split; reflexivity.
Qed.

(** *** What [calculate] reads *)

Lemma calculate_reads_questions_and_results tree1 tree2 answers :
  questions tree1 = questions tree2 ->
  results tree1 = results tree2 ->
  calculate tree1 answers = calculate tree2 answers.
Proof.
  destruct tree1 as [i1 t1 d1 v1 qs1 rs1], tree2 as [i2 t2 d2 v2 qs2 rs2].
  simpl. intros -> ->. reflexivity.
Qed.

(** *** Answers after a terminal step *)

(** C1, evaluated where it fails. On the tree of the engine's tests the
    single answer (q1, opt2) is a complete legal walk with scores
    [{tech1: 1, tech2: 3}] and winner [tech2]. Answers appended after it
    pass the path validation unexamined, but the loop of
    [calculateScores] runs over the whole array and adds them: one
    trailing answer changes the scores to [{tech1: 3, tech2: 4}], three
    copies of (q1, opt1) turn the recommendation into [tech1]. *)
Theorem trailing_answers_are_scored :
  let walk := [mkAnswer "q1" "opt2"] in
  LegalWalk mockTree walk [mkOption "opt2" None [("tech1", 1); ("tech2", 3)]]
  /\ (exists r,
        calculate mockTree walk = Returned r
        /\ r_scores r = [("tech1", 1); ("tech2", 3)]
        /\ recommendation r = "tech2")
  /\ validateAnswerPath mockTree (walk ++ [mkAnswer "q2" "opt3"]) = Returned tt
  /\ (exists r,
        calculate mockTree (walk ++ [mkAnswer "q2" "opt3"]) = Returned r
        /\ r_scores r = [("tech1", 3); ("tech2", 4)])
  /\ (exists r,
        calculate mockTree
          (walk ++ [mkAnswer "q1" "opt1"; mkAnswer "q1" "opt1";
                    mkAnswer "q1" "opt1"]) = Returned r
        /\ r_scores r = [("tech1", 10); ("tech2", 6)]
        /\ recommendation r = "tech1").
Proof.
  cbv zeta. split; [|split; [|split; [|split]]].
  - split; [discriminate|].
    eapply steps_answer; [reflexivity|reflexivity|reflexivity|].
    apply steps_done.
  - eexists. split; [reflexivity|]. split; reflexivity.
  - reflexivity.
  - eexists. split; reflexivity.
  - eexists. split; [reflexivity|]. split; reflexivity.
Qed.

End EngineClaims.

(* ===================================================================== *)
(** * The validator only ever pushes                                     *)
(* ===================================================================== *)

Module ValidatorFacts.
Import DecisionTreeValidator ValidatorSpec.

Lemma pushed_empty_l d : pushed empty d = d.
Proof. destruct d. reflexivity. Qed.

Lemma pushed_empty_r r : pushed r empty = r.
Proof. destruct r. unfold pushed. simpl. now rewrite !app_nil_r. Qed.

Lemma pushed_assoc a b c : pushed (pushed a b) c = pushed a (pushed b c).
Proof. unfold pushed. simpl. now rewrite !app_assoc. Qed.

Lemma Appends_ret {A} (a : A) : Appends (ret a).
Proof. intros r. unfold ret. simpl. now rewrite pushed_empty_r. Qed.

Lemma Appends_pushError c msg loc : Appends (pushError c msg loc).
Proof. intros r. unfold pushError, pushed. simpl. now rewrite app_nil_r. Qed.

Lemma Appends_pushWarning c msg loc : Appends (pushWarning c msg loc).
Proof. intros r. unfold pushWarning, pushed. simpl. now rewrite app_nil_r. Qed.

Lemma Appends_bind {A B} (m : V A) (k : A -> V B) :
  Appends m -> (forall a, Appends (k a)) -> Appends (bindV m k).
Proof.
  intros Hm Hk r. unfold bindV.
  rewrite (Hm r). destruct (m empty) as [a d]. simpl.
  rewrite (Hk a (pushed r d)), (Hk a d). simpl.
  now rewrite pushed_assoc.
Qed.

Lemma Appends_when c m : Appends m -> Appends (when c m).
Proof. intros Hm. destruct c; [exact Hm|apply Appends_ret]. Qed.

Lemma Appends_forEach {A St} (f : St -> nat -> A -> V St) xs :
  (forall s i x, Appends (f s i x)) ->
  forall i s, Appends (forEach f xs i s).
Proof.
  intros Hf. induction xs as [|x xs IH]; intros i s; simpl.
  - apply Appends_ret.
  - apply Appends_bind; [apply Hf|]. intros s'. apply IH.
Qed.

Lemma Appends_forOf {A St} (f : St -> A -> V (option St)) xs :
  (forall s x, Appends (f s x)) ->
  forall s, Appends (forOf f xs s).
Proof.
  intros Hf. induction xs as [|x xs IH]; intros s; simpl.
  - apply Appends_ret.
  - apply Appends_bind; [apply Hf|].
    intros [s'|]; [apply IH|apply Appends_ret].
Qed.

(** Decomposes a stage along its syntax. *)
Ltac appends :=
  repeat first
    [ apply Appends_ret
    | apply Appends_pushError
    | apply Appends_pushWarning
    | apply Appends_when
    | apply Appends_bind; [|intros]
    | apply Appends_forEach; intros
    | apply Appends_forOf; intros
    | match goal with
      | |- Appends (if ?c then _ else _) => destruct c
      | |- Appends (match ?x with _ => _ end) => destruct x
      end ].

Lemma Appends_validateBasicStructure tree :
  Appends (validateBasicStructure tree).
Proof. unfold validateBasicStructure. appends. Qed.

Lemma Appends_validateOptions options questionLocation :
  Appends (validateOptions options questionLocation).
Proof. unfold validateOptions. appends. Qed.

Lemma Appends_validateQuestions tree : Appends (validateQuestions tree).
Proof.
  unfold validateQuestions.
  repeat first [ apply Appends_validateOptions | progress appends ].
Qed.

Lemma Appends_validateReferences tree : Appends (validateReferences tree).
Proof. unfold validateReferences. cbv zeta. appends. Qed.

Lemma Appends_dfs tree fuel :
  forall questionId path sets, Appends (dfs fuel tree questionId path sets).
Proof.
  induction fuel as [|fuel IH]; intros questionId path [reachable visited];
    simpl; [apply Appends_ret|].
  destruct (set_has visited questionId); [appends|].
  destruct (find _ (questions tree)) as [question|]; [|apply Appends_ret].
  apply Appends_forOf. intros sets option.
  destruct (nextQuestionId option) as [next|]; [|apply Appends_ret].
  destruct (truthy next); [apply IH|apply Appends_ret].
Qed.

Lemma Appends_validateReachability tree : Appends (validateReachability tree).
Proof.
  unfold validateReachability.
  destruct (questions tree) as [|first rest]; [apply Appends_ret|].
  apply Appends_bind; [apply Appends_dfs|].
  intros [[reachable visited]|]; appends.
Qed.

Lemma Appends_validateResults tree : Appends (validateResults tree).
Proof. unfold validateResults. cbv zeta. appends. Qed.

Lemma Appends_validateScoreBalance scoreImbalances tree :
  Appends (validateScoreBalance scoreImbalances tree).
Proof. unfold validateScoreBalance. appends. Qed.

(** What a sequence pushes is what its parts push, in order. *)
Lemma run_seq {A B} (m : V A) (k : V B) r :
  Appends m -> Appends k ->
  snd ((m ;;> k) r) = pushed (pushed r (snd (m empty))) (snd (k empty)).
Proof.
  intros Hm Hk. unfold bindV. rewrite (Hm r).
  destruct (m empty) as [a d]. simpl. now rewrite (Hk (pushed r d)).
Qed.

Lemma errors_of_seq {A B} (m : V A) (k : V B) :
  Appends m -> Appends k ->
  errors_of (m ;;> k) = errors_of m ++ errors_of k.
Proof.
  intros Hm Hk. unfold errors_of.
  rewrite (run_seq empty Hm Hk), pushed_empty_l. reflexivity.
Qed.

Lemma warnings_of_seq {A B} (m : V A) (k : V B) :
  Appends m -> Appends k ->
  warnings_of (m ;;> k) = warnings_of m ++ warnings_of k.
Proof.
  intros Hm Hk. unfold warnings_of.
  rewrite (run_seq empty Hm Hk), pushed_empty_l. reflexivity.
Qed.

Lemma Appends_seq {A B} (m : V A) (k : V B) :
  Appends m -> Appends k -> Appends (m ;;> k).
Proof. intros Hm Hk. apply Appends_bind; [exact Hm|intros _; exact Hk]. Qed.

(** ** The search ends *)

Lemma set_has_add s x y :
  set_has (set_add s x) y = set_has s y || (y =? x)%string.
Proof.
  unfold set_add. destruct (set_has s x) eqn:Hx.
  - destruct (String.eqb_spec y x) as [->|]; [|now rewrite orb_false_r].
    now rewrite Hx.
  - unfold set_has. rewrite existsb_app. simpl. now rewrite orb_false_r.
Qed.

Lemma unvisited_mono ids visited visited' :
  (forall y, set_has visited y = true -> set_has visited' y = true) ->
  (List.length (unvisited ids visited') <= List.length (unvisited ids visited))%nat.
Proof.
  intros Hsub. induction ids as [|x ids IH]; simpl; [lia|].
  destruct (set_has visited x) eqn:Hx; simpl.
  - rewrite (Hsub x Hx). simpl. exact IH.
  - destruct (set_has visited' x); simpl; lia.
Qed.

Lemma unvisited_add ids visited x :
  In x ids -> set_has visited x = false ->
  (List.length (unvisited ids (set_add visited x))
   < List.length (unvisited ids visited))%nat.
Proof.
  intros Hin Hx. induction ids as [|y ids IH]; [destruct Hin|].
  assert (Hle : (List.length (unvisited ids (set_add visited x))
                 <= List.length (unvisited ids visited))%nat).
  { apply unvisited_mono. intros z Hz. rewrite set_has_add, Hz. reflexivity. }
  simpl. rewrite set_has_add.
  destruct Hin as [->|Hin].
  - rewrite Hx, String.eqb_refl. simpl. lia.
  - specialize (IH Hin).
    destruct (set_has visited y); simpl; [exact IH|].
    destruct (y =? x)%string; simpl; lia.
Qed.

Lemma target_of_option tree question option next :
  In question (questions tree) ->
  In option (options question) ->
  nextQuestionId option = Some next ->
  In next (targets tree).
Proof.
  intros Hq Ho Hn. unfold targets.
  apply in_flat_map. exists question. split; [exact Hq|].
  apply in_flat_map. exists option. split; [exact Ho|].
  rewrite Hn. now left.
Qed.

Section Search.
Variable tree : DecisionTree.
Variable ids : list string.
Hypothesis ids_targets : incl (targets tree) ids.

(** With more fuel than ids left to visit, a call returns; it forgets no
    visited id. *)
Lemma dfs_enough fuel :
  forall questionId path reachable visited r,
    In questionId ids ->
    (List.length (unvisited ids visited) < fuel)%nat ->
    exists reachable' visited',
      fst (dfs fuel tree questionId path (reachable, visited) r)
      = Some (reachable', visited')
      /\ forall y, set_has visited y = true -> set_has visited' y = true.
Proof.
  induction fuel as [|fuel IH]; intros questionId path reachable visited r
    Hid Hfuel; [lia|].
  simpl. destruct (set_has visited questionId) eqn:Hvis.
  - exists reachable, visited. split; [|auto].
    unfold bindV. now destruct (when _ _ r).
  - pose proof (unvisited_add _ _ _ Hid Hvis) as Hless.
    assert (Hgrow : forall y, set_has visited y = true ->
                              set_has (set_add visited questionId) y = true).
    { intros y Hy. rewrite set_has_add, Hy. reflexivity. }
    destruct (find _ (questions tree)) as [question|] eqn:Hfind;
      [|exists (set_add reachable questionId), (set_add visited questionId);
        split; [reflexivity|exact Hgrow]].
    apply find_some in Hfind. destruct Hfind as [Hq _].
    assert (Hloop : forall os, incl os (options question) ->
              forall reach vis r0,
                (List.length (unvisited ids vis) < fuel)%nat ->
                exists reach' vis',
                  fst (forOf
                         (fun sets option =>
                            match nextQuestionId option with
                            | Some next =>
                                if truthy next
                                then dfs fuel tree next (path ++ [questionId]) sets
                                else ret (Some sets)
                            | None => ret (Some sets)
                            end) os (reach, vis) r0)
                  = Some (reach', vis')
                  /\ forall y, set_has vis y = true -> set_has vis' y = true).
    { induction os as [|option os IHos]; intros Hincl reach vis r0 Hm.
      - exists reach, vis. split; [reflexivity|auto].
      - simpl. unfold bindV at 1.
        assert (Hstep : exists reach1 vis1 r1,
                  match nextQuestionId option with
                  | Some next =>
                      if truthy next
                      then dfs fuel tree next (path ++ [questionId]) (reach, vis)
                      else ret (Some (reach, vis))
                  | None => ret (Some (reach, vis))
                  end r0 = (Some (reach1, vis1), r1)
                  /\ forall y, set_has vis y = true -> set_has vis1 y = true).
        { destruct (nextQuestionId option) as [next|] eqn:Hn;
            [|exists reach, vis, r0; split; [reflexivity|auto]].
          destruct (truthy next);
            [|exists reach, vis, r0; split; [reflexivity|auto]].
          assert (Hnext : In next ids).
          { apply ids_targets.
            apply (target_of_option tree question option Hq);
              [apply Hincl; now left|exact Hn]. }
          destruct (IH next (path ++ [questionId]) reach vis r0 Hnext Hm)
            as (reach1 & vis1 & Hrun & Hsub).
          destruct (dfs fuel tree next (path ++ [questionId]) (reach, vis) r0)
            as [o r1]. simpl in Hrun. subst o.
          exists reach1, vis1, r1. split; [reflexivity|exact Hsub]. }
        destruct Hstep as (reach1 & vis1 & r1 & -> & Hsub1).
        destruct (IHos (fun x Hx => Hincl x (or_intror Hx)) reach1 vis1 r1)
          as (reach' & vis' & Hrun & Hsub').
        { pose proof (unvisited_mono ids _ _ Hsub1). lia. }
        exists reach', vis'. split; [exact Hrun|auto]. }
    destruct (Hloop (options question) (incl_refl _)
                (set_add reachable questionId) (set_add visited questionId) r)
      as (reach' & vis' & Hrun & Hsub); [lia|].
    exists reach', vis'. split; [exact Hrun|auto].
Qed.

End Search.

(** The fuel [validateReachability] hands to the search is enough. *)
Lemma dfs_terminates tree first r :
  exists sets,
    fst (dfs (dfs_fuel tree (q_id first)) tree (q_id first) [] ([], []) r)
    = Some sets.
Proof.
  destruct (@dfs_enough tree (q_id first :: targets tree)
              (fun x Hx => or_intror Hx)
              (dfs_fuel tree (q_id first)) (q_id first) [] [] [] r)
    as (reach & vis & Hrun & _).
  - now left.
  - unfold dfs_fuel, unvisited.
    pose proof (filter_length_le (fun x => negb (set_has [] x))
                  (q_id first :: targets tree)). lia.
  - now exists (reach, vis).
Qed.

End ValidatorFacts.

(* ===================================================================== *)
(** * The claim about the tree validator                                 *)
(* ===================================================================== *)

Module ValidatorClaims.
Import DecisionTreeValidator ValidatorSpec ValidatorFacts TestData.

Lemma NoWarning_bind {A B} (m : V A) (k : A -> V B) :
  NoWarning m -> (forall a, NoWarning (k a)) -> NoWarning (bindV m k).
Proof.
  intros Hm Hk r. unfold bindV. specialize (Hm r).
  destruct (m r) as [a r']. simpl in Hm. now rewrite Hk.
Qed.

Lemma NoWarning_when c m : NoWarning m -> NoWarning (when c m).
Proof. intros Hm. destruct c; [exact Hm|intros r; reflexivity]. Qed.

Lemma NoWarning_pushError c msg loc : NoWarning (pushError c msg loc).
Proof. intros r. reflexivity. Qed.

Lemma basic_pushes_no_warning tree :
  warnings_of (validateBasicStructure tree) = [].
Proof.
  assert (H : NoWarning (validateBasicStructure tree)); [|apply (H empty)].
  unfold validateBasicStructure.
  repeat first
    [ apply NoWarning_pushError
    | apply NoWarning_when
    | apply NoWarning_bind; [|intros]
    | match goal with
      | |- NoWarning (match ?x with _ => _ end) => destruct x
      end ].
Qed.

Lemma NoError_forEach_pushWarning c (msgs : list string) :
  forall i,
    NoError (forEach (fun (_ : unit) _ msg => pushWarning c msg None) msgs i tt).
Proof.
  induction msgs as [|msg msgs IH]; intros i r; [reflexivity|].
  simpl. unfold bindV, pushWarning at 1. simpl. now rewrite IH.
Qed.

Lemma balance_pushes_no_error scoreImbalances tree :
  errors_of (validateScoreBalance scoreImbalances tree) = [].
Proof. apply (NoError_forEach_pushWarning _ _ 0%nat empty). Qed.

Lemma validate_unfold scoreImbalances tree :
  validate scoreImbalances tree =
  let r := snd (validateBasicStructure tree empty) in
  if Nat.ltb 0 (List.length (errs r)) then
    {| isValid := false; errors := errs r; warnings := warns r |}
  else
    let r' := snd (laterStages scoreImbalances (asDecisionTree tree) r) in
    {| isValid := Nat.eqb (List.length (errs r')) 0;
       errors := errs r';
       warnings := warns r' |}.
Proof.
  unfold validate, laterStages.
  destruct (validateBasicStructure tree empty) as [u r]. cbn [snd].
  destruct (Nat.ltb 0 (List.length (errs r))); [reflexivity|].
  cbv zeta.
  now destruct ((validateQuestions (asDecisionTree tree) ;;>
                 validateReferences (asDecisionTree tree) ;;>
                 validateReachability (asDecisionTree tree) ;;>
                 validateResults (asDecisionTree tree) ;;>
                 validateScoreBalance scoreImbalances (asDecisionTree tree)) r).
Qed.

Lemma laterStages_errors scoreImbalances tree :
  errors_of (laterStages scoreImbalances tree) =
  errors_of (validateQuestions tree)
  ++ errors_of (validateReferences tree)
  ++ errors_of (validateReachability tree)
  ++ errors_of (validateResults tree).
Proof.
  unfold laterStages.
  pose proof (Appends_validateQuestions tree) as H1.
  pose proof (Appends_validateReferences tree) as H2.
  pose proof (Appends_validateReachability tree) as H3.
  pose proof (Appends_validateResults tree) as H4.
  pose proof (Appends_validateScoreBalance scoreImbalances tree) as H5.
  rewrite !errors_of_seq by (repeat first [assumption | apply Appends_seq]).
  now rewrite balance_pushes_no_error, app_nil_r.
Qed.

Lemma laterStages_warnings scoreImbalances tree :
  warnings_of (laterStages scoreImbalances tree) =
  warnings_of (validateQuestions tree)
  ++ warnings_of (validateReferences tree)
  ++ warnings_of (validateReachability tree)
  ++ warnings_of (validateResults tree)
  ++ warnings_of (validateScoreBalance scoreImbalances tree).
Proof.
  unfold laterStages.
  pose proof (Appends_validateQuestions tree) as H1.
  pose proof (Appends_validateReferences tree) as H2.
  pose proof (Appends_validateReachability tree) as H3.
  pose proof (Appends_validateResults tree) as H4.
  pose proof (Appends_validateScoreBalance scoreImbalances tree) as H5.
  now rewrite !warnings_of_seq by (repeat first [assumption | apply Appends_seq]).
Qed.

(** [validate] returns right after the basic structure stage when that
    stage pushed an error, so it does not report every problem a stage
    of it finds. For a tree without
    an id it reports MISSING_TREE_ID alone, although the question stage
    finds a question without text and without options and the result
    stage finds no result definition. *)
Lemma validate_stops_after_basic_errors :
  ~ (forall (scoreImbalances : DecisionTree -> list string)
            (tree : option RawTree) (e : ValidationError),
       In e (structural_problems tree) ->
       In e (errors (validate scoreImbalances tree))).
Proof.
  intros H.
  specialize (H (fun _ => []) (Some anonymousTree) missing_question_text).
  assert (Hin : In missing_question_text
                   (structural_problems (Some anonymousTree))).
  { vm_compute. right. left. reflexivity. }
  specialize (H Hin). vm_compute in H.
  destruct H as [H|[]]. discriminate.
Qed.

(** On a tree whose questions and results have the declared shape,
    [validate] runs the basic structure stage first. If that
    stage pushed an error, its errors are the whole report: the tree is
    invalid and no later stage runs. Otherwise nothing stops the later
    stages: the reported errors are those of the question, reference,
    reachability and result stages, each as it pushes them on its own,
    one after the other, and the warnings are those of the five later
    stages; the reachability search always returns. In both cases
    [isValid] is true exactly when no error is reported, whatever the
    warnings. *)
Lemma validate_accumulates_after_gate
    (scoreImbalances : DecisionTree -> list string) (tree : option RawTree) :
  let basic := errors_of (validateBasicStructure tree) in
  let t := asDecisionTree tree in
  let v := validate scoreImbalances tree in
  (basic <> [] ->
   v = {| isValid := false; errors := basic; warnings := [] |})
  /\ (basic = [] ->
      errors v =
        errors_of (validateQuestions t)
        ++ errors_of (validateReferences t)
        ++ errors_of (validateReachability t)
        ++ errors_of (validateResults t)
      /\ warnings v =
        warnings_of (validateQuestions t)
        ++ warnings_of (validateReferences t)
        ++ warnings_of (validateReachability t)
        ++ warnings_of (validateResults t)
        ++ warnings_of (validateScoreBalance scoreImbalances t))
  /\ (forall first r,
        exists sets,
          fst (dfs (dfs_fuel t (q_id first)) t (q_id first) [] ([], []) r)
          = Some sets)
  /\ (isValid v = true <-> errors v = []).
Proof.
  intros basic t v.
  pose proof (basic_pushes_no_warning tree) as Hwarn.
  unfold warnings_of in Hwarn.
  assert (Hv : v = validate scoreImbalances tree) by reflexivity.
  rewrite validate_unfold in Hv. cbv zeta in Hv.
  assert (Hb : basic = errs (snd (validateBasicStructure tree empty)))
    by reflexivity.
  clearbody basic.
  destruct (snd (validateBasicStructure tree empty)) as [es ws] eqn:Hr.
  simpl in Hwarn, Hb. subst ws basic. cbn [errs warns] in *.
  destruct es as [|e es]; cbn [List.length Nat.ltb Nat.leb] in Hv.
  - fold empty in Hv. fold t in Hv.
    fold (errors_of (laterStages scoreImbalances t)) in Hv.
    fold (warnings_of (laterStages scoreImbalances t)) in Hv.
    rewrite laterStages_errors, laterStages_warnings in Hv.
    split; [congruence|]. split; [intros _; rewrite Hv; split; reflexivity|].
    split; [intros first r; apply dfs_terminates|].
    rewrite Hv. cbn [isValid errors]. rewrite Nat.eqb_eq.
    apply length_zero_iff_nil.
  - split; [intros _; exact Hv|]. split; [discriminate|].
    split; [intros first r; apply dfs_terminates|].
    rewrite Hv. cbn [isValid errors]. split; discriminate.
Qed.

End ValidatorClaims.

(* ===================================================================== *)
(** * The examples of the specification and of the engine's tests        *)
(* ===================================================================== *)

Module Examples.
Import RecommendationEngine TestData.

Example end_to_end :
  exists r,
    calculate mockTree [mkAnswer "q1" "opt1"; mkAnswer "q2" "opt3"] = Returned r
    /\ r_scores r = [("tech1", 5); ("tech2", 2)]
    /\ recommendation r = "tech1"
    /\ tieBreaker r = None
    /\ confidence r = medium.
Proof. eexists. split; [reflexivity|]. cbn. auto. Qed.

Example single_question_path :
  exists r,
    calculate mockTree [mkAnswer "q1" "opt2"] = Returned r
    /\ r_scores r = [("tech1", 1); ("tech2", 3)]
    /\ recommendation r = "tech2".
Proof. eexists. split; [reflexivity|]. cbn. auto. Qed.

Example out_of_order :
  calculate mockTree [mkAnswer "q2" "opt3"; mkAnswer "q1" "opt1"] =
  Thrown (createError INVALID_ANSWER_PATH
            "Expected question q1 but got q2 at position 0").
Proof. reflexivity. Qed.

(** An id that names no question is first of all not the expected one. *)
Example invalid_question :
  calculate mockTree [mkAnswer "invalid" "opt1"] =
  Thrown (createError INVALID_ANSWER_PATH
            "Expected question q1 but got invalid at position 0").
Proof. reflexivity. Qed.

Example invalid_option :
  calculate mockTree [mkAnswer "q1" "invalid"] =
  Thrown (createError OPTION_NOT_FOUND
            "Option invalid not found in question q1").
Proof. reflexivity. Qed.

(** [QUESTION_NOT_FOUND] needs an option that leads to a missing
    question. *)
Example dangling_reference :
  calculate
    (mkTree [mkQuestion "q1" [mkOption "opt1" (Some "q9") [("tech1", 1)]]]
            mockResults)
    [mkAnswer "q1" "opt1"; mkAnswer "q9" "opt1"] =
  Thrown (createError QUESTION_NOT_FOUND "Question q9 not found in tree").
Proof. reflexivity. Qed.

Example confidence_high :
  calculateConfidence [("a", 10); ("b", 2)] "a" = high.
Proof. reflexivity. Qed.

Example confidence_medium :
  calculateConfidence [("a", 7); ("b", 5)] "a" = medium.
Proof. reflexivity. Qed.

Example confidence_low :
  calculateConfidence [("a", 5); ("b", 4)] "a" = low.
Proof. reflexivity. Qed.

(** Array-index keys are enumerated first, in numeric order, whatever
    the order in which they were scored. *)
Example index_keys_first :
  js_keys (calculateScores
             (singleOptionTree [("b", 1); ("10", 2); ("a", 3); ("9", 4)] [])
             [mkAnswer "q1" "opt1"])
  = ["9"; "10"; "b"; "a"].
Proof. reflexivity. Qed.

End Examples.

(* ===================================================================== *)
(** * Further properties of the recommendation engine                    *)
(* ===================================================================== *)

Module EngineExtras.
Import RecommendationEngine Spec EngineSpec TestData.
Import JsFacts SortFacts PathFacts ScoreFacts WinnerFacts ConfidenceFacts
       CalculateFacts.

(** ** Which answer lists the path validation accepts *)

Lemma loop_Returned_inv tree : forall answers e i e',
  validateAnswerPath_loop (questionMap tree) e i answers = Returned e' ->
  exists consumed os rest,
    answers = consumed ++ rest
    /\ Steps tree e consumed os e'
    /\ (rest = [] \/ (e' = None /\ consumed <> [])).
Proof.
  induction answers as [|answer answers IH]; intros e i e' H.
  - injection H as <-. exists [], [], []. repeat split; [constructor|now left].
  - simpl in H.
    destruct (is_expected (questionId answer) e) eqn:He; [|discriminate].
    apply is_expected_iff in He. simpl in H.
    destruct (Map_get (questionMap tree) (questionId answer))
      as [question|] eqn:Hq; [|discriminate].
    destruct (findOption question (optionId answer)) as [option|] eqn:Ho;
      [|discriminate].
    destruct (nextQuestionId option) as [next|] eqn:Hn.
    + destruct (IH _ _ _ H) as (consumed & os & rest & -> & Hs & Hrest).
      exists (answer :: consumed), (option :: os), rest.
      split; [reflexivity|]. split.
      * eapply steps_answer; eauto. now rewrite Hn.
      * destruct Hrest as [->|[-> _]]; [now left|right].
        split; [reflexivity|discriminate].
    + injection H as <-.
      exists [answer], [option], answers. split; [reflexivity|]. split.
      * eapply steps_answer; eauto. rewrite Hn. constructor.
      * right. split; [reflexivity|discriminate].
Qed.

(** X1. [validateAnswerPath] returns exactly for the answer lists that
    begin with a legal walk from the entry question to a terminal
    option; whatever follows the walk plays no part. *)
Theorem validation_accepts_iff (tree : DecisionTree) (answers : list Answer) :
  validateAnswerPath tree answers = Returned tt
  <-> exists walk os trailing,
        answers = walk ++ trailing /\ LegalWalk tree walk os.
Proof.
  split.
  - intros H.
    assert (Hne : answers <> []) by (intros ->; discriminate).
    rewrite (validateAnswerPath_nonempty tree Hne) in H.
    destruct (validateAnswerPath_loop (questionMap tree) (entryQuestionId tree)
                0 answers) as [[next|]|err] eqn:Hloop; try discriminate.
    destruct (loop_Returned_inv _ _ _ _ Hloop)
      as (consumed & os & rest & -> & Hs & Hrest).
    exists consumed, os, rest. split; [reflexivity|]. split; [|exact Hs].
    destruct Hrest as [->|[_ Hc]]; [|exact Hc].
    now rewrite app_nil_r in Hne.
  - intros (walk & os & trailing & -> & Hw).
    now apply (validateAnswerPath_trailing trailing Hw).
Qed.

(** ** Where the path validation rejects *)

Lemma loop_after_Steps tree e prefix os e' :
  Steps tree e prefix os e' ->
  (prefix = [] \/ e' <> None) ->
  forall i l,
    validateAnswerPath_loop (questionMap tree) e i (prefix ++ l)
    = validateAnswerPath_loop (questionMap tree) e'
        (i + List.length prefix) l.
Proof.
  induction 1 as [e|e answer question option rest os e' He Hq Ho Hrest IH];
    intros Hcont i l.
  - simpl. now rewrite Nat.add_0_r.
  - assert (He' : e' <> None) by (destruct Hcont; [discriminate|assumption]).
    subst e. simpl. rewrite String.eqb_refl. simpl. rewrite Hq, Ho.
    destruct (nextQuestionId option) as [next|] eqn:Hn.
    + rewrite IH by now right. f_equal. lia.
    + apply Steps_from_null in Hrest. destruct Hrest as (_ & _ & ->).
      congruence.
Qed.

(** X2. When the answers before position [i] follow the tree and the
    walk is still open, the answer at position [i] decides the failure,
    whatever comes after it: an answer that does not name the expected
    question gives [INVALID_ANSWER_PATH] with the expected id, the given
    id and [i] in the message; one that names an expected question
    missing from the tree gives [QUESTION_NOT_FOUND]; one that names an
    option the question does not have gives [OPTION_NOT_FOUND]. *)
Theorem first_offending_answer (tree : DecisionTree)
    (prefix : list Answer) (os : list Option) (e : option string)
    (bad : Answer) (rest : list Answer) :
  Steps tree (entryQuestionId tree) prefix os e ->
  (prefix = [] \/ e <> None) ->
  (is_expected (questionId bad) e = false ->
   calculate tree (prefix ++ bad :: rest) =
   Thrown (createError INVALID_ANSWER_PATH
             ("Expected question " ++ show_expected e ++ " but got "
              ++ questionId bad ++ " at position "
              ++ string_of_nat (List.length prefix))%string))
  /\ (e = Some (questionId bad) ->
      Map_get (questionMap tree) (questionId bad) = None ->
      calculate tree (prefix ++ bad :: rest) =
      Thrown (createError QUESTION_NOT_FOUND
                ("Question " ++ questionId bad ++ " not found in tree")%string))
  /\ (forall question,
        e = Some (questionId bad) ->
        Map_get (questionMap tree) (questionId bad) = Some question ->
        findOption question (optionId bad) = None ->
        calculate tree (prefix ++ bad :: rest) =
        Thrown (createError OPTION_NOT_FOUND
                  ("Option " ++ optionId bad ++ " not found in question "
                   ++ questionId bad)%string)).
Proof.
  intros Hs Hcont.
  assert (Hcalc : forall err,
            validateAnswerPath_loop (questionMap tree) e
              (List.length prefix) (bad :: rest) = Thrown err ->
            calculate tree (prefix ++ bad :: rest) = Thrown err).
  { intros err Hloop. unfold calculate.
    rewrite validateAnswerPath_nonempty
      by (destruct prefix; discriminate).
    rewrite (loop_after_Steps Hs Hcont 0 (bad :: rest)). simpl Nat.add.
    now rewrite Hloop. }
  split; [|split].
  - intros Hbad. apply Hcalc. simpl. now rewrite Hbad.
  - intros -> Hq. apply Hcalc. simpl.
    rewrite String.eqb_refl. simpl. now rewrite Hq.
  - intros question -> Hq Ho. apply Hcalc. simpl.
    rewrite String.eqb_refl. simpl. now rewrite Hq, Ho.
Qed.

Lemma first_offending_answer_witness :
  calculate mockTree [mkAnswer "q1" "opt1"; mkAnswer "q1" "opt2";
                      mkAnswer "q2" "opt3"] =
  Thrown (createError INVALID_ANSWER_PATH
            "Expected question q2 but got q1 at position 1").
Proof.
  assert (Hs : Steps mockTree (entryQuestionId mockTree)
                 [mkAnswer "q1" "opt1"]
                 [mkOption "opt1" (Some "q2") [("tech1", 3); ("tech2", 1)]]
                 (Some "q2")).
  { eapply steps_answer; [reflexivity|reflexivity|reflexivity|].
    apply steps_done. }
  destruct (@first_offending_answer mockTree _ _ _
              (mkAnswer "q1" "opt2") [mkAnswer "q2" "opt3"] Hs)
    as (Hpath & _ & _).
  - right. discriminate.
  - apply Hpath. reflexivity.
Defined.

(** ** The errors [calculate] can throw *)

Lemma loop_Thrown_codes qm : forall answers e i err,
  validateAnswerPath_loop qm e i answers = Thrown err ->
  In (code err)
     [Some INVALID_ANSWER_PATH; Some QUESTION_NOT_FOUND; Some OPTION_NOT_FOUND].
Proof.
  induction answers as [|answer answers IH]; intros e i err H; [discriminate|].
  simpl in H.
  destruct (negb (is_expected (questionId answer) e));
    [injection H as <-; simpl; auto|].
  destruct (Map_get qm (questionId answer)) as [question|];
    [|injection H as <-; simpl; auto].
  destruct (findOption question (optionId answer)) as [option|];
    [|injection H as <-; simpl; auto].
  destruct (nextQuestionId option) as [next|]; [|discriminate].
  destruct (IH _ _ _ H) as [Hc|[Hc|[Hc|[]]]]; simpl; auto.
Qed.

Lemma calculate_thrown (tree : DecisionTree) (answers : list Answer)
    (err : JsError) :
  calculate tree answers = Thrown err ->
  In (code err) engine_codes
  \/ exists winner,
       err = result_not_found winner
       /\ In winner (js_keys (calculateScores tree answers))
       /\ js_get (results tree) winner = None.
Proof.
  intros H.
  destruct (validateAnswerPath tree answers) as [[]|verr] eqn:Hv.
  - destruct (calculate_cases _ _ Hv)
      as [[_ Hc]|(w & tb & _ & Hin & [[Hnone Hc]|(res & _ & Hc)])];
      rewrite Hc in H; [| |discriminate]; injection H as <-.
    + left. simpl. auto 6.
    + right. exists w. split; [reflexivity|].
      split; [now apply winner_is_key|exact Hnone].
  - left. unfold calculate in H. rewrite Hv in H. injection H as <-.
    unfold validateAnswerPath in Hv.
    destruct (Nat.eqb (List.length answers) 0);
      [injection Hv as <-; simpl; auto|].
    destruct (validateAnswerPath_loop (questionMap tree)
                (entryQuestionId tree) 0 answers) as [[next|]|lerr] eqn:Hloop;
      simpl in Hv; try discriminate; injection Hv as <-.
    + simpl. auto.
    + destruct (loop_Thrown_codes _ _ _ _ Hloop) as [Hc|[Hc|[Hc|[]]]];
        rewrite <- Hc; simpl; auto.
Qed.


(** ** Scores of an arbitrary answer list *)

Lemma fold_scoreAnswer_all tree answers : forall acc,
  fold_left (scoreAnswer (questionMap tree)) answers acc
  = fold_left addPoints (all_contributions tree answers) acc.
Proof.
  induction answers as [|answer answers IH]; intros acc; [reflexivity|].
  cbn [fold_left all_contributions flat_map]. rewrite fold_left_app.
  fold (all_contributions tree answers). rewrite <- IH. f_equal.
  unfold scoreAnswer, selected.
  destruct (Map_get (questionMap tree) (questionId answer)) as [question|];
    [|reflexivity].
  now destruct (findOption question (optionId answer)).
Qed.

Lemma mentioned_Permutation tech es es' :
  Permutation es es' -> mentioned tech es = mentioned tech es'.
Proof.
  induction 1 as [|[k p] es es' _ IH|[k1 p1] [k2 p2] es|es1 es2 es3 _ IH1 _ IH2];
    simpl; [reflexivity|now rewrite IH| |congruence].
  destruct (k1 =? tech)%string, (k2 =? tech)%string; reflexivity.
Qed.

Lemma points_for_Permutation tech es es' :
  Permutation es es' -> points_for tech es = points_for tech es'.
Proof.
  induction 1 as [|[k p] es es' _ IH|[k1 p1] [k2 p2] es|es1 es2 es3 _ IH1 _ IH2];
    simpl; [reflexivity|now rewrite IH|lia|congruence].
Qed.

(** The scores of [RecommendationEngine.calculateScores] for any answer
    list: per key the sum of the entries added, whatever the order of
    the answers. *)
Lemma calculateScores_integers (tree : DecisionTree) (answers : list Answer) :
  (forall tech,
     js_get (calculateScores tree answers) tech =
     if mentioned tech (all_contributions tree answers)
     then Some (points_for tech (all_contributions tree answers))
     else None)
  /\ NoDup (js_keys (calculateScores tree answers))
  /\ (forall answers' tech,
        Permutation answers answers' ->
        js_get (calculateScores tree answers) tech
        = js_get (calculateScores tree answers') tech).
Proof.
  assert (Hget : forall l tech,
            js_get (calculateScores tree l) tech =
            if mentioned tech (all_contributions tree l)
            then Some (points_for tech (all_contributions tree l))
            else None).
  { intros l tech. unfold calculateScores.
    now rewrite fold_scoreAnswer_all, fold_addPoints_get. }
  split; [apply Hget|]. split; [apply calculateScores_NoDup|].
  intros answers' tech Hperm. rewrite !Hget.
  assert (Hp : Permutation (all_contributions tree answers)
                           (all_contributions tree answers'))
    by (apply Permutation_flat_map; exact Hperm).
  now rewrite (mentioned_Permutation tech Hp), (points_for_Permutation tech Hp).
Qed.

(** ** Winners *)

(** X5. A key whose score is strictly above every other key's wins for
    every tree, and no tie-break explanation is attached; conversely,
    when [determineWinner] attaches no explanation, the winner is the
    only key holding the maximum. *)
Theorem outright_winner (tree : DecisionTree) (scores : JsObj Z) :
  NoDup (js_keys scores) ->
  (forall winner m,
     js_get scores winner = Some m ->
     (forall k v, k <> winner -> js_get scores k = Some v -> v < m) ->
     determineWinner scores tree = Returned (winner, None))
  /\ (forall winner,
        determineWinner scores tree = Returned (winner, None) ->
        exists m,
          js_get scores winner = Some m
          /\ forall k v, k <> winner -> js_get scores k = Some v -> v < m).
Proof.
  intros Hnd. split.
  - intros winner m Hw Hothers.
    assert (Hne : scores <> []) by (intros ->; discriminate).
    assert (Hmax : is_maximum scores m).
    { split; [eapply js_get_In_values; eassumption|].
      intros v Hv. unfold js_values in Hv. apply in_map_iff in Hv.
      destruct Hv as ([k v'] & Heq & Hin). simpl in Heq. subst v'.
      apply (In_js_get _ _ _ Hnd) in Hin.
      destruct (String.eqb_spec k winner) as [->|Hk];
        [rewrite Hw in Hin; injection Hin as ->; lia|].
      specialize (Hothers k v Hk Hin). lia. }
    rewrite (determineWinner_nonempty tree Hne), (winnersOf_tied Hmax).
    assert (Hall : forall k, In k (tied_at scores m) -> k = winner).
    { intros k Hk. apply In_tied_at in Hk.
      destruct (String.eqb_spec k winner) as [|Hne']; [assumption|].
      specialize (Hothers k m Hne' Hk). lia. }
    assert (Hin : In winner (tied_at scores m)) by now apply In_tied_at.
    assert (Hndt : NoDup (tied_at scores m)) by (apply NoDup_filter; exact Hnd).
    destruct (tied_at scores m) as [|k1 [|k2 ks]]; [destruct Hin| |].
    + now rewrite (Hall k1 (or_introl eq_refl)).
    + exfalso. inversion Hndt as [|? ? Hnotin _]; subst. apply Hnotin.
      rewrite (Hall k1), (Hall k2); simpl; auto.
  - intros winner H.
    assert (Hne : scores <> []).
    { intros ->. rewrite determineWinner_empty in H. discriminate. }
    destruct (nonempty_has_maximum Hne) as [m Hmax].
    rewrite (determineWinner_nonempty tree Hne), (winnersOf_tied Hmax) in H.
    destruct (tied_at scores m) as [|k1 [|k2 ks]] eqn:E; try discriminate.
    injection H as ->. exists m.
    assert (Hw : js_get scores winner = Some m)
      by (apply In_tied_at; rewrite E; now left).
    split; [exact Hw|]. intros k v Hk Hv.
    destruct Hmax as [_ Hub].
    assert (Hle : v <= m) by (apply Hub; eapply js_get_In_values; eassumption).
    destruct (Z.eq_dec v m) as [->|]; [|lia].
    exfalso. apply In_tied_at in Hv. rewrite E in Hv.
    destruct Hv as [Hv|[]]. congruence.
Qed.

Lemma outright_winner_witness :
  determineWinner [("tech1", 5); ("tech2", 2)] mockTree
  = Returned ("tech1", None).
Proof.
  assert (Hnd : NoDup (js_keys [("tech1", 5); ("tech2", 2)])).
  { repeat constructor; simpl; intuition discriminate. }
  apply (proj1 (@outright_winner mockTree _ Hnd) "tech1" 5 eq_refl).
  intros k v Hk Hv. cbn [js_get] in Hv.
  destruct (String.eqb_spec "tech1" k) as [<-|_]; [congruence|].
  destruct (String.eqb_spec "tech2" k) as [_|_]; [|discriminate].
  injection Hv as <-. lia.
Defined.

(** X6. When two or more keys tie for the maximum and exactly one of
    them has a Result descriptor, that key wins whatever its place in
    the alphabet, with the documentation note as explanation and a low
    confidence; [calculate] then returns for every accepted answer list
    with these scores. *)
Theorem documented_key_wins (tree : DecisionTree) (scores : JsObj Z)
    (m : Z) (winner : string) :
  NoDup (js_keys scores) ->
  is_maximum scores m ->
  (2 <= List.length (tied_at scores m))%nat ->
  filter (has_result tree) (tied_at scores m) = [winner] ->
  determineWinner scores tree = Returned (winner, Some documentation_note)
  /\ calculateConfidence scores winner = low
  /\ (forall answers,
        validateAnswerPath tree answers = Returned tt ->
        calculateScores tree answers = scores ->
        exists r,
          calculate tree answers = Returned r
          /\ recommendation r = winner
          /\ tieBreaker r = Some documentation_note
          /\ confidence r = low).
Proof.
  intros Hnd Hmax Htie Hdoc.
  assert (Hne : scores <> []) by (intros ->; destruct Hmax as [[] _]).
  assert (Hin : In winner (filter (has_result tree) (tied_at scores m)))
    by (rewrite Hdoc; now left).
  apply filter_In in Hin. destruct Hin as [Hin Hhas].
  assert (Hdw : determineWinner scores tree
                = Returned (winner, Some documentation_note)).
  { rewrite (determineWinner_nonempty tree Hne), (winnersOf_tied Hmax).
    destruct (tied_at scores m) as [|k1 [|k2 ks]] eqn:E;
      [destruct Hin|simpl in Htie; lia|].
    unfold breakTie. now rewrite Hdoc. }
  assert (Hlow : calculateConfidence scores winner = low)
    by now apply (@calculateConfidence_tie _ _ _ Hnd Hmax Htie).
  split; [exact Hdw|]. split; [exact Hlow|].
  intros answers Hv Hs. unfold calculate.
  rewrite Hv. cbn [bind]. rewrite Hs, Hdw. cbn [bind].
  unfold has_result, js_has in Hhas.
  destruct (js_get (results tree) winner) as [res|]; [|discriminate].
  eexists. split; [reflexivity|]. cbn. auto.
Qed.

Lemma documented_key_wins_witness :
  determineWinner [("a", 5); ("b", 5)] (mkTree [] [("b", mkResult "B")])
  = Returned ("b", Some documentation_note).
Proof.
  refine (proj1 (@documented_key_wins (mkTree [] [("b", mkResult "B")])
                   [("a", 5); ("b", 5)] 5 "b" _ _ _ _)).
  - repeat constructor; simpl; intuition discriminate.
  - split; [now left|]. simpl. intros v Hv. lia.
  - simpl. lia.
  - reflexivity.
Defined.

(** ** Confidence and the winner's own score *)

(** X7. Zero always takes part in the second highest score, so the
    confidence is never [high] for a winner whose own score is below 5
    and is [low] for every winner whose score is below 2, however far
    behind the other outcomes are; a winner that is no key of the
    mapping gets [low]. *)
Theorem confidence_needs_own_score (scores : JsObj Z) (winner : string) :
  (calculateConfidence scores winner = high ->
   exists s, js_get scores winner = Some s /\ 5 <= s)
  /\ (calculateConfidence scores winner = medium ->
      exists s, js_get scores winner = Some s /\ 2 <= s)
  /\ (forall s, js_get scores winner = Some s -> s < 2 ->
                calculateConfidence scores winner = low)
  /\ (js_get scores winner = None -> calculateConfidence scores winner = low).
Proof.
  assert (Hcase : forall s, js_get scores winner = Some s ->
            calculateConfidence scores winner
            = classify (s - Z.max 0 (claimed_secondHighest scores s)))
    by (intros s; apply calculateConfidence_eq).
  assert (Hnone : js_get scores winner = None ->
                  calculateConfidence scores winner = low).
  { intros H. unfold calculateConfidence. now rewrite H. }
  unfold classify in Hcase.
  split; [|split; [|split]]; [| | |exact Hnone].
  - intros H. destruct (js_get scores winner) as [s|] eqn:Hs;
      [|rewrite Hnone in H; [discriminate|reflexivity]].
    exists s. split; [reflexivity|]. rewrite (Hcase s eq_refl) in H.
    destruct (Z.leb_spec 5 (s - Z.max 0 (claimed_secondHighest scores s)));
      [lia|].
    destruct (Z.leb_spec 2 (s - Z.max 0 (claimed_secondHighest scores s)));
      discriminate.
  - intros H. destruct (js_get scores winner) as [s|] eqn:Hs;
      [|rewrite Hnone in H; [discriminate|reflexivity]].
    exists s. split; [reflexivity|]. rewrite (Hcase s eq_refl) in H.
    destruct (Z.leb_spec 5 (s - Z.max 0 (claimed_secondHighest scores s)));
      [lia|].
    destruct (Z.leb_spec 2 (s - Z.max 0 (claimed_secondHighest scores s)));
      [lia|discriminate].
  - intros s Hs Hlt. rewrite (Hcase s Hs).
    destruct (Z.leb_spec 5 (s - Z.max 0 (claimed_secondHighest scores s)));
      [lia|].
    destruct (Z.leb_spec 2 (s - Z.max 0 (claimed_secondHighest scores s)));
      [lia|reflexivity].
Qed.

End EngineExtras.

(* ===================================================================== *)
(** * The two readings of the engine agree on ordinary trees             *)
(* ===================================================================== *)

Module ExactFacts.
Import RecommendationEngine Spec EngineSpec ExactSpec.
Import JsFacts SortFacts ScoreFacts WinnerFacts CalculateFacts.
Import Exact.

(** ** Small integers are doubles *)

Lemma round64_small z : Z.abs z < 2 ^ 53 -> round64 z = Fin z.
Proof.
  intros Hz. unfold round64. cbv zeta.
  destruct (Z.leb_spec (Z.log2 (Z.abs z) - 52) 0) as [_|Hk]; [reflexivity|].
  exfalso.
  assert (Hpos : 0 < Z.abs z).
  { destruct (Z.eq_dec (Z.abs z) 0) as [H0|]; [|lia].
    rewrite H0 in Hk. cbn in Hk. lia. }
  apply (Z.log2_lt_pow2 _ 53 Hpos) in Hz. lia.
Qed.

Lemma add_small x y : Z.abs (x + y) < 2 ^ 53 -> add (Fin x) (Fin y) = Fin (x + y).
Proof. intros H. cbn [add]. now apply round64_small. Qed.

Lemma sub_small x y : Z.abs (x - y) < 2 ^ 53 -> sub (Fin x) (Fin y) = Fin (x - y).
Proof.
  intros H. unfold sub. cbn [neg]. rewrite add_small; [f_equal; lia|].
  now replace (x + - y) with (x - y) by lia.
Qed.

(** ** A score object of integers *)

Lemma numeric_get s k :
  js_get (numeric s) k = option_map (fun z => Num (Fin z)) (js_get s k).
Proof.
  induction s as [|[k0 v0] s IH]; [reflexivity|].
  cbn [numeric map fst snd js_get]. fold (numeric s).
  now destruct (k0 =? k)%string.
Qed.

Lemma numeric_has s k : js_has (numeric s) k = js_has s k.
Proof. unfold js_has. rewrite numeric_get. now destruct (js_get s k). Qed.

Lemma numeric_keys s : js_keys (numeric s) = js_keys s.
Proof. unfold js_keys, numeric. rewrite map_map. reflexivity. Qed.

Lemma numeric_values s :
  js_values (numeric s) = map (fun z => Num (Fin z)) (js_values s).
Proof. unfold js_values, numeric. rewrite !map_map. reflexivity. Qed.

Lemma numeric_replace s k z :
  js_replace (numeric s) k (Num (Fin z)) = numeric (js_replace s k z).
Proof.
  induction s as [|[k0 v0] s IH]; [reflexivity|].
  cbn [numeric map fst snd js_replace]. fold (numeric s).
  destruct (k0 =? k)%string; [reflexivity|].
  cbn [numeric map fst snd]. fold (numeric (js_replace s k z)).
  now rewrite IH.
Qed.

Lemma numeric_insert_index s i k z :
  js_insert_index (numeric s) i k (Num (Fin z))
  = numeric (js_insert_index s i k z).
Proof.
  induction s as [|[k0 v0] s IH]; [reflexivity|].
  cbn [numeric map fst snd js_insert_index]. fold (numeric s).
  destruct (arrayIndex k0) as [j|]; [|reflexivity].
  destruct (i <? j)%N; [reflexivity|].
  cbn [numeric map fst snd]. fold (numeric (js_insert_index s i k z)).
  now rewrite IH.
Qed.

Lemma numeric_set s k z :
  js_set (numeric s) k (Num (Fin z)) = numeric (js_set s k z).
Proof.
  unfold js_set. rewrite numeric_has.
  destruct (js_has s k); [apply numeric_replace|].
  destruct (arrayIndex k) as [i|]; [apply numeric_insert_index|].
  unfold numeric. now rewrite map_app.
Qed.

(** ** Adding points *)

Lemma inherited_proto k : inherited k = false -> (k =? "__proto__")%string = false.
Proof.
  intros H. destruct (String.eqb_spec k "__proto__") as [->|]; [|reflexivity].
  discriminate H.
Qed.

Lemma weight_nonneg es : 0 <= weight es.
Proof. induction es as [|[k p] es IH]; cbn [weight]; lia. Qed.

Lemma addPoints_exact render acc tech points rest :
  inherited tech = false ->
  Bounded acc ((tech, points) :: rest) ->
  Exact.addPoints render (numeric acc) (tech, points)
  = numeric (RecommendationEngine.addPoints acc (tech, points))
  /\ Bounded (RecommendationEngine.addPoints acc (tech, points)) rest.
Proof.
  intros Hplain Hb.
  pose proof (weight_nonneg rest) as Hw.
  pose proof (Hb tech) as Ht. cbn [weight] in Ht.
  assert (H52 : 2 ^ 52 < 2 ^ 53) by (vm_compute; reflexivity).
  split.
  - unfold Exact.addPoints, RecommendationEngine.addPoints, store, accumulate.
    rewrite (inherited_proto _ Hplain). cbn [andb].
    rewrite numeric_get, Hplain.
    rewrite (round64_small points) by lia.
    destruct (js_get acc tech) as [v|]; cbn [option_map or_zero] in *.
    + assert (Hv : (if falsy (Fin v) then Fin 0 else Fin v) = Fin v).
      { destruct v; reflexivity. }
      rewrite Hv, add_small by lia. apply numeric_set.
    + rewrite add_small by lia. apply numeric_set.
  - intros k. unfold RecommendationEngine.addPoints.
    rewrite js_get_set. pose proof (Hb k) as Hk. cbn [weight] in Hk.
    destruct (String.eqb_spec tech k) as [<-|Hne]; cbn [or_zero].
    + destruct (js_get acc tech) as [v|]; cbn [or_zero] in *; lia.
    + lia.
Qed.

Lemma fold_addPoints_exact render es : forall acc,
  PlainKeys es ->
  Bounded acc es ->
  fold_left (Exact.addPoints render) es (numeric acc)
  = numeric (fold_left RecommendationEngine.addPoints es acc)
  /\ Bounded (fold_left RecommendationEngine.addPoints es acc) [].
Proof.
  induction es as [|[tech points] es IH]; intros acc Hplain Hb;
    [split; [reflexivity|exact Hb]|].
  cbn [fold_left].
  destruct (@addPoints_exact render acc tech points es) as [Heq Hb'];
    [apply (Hplain (tech, points)); now left|exact Hb|].
  rewrite Heq. apply IH; [|exact Hb'].
  intros e He. apply Hplain. now right.
Qed.

Lemma fold_scoreAnswer_entries render tree answers : forall acc,
  fold_left (Exact.scoreAnswer render (questionMap tree)) answers acc
  = fold_left (Exact.addPoints render) (all_contributions tree answers) acc.
Proof.
  induction answers as [|answer answers IH]; intros acc; [reflexivity|].
  cbn [fold_left all_contributions flat_map]. rewrite fold_left_app.
  fold (all_contributions tree answers). rewrite <- IH. f_equal.
  unfold Exact.scoreAnswer, selected.
  destruct (Map_get (questionMap tree) (questionId answer)) as [question|];
    [|reflexivity].
  now destruct (findOption question (optionId answer)).
Qed.

(** On ordinary keys and small points, the score object the code builds
    holds the integer sums. *)
Lemma calculateScores_exact render tree answers :
  PlainKeys (all_contributions tree answers) ->
  SmallPoints (all_contributions tree answers) ->
  Exact.calculateScores render tree answers
  = numeric (RecommendationEngine.calculateScores tree answers)
  /\ forall v, In v (js_values (RecommendationEngine.calculateScores tree answers)) ->
               Z.abs v < 2 ^ 52.
Proof.
  intros Hplain Hsmall.
  unfold Exact.calculateScores, RecommendationEngine.calculateScores.
  rewrite fold_scoreAnswer_entries, EngineExtras.fold_scoreAnswer_all.
  destruct (@fold_addPoints_exact render (all_contributions tree answers) []
              Hplain) as [Heq Hb].
  { intros k. cbn. exact Hsmall. }
  split; [exact Heq|].
  intros v Hv. unfold js_values in Hv. apply in_map_iff in Hv.
  destruct Hv as ([k v'] & <- & Hin). cbn [snd].
  set (sums := fold_left RecommendationEngine.addPoints
                 (all_contributions tree answers) []) in *.
  assert (Hnd : NoDup (js_keys sums)).
  { unfold sums. rewrite <- EngineExtras.fold_scoreAnswer_all.
    apply calculateScores_NoDup. }
  pose proof (Hb k) as Hk. rewrite (@In_js_get _ sums k v' Hnd Hin) in Hk.
  cbn [or_zero weight] in Hk. lia.
Qed.

(** ** The winner *)

Lemma max2_Fin a b : max2 (Fin a) (Fin b) = Fin (Z.max a b).
Proof.
  cbn. destruct (Z.leb_spec b a); [now rewrite Z.max_l|now rewrite Z.max_r by lia].
Qed.

Lemma fold_max2_Fin zs : forall a,
  fold_left max2 (map Fin zs) (Fin a) = Fin (fold_left Z.max zs a).
Proof.
  induction zs as [|z zs IH]; intros a; [reflexivity|].
  cbn [map fold_left]. now rewrite max2_Fin, IH.
Qed.

Lemma Math_max_numeric zs :
  Exact.Math_max (map Fin zs)
  = match Js.Math_max zs with Some m => Fin m | None => NegInf end.
Proof.
  destruct zs as [|z zs]; [reflexivity|].
  rewrite Math_max_cons. unfold Exact.Math_max. cbn [map fold_left].
  change (max2 NegInf (Fin z)) with (Fin z). apply fold_max2_Fin.
Qed.

Lemma toNumber_numeric zs :
  map toNumber (map (fun z => Num (Fin z)) zs) = map Fin zs.
Proof. rewrite map_map. reflexivity. Qed.

Lemma winnersOf_numeric s :
  Exact.winnersOf (numeric s) = RecommendationEngine.winnersOf s.
Proof.
  unfold Exact.winnersOf, RecommendationEngine.winnersOf. cbv zeta.
  rewrite numeric_values, toNumber_numeric, Math_max_numeric, numeric_keys.
  apply filter_ext. intros k. rewrite numeric_get.
  destruct (js_get s k) as [v|], (Js.Math_max (js_values s)) as [m|];
    reflexivity.
Qed.

Lemma has_result_plain tree k :
  inherited k = false ->
  Exact.has_result tree k = RecommendationEngine.has_result tree k.
Proof.
  intros H. unfold Exact.has_result, RecommendationEngine.has_result,
    js_truthy_at. rewrite H. apply orb_false_r.
Qed.

Lemma sort_nonempty xs : xs <> [] -> Js.sort xs <> [].
Proof.
  intros Hne E. pose proof (sort_perm xs) as Hp. rewrite E in Hp.
  apply Permutation_nil in Hp. contradiction.
Qed.

Lemma breakTie_numeric tied sc sc' tree :
  tied <> [] ->
  (forall k, In k tied -> inherited k = false) ->
  Exact.breakTie tied sc tree
  = (Some (fst (RecommendationEngine.breakTie tied sc' tree)),
     snd (RecommendationEngine.breakTie tied sc' tree)).
Proof.
  intros Hne Hplain.
  unfold Exact.breakTie, RecommendationEngine.breakTie. cbv zeta.
  rewrite (@filter_ext_in _ (Exact.has_result tree)
             (RecommendationEngine.has_result tree))
    by (intros k Hk; apply has_result_plain, Hplain, Hk).
  assert (Hsort : hd_error (Js.sort tied)
                  = Some (hd "undefined" (Js.sort tied))).
  { pose proof (sort_nonempty Hne) as Hs.
    destruct (Js.sort tied); [congruence|reflexivity]. }
  destruct (filter (RecommendationEngine.has_result tree) tied)
    as [|w [|w' r]]; cbn [fst snd]; now rewrite ?Hsort.
Qed.

Lemma determineWinner_numeric s tree :
  NoDup (js_keys s) ->
  (forall k, In k (js_keys s) -> inherited k = false) ->
  Exact.determineWinner (numeric s) tree
  = match RecommendationEngine.determineWinner s tree with
    | Returned (w, tb) => Returned (Some w, tb)
    | Thrown e => Thrown e
    end.
Proof.
  intros Hnd Hplain.
  unfold Exact.determineWinner, RecommendationEngine.determineWinner.
  cbv zeta. rewrite numeric_keys, winnersOf_numeric.
  destruct (Nat.eqb (List.length (js_keys s)) 0) eqn:Hlen; [reflexivity|].
  assert (Hne : s <> []) by (intros ->; discriminate Hlen).
  pose proof (winners_nonempty Hnd Hne) as Hw.
  destruct (RecommendationEngine.winnersOf s) as [|w [|w' r]] eqn:E;
    [congruence|reflexivity|].
  rewrite (@breakTie_numeric (w :: w' :: r) (numeric s) s tree).
  - now destruct (RecommendationEngine.breakTie (w :: w' :: r) s tree).
  - discriminate.
  - intros k Hk. apply Hplain. apply winner_is_key. now rewrite E.
Qed.

(** ** The confidence *)

Lemma filter_map_comm {A B} (f : B -> bool) (g : A -> B) l :
  filter f (map g l) = map g (filter (fun x => f (g x)) l).
Proof.
  induction l as [|x l IH]; [reflexivity|].
  cbn [map filter]. rewrite IH. now destruct (f (g x)).
Qed.

Lemma calculateConfidence_numeric s w :
  (forall v, In v (js_values s) -> Z.abs v < 2 ^ 52) ->
  inherited w = false ->
  Exact.calculateConfidence (numeric s) (Some w)
  = RecommendationEngine.calculateConfidence s w.
Proof.
  intros Hsmall Hplain.
  unfold Exact.calculateConfidence, RecommendationEngine.calculateConfidence.
  cbv zeta. cbn [show]. unfold scoreAt. rewrite numeric_get, Hplain.
  destruct (js_get s w) as [ws|] eqn:Hws; cbn [option_map]; [|reflexivity].
  rewrite numeric_values.
  assert (Hsame : forall z, same (own (Num (Fin ws))) (Num (Fin z)) = (z =? ws))
    by reflexivity.
  rewrite !filter_map_comm, length_map.
  rewrite (@filter_ext _ (fun x => same (own (Num (Fin ws))) (Num (Fin x)))
             (fun sv => sv =? ws)) by (intros; apply Hsame).
  rewrite (@filter_ext _
             (fun x =>
                negb (same (own (Num (Fin ws))) (Num (Fin x)))
                || Nat.ltb 1 (List.length (filter (fun sv => sv =? ws)
                                                  (js_values s))))
             (fun s0 =>
                negb (s0 =? ws)
                || Nat.ltb 1 (List.length (filter (fun sv => sv =? ws)
                                                  (js_values s)))))
    by (intros; now rewrite Hsame).
  set (others := filter _ (js_values s)).
  rewrite toNumber_numeric.
  change (map Fin others ++ [Fin 0]) with (map Fin others ++ map Fin [0]).
  rewrite <- map_app, Math_max_numeric.
  destruct (Js.Math_max (others ++ [0])) as [m|] eqn:Hm.
  - apply Math_max_spec in Hm. destruct Hm as [Hin _].
    assert (Hm52 : Z.abs m < 2 ^ 52).
    { apply in_app_or in Hin. destruct Hin as [Hin|[<-|[]]]; [|reflexivity].
      apply Hsmall. unfold others in Hin. apply filter_In in Hin. tauto. }
    assert (Hw52 : Z.abs ws < 2 ^ 52)
      by (apply Hsmall; eapply js_get_In_values; eassumption).
    assert (H53 : 2 * 2 ^ 52 = 2 ^ 53) by reflexivity.
    cbn [toNumber]. rewrite sub_small by lia. reflexivity.
  - exfalso. destruct (@Math_max_nonempty (others ++ [0])) as [m Hm'];
      [now destruct others|congruence].
Qed.

(** ** [calculate] *)

Lemma scored_key_given tree answers k :
  In k (js_keys (RecommendationEngine.calculateScores tree answers)) ->
  exists p, In (k, p) (all_contributions tree answers).
Proof.
  intros Hin. apply In_keys_js_get in Hin. destruct Hin as [v Hv].
  unfold RecommendationEngine.calculateScores in Hv.
  rewrite EngineExtras.fold_scoreAnswer_all, fold_addPoints_get in Hv.
  destruct (mentioned k (all_contributions tree answers)) eqn:Hm;
    [|discriminate].
  unfold mentioned in Hm. apply existsb_exists in Hm.
  destruct Hm as ([k' p] & Hkp & Heq). apply String.eqb_eq in Heq.
  cbn [fst] in Heq. subst k'. eauto.
Qed.

(** On ordinary keys and small points, [calculate] does what
    [RecommendationEngine.calculate] says. *)
Lemma calculate_exact render tree answers :
  PlainKeys (all_contributions tree answers) ->
  SmallPoints (all_contributions tree answers) ->
  Exact.calculate render tree answers
  = asOutcome (RecommendationEngine.calculate tree answers).
Proof.
  intros Hplain Hsmall.
  unfold Exact.calculate, RecommendationEngine.calculate.
  destruct (validateAnswerPath tree answers) as [[]|e]; cbn [bind];
    [|reflexivity].
  destruct (@calculateScores_exact render tree answers Hplain Hsmall)
    as [-> Hvalues].
  set (sums := RecommendationEngine.calculateScores tree answers) in *.
  assert (Hkeys : forall k, In k (js_keys sums) -> inherited k = false).
  { intros k Hk. destruct (@scored_key_given tree answers k Hk) as [p Hp].
    apply (Hplain (k, p) Hp). }
  pose proof (calculateScores_NoDup tree answers) as Hnd. fold sums in Hnd.
  rewrite (@determineWinner_numeric sums tree Hnd Hkeys).
  destruct (RecommendationEngine.determineWinner sums tree) as [[w tb]|e]
    eqn:Hd; cbn [bind]; [|reflexivity].
  assert (Hw : inherited w = false).
  { apply Hkeys. apply winner_is_key.
    now destruct (@determineWinner_In sums tree w tb Hnd Hd). }
  rewrite (@calculateConfidence_numeric sums w Hvalues Hw).
  unfold resultAt. cbn [show]. rewrite Hw.
  now destruct (js_get (results tree) w).
Qed.

End ExactFacts.

(* ===================================================================== *)
(** * The engine on every tree: scores, winner and errors                *)
(* ===================================================================== *)

Module ExactClaims.
Import RecommendationEngine Spec EngineSpec ExactSpec TestData.
Import JsFacts SortFacts PathFacts ScoreFacts WinnerFacts CalculateFacts.
Import ExactFacts.

(** ** What a legal walk adds *)

Lemma Steps_all_contributions tree e answers os e' :
  Steps tree e answers os e' ->
  all_contributions tree answers = contributions os.
Proof.
  induction 1 as [e|e answer question opt rest os e' He Hq Ho _ IH];
    [reflexivity|].
  unfold all_contributions, contributions in *. cbn [flat_map].
  rewrite IH. f_equal. unfold selected. now rewrite Hq, Ho.
Qed.

Lemma asOutcome_Returned c r :
  asOutcome c = Returned r -> exists r0, c = Returned r0 /\ r = asReturned r0.
Proof. destruct c as [r0|e]; [|discriminate]. intros H. injection H as <-. eauto. Qed.

Lemma asOutcome_Thrown c e : asOutcome c = Thrown e -> c = Thrown e.
Proof. destruct c as [r0|e0]; [discriminate|]. intros H. now injection H as <-. Qed.

(** C3. For every tree with integer scores and every answer list that
    forms a single legal linear walk from the entry question to a
    terminal option, provided no key scored on the walk is the name of a
    member of [Object.prototype] and the absolute values of the points
    given on the walk add up to less than [2^52]: the path validation
    succeeds and the accumulated scores map each key to the number that
    is the sum of its contributions over exactly the selected options,
    keys mentioned by no selected option being absent. [calculate]
    returns exactly these scores whenever it returns; it returns, with
    one of the scored keys as recommendation, when some selected option
    has a score entry and every scored key has a descriptor; when it
    fails, it fails with [NO_RECOMMENDATION] because nothing was scored,
    or with the uncoded error about a scored winner that has no
    descriptor. *)
Theorem legal_walk_sums (render : Exact.number -> string) (tree : DecisionTree)
    (answers : list Answer) (os : list Option) :
  LegalWalk tree answers os ->
  PlainKeys (contributions os) ->
  SmallPoints (contributions os) ->
  let sums := Exact.calculateScores render tree answers in
  validateAnswerPath tree answers = Returned tt
  /\ (forall tech,
        js_get sums tech =
        if mentioned tech (contributions os)
        then Some (Exact.Num (Exact.Fin (points_for tech (contributions os))))
        else None)
  /\ NoDup (js_keys sums)
  /\ (forall r, Exact.calculate render tree answers = Returned r ->
                Exact.r_scores r = sums)
  /\ (contributions os <> [] ->
      (forall tech, mentioned tech (contributions os) = true ->
                    js_has (results tree) tech = true) ->
      exists r w,
        Exact.calculate render tree answers = Returned r
        /\ Exact.recommendation r = Some w
        /\ mentioned w (contributions os) = true)
  /\ (forall e,
        Exact.calculate render tree answers = Thrown e ->
        (e = no_recommendation /\ contributions os = [])
        \/ (exists w,
              e = result_not_found w
              /\ mentioned w (contributions os) = true
              /\ js_get (results tree) w = None)).
Proof.
  intros Hw Hplain Hsmall sums.
  pose proof (Steps_all_contributions (proj2 Hw)) as Hall.
  rewrite <- Hall in Hplain, Hsmall.
  destruct (@calculateScores_exact render tree answers Hplain Hsmall)
    as [Hsums _].
  fold sums in Hsums.
  rewrite (@calculate_exact render tree answers Hplain Hsmall).
  destruct (EngineClaims.legal_walk_scores Hw)
    as (Hv & Hget & Hnd & Hret & Hsucc & Hfail).
  split; [exact Hv|]. split.
  { intros tech. rewrite Hsums, numeric_get, Hget.
    now destruct (mentioned tech (contributions os)). }
  split; [now rewrite Hsums, numeric_keys|]. split.
  { intros r Hr. apply asOutcome_Returned in Hr.
    destruct Hr as (r0 & Hr0 & ->). cbn [asReturned Exact.r_scores].
    now rewrite (Hret r0 Hr0), Hsums. }
  split.
  - intros Hne Hdesc. destruct (Hsucc Hne Hdesc) as [r0 Hr0].
    exists (asReturned r0), (recommendation r0).
    rewrite Hr0. split; [reflexivity|]. split; [reflexivity|].
    destruct (EngineClaims.winner_attains_maximum _ _ Hr0) as [Hkey _].
    rewrite (Hret r0 Hr0) in Hkey. apply In_keys_js_get in Hkey.
    destruct Hkey as [v Hkv]. rewrite Hget in Hkv.
    now destruct (mentioned (recommendation r0)
                    (contributions os)).
  - intros e He. apply asOutcome_Thrown in He. exact (Hfail e He).
Qed.

Lemma legal_walk_sums_witness :
  let sums := Exact.calculateScores decimal mockTree
                [mkAnswer "q1" "opt1"; mkAnswer "q2" "opt3"] in
  validateAnswerPath mockTree [mkAnswer "q1" "opt1"; mkAnswer "q2" "opt3"]
  = Returned tt
  /\ js_get sums "tech1" = Some (Exact.Num (Exact.Fin 5))
  /\ js_get sums "tech2" = Some (Exact.Num (Exact.Fin 2))
  /\ js_get sums "tech3" = None.
Proof.
  assert (Hwalk : LegalWalk mockTree
                    [mkAnswer "q1" "opt1"; mkAnswer "q2" "opt3"]
                    [mkOption "opt1" (Some "q2") [("tech1", 3); ("tech2", 1)];
                     mkOption "opt3" None [("tech1", 2); ("tech2", 1)]]).
  { split; [discriminate|].
    eapply steps_answer; [reflexivity|reflexivity|reflexivity|].
    eapply steps_answer; [reflexivity|reflexivity|reflexivity|].
    apply steps_done. }
  assert (Hplain : PlainKeys
                     (contributions
                        [mkOption "opt1" (Some "q2") [("tech1", 3); ("tech2", 1)];
                         mkOption "opt3" None [("tech1", 2); ("tech2", 1)]])).
  { intros e He. cbn in He.
    destruct He as [<-|[<-|[<-|[<-|[]]]]]; reflexivity. }
  assert (Hsmall : SmallPoints
                     (contributions
                        [mkOption "opt1" (Some "q2") [("tech1", 3); ("tech2", 1)];
                         mkOption "opt3" None [("tech1", 2); ("tech2", 1)]])).
  { unfold SmallPoints. cbn. reflexivity. }
  destruct (@legal_walk_sums decimal _ _ _ Hwalk Hplain Hsmall)
    as (Hv & Hget & _).
  cbv zeta. split; [exact Hv|].
  split; [exact (Hget "tech1")|]. split; [exact (Hget "tech2")|].
  exact (Hget "tech3").
Defined.

(** C3, as claimed: a legal walk alone does not make [calculate]
    succeed with the sums. On [silentTree] the only walk is legal and
    scores nothing, so [calculate] throws [NO_RECOMMENDATION]. *)
Lemma legal_walk_may_fail :
  ~ (forall (render : Exact.number -> string) (tree : DecisionTree)
            (answers : list Answer) (os : list Option),
       LegalWalk tree answers os ->
       exists r,
         Exact.calculate render tree answers = Returned r
         /\ forall tech,
              js_get (Exact.r_scores r) tech =
              if mentioned tech (contributions os)
              then Some (Exact.Num
                           (Exact.Fin (points_for tech (contributions os))))
              else None).
Proof.
  intros H.
  destruct (H decimal silentTree [mkAnswer "q1" "opt1"]
              [mkOption "opt1" None []] EngineClaims.silentTree_walk)
    as (r & Hr & _).
  vm_compute in Hr. discriminate.
Qed.

(** Neither condition on the scores can be dropped. A legal walk that
    scores [constructor] leaves a string at that key, and [calculate]
    throws although the key has a descriptor. *)
Example inherited_key_is_not_summed (render : Exact.number -> string) :
  LegalWalk describedKeyTree [mkAnswer "q1" "opt1"]
            [mkOption "opt1" None [("constructor", 1)]]
  /\ js_has (results describedKeyTree) "constructor" = true
  /\ Exact.calculateScores render describedKeyTree [mkAnswer "q1" "opt1"]
     = [("constructor", Exact.Text "constructor" (render (Exact.Fin 1)))]
  /\ Exact.calculate render describedKeyTree [mkAnswer "q1" "opt1"]
     = Thrown (result_not_found "undefined").
Proof.
  split.
  { split; [discriminate|].
    eapply steps_answer; [reflexivity|reflexivity|reflexivity|].
    apply steps_done. }
  split; [reflexivity|]. split; reflexivity.
Qed.

(** A legal walk that gives [2^53] and then [1] to a key leaves [2^53]
    there, not the sum. *)
Example large_points_are_rounded (render : Exact.number -> string) :
  let answers := [mkAnswer "q1" "opt1"; mkAnswer "q2" "opt2"] in
  let os := [mkOption "opt1" (Some "q2") [("tech1", 2 ^ 53); ("tech2", 2 ^ 53)];
             mkOption "opt2" None [("tech1", 1)]] in
  LegalWalk largeScoreTree answers os
  /\ PlainKeys (contributions os)
  /\ points_for "tech1" (contributions os) = 2 ^ 53 + 1
  /\ js_get (Exact.calculateScores render largeScoreTree answers) "tech1"
     = Some (Exact.Num (Exact.Fin (2 ^ 53))).
Proof.
  cbv zeta. split.
  { split; [discriminate|].
    eapply steps_answer; [reflexivity|reflexivity|reflexivity|].
    eapply steps_answer; [reflexivity|reflexivity|reflexivity|].
    apply steps_done. }
  split.
  { intros e He. cbn in He. destruct He as [<-|[<-|[<-|[]]]]; reflexivity. }
  split; reflexivity.
Qed.

(** ** The recommended key *)

(** On ordinary keys and small points the recommended key holds the
    largest of the scores, all of which are numbers. *)
Lemma plain_winner_attains_maximum (render : Exact.number -> string)
    (tree : DecisionTree) (answers : list Answer)
    (r : Exact.RecommendationResult) :
  PlainKeys (all_contributions tree answers) ->
  SmallPoints (all_contributions tree answers) ->
  Exact.calculate render tree answers = Returned r ->
  exists w m,
    Exact.recommendation r = Some w
    /\ js_get (Exact.r_scores r) w = Some (Exact.Num (Exact.Fin m))
    /\ forall k v, js_get (Exact.r_scores r) k = Some v ->
                   exists z, v = Exact.Num (Exact.Fin z) /\ z <= m.
Proof.
  intros Hplain Hsmall Hr.
  rewrite (@calculate_exact render tree answers Hplain Hsmall) in Hr.
  apply asOutcome_Returned in Hr. destruct Hr as (r0 & Hr0 & ->).
  destruct (EngineClaims.winner_attains_maximum _ _ Hr0)
    as (_ & m & Hm & _ & Hmax).
  exists (recommendation r0), m. cbn [asReturned Exact.recommendation
                                       Exact.r_scores].
  split; [reflexivity|]. rewrite numeric_get, Hm. split; [reflexivity|].
  intros k v Hv. rewrite numeric_get in Hv.
  destruct (js_get (r_scores r0) k) as [z|] eqn:Hz; [|discriminate].
  injection Hv as <-. exists z. split; [reflexivity|].
  apply Hmax. now apply js_get_In_values with k.
Qed.

(** ** The errors [calculate] can throw *)

Lemma validateAnswerPath_codes tree answers err :
  validateAnswerPath tree answers = Thrown err ->
  In (code err)
     [Some MISSING_ANSWERS; Some INVALID_ANSWER_PATH; Some QUESTION_NOT_FOUND;
      Some OPTION_NOT_FOUND].
Proof.
  unfold validateAnswerPath. intros Hv.
  destruct (Nat.eqb (List.length answers) 0);
    [injection Hv as <-; simpl; auto|].
  destruct (validateAnswerPath_loop (questionMap tree)
              (entryQuestionId tree) 0 answers) as [[next|]|lerr] eqn:Hloop;
    simpl in Hv; try discriminate; injection Hv as <-.
  - simpl. auto.
  - destruct (EngineExtras.loop_Thrown_codes _ _ _ _ Hloop)
      as [Hc|[Hc|[Hc|[]]]]; rewrite <- Hc; simpl; auto.
Qed.

Lemma winnersOf_keys scores k :
  In k (Exact.winnersOf scores) -> In k (js_keys scores).
Proof. unfold Exact.winnersOf. intros H. now apply filter_In in H. Qed.

Lemma breakTie_cases tied scores tree :
  match fst (Exact.breakTie tied scores tree) with
  | Some k => In k tied
  | None => tied = []
  end.
Proof.
  unfold Exact.breakTie. cbv zeta.
  destruct (filter (Exact.has_result tree) tied) as [|w [|w' rest]] eqn:Hf.
  - cbn [fst]. pose proof (sort_perm tied) as Hp.
    destruct (Js.sort tied) as [|k ks]; cbn [hd_error].
    + apply Permutation_nil in Hp. exact Hp.
    + apply Permutation_in with (k :: ks); [exact Hp|now left].
  - cbn [fst]. assert (Hin : In w (filter (Exact.has_result tree) tied))
      by (rewrite Hf; now left).
    now apply filter_In in Hin.
  - cbn [fst]. pose proof (sort_perm tied) as Hp.
    destruct (Js.sort tied) as [|k ks]; cbn [hd_error].
    + apply Permutation_nil in Hp. exact Hp.
    + apply Permutation_in with (k :: ks); [exact Hp|now left].
Qed.

Lemma determineWinner_cases scores tree :
  match Exact.determineWinner scores tree with
  | Returned (Some k, _) => In k (Exact.winnersOf scores)
  | Returned (None, _) => scores <> [] /\ Exact.winnersOf scores = []
  | Thrown e => e = no_recommendation /\ scores = []
  end.
Proof.
  unfold Exact.determineWinner. cbv zeta.
  destruct scores as [|entry scores]; [split; reflexivity|].
  cbn [js_keys map List.length Nat.eqb].
  change (map fst (entry :: scores)) with (js_keys (entry :: scores)).
  change (fst entry :: map fst scores) with (js_keys (entry :: scores)).
  pose proof (breakTie_cases (Exact.winnersOf (entry :: scores))
                (entry :: scores) tree) as Hb.
  destruct (Exact.winnersOf (entry :: scores)) as [|w [|w' rest]] eqn:Hw.
  - destruct (Exact.breakTie [] (entry :: scores) tree) as [[k|] ex];
      cbn [fst] in Hb; [destruct Hb|]. split; [discriminate|reflexivity].
  - now left.
  - destruct (Exact.breakTie (w :: w' :: rest) (entry :: scores) tree)
      as [[k|] ex]; cbn [fst] in Hb; [exact Hb|discriminate].
Qed.

Lemma calculate_thrown_cases (render : Exact.number -> string)
    (tree : DecisionTree) (answers : list Answer) (err : JsError) :
  Exact.calculate render tree answers = Thrown err ->
  In (code err) engine_codes
  \/ exists winner,
       err = result_not_found (Exact.show winner)
       /\ js_get (results tree) (Exact.show winner) = None
       /\ inherited (Exact.show winner) = false
       /\ match winner with
          | Some k =>
              In k (js_keys (Exact.calculateScores render tree answers))
          | None =>
              Exact.calculateScores render tree answers <> []
              /\ Exact.winnersOf (Exact.calculateScores render tree answers)
                 = []
          end.
Proof.
  unfold Exact.calculate. intros H.
  destruct (validateAnswerPath tree answers) as [[]|verr] eqn:Hv;
    cbn [bind] in H.
  - pose proof (determineWinner_cases
                  (Exact.calculateScores render tree answers) tree) as Hd.
    destruct (Exact.determineWinner
                (Exact.calculateScores render tree answers) tree)
      as [[winner tb]|e]; cbn [bind] in H.
    + right. exists winner. unfold Exact.resultAt in H.
      destruct (js_get (results tree) (Exact.show winner)) as [res|];
        [discriminate|].
      destruct (inherited (Exact.show winner)); [discriminate|].
      injection H as <-. split; [reflexivity|]. split; [reflexivity|].
      split; [reflexivity|].
      destruct winner as [k|]; [now apply winnersOf_keys|exact Hd].
    + injection H as <-. destruct Hd as [-> _]. left. simpl. auto 6.
  - injection H as <-. left.
    destruct (validateAnswerPath_codes _ _ Hv) as [Hc|[Hc|[Hc|[Hc|[]]]]];
      rewrite <- Hc; simpl; auto 6.
Qed.

(** X3. Whatever the tree and the answers, an error thrown by
    [calculate] carries one of the codes [MISSING_ANSWERS],
    [INVALID_ANSWER_PATH], [QUESTION_NOT_FOUND], [OPTION_NOT_FOUND] and
    [NO_RECOMMENDATION], or it is the uncoded error about a winner at
    which [tree.results] holds nothing, not even an inherited member:
    that winner is a key of the scores, or it is [undefined] because no
    key of the scores holds their maximum. *)
Theorem calculate_error_codes (render : Exact.number -> string)
    (tree : DecisionTree) (answers : list Answer) (err : JsError) :
  Exact.calculate render tree answers = Thrown err ->
  In (code err) engine_codes
  \/ exists winner,
       err = result_not_found (Exact.show winner)
       /\ js_get (results tree) (Exact.show winner) = None
       /\ inherited (Exact.show winner) = false
       /\ match winner with
          | Some k =>
              In k (js_keys (Exact.calculateScores render tree answers))
          | None =>
              Exact.calculateScores render tree answers <> []
              /\ Exact.winnersOf (Exact.calculateScores render tree answers)
                 = []
          end.
Proof. apply calculate_thrown_cases. Qed.

Lemma calculate_error_codes_witness :
  In (code (result_not_found "undefined")) engine_codes
  \/ exists winner,
       result_not_found "undefined" = result_not_found (Exact.show winner)
       /\ js_get (results describedKeyTree) (Exact.show winner) = None
       /\ inherited (Exact.show winner) = false
       /\ match winner with
          | Some k =>
              In k (js_keys (Exact.calculateScores decimal describedKeyTree
                               [mkAnswer "q1" "opt1"]))
          | None =>
              Exact.calculateScores decimal describedKeyTree
                [mkAnswer "q1" "opt1"] <> []
              /\ Exact.winnersOf
                   (Exact.calculateScores decimal describedKeyTree
                      [mkAnswer "q1" "opt1"]) = []
          end.
Proof.
  exact (@calculate_error_codes decimal describedKeyTree
           [mkAnswer "q1" "opt1"] (result_not_found "undefined") eq_refl).
Defined.

(** ** Scores of an arbitrary answer list *)

Lemma weight_Permutation es es' :
  Permutation es es' -> weight es = weight es'.
Proof.
  induction 1 as [|[k p] es es' _ IH|[k1 p1] [k2 p2] es|es1 es2 es3 _ IH1 _ IH2];
    cbn [weight]; lia.
Qed.

(** X4. For every tree with integer scores and every answer list,
    validated or not, provided no key scored by the named options is the
    name of a member of [Object.prototype] and the absolute values of
    the points they give add up to less than [2^52]: [calculateScores]
    maps each key to the number that is the sum of the points the named
    options give it, answers naming no question or option of the tree
    adding nothing; it lists no key twice; and the value at a key does
    not depend on the order of the answers. *)
Theorem calculateScores_sums (render : Exact.number -> string)
    (tree : DecisionTree) (answers : list Answer) :
  PlainKeys (all_contributions tree answers) ->
  SmallPoints (all_contributions tree answers) ->
  (forall tech,
     js_get (Exact.calculateScores render tree answers) tech =
     if mentioned tech (all_contributions tree answers)
     then Some (Exact.Num
                  (Exact.Fin (points_for tech (all_contributions tree answers))))
     else None)
  /\ NoDup (js_keys (Exact.calculateScores render tree answers))
  /\ (forall answers' tech,
        Permutation answers answers' ->
        js_get (Exact.calculateScores render tree answers) tech
        = js_get (Exact.calculateScores render tree answers') tech).
Proof.
  intros Hplain Hsmall.
  destruct (@calculateScores_exact render tree answers Hplain Hsmall)
    as [Hsums _].
  destruct (EngineExtras.calculateScores_integers tree answers)
    as (Hget & Hnd & Hperm).
  rewrite Hsums. split.
  { intros tech. rewrite numeric_get, Hget.
    now destruct (mentioned tech (all_contributions tree answers)). }
  split; [now rewrite numeric_keys|].
  intros answers' tech Hp.
  assert (Hp' : Permutation (all_contributions tree answers)
                            (all_contributions tree answers'))
    by (apply Permutation_flat_map; exact Hp).
  assert (Hplain' : PlainKeys (all_contributions tree answers')).
  { intros e He. apply Hplain.
    apply Permutation_in with (all_contributions tree answers');
      [now apply Permutation_sym|exact He]. }
  assert (Hsmall' : SmallPoints (all_contributions tree answers')).
  { unfold SmallPoints in *. now rewrite <- (weight_Permutation Hp'). }
  destruct (@calculateScores_exact render tree answers' Hplain' Hsmall')
    as [-> _].
  now rewrite !numeric_get, (Hperm answers' tech Hp).
Qed.

Lemma calculateScores_sums_witness :
  js_get (Exact.calculateScores decimal mockTree
            [mkAnswer "q1" "opt2"; mkAnswer "q2" "opt3"; mkAnswer "q9" "opt1"])
         "tech2"
  = Some (Exact.Num (Exact.Fin 4)).
Proof.
  assert (Hplain : PlainKeys
                     (all_contributions mockTree
                        [mkAnswer "q1" "opt2"; mkAnswer "q2" "opt3";
                         mkAnswer "q9" "opt1"])).
  { intros e He. cbn in He.
    destruct He as [<-|[<-|[<-|[<-|[]]]]]; reflexivity. }
  assert (Hsmall : SmallPoints
                     (all_contributions mockTree
                        [mkAnswer "q1" "opt2"; mkAnswer "q2" "opt3";
                         mkAnswer "q9" "opt1"])).
  { unfold SmallPoints. cbn. reflexivity. }
  exact (proj1 (@calculateScores_sums decimal _ _ Hplain Hsmall) "tech2").
Defined.

(** With large points the order of the answers matters: [2^53], [1], [1]
    leaves [2^53], and [1], [1], [2^53] leaves [2^53 + 2]. *)
Example rounding_depends_on_order (render : Exact.number -> string) :
  let tree :=
    mkTree [ mkQuestion "q1" [ mkOption "big" None [("tech1", 2 ^ 53)];
                               mkOption "one" None [("tech1", 1)] ] ]
           mockResults in
  Exact.calculateScores render tree
    [mkAnswer "q1" "big"; mkAnswer "q1" "one"; mkAnswer "q1" "one"]
  = [("tech1", Exact.Num (Exact.Fin (2 ^ 53)))]
  /\ Exact.calculateScores render tree
       [mkAnswer "q1" "one"; mkAnswer "q1" "one"; mkAnswer "q1" "big"]
     = [("tech1", Exact.Num (Exact.Fin (2 ^ 53 + 2)))].
Proof. split; reflexivity. Qed.

End ExactClaims.

(* ===================================================================== *)
(** * What the stages of the validator establish                         *)
(* ===================================================================== *)

Module StageFacts.
Import DecisionTreeValidator ValidatorSpec ValidatorFacts WellFormed.

Lemma errors_of_ret {A} (a : A) : errors_of (ret a) = [].
Proof. reflexivity. Qed.

Lemma errors_of_pushError c msg loc :
  errors_of (pushError c msg loc)
  = [{| issue_type := error; issue_code := c; issue_message := msg;
        location := loc |}].
Proof. reflexivity. Qed.

Lemma errors_of_pushWarning c msg loc : errors_of (pushWarning c msg loc) = [].
Proof. reflexivity. Qed.

Lemma errors_of_when c m :
  errors_of (when c m) = if c then errors_of m else [].
Proof. now destruct c. Qed.

Lemma errors_of_bind {A B} (m : V A) (k : A -> V B) :
  Appends m -> (forall a, Appends (k a)) ->
  errors_of (bindV m k) = errors_of m ++ errors_of (k (fst (m empty))).
Proof.
  intros Hm Hk. unfold errors_of, bindV.
  destruct (m empty) as [a d]. cbn [fst snd].
  rewrite (Hk a d). cbn [snd pushed errs]. reflexivity.
Qed.

Lemma value_bind {A B} (m : V A) (k : A -> V B) :
  (forall a, Appends (k a)) ->
  fst (bindV m k empty) = fst (k (fst (m empty)) empty).
Proof.
  intros Hk. unfold bindV. destruct (m empty) as [a d]. cbn [fst].
  now rewrite (Hk a d).
Qed.

(** The errors of a loop are those of its rounds, each round starting
    with the local variables the round before left. *)
Lemma errors_of_forEach_cons {A St} (f : St -> nat -> A -> V St) x xs i s :
  (forall s i x, Appends (f s i x)) ->
  errors_of (forEach f (x :: xs) i s)
  = errors_of (f s i x)
    ++ errors_of (forEach f xs (S i) (fst (f s i x empty))).
Proof.
  intros Hf. cbn [forEach]. apply errors_of_bind; [apply Hf|].
  intros s'. now apply Appends_forEach.
Qed.

Lemma app_nil_iff {A} (l1 l2 : list A) :
  l1 ++ l2 = [] <-> l1 = [] /\ l2 = [].
Proof.
  split; [apply app_eq_nil|]. intros [-> ->]. reflexivity.
Qed.

Lemma truthy_iff s : truthy s = true <-> s <> EmptyString.
Proof. destruct s; simpl; split; congruence. Qed.

Lemma set_has_In s x : set_has s x = true <-> In x s.
Proof.
  unfold set_has. rewrite existsb_exists. split.
  - intros (y & Hy & Heq). apply String.eqb_eq in Heq. now subst.
  - intros H. exists x. split; [exact H|apply String.eqb_refl].
Qed.

Lemma set_has_false s x : set_has s x = false <-> ~ In x s.
Proof.
  rewrite <- set_has_In. destruct (set_has s x); split; congruence.
Qed.

Lemma In_set_add s x y : In y (set_add s x) <-> In y s \/ y = x.
Proof.
  rewrite <- !set_has_In, set_has_add, orb_true_iff, String.eqb_eq. tauto.
Qed.

(** ** A loop that refuses an id it has seen *)

Section UniqueIds.
Context {A : Type}.
Variable f : list string -> nat -> A -> V (list string).
Variable key : A -> string.
Variable good : A -> Prop.
Hypothesis f_appends : forall s i x, Appends (f s i x).
Hypothesis f_round :
  forall s i x, errors_of (f s i x) = [] <-> good x /\ ~ In (key x) s.
Hypothesis f_seen :
  forall s i x, errors_of (f s i x) = [] ->
                fst (f s i x empty) = set_add s (key x).

Lemma loop_unique_ids : forall xs i s,
  errors_of (forEach f xs i s) = []
  <-> Forall good xs
      /\ NoDup (map key xs)
      /\ forall x, In x xs -> ~ In (key x) s.
Proof.
  induction xs as [|x xs IH]; intros i s.
  - cbn [forEach]. rewrite errors_of_ret. split; [|reflexivity].
    intros _. repeat split; [constructor|constructor|intros x []].
  - rewrite (errors_of_forEach_cons f x xs i s f_appends). split.
    + intros H. apply app_eq_nil in H. destruct H as [Hx Hxs].
      rewrite (f_seen _ _ _ Hx) in Hxs.
      apply f_round in Hx. destruct Hx as [Hgood Hnew].
      apply IH in Hxs. destruct Hxs as (Hall & Hnd & Hfresh).
      split; [now constructor|]. split.
      * cbn [map]. constructor; [|exact Hnd].
        intros Hin. apply in_map_iff in Hin. destruct Hin as (y & Hy & Hin).
        apply (Hfresh y Hin). apply In_set_add. now right.
      * intros y [<-|Hin]; [exact Hnew|].
        intros Hs. apply (Hfresh y Hin). apply In_set_add. now left.
    + intros (Hall & Hnd & Hfresh).
      inversion Hall as [|? ? Hgood Hall']; subst.
      cbn [map] in Hnd. inversion Hnd as [|? ? Hnotin Hnd']; subst.
      assert (Hx : errors_of (f s i x) = []).
      { apply f_round. split; [exact Hgood|]. apply Hfresh. now left. }
      rewrite Hx, (f_seen _ _ _ Hx). cbn [app]. apply IH.
      split; [exact Hall'|]. split; [exact Hnd'|].
      intros y Hin Hs. apply In_set_add in Hs. destruct Hs as [Hs|Heq].
      * apply (Hfresh y); [now right|exact Hs].
      * apply Hnotin. rewrite <- Heq. now apply in_map.
Qed.

End UniqueIds.

Ltac appends_v :=
  intros; repeat first [ apply Appends_validateOptions | progress appends ].

(** ** [validateOptions] *)

Lemma validateOptions_ok options questionLocation :
  errors_of (validateOptions options questionLocation) = []
  <-> Forall GoodOption options /\ NoDup (map o_id options).
Proof.
  unfold validateOptions.
  rewrite errors_of_bind by appends_v. rewrite errors_of_ret, app_nil_r.
  rewrite (@loop_unique_ids _ _ o_id GoodOption).
  - split; [tauto|]. intros [H1 H2]. repeat split; auto.
  - intros. appends_v.
  - intros s i o. unfold GoodOption, blank. rewrite <- truthy_iff.
    rewrite <- set_has_false.
    destruct (truthy (o_id o)), (set_has s (o_id o)),
      (negb (truthy (o_label o)) || all_space (o_label o)),
      (Nat.eqb (List.length (js_keys (scores o))) 0);
      cbn; split; intros H; try discriminate; try tauto;
      destruct H as [[? ?] ?]; discriminate.
  - intros s i o.
    destruct (truthy (o_id o)), (set_has s (o_id o)),
      (negb (truthy (o_label o)) || all_space (o_label o)),
      (Nat.eqb (List.length (js_keys (scores o))) 0);
      cbn; intros H; try discriminate; reflexivity.
Qed.

(** ** [validateQuestions] *)

Lemma validateQuestions_ok tree :
  errors_of (validateQuestions tree) = [] <-> QuestionsOk tree.
Proof.
  unfold validateQuestions, QuestionsOk.
  rewrite errors_of_bind by appends_v. rewrite errors_of_ret, app_nil_r.
  rewrite (@loop_unique_ids _ _ q_id GoodQuestion).
  - split; [tauto|]. intros [H1 H2]. repeat split; auto.
  - intros. appends_v.
  - intros s i q. unfold GoodQuestion, blank.
    rewrite <- truthy_iff, <- set_has_false.
    rewrite <- (validateOptions_ok (options q)
                  ("questions[" ++ string_of_nat i ++ "]")%string).
    rewrite !errors_of_bind by appends_v.
    rewrite errors_of_when, errors_of_ret, app_nil_r.
    destruct (truthy (q_id q)) eqn:Hid; cbn [negb];
      [|rewrite errors_of_bind, errors_of_pushError by appends_v;
        split; [discriminate|]; intros [(? & _) _]; discriminate].
    destruct (set_has s (q_id q)) eqn:Hseen;
      [rewrite errors_of_bind, errors_of_pushError by appends_v;
       split; [discriminate|]; intros [_ ?]; discriminate|].
    rewrite errors_of_ret. cbn [app].
    destruct (negb (truthy (q_text q)) || all_space (q_text q)) eqn:Htext;
      [rewrite errors_of_pushError; split; [discriminate|];
       intros [(_ & ? & _) _]; discriminate|].
    cbn [app].
    destruct (options q) as [|o os] eqn:Hos; cbn [List.length Nat.eqb].
    + rewrite errors_of_pushError. split; [discriminate|].
      intros [(_ & _ & Hne & _) _]. congruence.
    + split.
      * intros H. repeat split; auto; discriminate.
      * intros [(_ & _ & _ & H) _]. exact H.
  - intros s i q. rewrite !errors_of_bind by appends_v.
    intros H. apply app_eq_nil in H. destruct H as [Hid _].
    rewrite value_bind by (intros; appends_v).
    destruct (negb (truthy (q_id q)));
      [rewrite errors_of_bind, errors_of_pushError in Hid by appends_v;
       discriminate|].
    destruct (set_has s (q_id q));
      [rewrite errors_of_bind, errors_of_pushError in Hid by appends_v;
       discriminate|].
    cbn [ret fst].
    rewrite !value_bind by (intros; appends_v). reflexivity.
Qed.

(** ** A loop without local variables *)

Lemma loop_all {A} (f : unit -> nat -> A -> V unit) (good : A -> Prop) :
  (forall s i x, Appends (f s i x)) ->
  (forall s i x, errors_of (f s i x) = [] <-> good x) ->
  forall xs i s, errors_of (forEach f xs i s) = [] <-> Forall good xs.
Proof.
  intros Happ Hround. induction xs as [|x xs IH]; intros i s.
  - cbn [forEach]. rewrite errors_of_ret. split; [constructor|reflexivity].
  - rewrite (errors_of_forEach_cons f x xs i s Happ). split.
    + intros H. apply app_eq_nil in H. destruct H as [Hx Hxs].
      constructor; [now apply (Hround s i x)|now apply IH in Hxs].
    + intros H. inversion H as [|? ? Hx Hxs]; subst.
      apply (Hround s i x) in Hx. rewrite Hx. cbn [app]. now apply IH.
Qed.

(** ** [validateReferences] *)

Lemma validateReferences_ok tree :
  errors_of (validateReferences tree) = [] <-> ReferencesOk tree.
Proof.
  unfold validateReferences. cbv zeta.
  rewrite (@loop_all _ _
             (fun q =>
                Forall
                  (fun o =>
                     (forall next, nextQuestionId o = Some next ->
                                   In next (map q_id (questions tree))
                                   /\ next <> q_id q)
                     /\ Forall (fun tech =>
                                  js_truthy_at (results tree) tech = true)
                               (js_keys (scores o)))
                  (options q))).
  - unfold ReferencesOk. rewrite Forall_forall. split.
    + intros H q o Hq Ho. specialize (H q Hq). rewrite Forall_forall in H.
      destruct (H o Ho) as [Hnext Hscores]. split; [exact Hnext|].
      now rewrite Forall_forall in Hscores.
    + intros H q Hq. rewrite Forall_forall. intros o Ho.
      destruct (H q o Hq Ho) as [Hnext Hscores]. split; [exact Hnext|].
      now rewrite Forall_forall.
  - intros. appends.
  - intros s qIndex q. apply loop_all; [intros; appends|].
    intros s' oIndex o. rewrite errors_of_bind by appends_v.
    cbv beta. rewrite app_nil_iff.
    rewrite (@loop_all _ _
               (fun tech => js_truthy_at (results tree) tech = true));
      [|intros; appends
       |intros u i tech; rewrite errors_of_when, errors_of_pushError;
        destruct (js_truthy_at (results tree) tech); cbn; split; congruence].
    destruct (nextQuestionId o) as [next|].
    + rewrite errors_of_bind by appends_v.
      rewrite !errors_of_when, !errors_of_pushError.
      destruct (set_has (map q_id (questions tree)) next) eqn:Hhas;
        cbn [negb app].
      * apply set_has_In in Hhas.
        destruct (String.eqb_spec next (q_id q)) as [Heq|Hne]; cbn [app].
        -- split; [intros [? _]; discriminate|]. intros [H _].
           destruct (H next eq_refl) as [_ Hself]. contradiction.
        -- split; [|tauto]. intros [_ Hs]. split; [|exact Hs].
           intros n Hn. injection Hn as <-. auto.
      * apply set_has_false in Hhas. split; [intros [? _]; discriminate|].
        intros [H _]. destruct (H next eq_refl) as [Hin _]. contradiction.
    + rewrite errors_of_ret. split; [|tauto].
      intros [_ Hs]. split; [discriminate|exact Hs].
Qed.

(** ** [validateResults] *)

Lemma validateResults_ok tree :
  errors_of (validateResults tree) = [] <-> ResultsOk tree.
Proof.
  unfold validateResults, ResultsOk. cbv zeta.
  destruct (results tree) as [|[k0 r0] rs] eqn:Hrs.
  - cbn. split; [discriminate|]. intros [H _]. congruence.
  - rewrite <- Hrs. replace (Nat.eqb (List.length (js_keys (results tree))) 0)
      with false by (rewrite Hrs; reflexivity).
    rewrite (@loop_all _ _
               (fun key => forall r, js_get (results tree) key = Some r ->
                                     name r <> EmptyString)).
    + rewrite Forall_forall. split.
      * intros H. split; [rewrite Hrs; discriminate|].
        intros key r Hget. apply (H key); [|exact Hget].
        eapply JsFacts.js_get_In_keys; eassumption.
      * intros [_ H] key _ r Hget. now apply (H key).
    + intros. appends.
    + intros u i key. destruct (js_get (results tree) key) as [r|].
      * rewrite !errors_of_bind by appends_v.
        rewrite !errors_of_when, errors_of_pushError, !errors_of_pushWarning.
        destruct (truthy (name r)) eqn:Hname; cbn [negb].
        -- apply truthy_iff in Hname.
           repeat match goal with
                  | |- context [if ?c then _ else _] => destruct c
                  end; cbn [app]; split; try reflexivity;
             intros _ r' Hr'; injection Hr' as <-; exact Hname.
        -- cbn [app]. split; [discriminate|].
           intros H. specialize (H r eq_refl).
           apply truthy_iff in H. congruence.
      * rewrite errors_of_ret. split; [discriminate|reflexivity].
Qed.

(** ** [validateBasicStructure] *)

Lemma if_nil {A} (b : bool) (e : A) :
  (if b then [e] else []) = [] <-> b = false.
Proof. destruct b; split; congruence. Qed.

Lemma validateBasicStructure_ok tree :
  errors_of (validateBasicStructure tree) = [] <-> BasicOk tree.
Proof.
  unfold BasicOk.
  destruct tree as [[i ti d v qs rs]|]; cbn [validateBasicStructure].
  - assert (Htruthy : forall o : option string,
              negb match o with Some s => truthy s | None => false end = false
              <-> exists x, o = Some x /\ x <> EmptyString).
    { intros [x|]; cbn.
      - rewrite negb_false_iff, truthy_iff. split; [eauto|].
        intros (y & Hy & Hne). now injection Hy as ->.
      - split; [discriminate|]. intros (y & Hy & _). discriminate. }
    cbn [raw_id raw_title raw_questions raw_results].
    rewrite !errors_of_bind by (destruct qs; appends_v).
    rewrite !errors_of_when, !errors_of_pushError, !app_nil_iff.
    cbv beta.
    assert (Hrest :
              errors_of
                match qs with
                | Some qs0 =>
                    when (Nat.eqb (List.length qs0) 0)
                      (pushError "EMPTY_TREE"
                         "Tree must have at least one question" None) ;;>
                    when match rs with Some _ => false | None => true end
                      (pushError "INVALID_RESULTS"
                         "Tree must have a results object" None)
                | None =>
                    pushError "INVALID_QUESTIONS"
                      "Tree must have a questions array" None
                end = []
              <-> (exists qs', qs = Some qs' /\ qs' <> [])
                  /\ (exists rs', rs = Some rs')).
    { destruct qs as [[|q qs]|], rs as [rs|]; cbn; split;
        try discriminate;
        try (intros [(qs' & Hq & Hne) (rs' & Hr)]; congruence).
      intros _. split; eexists; [split; [reflexivity|discriminate]|reflexivity]. }
    rewrite Hrest, !if_nil, !Htruthy. split.
    + intros (H1 & H2 & H3 & H4).
      eexists. split; [reflexivity|].
      cbn [raw_id raw_title raw_questions raw_results].
      auto.
    + intros (t & Ht & Hi & Hti & Hqs & Hrs).
      injection Ht as <-.
      cbn [raw_id raw_title raw_questions raw_results] in *.
      auto.
  - cbn. split; [discriminate|]. intros (t & Ht & _). discriminate.
Qed.

End StageFacts.

(* ===================================================================== *)
(** * The reachability search                                            *)
(* ===================================================================== *)

Module ReachFacts.
Import DecisionTreeValidator ValidatorSpec ValidatorFacts WellFormed Graph
       StageFacts.

Lemma errors_of_value {A} (m : V A) r :
  Appends m -> m r = (value_of m, pushed r (snd (m empty))).
Proof. intros H. apply H. Qed.

Lemma value_of_bind {A B} (m : V A) (k : A -> V B) :
  (forall a, Appends (k a)) ->
  value_of (bindV m k) = value_of (k (value_of m)).
Proof. apply value_bind. Qed.

Section Search.
Variable tree : DecisionTree.

Local Abbreviation edge := (Edge tree).
Local Abbreviation path_to := (clos_trans string (Edge tree)).
Local Abbreviation reaches := (clos_refl_trans string (Edge tree)).

Lemma Appends_visitOption fuel path sets opt :
  Appends (visitOption tree fuel path sets opt).
Proof.
  unfold visitOption. destruct (nextQuestionId opt) as [next|];
    [|apply Appends_ret].
  destruct (truthy next); [apply Appends_dfs|apply Appends_ret].
Qed.

Lemma dfs_unfold fuel questionId path reachable visited :
  dfs (S fuel) tree questionId path (reachable, visited) =
  if set_has visited questionId then
    when (existsb (String.eqb questionId) path)
         (pushError "CIRCULAR_REFERENCE"
            ("Circular reference detected: "
             ++ join " -> " (path ++ [questionId]))%string
            None) ;;>
    ret (Some (reachable, visited))
  else
    match questionById tree questionId with
    | None =>
        ret (Some (set_add reachable questionId, set_add visited questionId))
    | Some question =>
        forOf (visitOption tree fuel (path ++ [questionId])) (options question)
              (set_add reachable questionId, set_add visited questionId)
    end.
Proof. reflexivity. Qed.

Lemma forOf_value {A St} (f : St -> A -> V (option St)) x xs s :
  (forall s x, Appends (f s x)) ->
  value_of (forOf f (x :: xs) s)
  = match value_of (f s x) with
    | Some s' => value_of (forOf f xs s')
    | None => None
    end.
Proof.
  intros Hf. cbn [forOf]. unfold value_of at 1.
  rewrite value_bind.
  - fold (value_of (f s x)). now destruct (value_of (f s x)).
  - intros [s'|]; [now apply Appends_forOf|apply Appends_ret].
Qed.

Lemma forOf_errors {A St} (f : St -> A -> V (option St)) x xs s :
  (forall s x, Appends (f s x)) ->
  errors_of (forOf f (x :: xs) s)
  = errors_of (f s x)
    ++ match value_of (f s x) with
       | Some s' => errors_of (forOf f xs s')
       | None => []
       end.
Proof.
  intros Hf. cbn [forOf]. rewrite errors_of_bind.
  - fold (value_of (f s x)). now destruct (value_of (f s x)).
  - apply Hf.
  - intros [s'|]; [now apply Appends_forOf|apply Appends_ret].
Qed.

Lemma edge_of_option question opt next u :
  questionById tree u = Some question ->
  In opt (options question) ->
  nextQuestionId opt = Some next ->
  truthy next = true ->
  edge u next.
Proof. intros. exists question, opt. auto. Qed.

(** *** What a call visits *)

Lemma dfs_visits fuel : forall u path visited reachable' visited',
  value_of (dfs fuel tree u path (visited, visited))
  = Some (reachable', visited') ->
  reachable' = visited' /\ Visits tree u path visited visited'.
Proof.
  induction fuel as [|fuel IH]; intros u path visited reachable' visited' H;
    [discriminate|].
  rewrite dfs_unfold in H.
  destruct (set_has visited u) eqn:Hseen.
  - unfold value_of in H. rewrite value_bind in H by (intros; apply Appends_ret).
    injection H as <- <-. split; [reflexivity|].
    apply set_has_In in Hseen.
    split; [apply incl_refl|]. split; [exact Hseen|].
    split; [auto|]. auto.
  - apply set_has_false in Hseen.
    assert (Hadd : forall x, In x (set_add visited u) <-> In x visited \/ x = u)
      by (intros; apply In_set_add).
    destruct (questionById tree u) as [question|] eqn:Hq.
    + (* the loop over the options *)
      assert (Hloop : forall os,
                incl os (options question) ->
                forall vis reach' vis',
                  value_of (forOf (visitOption tree fuel (path ++ [u])) os (vis, vis))
                  = Some (reach', vis') ->
                  reach' = vis'
                  /\ incl vis vis'
                  /\ (forall o next, In o os -> nextQuestionId o = Some next ->
                                     truthy next = true -> In next vis')
                  /\ (forall x, In x vis' -> In x vis \/ reaches u x)
                  /\ (incl (path ++ [u]) vis ->
                      SuccVisited tree vis (path ++ [u]) ->
                      SuccVisited tree vis' (path ++ [u]))).
      { induction os as [|o os IHos]; intros Hincl vis reach' vis' Hv.
        - injection Hv as <- <-. split; [reflexivity|].
          split; [apply incl_refl|]. split; [intros o next []|]. auto.
        - rewrite forOf_value in Hv by (intros; apply Appends_visitOption).
          destruct (value_of (visitOption tree fuel (path ++ [u]) (vis, vis) o))
            as [[reach1 vis1]|] eqn:Hstep; [|discriminate].
          assert (Hone : reach1 = vis1
                         /\ incl vis vis1
                         /\ (forall next, nextQuestionId o = Some next ->
                                          truthy next = true -> In next vis1)
                         /\ (forall x, In x vis1 -> In x vis \/ reaches u x)
                         /\ (incl (path ++ [u]) vis ->
                             SuccVisited tree vis (path ++ [u]) ->
                             SuccVisited tree vis1 (path ++ [u]))).
          { unfold visitOption in Hstep.
            destruct (nextQuestionId o) as [next|] eqn:Hn.
            - destruct (truthy next) eqn:Ht.
              + destruct (IH _ _ _ _ _ Hstep) as (-> & Hi & Hin & Hr & Hs).
                split; [reflexivity|]. split; [exact Hi|].
                split; [intros n Hn'; injection Hn' as <-; auto|].
                split; [|exact Hs].
                intros x Hx. destruct (Hr x Hx) as [|Hreach]; [now left|].
                right. apply rt_trans with next; [|exact Hreach].
                apply rt_step.
                apply (@edge_of_option question o next u); auto.
                apply Hincl. now left.
              + injection Hstep as <- <-. split; [reflexivity|].
                split; [apply incl_refl|].
                split; [intros n Hn'; injection Hn' as <-; congruence|].
                auto.
            - injection Hstep as <- <-. split; [reflexivity|].
              split; [apply incl_refl|]. split; [discriminate|]. auto. }
          destruct Hone as (-> & Hi1 & Hin1 & Hr1 & Hs1).
          destruct (IHos (fun x Hx => Hincl x (or_intror Hx)) _ _ _ Hv)
            as (-> & Hi2 & Hin2 & Hr2 & Hs2).
          split; [reflexivity|].
          split; [eapply incl_tran; eassumption|].
          split.
          { intros o' next [<-|Ho'] Hn Ht; [apply Hi2; auto|eauto]. }
          split.
          { intros x Hx. destruct (Hr2 x Hx) as [Hx1|]; [auto|now right]. }
          intros Hp Hsv. apply Hs2; [eapply incl_tran; eassumption|auto]. }
      unfold set_add in H. rewrite (proj2 (set_has_false _ _) Hseen) in H.
      destruct (Hloop (options question) (incl_refl _) _ _ _ H)
        as (-> & Hi & Hin & Hr & Hs).
      assert (Hu : In u (visited ++ [u])) by (apply in_or_app; right; now left).
      split; [reflexivity|]. split.
      { intros x Hx. apply Hi. apply in_or_app. now left. }
      split; [apply Hi, Hu|]. split.
      { intros x Hx. destruct (Hr x Hx) as [Hx'|]; [|now right].
        apply in_app_or in Hx'. destruct Hx' as [|[<-|[]]]; [now left|].
        right. apply rt_refl. }
      intros Hp Hsv.
      assert (Hsv' : SuccVisited tree visited' (path ++ [u])).
      { apply Hs.
        - intros x Hx. apply in_app_or in Hx. apply in_or_app.
          destruct Hx as [Hx|Hx]; [left; now apply Hp|now right].
        - intros w v Hw Hnp He. apply in_or_app. left.
          apply in_app_or in Hw. destruct Hw as [Hw|[<-|[]]].
          + apply (Hsv w v Hw); [|exact He].
            intros Hin'. apply Hnp. apply in_or_app. now left.
          + exfalso. apply Hnp. apply in_or_app. right. now left. }
      intros w v Hw Hnp He.
      destruct (String.eqb_spec w u) as [->|Hne].
      * destruct He as (q' & o & Hq' & Ho & Hn & Ht).
        rewrite Hq in Hq'. injection Hq' as <-. eauto.
      * apply (Hsv' w v Hw); [|exact He].
        intros Hin'. apply in_app_or in Hin'.
        destruct Hin' as [|[Heq|[]]]; [auto|congruence].
    + injection H as <- <-. split; [reflexivity|].
      split; [intros x Hx; apply Hadd; now left|].
      split; [apply Hadd; now right|]. split.
      { intros x Hx. apply Hadd in Hx. destruct Hx as [Hx| ->]; [now left|].
        right. apply rt_refl. }
      intros Hp Hsv w v Hw Hnp He.
      apply Hadd in Hw. destruct Hw as [Hw| ->].
      * apply Hadd. left. eapply Hsv; eassumption.
      * destruct He as (q' & o & Hq' & _). rewrite Hq in Hq'. discriminate.
Qed.

Lemma dfs_visits_loop fuel path : forall os vis sets',
  value_of (forOf (visitOption tree fuel path) os (vis, vis)) = Some sets' ->
  fst sets' = snd sets' /\ incl vis (snd sets').
Proof.
  induction os as [|o os IHos]; intros vis sets' Hv.
  - injection Hv as <-. split; [reflexivity|apply incl_refl].
  - rewrite forOf_value in Hv by (intros; apply Appends_visitOption).
    destruct (value_of (visitOption tree fuel path (vis, vis) o))
      as [[reach1 vis1]|] eqn:Hstep; [|discriminate].
    assert (Hone : reach1 = vis1 /\ incl vis vis1).
    { unfold visitOption in Hstep.
      destruct (nextQuestionId o) as [next|].
      - destruct (truthy next).
        + destruct (dfs_visits _ _ _ _ Hstep) as (-> & Hi & _). auto.
        + injection Hstep as <- <-. split; [reflexivity|apply incl_refl].
      - injection Hstep as <- <-. split; [reflexivity|apply incl_refl]. }
    destruct Hone as [-> Hi1].
    destruct (IHos _ _ Hv) as [Heq Hi2].
    split; [exact Heq|eapply incl_tran; eassumption].
Qed.

(** *** A reported cycle is a cycle *)

Lemma existsb_eqb_In u (path : list string) :
  existsb (String.eqb u) path = true <-> In u path.
Proof.
  rewrite existsb_exists. split.
  - intros (y & Hy & Heq). apply String.eqb_eq in Heq. now subst.
  - intros H. exists u. split; [exact H|apply String.eqb_refl].
Qed.

Lemma dfs_seen_errors u path (sets : list string * list string) e :
  errors_of (when (existsb (String.eqb u) path) (pushError "CIRCULAR_REFERENCE" e None)
             ;;> ret (Some sets)) = []
  <-> ~ In u path.
Proof.
  rewrite errors_of_bind by appends_v.
  rewrite errors_of_when, errors_of_pushError, errors_of_ret, app_nil_r.
  rewrite <- existsb_eqb_In.
  destruct (existsb (String.eqb u) path); split; congruence.
Qed.

Lemma dfs_error fuel : forall u path sets,
  errors_of (dfs fuel tree u path sets) <> [] ->
  (forall x, In x path -> path_to x u) ->
  exists w, reaches u w /\ path_to w w.
Proof.
  induction fuel as [|fuel IH]; intros u path [reachable visited] Herr Hpath.
  - now contradiction Herr.
  - rewrite dfs_unfold in Herr.
    destruct (set_has visited u).
    + exists u. split; [apply rt_refl|]. apply Hpath.
      destruct (in_dec string_dec u path) as [Hin|Hout]; [exact Hin|].
      contradiction Herr. now apply dfs_seen_errors.
    + destruct (questionById tree u) as [question|] eqn:Hq;
        [|now contradiction Herr].
      assert (Hloop : forall os,
                incl os (options question) ->
                forall sets,
                  errors_of (forOf (visitOption tree fuel (path ++ [u])) os sets)
                  <> [] ->
                  exists w, reaches u w /\ path_to w w).
      { induction os as [|o os IHos]; intros Hincl sets Hne.
        - now contradiction Hne.
        - rewrite forOf_errors in Hne by (intros; apply Appends_visitOption).
          destruct (errors_of (visitOption tree fuel (path ++ [u]) sets o))
            as [|e es] eqn:Hone.
          + cbn [app] in Hne.
            destruct (value_of (visitOption tree fuel (path ++ [u]) sets o))
              as [sets'|]; [|now contradiction Hne].
            apply (IHos (fun x Hx => Hincl x (or_intror Hx)) sets' Hne).
          + unfold visitOption in Hone.
            destruct (nextQuestionId o) as [next|] eqn:Hn; [|discriminate].
            destruct (truthy next) eqn:Ht; [|discriminate].
            assert (He : edge u next).
            { apply (@edge_of_option question o next u); auto.
              apply Hincl. now left. }
            destruct (IH next (path ++ [u]) sets) as (w & Hw & Hcyc).
            * rewrite Hone. discriminate.
            * intros x Hx. apply in_app_or in Hx.
              destruct Hx as [Hx|[<-|[]]].
              -- apply t_trans with u; [now apply Hpath|now apply t_step].
              -- now apply t_step.
            * exists w. split; [|exact Hcyc].
              apply rt_trans with next; [now apply rt_step|exact Hw]. }
      apply (Hloop (options question) (incl_refl _) _ Herr).
Qed.

(** *** A search that reports nothing has met no cycle *)

Lemma Finished_closed visited path :
  Finished tree visited path ->
  forall w x, reaches w x -> In w visited -> ~ In w path ->
              In x visited /\ ~ In x path.
Proof.
  intros [Hclosed _] w x Hreach. apply clos_rt_rt1n in Hreach.
  induction Hreach as [w|w v x He _ IH]; intros Hw Hnp; [auto|].
  destruct (Hclosed w v Hw Hnp He) as [Hv Hvp]. auto.
Qed.

Lemma dfs_no_error fuel : forall u path visited reachable' visited',
  value_of (dfs fuel tree u path (visited, visited))
  = Some (reachable', visited') ->
  errors_of (dfs fuel tree u path (visited, visited)) = [] ->
  incl path visited ->
  Finished tree visited path ->
  Finished tree visited' path /\ ~ In u path.
Proof.
  induction fuel as [|fuel IH];
    intros u path visited reachable' visited' Hval Herr Hp Hfin;
    [discriminate|].
  rewrite dfs_unfold in Hval, Herr.
  destruct (set_has visited u) eqn:Hseen.
  - apply dfs_seen_errors in Herr.
    unfold value_of in Hval.
    rewrite value_bind in Hval by (intros; apply Appends_ret).
    injection Hval as <- <-. auto.
  - apply set_has_false in Hseen.
    assert (Hup : ~ In u path) by (intros Hin; apply Hseen, Hp, Hin).
    split; [|exact Hup].
    unfold set_add in Hval, Herr.
    rewrite (proj2 (set_has_false _ _) Hseen) in Hval, Herr.
    assert (Hsame : forall x, (In x (visited ++ [u]) /\ ~ In x (path ++ [u]))
                              <-> (In x visited /\ ~ In x path)).
    { intros x. rewrite !in_app_iff. cbn [In]. split.
      - intros [[Hx|[<-|[]]] Hn]; [split; [exact Hx|tauto]|]. tauto.
      - intros [Hx Hn]. split; [now left|].
        intros [Hx'|[<-|[]]]; [tauto|]. auto. }
    assert (Hfin1 : Finished tree (visited ++ [u]) (path ++ [u])).
    { destruct Hfin as [Hclosed Hacyc]. split.
      - intros w v Hw Hnp He.
        destruct (proj1 (Hsame w) (conj Hw Hnp)) as [Hw' Hnp'].
        apply Hsame. now apply (Hclosed w v).
      - intros w Hw Hnp.
        destruct (proj1 (Hsame w) (conj Hw Hnp)) as [Hw' Hnp'].
        now apply Hacyc. }
    assert (Hp1 : incl (path ++ [u]) (visited ++ [u])).
    { intros x Hx. apply in_app_or in Hx. apply in_or_app.
      destruct Hx as [Hx|Hx]; [left; now apply Hp|now right]. }
    destruct (questionById tree u) as [question|] eqn:Hq.
    + assert (Hloop : forall os,
                incl os (options question) ->
                forall vis reach' vis',
                  value_of (forOf (visitOption tree fuel (path ++ [u])) os (vis, vis))
                  = Some (reach', vis') ->
                  errors_of (forOf (visitOption tree fuel (path ++ [u])) os
                                   (vis, vis)) = [] ->
                  incl (path ++ [u]) vis ->
                  Finished tree vis (path ++ [u]) ->
                  Finished tree vis' (path ++ [u])
                  /\ forall o next, In o os -> nextQuestionId o = Some next ->
                                    truthy next = true ->
                                    In next vis' /\ ~ In next (path ++ [u])).
      { induction os as [|o os IHos];
          intros Hincl vis reach' vis' Hv He Hpv Hf.
        - injection Hv as <- <-. split; [exact Hf|intros o next []].
        - rewrite forOf_value in Hv by (intros; apply Appends_visitOption).
          rewrite forOf_errors in He by (intros; apply Appends_visitOption).
          apply app_eq_nil in He. destruct He as [He1 He2].
          destruct (value_of (visitOption tree fuel (path ++ [u]) (vis, vis) o))
            as [[reach1 vis1]|] eqn:Hstep; [|discriminate].
          assert (Hone : reach1 = vis1
                         /\ incl vis vis1
                         /\ Finished tree vis1 (path ++ [u])
                         /\ forall next, nextQuestionId o = Some next ->
                                         truthy next = true ->
                                         In next vis1
                                         /\ ~ In next (path ++ [u])).
          { unfold visitOption in Hstep, He1.
            destruct (nextQuestionId o) as [next|] eqn:Hn.
            - destruct (truthy next) eqn:Ht.
              + destruct (dfs_visits _ _ _ _ Hstep)
                  as (-> & Hi & Hin & _).
                destruct (IH _ _ _ _ _ Hstep He1 Hpv Hf) as [Hf1 Hout].
                split; [reflexivity|]. split; [exact Hi|].
                split; [exact Hf1|].
                intros n Hn'. injection Hn' as <-. auto.
              + injection Hstep as <- <-. split; [reflexivity|].
                split; [apply incl_refl|]. split; [exact Hf|].
                intros n Hn'. injection Hn' as <-. congruence.
            - injection Hstep as <- <-. split; [reflexivity|].
              split; [apply incl_refl|]. split; [exact Hf|]. discriminate. }
          destruct Hone as (-> & Hi1 & Hf1 & Hin1).
          destruct (dfs_visits_loop fuel (path ++ [u]) os _ Hv) as (_ & Hi2).
          destruct (IHos (fun x Hx => Hincl x (or_intror Hx)) _ _ _ Hv He2
                         (incl_tran Hpv Hi1) Hf1) as [Hf2 Hin2].
          split; [exact Hf2|].
          intros o' next [<-|Ho'] Hn Ht; [|eauto].
          destruct (Hin1 next Hn Ht) as [Hv1 Hnp1]. split; [auto|exact Hnp1]. }
      destruct (Hloop (options question) (incl_refl _) _ _ _ Hval Herr Hp1 Hfin1)
        as [Hfin' Hsucc].
      destruct (dfs_visits_loop fuel (path ++ [u]) (options question) _ Hval)
        as (_ & Hi).
      assert (Hu : In u visited').
      { apply Hi. apply in_or_app. right. now left. }
      assert (Hsame' : forall x, In x visited' -> ~ In x path ->
                                 x = u \/ (In x visited' /\ ~ In x (path ++ [u]))).
      { intros x Hx Hnp. destruct (string_dec x u) as [->|Hne]; [now left|].
        right. split; [exact Hx|]. intros Hin. apply in_app_or in Hin.
        destruct Hin as [|[Heq|[]]]; [auto|congruence]. }
      assert (Hsuccs : forall v, edge u v ->
                                 In v visited' /\ ~ In v (path ++ [u])).
      { intros v (q' & o & Hq' & Ho & Hn & Ht).
        rewrite Hq in Hq'. injection Hq' as <-. now apply (Hsucc o v). }
      split.
      * intros w v Hw Hnp He.
        destruct (Hsame' w Hw Hnp) as [->|[Hw' Hnp']].
        -- destruct (Hsuccs v He) as [Hv Hvp]. split; [exact Hv|].
           intros Hin. apply Hvp. apply in_or_app. now left.
        -- destruct Hfin' as [Hclosed _].
           destruct (Hclosed w v Hw' Hnp' He) as [Hv Hvp]. split; [exact Hv|].
           intros Hin. apply Hvp. apply in_or_app. now left.
      * intros w Hw Hnp Hcyc.
        destruct (Hsame' w Hw Hnp) as [->|[Hw' Hnp']].
        -- apply clos_trans_t1n in Hcyc.
           assert (Hfirst : exists v, edge u v /\ reaches v u).
           { inversion Hcyc as [v He|v z He Hrest]; subst.
             - exists u. split; [exact He|apply rt_refl].
             - exists v. split; [exact He|].
               apply clos_t_clos_rt, clos_t1n_trans, Hrest. }
           destruct Hfirst as (v & He & Hback).
           destruct (Hsuccs v He) as [Hv Hvp].
           destruct (Finished_closed Hfin' Hback Hv Hvp) as [_ Hbad].
           apply Hbad. apply in_or_app. right. now left.
        -- destruct Hfin' as [_ Hacyc]. now apply (Hacyc w).
    + injection Hval as <- <-.
      destruct Hfin1 as [Hclosed1 Hacyc1]. split.
      * intros w v Hw Hnp He.
        destruct (string_dec w u) as [->|Hne].
        { destruct He as (q' & o & Hq' & _). rewrite Hq in Hq'. discriminate. }
        assert (Hnp' : ~ In w (path ++ [u])).
        { intros Hin. apply in_app_or in Hin.
          destruct Hin as [|[Heq|[]]]; [auto|congruence]. }
        destruct (Hclosed1 w v Hw Hnp' He) as [Hv Hvp]. split; [exact Hv|].
        intros Hin. apply Hvp. apply in_or_app. now left.
      * intros w Hw Hnp Hcyc.
        destruct (string_dec w u) as [->|Hne].
        { apply clos_trans_t1n in Hcyc.
          inversion Hcyc as [v He|v z He Hrest]; subst;
            destruct He as (q' & o & Hq' & _); rewrite Hq in Hq';
            discriminate. }
        apply (Hacyc1 w Hw); [|exact Hcyc].
        intros Hin. apply in_app_or in Hin.
        destruct Hin as [|[Heq|[]]]; [auto|congruence].
Qed.

(** *** The whole search *)

Lemma SuccVisited_closed visited :
  SuccVisited tree visited [] ->
  forall w x, reaches w x -> In w visited -> In x visited.
Proof.
  intros Hclosed w x Hreach. apply clos_rt_rt1n in Hreach.
  induction Hreach as [w|w v x He _ IH]; intros Hw; [exact Hw|].
  apply IH. apply (Hclosed w v Hw); auto.
Qed.

Lemma search_result first rest :
  questions tree = first :: rest ->
  exists visited,
    value_of (dfs (dfs_fuel tree (q_id first)) tree (q_id first) [] ([], []))
    = Some (visited, visited)
    /\ (forall x, In x visited <-> Reachable tree x)
    /\ (errors_of (dfs (dfs_fuel tree (q_id first)) tree (q_id first) []
                       ([], [])) = []
        <-> Acyclic tree).
Proof.
  intros Hqs.
  destruct (dfs_terminates tree first empty) as [[reachable visited] Hrun].
  fold (value_of (dfs (dfs_fuel tree (q_id first)) tree (q_id first) []
                      ([], []))) in Hrun.
  destruct (dfs_visits _ _ _ _ Hrun) as (-> & _ & Hin & Hfrom & Hsucc).
  assert (Hclosed : SuccVisited tree visited []).
  { apply Hsucc; [apply incl_refl|]. intros w v []. }
  assert (Hreach : forall x, In x visited <-> Reachable tree x).
  { intros x. unfold Reachable. rewrite Hqs. split.
    - intros Hx. destruct (Hfrom x Hx) as [[]|]; assumption.
    - intros Hx. apply (SuccVisited_closed Hclosed Hx Hin). }
  exists visited. split; [exact Hrun|]. split; [exact Hreach|]. split.
  - intros Herr u Hu.
    destruct (@dfs_no_error _ _ _ _ _ _ Hrun Herr (incl_refl _)) as [[_ Hacyc] _].
    + split; intros w; intros; contradiction.
    + apply Hacyc; [now apply Hreach|auto].
  - intros Hacyc.
    destruct (errors_of (dfs (dfs_fuel tree (q_id first)) tree (q_id first) []
                             ([], []))) as [|e es] eqn:Herr; [reflexivity|].
    destruct (@dfs_error (dfs_fuel tree (q_id first)) (q_id first) [] ([], []))
      as (w & Hw & Hcyc).
    + rewrite Herr. discriminate.
    + intros x [].
    + exfalso. apply (Hacyc w); [|exact Hcyc].
      unfold Reachable. now rewrite Hqs.
Qed.

End Search.

End ReachFacts.

(* ===================================================================== *)
(** * Valid trees                                                        *)
(* ===================================================================== *)

Module ValidFacts.
Import RecommendationEngine Spec EngineSpec.
Import DecisionTreeValidator ValidatorSpec ValidatorFacts WellFormed Graph
       StageFacts ReachFacts ValidatorClaims.
Import JsFacts PathFacts ScoreFacts WinnerFacts CalculateFacts.

Lemma warnings_of_bind {A B} (m : V A) (k : A -> V B) :
  Appends m -> (forall a, Appends (k a)) ->
  warnings_of (bindV m k) = warnings_of m ++ warnings_of (k (fst (m empty))).
Proof.
  intros Hm Hk. unfold warnings_of, bindV.
  destruct (m empty) as [a d]. cbn [fst snd].
  rewrite (Hk a d). cbn [snd pushed warns]. reflexivity.
Qed.

(** ** What the loop over the unreachable ids pushes *)

Lemma unreachable_loop ids : forall i,
  errors_of
    (forEach
       (fun (_ : unit) (_ : nat) id =>
          pushWarning "UNREACHABLE_QUESTION"
            ("Question " ++ dq ++ id ++ dq
             ++ " is not reachable from the starting question")%string
            None)
       ids i tt) = []
  /\ warnings_of
       (forEach
          (fun (_ : unit) (_ : nat) id =>
             pushWarning "UNREACHABLE_QUESTION"
               ("Question " ++ dq ++ id ++ dq
                ++ " is not reachable from the starting question")%string
               None)
          ids i tt) = map unreachable_warning ids.
Proof.
  induction ids as [|id ids IH]; intros i; [split; reflexivity|].
  cbn [forEach map]. split.
  - rewrite errors_of_bind by appends_v. apply (IH (S i)).
  - rewrite warnings_of_bind by appends_v.
    etransitivity;
      [|apply (f_equal (cons (unreachable_warning id)) (proj2 (IH (S i))))].
    reflexivity.
Qed.

Lemma dfs_pushes_no_warning fuel tree : forall u path sets,
  warnings_of (dfs fuel tree u path sets) = [].
Proof.
  induction fuel as [|fuel IH]; intros u path [reachable visited];
    [reflexivity|].
  rewrite dfs_unfold. destruct (set_has visited u).
  - rewrite warnings_of_bind by appends_v.
    now destruct (existsb (String.eqb u) path).
  - destruct (questionById tree u) as [question|]; [|reflexivity].
    generalize (set_add reachable u, set_add visited u).
    induction (options question) as [|o os IHos]; intros sets; [reflexivity|].
    cbn [forOf]. rewrite warnings_of_bind.
    + assert (Hone : warnings_of (visitOption tree fuel (path ++ [u]) sets o)
                     = []).
      { unfold visitOption. destruct (nextQuestionId o) as [next|];
          [|reflexivity].
        destruct (truthy next); [apply IH|reflexivity]. }
      rewrite Hone. cbn [app].
      destruct (fst (visitOption tree fuel (path ++ [u]) sets o empty));
        [apply IHos|reflexivity].
    + apply Appends_visitOption.
    + intros [s'|]; [|apply Appends_ret].
      apply Appends_forOf. intros; apply Appends_visitOption.
Qed.

(** The stage reports an error exactly when a question that can be
    reached is on a cycle, and warns about the questions that cannot be
    reached. *)
Lemma reachability_errors tree :
  errors_of (validateReachability tree) = [] <-> Acyclic tree.
Proof.
  unfold validateReachability.
  destruct (questions tree) as [|first rest] eqn:Hqs.
  - split; [|reflexivity]. intros _ u Hu.
    unfold Reachable in Hu. now rewrite Hqs in Hu.
  - destruct (search_result tree Hqs) as (visited & Hval & _ & Herr).
    rewrite errors_of_bind.
    + unfold value_of in Hval. rewrite Hval.
      rewrite (proj1 (unreachable_loop _ 0%nat)), app_nil_r. exact Herr.
    + apply Appends_dfs.
    + intros [[reachable ?]|]; appends_v.
Qed.

Lemma reachability_warnings tree :
  exists unreachable : string -> bool,
    warnings_of (validateReachability tree)
    = map unreachable_warning
          (filter unreachable (map q_id (questions tree)))
    /\ forall id, unreachable id = true <-> ~ Reachable tree id.
Proof.
  unfold validateReachability.
  destruct (questions tree) as [|first rest] eqn:Hqs.
  - exists (fun _ => true). split; [reflexivity|].
    intros id. unfold Reachable. rewrite Hqs. tauto.
  - destruct (search_result tree Hqs) as (visited & Hval & Hreach & _).
    exists (fun id => negb (set_has visited id)). split.
    + rewrite warnings_of_bind.
      * unfold value_of in Hval. rewrite Hval.
        rewrite dfs_pushes_no_warning. cbn [app].
        apply (proj2 (unreachable_loop _ 0%nat)).
      * apply Appends_dfs.
      * intros [[reachable ?]|]; appends_v.
    + intros id. rewrite negb_true_iff, set_has_false, Hreach. tauto.
Qed.

(** ** [validate] accepts exactly the well-formed trees *)

Lemma isValid_iff scoreImbalances tree :
  isValid (validate scoreImbalances tree) = true
  <-> BasicOk tree
      /\ QuestionsOk (asDecisionTree tree)
      /\ ReferencesOk (asDecisionTree tree)
      /\ Acyclic (asDecisionTree tree)
      /\ ResultsOk (asDecisionTree tree).
Proof.
  rewrite validate_unfold. cbv zeta.
  rewrite <- validateBasicStructure_ok, <- validateQuestions_ok,
    <- validateReferences_ok, <- reachability_errors, <- validateResults_ok.
  fold (errors_of (validateBasicStructure tree)).
  destruct (errors_of (validateBasicStructure tree)) as [|e es] eqn:Hbasic.
  - cbn [List.length Nat.ltb Nat.leb isValid].
    assert (Hlater : Appends (laterStages scoreImbalances (asDecisionTree tree))).
    { unfold laterStages.
      repeat first
        [ apply Appends_validateQuestions | apply Appends_validateReferences
        | apply Appends_validateReachability | apply Appends_validateResults
        | apply Appends_validateScoreBalance | apply Appends_seq ]. }
    rewrite (Hlater (snd (validateBasicStructure tree empty))).
    cbn [snd pushed errs].
    fold (errors_of (validateBasicStructure tree)).
    fold (errors_of (laterStages scoreImbalances (asDecisionTree tree))).
    rewrite Hbasic, laterStages_errors. cbn [app].
    rewrite Nat.eqb_eq, length_zero_iff_nil, !app_nil_iff. tauto.
  - cbn. split; [discriminate|]. intros [H _]. discriminate.
Qed.

(** ** The engine on a tree whose references are in order *)

Lemma Map_get_In (qs : list Question) id q :
  Map_get (map (fun q => (q_id q, q)) qs) id = Some q ->
  In q qs /\ q_id q = id.
Proof.
  induction qs as [|q0 qs IH]; [discriminate|].
  cbn [map Map_get].
  destruct (Map_get (map (fun q => (q_id q, q)) qs) id) as [q'|].
  - intros Heq. injection Heq as ->. destruct (IH eq_refl). split; [now right|auto].
  - destruct (String.eqb_spec (q_id q0) id) as [Hid|]; [|discriminate].
    intros Heq. injection Heq as <-. split; [now left|exact Hid].
Qed.

Lemma In_Map_get (qs : list Question) id :
  In id (map q_id qs) ->
  exists q, Map_get (map (fun q => (q_id q, q)) qs) id = Some q.
Proof.
  induction qs as [|q0 qs IH]; [intros []|].
  cbn [map Map_get]. intros [Hid|Hin].
  - destruct (Map_get (map (fun q => (q_id q, q)) qs) id) as [q'|]; [eauto|].
    rewrite Hid, String.eqb_refl. eauto.
  - destruct (IH Hin) as [q Hq]. rewrite Hq. eauto.
Qed.

(** With every id used once, the map of the engine and the [find] of the
    validator agree. *)
Lemma Map_get_find (qs : list Question) id :
  NoDup (map q_id qs) ->
  Map_get (map (fun q => (q_id q, q)) qs) id
  = find (fun q => (q_id q =? id)%string) qs.
Proof.
  induction qs as [|q0 qs IH]; intros Hnd; [reflexivity|].
  cbn [map] in Hnd. inversion Hnd as [|? ? Hout Hnd']; subst.
  cbn [map Map_get find]. rewrite (IH Hnd').
  destruct (String.eqb_spec (q_id q0) id) as [Hid|Hne].
  - destruct (find (fun q => (q_id q =? id)%string) qs) as [q'|] eqn:Hf;
      [|reflexivity].
    apply find_some in Hf. destruct Hf as [Hin Heq].
    apply String.eqb_eq in Heq. exfalso. apply Hout.
    rewrite Hid, <- Heq. now apply in_map.
  - now destruct (find (fun q => (q_id q =? id)%string) qs).
Qed.

Lemma findOption_In question oid opt :
  findOption question oid = Some opt ->
  In opt (options question) /\ o_id opt = oid.
Proof.
  unfold findOption. intros H. apply find_some in H.
  destruct H as [Hin Heq]. apply String.eqb_eq in Heq. auto.
Qed.

Section References.
Variable tree : DecisionTree.
Hypothesis references : ReferencesOk tree.

(** The loop never looks for a question the tree does not have. *)
Lemma loop_finds_questions : forall answers e i err,
  (forall id, e = Some id -> In id (map q_id (questions tree))) ->
  validateAnswerPath_loop (questionMap tree) e i answers = Thrown err ->
  code err = Some INVALID_ANSWER_PATH \/ code err = Some OPTION_NOT_FOUND.
Proof.
  induction answers as [|answer answers IH]; intros e i err He H;
    [discriminate|].
  cbn [validateAnswerPath_loop] in H.
  destruct (is_expected (questionId answer) e) eqn:Hexp; cbn [negb] in H;
    [|injection H as <-; now left].
  apply is_expected_iff in Hexp.
  destruct (In_Map_get (questions tree) (questionId answer) (He _ Hexp))
    as [question Hq].
  unfold questionMap in H |- *. rewrite Hq in H.
  destruct (findOption question (optionId answer)) as [opt|] eqn:Ho;
    [|injection H as <-; now right].
  destruct (nextQuestionId opt) as [next|] eqn:Hn; [|discriminate].
  apply (IH (Some next) (S i) err); [|exact H].
  intros id Hid. injection Hid as <-.
  apply Map_get_In in Hq. apply findOption_In in Ho.
  now apply (references question opt (proj1 Hq) (proj1 Ho)).
Qed.

(** At every key an answer gives points to, [tree.results] holds
    something. *)
Lemma scored_keys_described answers tech p :
  In (tech, p) (all_contributions tree answers) ->
  js_truthy_at (results tree) tech = true.
Proof.
  intros Hkp.
  unfold all_contributions in Hkp. apply in_flat_map in Hkp.
  destruct Hkp as (answer & _ & Hsel). unfold selected in Hsel.
  destruct (Map_get (questionMap tree) (questionId answer)) as [question|] eqn:Hq;
    [|contradiction].
  destruct (findOption question (optionId answer)) as [opt|] eqn:Ho;
    [|contradiction].
  apply Map_get_In in Hq. apply findOption_In in Ho.
  apply (references question opt (proj1 Hq) (proj1 Ho)).
  change tech with (fst (tech, p)). now apply in_map.
Qed.

(** The path validation never misses a question. *)
Lemma validateAnswerPath_finds_questions answers err :
  validateAnswerPath tree answers = Thrown err ->
  In (code err)
     [Some MISSING_ANSWERS; Some INVALID_ANSWER_PATH; Some OPTION_NOT_FOUND].
Proof.
  unfold validateAnswerPath. intros Hv.
  destruct (Nat.eqb (List.length answers) 0);
    [injection Hv as <-; simpl; auto|].
  destruct (validateAnswerPath_loop (questionMap tree) (entryQuestionId tree)
              0 answers) as [[next|]|lerr] eqn:Hloop;
    simpl in Hv; try discriminate; injection Hv as <-.
  - simpl. auto.
  - destruct (@loop_finds_questions answers (entryQuestionId tree)
                0%nat lerr) as [Hc|Hc]; [|exact Hloop| |];
      [|rewrite Hc; simpl; auto..].
    intros id Hid. unfold entryQuestionId in Hid.
    destruct (questions tree) as [|first rest]; [discriminate|].
    destruct (truthy (q_id first)); [|discriminate].
    injection Hid as <-. now left.
Qed.

End References.

(** ** Walks on a tree the validator accepts *)

Lemma Reachable_step tree u v :
  Reachable tree u -> Edge tree u v -> Reachable tree v.
Proof.
  unfold Reachable. destruct (questions tree) as [|first rest]; [auto|].
  intros Hu He. apply rt_trans with u; [exact Hu|now apply rt_step].
Qed.

Lemma step_rt_t {A} (R : relation A) x y z :
  R x y -> clos_refl_trans A R y z -> clos_trans A R x z.
Proof.
  intros Hxy Hyz. apply clos_rt_rtn1 in Hyz.
  induction Hyz as [|z w Hzw _ IH]; [now apply t_step|].
  apply t_trans with z; [exact IH|now apply t_step].
Qed.

Section Walks.
Variable tree : DecisionTree.
Hypothesis questions_ok : QuestionsOk tree.
Hypothesis references : ReferencesOk tree.
Hypothesis acyclic : Acyclic tree.

Lemma id_truthy id : In id (map q_id (questions tree)) -> truthy id = true.
Proof.
  intros Hin. apply in_map_iff in Hin. destruct Hin as (q & <- & Hq).
  destruct questions_ok as [Hall _]. rewrite Forall_forall in Hall.
  apply truthy_iff. apply (Hall q Hq).
Qed.

Lemma step_is_edge u question oid opt next :
  Map_get (questionMap tree) u = Some question ->
  findOption question oid = Some opt ->
  nextQuestionId opt = Some next ->
  Edge tree u next.
Proof.
  intros Hq Ho Hn. exists question, opt.
  pose proof (Map_get_In _ _ Hq) as [Hin _].
  apply findOption_In in Ho. destruct Ho as [Ho _].
  unfold questionMap in Hq.
  rewrite Map_get_find in Hq by apply questions_ok.
  split; [exact Hq|]. split; [exact Ho|]. split; [exact Hn|].
  apply id_truthy. now apply (references question opt Hin Ho).
Qed.

Lemma Steps_distinct e answers os e' :
  Steps tree e answers os e' ->
  forall u, e = Some u -> Reachable tree u ->
    NoDup (map questionId answers)
    /\ (forall b, In b answers ->
          clos_refl_trans string (Edge tree) u (questionId b)
          /\ In (questionId b) (map q_id (questions tree))).
Proof.
  induction 1 as [e|e answer question opt rest os e' He Hq Ho Hrest IH];
    intros u Hu Hreach.
  - split; [constructor|intros b []].
  - rewrite He in Hu. injection Hu as <-.
    assert (Hid : In (questionId answer) (map q_id (questions tree))).
    { destruct (Map_get_In _ _ Hq) as [Hin Heq]. rewrite <- Heq.
      now apply in_map. }
    destruct (nextQuestionId opt) as [next|] eqn:Hn.
    + assert (Hedge : Edge tree (questionId answer) next)
        by (eapply step_is_edge; eassumption).
      destruct (IH next eq_refl (Reachable_step Hreach Hedge)) as [Hnd Hall].
      split.
      * cbn [map]. constructor; [|exact Hnd].
        intros Hin. apply in_map_iff in Hin. destruct Hin as (b & Hb & Hin).
        destruct (Hall b Hin) as [Hback _]. rewrite Hb in Hback.
        apply (acyclic Hreach). now apply step_rt_t with next.
      * intros b [<-|Hin]; [split; [apply rt_refl|exact Hid]|].
        destruct (Hall b Hin) as [Hr Hi]. split; [|exact Hi].
        apply rt_trans with next; [now apply rt_step|exact Hr].
    + apply Steps_from_null in Hrest. destruct Hrest as (-> & _ & _).
      split; [repeat constructor; intros []|].
      intros b [<-|[]]. split; [apply rt_refl|exact Hid].
Qed.

Lemma walk_bounded answers os e' :
  Steps tree (entryQuestionId tree) answers os e' ->
  NoDup (map questionId answers)
  /\ (List.length answers <= List.length (questions tree))%nat.
Proof.
  intros Hsteps.
  assert (Hgoal : NoDup (map questionId answers)
                  /\ incl (map questionId answers) (map q_id (questions tree))).
  { unfold entryQuestionId in Hsteps.
    destruct (questions tree) as [|first rest] eqn:Hqs.
    - apply Steps_from_null in Hsteps. destruct Hsteps as (-> & _ & _).
      split; [constructor|intros x []].
    - destruct (truthy (q_id first)).
      + rewrite <- Hqs in *.
        destruct (@Steps_distinct _ _ _ _ Hsteps (q_id first) eq_refl)
          as [Hnd Hall].
        * unfold Reachable. rewrite Hqs. apply rt_refl.
        * split; [exact Hnd|]. intros x Hx. apply in_map_iff in Hx.
          destruct Hx as (b & <- & Hb). apply (Hall b Hb).
      + apply Steps_from_null in Hsteps. destruct Hsteps as (-> & _ & _).
        split; [constructor|intros x []]. }
  destruct Hgoal as [Hnd Hincl]. split; [exact Hnd|].
  pose proof (NoDup_incl_length Hnd Hincl) as Hlen.
  now rewrite !length_map in Hlen.
Qed.

End Walks.

(** [loopTree] is refused for its cycle. *)
Example loopTree_is_cyclic : ~ Acyclic ValidData.loopTree.
Proof.
  intros H. apply reachability_errors in H. vm_compute in H. discriminate.
Qed.

End ValidFacts.

(* ===================================================================== *)
(** * Further properties of the validator                                *)
(* ===================================================================== *)

Module ValidatorExtras.
Import RecommendationEngine Spec EngineSpec TestData.
Import DecisionTreeValidator ValidatorSpec WellFormed Graph ValidData.
Import ValidFacts.

(** X8. [validateReachability] pushes a CIRCULAR_REFERENCE error exactly
    when some question id that can be reached from the first question
    leads back to itself, an id leading to the non-empty
    [nextQuestionId]s of the options of the first question that carries
    it; on a tree with no such cycle, and on a tree without questions,
    it pushes no error. *)
Theorem circular_reference_iff (tree : DecisionTree) :
  errors_of (validateReachability tree) = [] <-> Acyclic tree.
Proof. apply reachability_errors. Qed.

(** X9. The warnings of [validateReachability] are the
    UNREACHABLE_QUESTION warnings for the question ids that cannot be
    reached from the first question, one for each occurrence in
    [tree.questions] and in that order; the search itself pushes no
    warning. *)
Theorem unreachable_questions_warned (tree : DecisionTree) :
  exists unreachable : string -> bool,
    warnings_of (validateReachability tree)
    = map unreachable_warning
          (filter unreachable (map q_id (questions tree)))
    /\ forall id, unreachable id = true <-> ~ Reachable tree id.
Proof. apply reachability_warnings. Qed.

(** X13. On a tree [validate] accepts, answers that follow the tree from
    the first question name no question twice, so there are at most as
    many of them as the tree has questions. *)
Theorem valid_tree_walks_end
    (scoreImbalances : DecisionTree -> list string) (tree : option RawTree)
    (answers : list Answer) (os : list Option) (e' : option string) :
  isValid (validate scoreImbalances tree) = true ->
  Steps (asDecisionTree tree) (entryQuestionId (asDecisionTree tree))
        answers os e' ->
  NoDup (map questionId answers)
  /\ (List.length answers
      <= List.length (questions (asDecisionTree tree)))%nat.
Proof.
  intros Hvalid Hsteps. apply isValid_iff in Hvalid.
  destruct Hvalid as (_ & Hqs & Hrefs & Hacyc & _).
  exact (walk_bounded Hqs Hrefs Hacyc Hsteps).
Qed.

Lemma valid_tree_walks_end_witness :
  NoDup (map questionId [mkAnswer "q1" "opt1"; mkAnswer "q2" "opt3"])
  /\ (List.length [mkAnswer "q1" "opt1"; mkAnswer "q2" "opt3"]
      <= List.length (questions (asDecisionTree (Some rawMockTree))))%nat.
Proof.
  apply (@valid_tree_walks_end (fun _ => []) (Some rawMockTree)
           [mkAnswer "q1" "opt1"; mkAnswer "q2" "opt3"]
           [mkOption "opt1" (Some "q2") [("tech1", 3); ("tech2", 1)];
            mkOption "opt3" None [("tech1", 2); ("tech2", 1)]]
           None).
  - reflexivity.
  - eapply steps_answer; [reflexivity|reflexivity|reflexivity|].
    eapply steps_answer; [reflexivity|reflexivity|reflexivity|].
    apply steps_done.
Defined.

End ValidatorExtras.

(* ===================================================================== *)
(** * The engine on a tree the validator accepts                         *)
(* ===================================================================== *)

Module ValidEngine.
Import RecommendationEngine Spec EngineSpec ExactSpec TestData.
Import DecisionTreeValidator ValidatorSpec WellFormed Graph ValidData.
Import JsFacts ExactFacts ExactClaims StageFacts ValidFacts.

Lemma asDecisionTree_asRaw t : asDecisionTree (Some (asRaw t)) = t.
Proof. now destruct t. Qed.

(** Every key of the scores was given points by an answer. *)
Lemma fold_addPoints_keys render es : forall acc k,
  In k (js_keys (fold_left (Exact.addPoints render) es acc)) ->
  In k (js_keys acc) \/ exists p, In (k, p) es.
Proof.
  induction es as [|[tech points] es IH]; intros acc k Hk; [now left|].
  cbn [fold_left] in Hk. apply IH in Hk. destruct Hk as [Hk|[p Hp]].
  - unfold Exact.addPoints, Exact.store in Hk.
    destruct ((tech =? "__proto__")%string && negb (js_has acc tech));
      [now left|].
    apply (Permutation_in _ (js_keys_set acc tech _)) in Hk.
    destruct (js_has acc tech); [now left|].
    destruct Hk as [<-|Hk]; [|now left].
    right. exists points. now left.
  - right. exists p. now right.
Qed.

Lemma exact_scored_key_given render tree answers k :
  In k (js_keys (Exact.calculateScores render tree answers)) ->
  exists p, In (k, p) (all_contributions tree answers).
Proof.
  unfold Exact.calculateScores. rewrite fold_scoreAnswer_entries.
  intros Hk. apply fold_addPoints_keys in Hk. now destruct Hk as [[]|Hk].
Qed.

Lemma valid_engine_errors (render : Exact.number -> string)
    (scoreImbalances : DecisionTree -> list string) (tree : option RawTree)
    (answers : list Answer) (err : JsError) :
  isValid (validate scoreImbalances tree) = true ->
  Exact.calculate render (asDecisionTree tree) answers = Thrown err ->
  In (code err) client_codes
  \/ (err = result_not_found "undefined"
      /\ js_get (results (asDecisionTree tree)) "undefined" = None
      /\ ~ (PlainKeys (all_contributions (asDecisionTree tree) answers)
            /\ SmallPoints (all_contributions (asDecisionTree tree) answers))).
Proof.
  intros Hvalid H. apply isValid_iff in Hvalid.
  destruct Hvalid as (_ & _ & Hrefs & _ & _).
  set (t := asDecisionTree tree) in *.
  assert (Hdescribed : forall k p,
            In (k, p) (all_contributions t answers) ->
            js_get (results t) k = None -> inherited k = false -> False).
  { intros k p Hkp Hnone Hinh.
    pose proof (@scored_keys_described t Hrefs answers k p Hkp) as Htr.
    unfold js_truthy_at, js_has in Htr. rewrite Hnone, Hinh in Htr.
    discriminate. }
  destruct (validateAnswerPath t answers) as [[]|verr] eqn:Hv.
  - destruct (calculate_thrown_cases _ _ _ H)
      as [Hc|([k|] & -> & Hnone & Hinh & Hwin)]; cbn [Exact.show] in *.
    + unfold Exact.calculate in H. rewrite Hv in H. cbn [bind] in H.
      pose proof (determineWinner_cases
                    (Exact.calculateScores render t answers) t) as Hd.
      destruct (Exact.determineWinner
                  (Exact.calculateScores render t answers) t)
        as [[winner tb]|e]; cbn [bind] in H.
      * destruct (Exact.resultAt t (Exact.show winner)); [discriminate|].
        injection H as <-. cbn [code plainError] in Hc.
        destruct Hc as [Hc|[Hc|[Hc|[Hc|[Hc|[]]]]]]; discriminate.
      * injection H as <-. destruct Hd as [-> _]. left. simpl. auto.
    + exfalso. destruct (exact_scored_key_given _ _ _ _ Hwin) as [p Hp].
      exact (Hdescribed k p Hp Hnone Hinh).
    + right. split; [reflexivity|]. split; [exact Hnone|].
      intros [Hplain Hsmall].
      rewrite (@calculate_exact render t answers Hplain Hsmall) in H.
      apply asOutcome_Thrown in H.
      destruct (EngineExtras.calculate_thrown _ _ H)
        as [Hc|(w & Hw & Hin & Hwnone)].
      * destruct Hc as [Hc|[Hc|[Hc|[Hc|[Hc|[]]]]]]; discriminate.
      * destruct (@scored_key_given t answers w Hin) as [p Hp].
        exact (Hdescribed w p Hp Hwnone (Hplain (w, p) Hp)).
  - left. unfold Exact.calculate in H. rewrite Hv in H. injection H as <-.
    destruct (@validateAnswerPath_finds_questions t Hrefs answers verr Hv)
      as [Hc|[Hc|[Hc|[]]]]; rewrite <- Hc; simpl; auto.
Qed.

(** X11. On a tree [validate] accepts, [calculate] can only fail with
    MISSING_ANSWERS, INVALID_ANSWER_PATH, OPTION_NOT_FOUND or
    NO_RECOMMENDATION, with one exception: the uncoded error [Result not
    found for technology: undefined], thrown when no key holds the
    maximum of the scores and the results describe no key [undefined];
    this needs an answer that gives points to a key named like a member
    of [Object.prototype], or points whose absolute values add up to
    [2^52] or more. [calculate] never throws QUESTION_NOT_FOUND there
    and never the uncoded error about a scored key. *)
Theorem valid_tree_engine_errors (render : Exact.number -> string)
    (scoreImbalances : DecisionTree -> list string) (tree : option RawTree)
    (answers : list Answer) (err : JsError) :
  isValid (validate scoreImbalances tree) = true ->
  Exact.calculate render (asDecisionTree tree) answers = Thrown err ->
  In (code err) client_codes
  \/ (err = result_not_found "undefined"
      /\ js_get (results (asDecisionTree tree)) "undefined" = None
      /\ ~ (PlainKeys (all_contributions (asDecisionTree tree) answers)
            /\ SmallPoints (all_contributions (asDecisionTree tree) answers))).
Proof. apply valid_engine_errors. Qed.

Lemma valid_tree_engine_errors_witness :
  In (code (createError OPTION_NOT_FOUND
              "Option invalid not found in question q1")) client_codes
  \/ (createError OPTION_NOT_FOUND "Option invalid not found in question q1"
      = result_not_found "undefined"
      /\ js_get (results (asDecisionTree (Some rawMockTree))) "undefined"
         = None
      /\ ~ (PlainKeys (all_contributions (asDecisionTree (Some rawMockTree))
                         [mkAnswer "q1" "invalid"])
            /\ SmallPoints
                 (all_contributions (asDecisionTree (Some rawMockTree))
                    [mkAnswer "q1" "invalid"]))).
Proof.
  exact (@valid_tree_engine_errors decimal (fun _ => []) (Some rawMockTree)
           [mkAnswer "q1" "invalid"]
           (createError OPTION_NOT_FOUND
              "Option invalid not found in question q1")
           eq_refl eq_refl).
Defined.

(** X12. On a tree [validate] accepts, answers that the path validation
    accepts and that score anything get a recommendation, provided no
    key they give points to is the name of a member of
    [Object.prototype] and the absolute values of the points add up to
    less than [2^52]: [calculate] returns, the recommendation is a key
    of [tree.results], and the result returned is the named descriptor
    held there. *)
Theorem valid_tree_recommends (render : Exact.number -> string)
    (scoreImbalances : DecisionTree -> list string) (tree : option RawTree)
    (answers : list Answer) :
  isValid (validate scoreImbalances tree) = true ->
  validateAnswerPath (asDecisionTree tree) answers = Returned tt ->
  PlainKeys (all_contributions (asDecisionTree tree) answers) ->
  SmallPoints (all_contributions (asDecisionTree tree) answers) ->
  Exact.calculateScores render (asDecisionTree tree) answers <> [] ->
  exists r winner res,
    Exact.calculate render (asDecisionTree tree) answers = Returned r
    /\ Exact.recommendation r = Some winner
    /\ Exact.result r = Exact.descriptor res
    /\ js_get (results (asDecisionTree tree)) winner = Some res
    /\ name res <> EmptyString.
Proof.
  intros Hvalid Hv Hplain Hsmall Hne. apply isValid_iff in Hvalid.
  destruct Hvalid as (_ & _ & Hrefs & _ & _ & Hnamed).
  set (t := asDecisionTree tree) in *.
  rewrite (@calculate_exact render t answers Hplain Hsmall).
  destruct (@calculateScores_exact render t answers Hplain Hsmall)
    as [Hsums _].
  destruct (CalculateFacts.calculate_cases _ _ Hv)
    as [[Hnil _]|(w & tb & _ & Hin & [[Hnone _]|(res & Hres & Hc)])].
  - rewrite Hsums, Hnil in Hne. now contradiction Hne.
  - exfalso. apply CalculateFacts.winner_is_key in Hin.
    destruct (@scored_key_given t answers w Hin) as [p Hp].
    pose proof (@scored_keys_described t Hrefs answers w p Hp) as Htr.
    pose proof (Hplain (w, p) Hp) as Hinh. cbn [fst] in Hinh.
    unfold js_truthy_at, js_has in Htr.
    rewrite Hnone, Hinh in Htr. discriminate.
  - rewrite Hc. cbn [asOutcome]. eexists _, w, res.
    split; [reflexivity|]. cbn [asReturned Exact.recommendation Exact.result
                                 recommendation result].
    split; [reflexivity|]. split; [reflexivity|].
    split; [exact Hres|]. apply (Hnamed w res Hres).
Qed.

Lemma valid_tree_recommends_witness :
  exists r winner res,
    Exact.calculate decimal (asDecisionTree (Some rawMockTree))
      [mkAnswer "q1" "opt2"] = Returned r
    /\ Exact.recommendation r = Some winner
    /\ Exact.result r = Exact.descriptor res
    /\ js_get (results (asDecisionTree (Some rawMockTree))) winner = Some res
    /\ name res <> EmptyString.
Proof.
  apply (@valid_tree_recommends decimal (fun _ => []) (Some rawMockTree)
           [mkAnswer "q1" "opt2"]).
  - reflexivity.
  - reflexivity.
  - intros e He. cbn in He. destruct He as [<-|[<-|[]]]; reflexivity.
  - unfold SmallPoints. cbn. reflexivity.
  - vm_compute. discriminate.
Defined.

(** ** A recommendation that is no key *)

Lemma accepted (scoreImbalances : DecisionTree -> list string)
    (t : DecisionTree) :
  errors_of (validateBasicStructure (Some (asRaw t))) = [] ->
  errors_of (validateQuestions t) = [] ->
  errors_of (validateReferences t) = [] ->
  errors_of (validateReachability t) = [] ->
  errors_of (validateResults t) = [] ->
  isValid (validate scoreImbalances (Some (asRaw t))) = true.
Proof.
  intros Hb Hq Hr Hc Hres. apply isValid_iff.
  rewrite asDecisionTree_asRaw.
  split; [now apply validateBasicStructure_ok|].
  split; [now apply validateQuestions_ok|].
  split; [now apply validateReferences_ok|].
  split; [now apply reachability_errors|].
  now apply validateResults_ok.
Qed.

(** C10. The invariant fails on a tree [validate] accepts. On
    [inheritedKeyTree], whose only option scores [constructor] and whose
    results describe a key [undefined], the only legal walk makes
    [calculate] return: the recommendation is [undefined], no key of the
    returned scores, and the only score held is a string, so no
    recommended score is the maximum. *)
Theorem recommendation_is_no_key (render : Exact.number -> string)
    (scoreImbalances : DecisionTree -> list string) :
  isValid (validate scoreImbalances (Some (asRaw inheritedKeyTree))) = true
  /\ LegalWalk inheritedKeyTree [mkAnswer "q1" "opt1"]
               [mkOption "opt1" None [("constructor", 1)]]
  /\ exists r,
       Exact.calculate render inheritedKeyTree [mkAnswer "q1" "opt1"]
       = Returned r
       /\ Exact.recommendation r = None
       /\ Exact.r_scores r
          = [("constructor",
              Exact.Text "constructor" (render (Exact.Fin 1)))]
       /\ Exact.result r = Exact.descriptor (mkResult "Nothing")
       /\ Exact.confidence r = low
       /\ ~ In (Exact.show (Exact.recommendation r))
               (js_keys (Exact.r_scores r)).
Proof.
  split; [apply accepted; reflexivity|]. split.
  { split; [discriminate|].
    eapply steps_answer; [reflexivity|reflexivity|reflexivity|].
    apply steps_done. }
  eexists. split; [reflexivity|]. cbn.
  split; [reflexivity|]. split; [reflexivity|]. split; [reflexivity|].
  split; [reflexivity|]. intros [H|[]]. discriminate.
Qed.

(** Scores that overflow take the same way: [1e999] and then [-1e999]
    for a key leave [NaN] there, which is no maximum. *)
Example overflowing_scores_give_no_winner (render : Exact.number -> string)
    (scoreImbalances : DecisionTree -> list string) :
  let tree :=
    mkTree [ mkQuestion "q1"
               [ mkOption "opt1" (Some "q2") [("tech1", 10 ^ 999)] ];
             mkQuestion "q2"
               [ mkOption "opt2" None [("tech1", - 10 ^ 999)] ] ]
           mockResults in
  isValid (validate scoreImbalances (Some (asRaw tree))) = true
  /\ Exact.calculateScores render tree
       [mkAnswer "q1" "opt1"; mkAnswer "q2" "opt2"]
     = [("tech1", Exact.Num Exact.NaN)]
  /\ Exact.calculate render tree [mkAnswer "q1" "opt1"; mkAnswer "q2" "opt2"]
     = Thrown (result_not_found "undefined").
Proof.
  cbv zeta. split; [apply accepted; reflexivity|].
  split; vm_compute; reflexivity.
Qed.

End ValidEngine.

(* ===================================================================== *)
(** * The two validators agree on trees of the declared shape            *)
(* ===================================================================== *)

Module AnyTreeFacts.
Import DecisionTreeValidator AnyTree.

(** ** Computations that are equal on every pair of arrays *)

Lemma bindV_ext {A B} (m m' : V A) (k k' : A -> V B) r :
  m r = m' r -> (forall a r', k a r' = k' a r') ->
  bindV m k r = bindV m' k' r.
Proof. intros Hm Hk. unfold bindV. rewrite Hm. destruct (m' r). apply Hk. Qed.

Lemma forEach_ext {A St} (f g : St -> nat -> A -> V St) :
  (forall s i x r, f s i x r = g s i x r) ->
  forall xs i s r, forEach f xs i s r = forEach g xs i s r.
Proof.
  intros Hfg. induction xs as [|x xs IH]; intros i s r; [reflexivity|].
  cbn [forEach]. apply bindV_ext; [apply Hfg|]. intros s' r'. apply IH.
Qed.

Lemma forEach_map {A B St} (f : St -> nat -> B -> V St) (h : A -> B) :
  forall xs i s r,
    forEach f (map h xs) i s r = forEach (fun s i x => f s i (h x)) xs i s r.
Proof.
  induction xs as [|x xs IH]; intros i s r; [reflexivity|].
  cbn [map forEach]. apply bindV_ext; [reflexivity|]. intros s' r'. apply IH.
Qed.

Lemma forEach_nothing {A} (f : unit -> nat -> A -> V unit) :
  (forall i x r, f tt i x r = (tt, r)) ->
  forall xs i r, forEach f xs i tt r = (tt, r).
Proof.
  intros Hf. induction xs as [|x xs IH]; intros i r; [reflexivity|].
  cbn [forEach]. unfold bindV. rewrite Hf. apply IH.
Qed.

Lemma numbers_keys (sc : JsObj Z) :
  js_keys (map (fun e => (fst e, number_score (snd e))) sc) = js_keys sc.
Proof. unfold js_keys. rewrite map_map. reflexivity. Qed.

(** ** The stages that cannot throw *)

Lemma validateBasicStructure_declared (tree : option RawTree) :
  AnyTree.validateBasicStructure (option_map treeJson tree)
  = DecisionTreeValidator.validateBasicStructure tree.
Proof.
  destruct tree as [[i ti d v [qs|] [rs|]]|]; cbn; rewrite ?length_map;
    reflexivity.
Qed.

Lemma validateOptions_declared (os : list Option) (location : string) r :
  AnyTree.validateOptions (map optionJson os) location r
  = DecisionTreeValidator.validateOptions os location r.
Proof.
  unfold AnyTree.validateOptions, DecisionTreeValidator.validateOptions.
  apply bindV_ext; [|reflexivity]. rewrite forEach_map.
  apply forEach_ext. intros ids i o r'.
  cbn [optionJson j_o_id j_label j_scores blank].
  apply bindV_ext; [reflexivity|]. intros ids' r1.
  apply bindV_ext; [reflexivity|]. intros _ r2.
  rewrite numbers_keys. unfold bindV.
  destruct (when (Nat.eqb (List.length (js_keys (scores o))) 0)
              (pushWarning "EMPTY_SCORES" "Option has no scores defined"
                 (Some (location ++ ".options[" ++ string_of_nat i ++ "]")%string))
              r2) as [u r3].
  unfold js_entries. rewrite forEach_map, forEach_nothing; [reflexivity|].
  now intros j [tech score] r4.
Qed.

(** ** Loops that can throw *)

Lemma forEachT_declared {A St} (f : St -> nat -> A -> T St)
    (g : St -> nat -> A -> V St) :
  (forall s i x r, f s i x r = Some (g s i x r)) ->
  forall xs i s r, forEachT f xs i s r = Some (forEach g xs i s r).
Proof.
  intros Hfg. induction xs as [|x xs IH]; intros i s r; [reflexivity|].
  cbn [forEachT forEach]. unfold bindT, bindV. rewrite Hfg.
  destruct (g s i x r) as [s' r']. apply IH.
Qed.

Lemma forEachT_map {A B St} (f : St -> nat -> B -> T St) (h : A -> B) :
  forall xs i s r,
    forEachT f (map h xs) i s r
    = forEachT (fun s i x => f s i (h x)) xs i s r.
Proof.
  induction xs as [|x xs IH]; intros i s r; [reflexivity|].
  cbn [map forEachT]. unfold bindT.
  destruct (f s i (h x) r) as [[s' r']|]; [apply IH|reflexivity].
Qed.

Lemma has_some (l : list string) (x : string) :
  has (map Some l) (Some x) = set_has l x.
Proof.
  unfold has, set_has. induction l as [|y l IH]; [reflexivity|].
  cbn [map existsb same]. now rewrite IH.
Qed.

Lemma add_some (l : list string) (x : string) :
  add (map Some l) (Some x) = map Some (set_add l x).
Proof.
  unfold add, set_add. rewrite has_some.
  destruct (set_has l x); [reflexivity|]. now rewrite map_app.
Qed.

Lemma question_ids (qs : list Question) :
  map j_q_id (map questionJson qs) = map Some (map q_id qs).
Proof. rewrite !map_map. reflexivity. Qed.

Lemma find_question (qs : list Question) (u : string) :
  find (fun q => same (j_q_id q) (Some u)) (map questionJson qs)
  = option_map questionJson (find (fun q => (q_id q =? u)%string) qs).
Proof.
  induction qs as [|q qs IH]; [reflexivity|].
  cbn [map find questionJson j_q_id same].
  now destruct (q_id q =? u)%string.
Qed.

Lemma joined_some (l : list string) : map joined (map Some l) = l.
Proof. rewrite map_map. apply map_id. Qed.

Section Reading.
Variable tree : Checked.
Variable t : DecisionTree.
Hypothesis reads : Reads tree t.

Lemma validateQuestions_declared r :
  AnyTree.validateQuestions tree r
  = DecisionTreeValidator.validateQuestions t r.
Proof.
  unfold AnyTree.validateQuestions, DecisionTreeValidator.validateQuestions.
  apply bindV_ext; [|reflexivity]. rewrite (proj1 reads).
  rewrite forEach_map. apply forEach_ext. intros ids i q r'.
  cbn [questionJson j_q_id j_text j_options blank].
  apply bindV_ext; [reflexivity|]. intros ids' r1.
  apply bindV_ext; [reflexivity|]. intros _ r2.
  apply bindV_ext; [|reflexivity].
  destruct (options q) as [|o os] eqn:Hos; [reflexivity|].
  cbn [map List.length Nat.eqb].
  change (optionJson o :: map optionJson os) with (map optionJson (o :: os)).
  apply validateOptions_declared.
Qed.

Lemma results_get key :
  js_get (results t) key = option_map readResult (js_get (c_results tree) key).
Proof.
  rewrite (proj2 reads). unfold readResults.
  induction (c_results tree) as [|[k v] rs IH]; [reflexivity|].
  cbn [map fst snd js_get]. now destruct (k =? key)%string.
Qed.

Lemma results_keys : js_keys (results t) = js_keys (c_results tree).
Proof.
  rewrite (proj2 reads). unfold js_keys, readResults. rewrite map_map.
  reflexivity.
Qed.

Lemma results_truthy_at tech :
  js_truthy_at (results t) tech = js_truthy_at (c_results tree) tech.
Proof.
  unfold js_truthy_at, js_has. rewrite results_get.
  now destruct (js_get (c_results tree) tech).
Qed.

Lemma truthy_joined v : truthy (joined v) = present v.
Proof. now destruct v. Qed.

Lemma validateResults_declared r :
  AnyTree.validateResults tree r
  = DecisionTreeValidator.validateResults t r.
Proof.
  unfold AnyTree.validateResults, DecisionTreeValidator.validateResults.
  cbv zeta. rewrite results_keys.
  destruct (Nat.eqb (List.length (js_keys (c_results tree))) 0);
    [reflexivity|].
  apply forEach_ext. intros [] i key r'. rewrite results_get.
  destruct (js_get (c_results tree) key) as [res|]; [|reflexivity].
  cbn [option_map readResult name reasoning tradeoffs whenToReconsider].
  rewrite !truthy_joined. now destruct (j_tradeoffs res).
Qed.

(** ** The stages that can throw *)

Lemma validateReferences_declared r :
  AnyTree.validateReferences tree r
  = Some (DecisionTreeValidator.validateReferences t r).
Proof.
  unfold AnyTree.validateReferences, DecisionTreeValidator.validateReferences.
  cbv zeta. rewrite (proj1 reads).
  rewrite forEachT_map. apply forEachT_declared. intros [] qi q r'.
  cbn [questionJson j_options j_q_id]. unfold lift. f_equal.
  rewrite forEach_map. apply forEach_ext. intros [] oi o r1.
  cbn [optionJson j_nextQuestionId j_scores].
  apply bindV_ext.
  - destruct (nextQuestionId o) as [next|]; [|reflexivity].
    cbn [nextValue shown same]. now rewrite question_ids, has_some.
  - intros _ r2. rewrite numbers_keys. apply forEach_ext.
    intros [] ki tech r3. now rewrite results_truthy_at.
Qed.

Lemma dfs_declared : forall fuel u path sets r,
  AnyTree.dfs fuel tree (Some u) (map Some path) (someSets sets) r
  = declared (option_map someSets)
      (DecisionTreeValidator.dfs fuel t u path sets r).
Proof.
  induction fuel as [|fuel IH]; intros u path [reachable visited] r;
    [reflexivity|].
  cbn [AnyTree.dfs DecisionTreeValidator.dfs someSets fst snd].
  rewrite !has_some. destruct (set_has visited u).
  - unfold lift, declared. f_equal.
    change (map Some path ++ [Some u]) with (map Some path ++ map Some [u]).
    rewrite <- map_app, joined_some. unfold set_has.
    unfold bindV.
    destruct (when (existsb (String.eqb u) path)
                (pushError "CIRCULAR_REFERENCE"
                   ("Circular reference detected: "
                    ++ join " -> " (path ++ [u]))%string None) r)
      as [[] r']. reflexivity.
  - rewrite (proj1 reads), find_question, !add_some.
    destruct (find (fun q => (q_id q =? u)%string) (questions t))
      as [question|]; [|reflexivity].
    cbn [option_map questionJson j_options].
    change (map Some (set_add reachable u), map Some (set_add visited u))
      with (someSets (set_add reachable u, set_add visited u)).
    generalize (set_add reachable u, set_add visited u) as sets.
    generalize r.
    induction (options question) as [|o os IHos]; intros r0 sets;
      [reflexivity|].
    cbn [map forOfT forOf]. unfold bindT, bindV.
    assert (Hone :
      (match j_nextQuestionId (optionJson o) with
       | next_string next =>
           if truthy next
           then AnyTree.dfs fuel tree (Some next)
                  (map Some path ++ [Some u]) (someSets sets)
           else retT (Some (someSets sets))
       | _ => retT (Some (someSets sets))
       end) r0
      = declared (option_map someSets)
          (match nextQuestionId o with
           | Some next =>
               if truthy next
               then DecisionTreeValidator.dfs fuel t next (path ++ [u]) sets
               else ret (Some sets)
           | None => ret (Some sets)
           end r0)).
    { cbn [optionJson j_nextQuestionId].
      destruct (nextQuestionId o) as [next|]; [|reflexivity].
      destruct (truthy next); [|reflexivity].
      change (map Some path ++ [Some u]) with (map Some path ++ map Some [u]).
      rewrite <- map_app. apply IH. }
    rewrite Hone. unfold declared.
    destruct (match nextQuestionId o with
              | Some next =>
                  if truthy next
                  then DecisionTreeValidator.dfs fuel t next (path ++ [u]) sets
                  else ret (Some sets)
              | None => ret (Some sets)
              end r0) as [[sets'|] r1]; cbn [fst snd option_map];
      [apply IHos|reflexivity].
Qed.

Lemma targets_declared :
  AnyTree.targets tree = DecisionTreeValidator.targets t.
Proof.
  unfold AnyTree.targets, DecisionTreeValidator.targets.
  rewrite (proj1 reads).
  induction (questions t) as [|q qs IH]; [reflexivity|].
  cbn [map flat_map]. rewrite IH. f_equal.
  cbn [questionJson j_options].
  induction (options q) as [|o os IHo]; [reflexivity|].
  cbn [map flat_map]. rewrite IHo. f_equal.
  cbn [optionJson j_nextQuestionId]. now destruct (nextQuestionId o).
Qed.

Lemma validateReachability_declared r :
  AnyTree.validateReachability tree r
  = Some (DecisionTreeValidator.validateReachability t r).
Proof.
  unfold AnyTree.validateReachability, DecisionTreeValidator.validateReachability.
  unfold AnyTree.dfs_fuel, DecisionTreeValidator.dfs_fuel.
  rewrite targets_declared, (proj1 reads).
  destruct (questions t) as [|first rest] eqn:Hqs; [reflexivity|].
  cbn [map questionJson j_q_id List.length]. unfold bindT, bindV.
  pose proof (dfs_declared
                (S (S (List.length (DecisionTreeValidator.targets t))))
                (q_id first) [] ([], []) r) as Hdfs.
  unfold someSets in Hdfs at 1. cbn [map fst snd] in Hdfs.
  rewrite Hdfs. unfold declared.
  destruct (DecisionTreeValidator.dfs
              (S (S (List.length (DecisionTreeValidator.targets t)))) t
              (q_id first) [] ([], []) r) as [[[reachable visited]|] r'];
    cbn [fst snd option_map someSets]; [|reflexivity].
  unfold lift. f_equal. rewrite question_ids.
  assert (Hfilter : forall ids,
            filter (fun id => negb (has (map Some reachable) id)) (map Some ids)
            = map Some (filter (fun id => negb (set_has reachable id)) ids)).
  { induction ids as [|id ids IH]; [reflexivity|].
    cbn [map filter]. rewrite has_some, IH.
    now destruct (set_has reachable id). }
  change (Some (q_id first) :: map Some (map q_id rest))
    with (map Some (q_id first :: map q_id rest)).
  rewrite Hfilter, forEach_map. reflexivity.
Qed.

Lemma validateScoreBalance_declared
    (scoreImbalances : Checked -> list string)
    (typed : DecisionTree -> list string) r :
  scoreImbalances tree = typed t ->
  AnyTree.validateScoreBalance scoreImbalances tree r
  = Some (DecisionTreeValidator.validateScoreBalance typed t r).
Proof.
  intros Hsame.
  unfold AnyTree.validateScoreBalance, DecisionTreeValidator.validateScoreBalance.
  unfold bindT. rewrite (proj1 reads).
  rewrite forEachT_map.
  rewrite (@forEachT_declared _ _ _ (fun _ _ _ => ret tt)).
  - rewrite forEach_nothing by reflexivity.
    unfold lift. now rewrite Hsame.
  - intros [] i q r'. cbn [questionJson j_options].
    rewrite forEachT_map.
    rewrite (@forEachT_declared _ _ _ (fun _ _ _ => ret tt))
      by (intros [] ? ? ?; reflexivity).
    now rewrite forEach_nothing by reflexivity.
Qed.

(** The stages after the basic structure, one after the other. *)
Lemma laterStages_declared (scoreImbalances : Checked -> list string)
    (typed : DecisionTree -> list string) r :
  scoreImbalances tree = typed t ->
  (lift (AnyTree.validateQuestions tree) ;;?
   AnyTree.validateReferences tree ;;?
   AnyTree.validateReachability tree ;;?
   lift (AnyTree.validateResults tree) ;;?
   AnyTree.validateScoreBalance scoreImbalances tree) r
  = Some ((DecisionTreeValidator.validateQuestions t ;;>
           DecisionTreeValidator.validateReferences t ;;>
           DecisionTreeValidator.validateReachability t ;;>
           DecisionTreeValidator.validateResults t ;;>
           DecisionTreeValidator.validateScoreBalance typed t) r).
Proof.
  intros Hsame. unfold bindT, bindV, lift.
  rewrite validateQuestions_declared.
  destruct (DecisionTreeValidator.validateQuestions t r) as [[] r1].
  rewrite validateReferences_declared.
  destruct (DecisionTreeValidator.validateReferences t r1) as [[] r2].
  rewrite validateReachability_declared.
  destruct (DecisionTreeValidator.validateReachability t r2) as [[] r3].
  rewrite validateResults_declared.
  destruct (DecisionTreeValidator.validateResults t r3) as [[] r4].
  now rewrite (validateScoreBalance_declared scoreImbalances typed r4 Hsame).
Qed.

End Reading.

(** ** What can be read *)

Lemma readAll_Some {A B} (f : A -> option B) (g : B -> A) :
  (forall x y, f x = Some y -> x = g y) ->
  forall xs ys, readAll f xs = Some ys -> xs = map g ys.
Proof.
  intros Hfg. induction xs as [|x xs IH]; intros ys H.
  - injection H as <-. reflexivity.
  - cbn [readAll] in H. destruct (f x) as [y|] eqn:Hx; [|discriminate].
    destruct (readAll f xs) as [ys'|]; [|discriminate].
    injection H as <-. cbn [map]. now rewrite (Hfg x y Hx), (IH ys' eq_refl).
Qed.

Lemma readOption_Some o o' : readOption o = Some o' -> o = optionJson o'.
Proof.
  unfold readOption. destruct o as [[id|] [label|] next [sc|]]; cbn;
    try discriminate; try (destruct next; discriminate).
  destruct (readNext next) as [next'|] eqn:Hnext; [|discriminate].
  destruct (readAll readScore sc) as [sc'|] eqn:Hsc; [|discriminate].
  intros H. injection H as <-. unfold optionJson. cbn. f_equal.
  - destruct next, next'; cbn in Hnext; congruence.
  - f_equal.
    apply (@readAll_Some _ _ readScore
             (fun e => (fst e, number_score (snd e)))); [|exact Hsc].
    intros [k [z|s]] y; cbn; [|discriminate].
    intros H. now injection H as <-.
Qed.

Lemma readQuestion_Some q q' : readQuestion q = Some q' -> q = questionJson q'.
Proof.
  unfold readQuestion. destruct q as [[id|] [text|] [os|]]; cbn;
    try discriminate.
  destruct (readAll readOption os) as [os'|] eqn:Hos; [|discriminate].
  intros H. injection H as <-. unfold questionJson. cbn. do 2 f_equal.
  exact (@readAll_Some _ _ readOption optionJson readOption_Some _ _ Hos).
Qed.

Lemma read_Reads j raw :
  read j = Some raw -> Reads (checked (Some j)) (asDecisionTree (Some raw)).
Proof.
  unfold read, Reads, checked.
  destruct (j_questions j) as [qs|] eqn:Hqs.
  - destruct (readAll readQuestion qs) as [qs'|] eqn:Hread; [|discriminate].
    intros H. injection H as <-. cbn. split.
    + exact (@readAll_Some _ _ readQuestion questionJson readQuestion_Some _ _ Hread).
    + now destruct (j_results j).
  - intros H. injection H as <-. cbn. split; [reflexivity|].
    now destruct (j_results j).
Qed.

Lemma validateBasicStructure_read j raw :
  read j = Some raw ->
  AnyTree.validateBasicStructure (Some j)
  = DecisionTreeValidator.validateBasicStructure (Some raw).
Proof.
  unfold read. destruct (j_questions j) as [qs|] eqn:Hqs.
  - destruct (readAll readQuestion qs) as [qs'|] eqn:Hread; [|discriminate].
    intros H. injection H as <-.
    unfold AnyTree.validateBasicStructure,
      DecisionTreeValidator.validateBasicStructure.
    cbn [raw_id raw_title raw_questions raw_results]. rewrite Hqs.
    rewrite (@readAll_Some _ _ readQuestion questionJson readQuestion_Some _ _ Hread),
      length_map.
    unfold present. now destruct (j_results j).
  - intros H. injection H as <-.
    unfold AnyTree.validateBasicStructure,
      DecisionTreeValidator.validateBasicStructure.
    cbn [raw_id raw_title raw_questions raw_results]. now rewrite Hqs.
Qed.

(** ** [validate] *)

(** On a tree that can be read at the declared shape [validate] returns,
    with the report of [DecisionTreeValidator.validate]. *)
Lemma validate_read (scoreImbalances : Checked -> list string)
    (typed : DecisionTree -> list string) (j : TreeJson) (raw : RawTree) :
  read j = Some raw ->
  scoreImbalances (checked (Some j)) = typed (asDecisionTree (Some raw)) ->
  AnyTree.validate scoreImbalances (Some j)
  = Some (DecisionTreeValidator.validate typed (Some raw)).
Proof.
  intros Hread Hsame.
  unfold AnyTree.validate, DecisionTreeValidator.validate.
  rewrite (validateBasicStructure_read _ Hread).
  destruct (DecisionTreeValidator.validateBasicStructure (Some raw) empty)
    as [[] r].
  destruct (Nat.ltb 0 (List.length (errs r))); [reflexivity|].
  rewrite (laterStages_declared (read_Reads _ Hread) scoreImbalances typed r
             Hsame).
  destruct ((DecisionTreeValidator.validateQuestions
               (asDecisionTree (Some raw)) ;;>
             DecisionTreeValidator.validateReferences
               (asDecisionTree (Some raw)) ;;>
             DecisionTreeValidator.validateReachability
               (asDecisionTree (Some raw)) ;;>
             DecisionTreeValidator.validateResults
               (asDecisionTree (Some raw)) ;;>
             DecisionTreeValidator.validateScoreBalance typed
               (asDecisionTree (Some raw))) r) as [[] r'].
  reflexivity.
Qed.

(** Every tree of the declared shape can be read. *)
Lemma read_treeJson (raw : RawTree) : read (treeJson raw) = Some raw.
Proof.
  assert (Hscores : forall sc : JsObj Z,
            readAll readScore (map (fun e => (fst e, number_score (snd e))) sc)
            = Some sc).
  { induction sc as [|[k z] sc IH]; [reflexivity|].
    cbn [map readAll readScore fst snd]. now rewrite IH. }
  assert (Hoption : forall o, readOption (optionJson o) = Some o).
  { intros [id label next sc]. unfold readOption, optionJson. cbn.
    rewrite Hscores. now destruct next. }
  assert (Hoptions : forall os, readAll readOption (map optionJson os) = Some os).
  { induction os as [|o os IH]; [reflexivity|].
    cbn [map readAll]. now rewrite Hoption, IH. }
  assert (Hquestions : forall qs,
            readAll readQuestion (map questionJson qs) = Some qs).
  { induction qs as [|[id text os] qs IH]; [reflexivity|].
    cbn [map readAll]. unfold readQuestion at 1. cbn.
    now rewrite Hoptions, IH. }
  assert (Hresults : forall rs : JsObj Result,
            readResults (map (fun e => (fst e, resultJson (snd e))) rs) = rs).
  { unfold readResults. induction rs as [|[k [n re tr w b]] rs IH];
      [reflexivity|].
    cbn [map fst snd]. now rewrite IH. }
  destruct raw as [i ti d v [qs|] [rs|]]; unfold read, treeJson; cbn;
    rewrite ?Hquestions, ?Hresults; reflexivity.
Qed.

Lemma validate_declared (scoreImbalances : Checked -> list string)
    (typed : DecisionTree -> list string) (raw : RawTree) :
  scoreImbalances (checked (Some (treeJson raw)))
  = typed (asDecisionTree (Some raw)) ->
  AnyTree.validate scoreImbalances (Some (treeJson raw))
  = Some (DecisionTreeValidator.validate typed (Some raw)).
Proof. apply validate_read, read_treeJson. Qed.

(** ** Stages that read neither array *)

Lemma AppendsT_ret {A} (a : A) : AppendsT (retT a).
Proof.
  intros r. unfold retT. now rewrite ValidatorFacts.pushed_empty_r.
Qed.

Lemma AppendsT_throw {A} : AppendsT (@throwTypeError A).
Proof. intros r. reflexivity. Qed.

Lemma AppendsT_lift {A} (m : V A) : ValidatorSpec.Appends m -> AppendsT (lift m).
Proof.
  intros Hm r. unfold lift. rewrite (Hm r). now destruct (m empty).
Qed.

Lemma AppendsT_bind {A B} (m : T A) (k : A -> T B) :
  AppendsT m -> (forall a, AppendsT (k a)) -> AppendsT (bindT m k).
Proof.
  intros Hm Hk r. unfold bindT. rewrite (Hm r).
  destruct (m empty) as [[a d]|]; [|reflexivity].
  rewrite (Hk a (ValidatorSpec.pushed r d)), (Hk a d).
  destruct (k a empty) as [[b d']|]; [|reflexivity].
  now rewrite ValidatorFacts.pushed_assoc.
Qed.

Lemma AppendsT_forEachT {A St} (f : St -> nat -> A -> T St) xs :
  (forall s i x, AppendsT (f s i x)) ->
  forall i s, AppendsT (forEachT f xs i s).
Proof.
  intros Hf. induction xs as [|x xs IH]; intros i s; cbn [forEachT].
  - apply AppendsT_ret.
  - apply AppendsT_bind; [apply Hf|]. intros s'. apply IH.
Qed.

Lemma AppendsT_forOfT {A St} (f : St -> A -> T (option St)) xs :
  (forall s x, AppendsT (f s x)) ->
  forall s, AppendsT (forOfT f xs s).
Proof.
  intros Hf. induction xs as [|x xs IH]; intros s; cbn [forOfT].
  - apply AppendsT_ret.
  - apply AppendsT_bind; [apply Hf|].
    intros [s'|]; [apply IH|apply AppendsT_ret].
Qed.

Lemma AppendsT_validateReferences tree :
  AppendsT (AnyTree.validateReferences tree).
Proof.
  unfold AnyTree.validateReferences. cbv zeta.
  apply AppendsT_forEachT. intros [] qi q.
  destruct (j_options q) as [os|]; [|apply AppendsT_throw].
  apply AppendsT_lift. ValidatorFacts.appends.
Qed.

Lemma AppendsT_dfs tree fuel :
  forall questionId path sets,
    AppendsT (AnyTree.dfs fuel tree questionId path sets).
Proof.
  induction fuel as [|fuel IH]; intros questionId path [reachable visited];
    cbn [AnyTree.dfs]; [apply AppendsT_ret|].
  destruct (has visited questionId);
    [apply AppendsT_lift; ValidatorFacts.appends|].
  destruct (find _ (c_questions tree)) as [question|]; [|apply AppendsT_ret].
  destruct (j_options question) as [os|]; [|apply AppendsT_throw].
  apply AppendsT_forOfT. intros sets option.
  destruct (j_nextQuestionId option) as [| |next]; try apply AppendsT_ret.
  destruct (truthy next); [apply IH|apply AppendsT_ret].
Qed.

Lemma AppendsT_validateReachability tree :
  AppendsT (AnyTree.validateReachability tree).
Proof.
  unfold AnyTree.validateReachability.
  destruct (c_questions tree) as [|first rest]; [apply AppendsT_ret|].
  apply AppendsT_bind; [apply AppendsT_dfs|].
  intros [[reachable visited]|]; [|apply AppendsT_ret].
  apply AppendsT_lift. ValidatorFacts.appends.
Qed.

Lemma AppendsT_validateScoreBalance scoreImbalances tree :
  AppendsT (AnyTree.validateScoreBalance scoreImbalances tree).
Proof.
  unfold AnyTree.validateScoreBalance.
  apply AppendsT_bind.
  - apply AppendsT_forEachT. intros [] i q.
    destruct (j_options q) as [os|]; [|apply AppendsT_throw].
    apply AppendsT_forEachT. intros [] oi o.
    destruct (j_scores o); [apply AppendsT_ret|apply AppendsT_throw].
  - intros _. apply AppendsT_lift. ValidatorFacts.appends.
Qed.

Lemma Appends_options_any os location :
  ValidatorSpec.Appends (AnyTree.validateOptions os location).
Proof.
  unfold AnyTree.validateOptions. ValidatorFacts.appends.
Qed.

Lemma Appends_questions_any tree :
  ValidatorSpec.Appends (AnyTree.validateQuestions tree).
Proof.
  unfold AnyTree.validateQuestions.
  repeat first [ apply Appends_options_any
               | progress ValidatorFacts.appends ].
Qed.

Lemma Appends_results_any tree :
  ValidatorSpec.Appends (AnyTree.validateResults tree).
Proof. unfold AnyTree.validateResults. cbv zeta. ValidatorFacts.appends. Qed.

(** ** What a tree without errors looks like *)

Lemma loop_good {A St} (f : St -> nat -> A -> V St) (good : A -> Prop) :
  (forall s i x, ValidatorSpec.Appends (f s i x)) ->
  (forall s i x, errors_of (f s i x) = [] -> good x) ->
  forall xs i s, errors_of (forEach f xs i s) = [] -> Forall good xs.
Proof.
  intros Happ Hgood. induction xs as [|x xs IH]; intros i s H; [constructor|].
  rewrite (StageFacts.errors_of_forEach_cons f x xs i s Happ) in H.
  apply app_eq_nil in H. destruct H as [Hx Hxs].
  constructor; [exact (Hgood s i x Hx)|exact (IH _ _ Hxs)].
Qed.

Lemma numbers_read (sc : JsObj ScoreJson) :
  Forall (fun e => exists z, snd e = number_score z) sc ->
  exists scores, readAll readScore sc = Some scores.
Proof.
  induction 1 as [|[k v] sc [z Hz] _ [scores IH]]; [now exists []|].
  cbn [snd] in Hz. subst v. cbn [readAll readScore snd fst]. rewrite IH.
  eauto.
Qed.

Lemma options_shape os location :
  errors_of (AnyTree.validateOptions os location) = [] ->
  Forall OptionFields os.
Proof.
  unfold AnyTree.validateOptions.
  rewrite StageFacts.errors_of_bind by (intros; ValidatorFacts.appends).
  rewrite StageFacts.errors_of_ret, app_nil_r.
  apply loop_good; [intros; ValidatorFacts.appends|].
  intros ids i o.
  rewrite StageFacts.errors_of_bind by (intros; ValidatorFacts.appends).
  intros H. apply app_eq_nil in H. destruct H as [Hid Hrest].
  rewrite StageFacts.errors_of_bind in Hrest
    by (intros; ValidatorFacts.appends).
  apply app_eq_nil in Hrest. destruct Hrest as [Hlabel Hrest].
  rewrite StageFacts.errors_of_bind in Hrest
    by (intros; ValidatorFacts.appends).
  apply app_eq_nil in Hrest. destruct Hrest as [Hscores _].
  unfold OptionFields. split; [|split].
  - destruct (j_o_id o); [discriminate|]. cbn in Hid. discriminate.
  - destruct (j_label o); [discriminate|]. cbn in Hlabel. discriminate.
  - destruct (j_scores o) as [sc|]; [|cbn in Hscores; discriminate].
    rewrite StageFacts.errors_of_bind in Hscores
      by (intros; ValidatorFacts.appends).
    apply app_eq_nil in Hscores. destruct Hscores as [_ Hscores].
    apply (@loop_good _ _ _ (fun e => exists z, snd e = number_score z))
      in Hscores.
    + destruct (numbers_read Hscores) as [scores Hread]. eauto.
    + intros; ValidatorFacts.appends.
    + intros [] j [tech [z|s0]] Hentry; [cbn; eauto|].
      cbn in Hentry. discriminate.
Qed.

Lemma questions_shape tree :
  errors_of (AnyTree.validateQuestions tree) = [] ->
  Forall QuestionFields (c_questions tree).
Proof.
  unfold AnyTree.validateQuestions.
  rewrite StageFacts.errors_of_bind
    by (intros;
        repeat first [ apply Appends_options_any
                     | progress ValidatorFacts.appends ]).
  rewrite StageFacts.errors_of_ret, app_nil_r.
  apply loop_good;
    [intros; repeat first [ apply Appends_options_any
                          | progress ValidatorFacts.appends ]|].
  intros ids i q.
  rewrite StageFacts.errors_of_bind
    by (intros; repeat first [ apply Appends_options_any
                             | progress ValidatorFacts.appends ]).
  intros H. apply app_eq_nil in H. destruct H as [Hid Hrest].
  rewrite StageFacts.errors_of_bind in Hrest
    by (intros; repeat first [ apply Appends_options_any
                             | progress ValidatorFacts.appends ]).
  apply app_eq_nil in Hrest. destruct Hrest as [Htext Hrest].
  rewrite StageFacts.errors_of_bind in Hrest
    by (intros; repeat first [ apply Appends_options_any
                             | progress ValidatorFacts.appends ]).
  apply app_eq_nil in Hrest. destruct Hrest as [Hoptions _].
  unfold QuestionFields. split; [|split].
  - destruct (j_q_id q); [discriminate|]. cbn in Hid. discriminate.
  - destruct (j_text q); [discriminate|]. cbn in Htext. discriminate.
  - destruct (j_options q) as [[|o os]|]; try (cbn in Hoptions; discriminate).
    exists (o :: os). split; [reflexivity|].
    exact (options_shape _ _ Hoptions).
Qed.

Lemma has_no_missing_id (qs : list QuestionJson) :
  Forall QuestionFields qs -> has (map j_q_id qs) None = false.
Proof.
  unfold has. induction 1 as [|q qs (Hid & _) _ IH]; [reflexivity|].
  cbn [map existsb]. rewrite IH.
  destruct (j_q_id q); [reflexivity|contradiction].
Qed.

Lemma references_shape tree u d :
  Forall QuestionFields (c_questions tree) ->
  AnyTree.validateReferences tree empty = Some (u, d) ->
  errs d = [] ->
  forall q os o,
    In q (c_questions tree) -> j_options q = Some os -> In o os ->
    j_nextQuestionId o <> next_missing.
Proof.
  intros Hfields. pose proof (has_no_missing_id Hfields) as Hhas.
  unfold AnyTree.validateReferences. cbv zeta.
  match goal with
  | |- forEachT ?f _ _ _ _ = _ -> _ => set (body := f)
  end.
  assert (Happ : forall qs i, AppendsT (forEachT body qs i tt)).
  { intros qs i. apply AppendsT_forEachT. intros [] qi q. unfold body.
    destruct (j_options q); [|apply AppendsT_throw].
    apply AppendsT_lift. ValidatorFacts.appends. }
  assert (Hloop : forall qs i u d,
            forEachT body qs i tt empty = Some (u, d) -> errs d = [] ->
            forall q os o,
              In q qs -> j_options q = Some os -> In o os ->
              j_nextQuestionId o <> next_missing).
  { clear u d Hfields.
    induction qs as [|q0 qs IH]; intros i u d Hrun Herrs;
      [intros q os o []|].
    cbn [forEachT] in Hrun. unfold bindT in Hrun.
    destruct (body tt i q0 empty) as [[[] d1]|] eqn:Hround; [|discriminate].
    rewrite (Happ qs (S i) d1) in Hrun.
    destruct (forEachT body qs (S i) tt empty) as [[[] d2]|] eqn:Hrest;
      [|discriminate].
    injection Hrun as _ <-. cbn [ValidatorSpec.pushed errs] in Herrs.
    apply app_eq_nil in Herrs. destruct Herrs as [Hd1 Hd2].
    intros q os o [<-|Hin] Hos Ho;
      [|exact (IH _ _ _ Hrest Hd2 q os o Hin Hos Ho)].
    unfold body in Hround. rewrite Hos in Hround. unfold lift in Hround.
    injection Hround as Hround.
    match type of Hround with
    | forEach ?f os 0%nat tt empty = _ =>
        assert (Hinner : errors_of (forEach f os 0%nat tt) = [])
          by (unfold errors_of; now rewrite Hround);
        apply (@loop_good _ _ f
                 (fun o => j_nextQuestionId o <> next_missing)) in Hinner
    end.
    - rewrite Forall_forall in Hinner. now apply Hinner.
    - intros. ValidatorFacts.appends.
    - intros [] oi o' Hone Hmissing. cbv beta in Hone.
      rewrite Hmissing in Hone. cbn [nextValue] in Hone.
      rewrite StageFacts.errors_of_bind in Hone
        by (intros; ValidatorFacts.appends).
      apply app_eq_nil in Hone. destruct Hone as [Hone _].
      rewrite StageFacts.errors_of_bind in Hone
        by (intros; ValidatorFacts.appends).
      apply app_eq_nil in Hone. destruct Hone as [Hone _].
      rewrite Hhas in Hone. cbn in Hone. discriminate. }
  intros Hrun Herrs. exact (Hloop _ _ _ _ Hrun Herrs).
Qed.

Lemma options_readable os :
  Forall OptionFields os ->
  (forall o, In o os -> j_nextQuestionId o <> next_missing) ->
  exists options, readAll readOption os = Some options.
Proof.
  induction 1 as [|o os (Hid & Hlabel & sc & scores & Hsc & Hread) _ IH];
    intros Hnext; [now exists []|].
  destruct IH as [options Hoptions];
    [intros o' Hin; apply Hnext; now right|].
  cbn [readAll]. rewrite Hoptions. unfold readOption.
  destruct (j_o_id o); [|contradiction]. destruct (j_label o); [|contradiction].
  rewrite Hsc, Hread.
  pose proof (Hnext o (or_introl eq_refl)) as Hn.
  destruct (j_nextQuestionId o); [contradiction| |]; cbn; eauto.
Qed.

Lemma questions_readable qs :
  Forall QuestionFields qs ->
  (forall q os o, In q qs -> j_options q = Some os -> In o os ->
                  j_nextQuestionId o <> next_missing) ->
  exists questions, readAll readQuestion qs = Some questions.
Proof.
  induction 1 as [|q qs (Hid & Htext & os & Hos & Hfields) _ IH];
    intros Hnext; [now exists []|].
  destruct IH as [questions Hquestions];
    [intros q' os' o Hin; apply Hnext; now right|].
  destruct (options_readable Hfields) as [options Hoptions];
    [intros o Ho; exact (Hnext q os o (or_introl eq_refl) Hos Ho)|].
  cbn [readAll]. rewrite Hquestions. unfold readQuestion.
  destruct (j_q_id q); [|contradiction]. destruct (j_text q); [|contradiction].
  rewrite Hos, Hoptions. eauto.
Qed.

(** A tree [validate] accepts can be read at the declared shape. *)
Lemma valid_is_readable (scoreImbalances : Checked -> list string)
    (tree : option TreeJson) (v : ValidationResult) :
  AnyTree.validate scoreImbalances tree = Some v ->
  isValid v = true ->
  exists j raw, tree = Some j /\ read j = Some raw.
Proof.
  unfold AnyTree.validate. intros Hrun Hvalid.
  destruct (AnyTree.validateBasicStructure tree empty) as [[] r0] eqn:Hbasic.
  destruct (Nat.ltb 0 (List.length (errs r0))) eqn:Hgate.
  { injection Hrun as <-. discriminate. }
  assert (Hr0 : errs r0 = []).
  { destruct (errs r0); [reflexivity|discriminate]. }
  destruct tree as [j|].
  2:{ cbn in Hbasic. injection Hbasic as <-. discriminate. }
  exists j.
  assert (Hqs : exists qs, j_questions j = Some qs).
  { destruct (j_questions j) as [qs|] eqn:Hqs; [eauto|].
    exfalso. unfold AnyTree.validateBasicStructure in Hbasic.
    rewrite Hqs in Hbasic. unfold bindV in Hbasic.
    destruct (when (negb (present (j_id j))) _ empty) as [[] ra].
    destruct (when (negb (present (j_title j))) _ ra) as [[] rb].
    injection Hbasic as <-. cbn in Hr0. now destruct (errs rb). }
  destruct Hqs as [qs Hqs].
  set (c := checked (Some j)) in *.
  assert (Hc : c_questions c = qs) by (unfold c; cbn; now rewrite Hqs).
  unfold bindT at 1 in Hrun. unfold lift at 1 in Hrun.
  rewrite (Appends_questions_any c r0) in Hrun.
  destruct (AnyTree.validateQuestions c empty) as [[] dq0] eqn:Hq.
  cbn [fst snd] in Hrun.
  unfold bindT at 1 in Hrun.
  rewrite (AppendsT_validateReferences c) in Hrun.
  destruct (AnyTree.validateReferences c empty) as [[[] dr]|] eqn:Hrefs;
    [|discriminate].
  match type of Hrun with
  | match ?m ?r with _ => _ end = _ =>
      assert (Happ : AppendsT m);
      [|rewrite (Happ r) in Hrun;
        destruct (m empty) as [[[] dl]|]; [|discriminate]]
  end.
  { apply AppendsT_bind; [apply AppendsT_validateReachability|]. intros _.
    apply AppendsT_bind;
      [apply AppendsT_lift, Appends_results_any|]. intros _.
    apply AppendsT_validateScoreBalance. }
  injection Hrun as <-. cbn [isValid] in Hvalid.
  apply Nat.eqb_eq, length_zero_iff_nil in Hvalid.
  cbn [ValidatorSpec.pushed errs] in Hvalid.
  apply app_eq_nil in Hvalid. destruct Hvalid as [Hvalid _].
  apply app_eq_nil in Hvalid. destruct Hvalid as [Hvalid Hdr].
  apply app_eq_nil in Hvalid. destruct Hvalid as [_ Hdq].
  assert (Hfields : Forall QuestionFields (c_questions c)).
  { apply questions_shape. unfold errors_of. now rewrite Hq. }
  pose proof (@references_shape c tt dr Hfields Hrefs Hdr) as Hnext.
  destruct (@questions_readable (c_questions c) Hfields Hnext)
    as [questions Hread].
  rewrite Hc in Hread. unfold read. rewrite Hqs, Hread. eauto.
Qed.

(** ** The search ends *)

Lemma same_eq a b : same a b = true <-> a = b.
Proof.
  destruct a as [x|], b as [y|]; cbn; try (split; congruence).
  rewrite String.eqb_eq. split; congruence.
Qed.

Lemma has_add s x y : has (add s x) y = has s y || same y x.
Proof.
  unfold add. destruct (has s x) eqn:Hx.
  - destruct (same y x) eqn:Hyx; [|now rewrite orb_false_r].
    apply same_eq in Hyx. subst y. now rewrite Hx.
  - unfold has. rewrite existsb_app. cbn. now rewrite orb_false_r.
Qed.

Lemma unvisited_shrinks ids visited visited' :
  (forall y, has visited y = true -> has visited' y = true) ->
  (List.length (unvisited ids visited') <= List.length (unvisited ids visited))%nat.
Proof.
  intros Hsub. unfold unvisited.
  induction ids as [|x ids IH]; cbn [filter List.length]; [lia|].
  destruct (has visited x) eqn:Hx; cbn [negb List.length].
  - rewrite (Hsub x Hx). cbn [negb]. exact IH.
  - destruct (has visited' x); cbn [negb List.length]; lia.
Qed.

Lemma unvisited_after_add ids visited x :
  In x ids -> has visited x = false ->
  (List.length (unvisited ids (add visited x))
   < List.length (unvisited ids visited))%nat.
Proof.
  intros Hin Hx. induction ids as [|y ids IH]; [destruct Hin|].
  assert (Hle : (List.length (unvisited ids (add visited x))
                 <= List.length (unvisited ids visited))%nat).
  { apply unvisited_shrinks. intros z Hz. rewrite has_add, Hz. reflexivity. }
  unfold unvisited in *. cbn [filter]. rewrite has_add.
  destruct Hin as [->|Hin].
  - rewrite Hx. replace (same x x) with true
      by (symmetry; now apply same_eq). cbn [orb negb List.length]. lia.
  - specialize (IH Hin).
    destruct (has visited y); cbn [orb negb List.length]; [exact IH|].
    destruct (same y x); cbn [negb List.length]; lia.
Qed.

Lemma target_of_next tree question os option next :
  In question (c_questions tree) ->
  j_options question = Some os ->
  In option os ->
  j_nextQuestionId option = next_string next ->
  In next (AnyTree.targets tree).
Proof.
  intros Hq Hos Ho Hn. unfold AnyTree.targets.
  apply in_flat_map. exists question. split; [exact Hq|].
  rewrite Hos. apply in_flat_map. exists option. split; [exact Ho|].
  rewrite Hn. now left.
Qed.

Section Search.
Variable tree : Checked.
Variable ids : list (option string).
Hypothesis ids_targets : incl (map Some (AnyTree.targets tree)) ids.

(** With more fuel than values left to visit, a call does not run out
    of fuel. *)
Lemma search_enough fuel :
  forall questionId path reachable visited r,
    In questionId ids ->
    (List.length (unvisited ids visited) < fuel)%nat ->
    Searched visited
      (AnyTree.dfs fuel tree questionId path (reachable, visited) r).
Proof.
  induction fuel as [|fuel IH]; intros questionId path reachable visited r
    Hid Hfuel; [lia|].
  cbn [AnyTree.dfs]. destruct (has visited questionId) eqn:Hvis.
  - unfold lift, bindV. destruct (when _ _ r). cbn. auto.
  - pose proof (unvisited_after_add _ _ _ Hid Hvis) as Hless.
    assert (Hgrow : forall y, has visited y = true ->
                              has (add visited questionId) y = true).
    { intros y Hy. rewrite has_add, Hy. reflexivity. }
    destruct (find _ (c_questions tree)) as [question|] eqn:Hfind;
      [|exact Hgrow].
    apply find_some in Hfind. destruct Hfind as [Hq _].
    destruct (j_options question) as [options|] eqn:Hoptions; [|exact I].
    assert (Hloop : forall os, incl os options ->
              forall reach vis r0,
                (List.length (unvisited ids vis) < fuel)%nat ->
                Searched vis
                  (forOfT
                     (fun sets option =>
                        match j_nextQuestionId option with
                        | next_string next =>
                            if truthy next
                            then AnyTree.dfs fuel tree (Some next)
                                   (path ++ [questionId]) sets
                            else retT (Some sets)
                        | _ => retT (Some sets)
                        end) os (reach, vis) r0)).
    { induction os as [|option os IHos]; intros Hincl reach vis r0 Hm.
      - cbn. auto.
      - cbn [forOfT]. unfold bindT.
        assert (Hstep :
                  Searched vis
                    (match j_nextQuestionId option with
                     | next_string next =>
                         if truthy next
                         then AnyTree.dfs fuel tree (Some next)
                                (path ++ [questionId]) (reach, vis)
                         else retT (Some (reach, vis))
                     | _ => retT (Some (reach, vis))
                     end r0)).
        { destruct (j_nextQuestionId option) as [| |next] eqn:Hn;
            try (cbn; auto; fail).
          destruct (truthy next); [|cbn; auto].
          apply IH; [|exact Hm]. apply ids_targets. apply in_map.
          apply (@target_of_next tree question options option next Hq
                   Hoptions); [apply Hincl; now left|exact Hn]. }
        destruct (match j_nextQuestionId option with
                  | next_string next =>
                      if truthy next
                      then AnyTree.dfs fuel tree (Some next)
                             (path ++ [questionId]) (reach, vis)
                      else retT (Some (reach, vis))
                  | _ => retT (Some (reach, vis))
                  end r0) as [[[[reach1 vis1]|] r1]|];
          cbn [Searched] in Hstep; [|contradiction|exact I].
        assert (Hrest : Searched vis1
                          (forOfT
                             (fun sets option =>
                                match j_nextQuestionId option with
                                | next_string next =>
                                    if truthy next
                                    then AnyTree.dfs fuel tree (Some next)
                                           (path ++ [questionId]) sets
                                    else retT (Some sets)
                                | _ => retT (Some sets)
                                end) os (reach1, vis1) r1)).
        { apply IHos; [intros x Hx; apply Hincl; now right|].
          pose proof (unvisited_shrinks ids _ _ Hstep). lia. }
        destruct (forOfT _ os (reach1, vis1) r1) as [[[[reach2 vis2]|] r2]|];
          cbn [Searched] in Hrest |- *; auto. }
    specialize (Hloop options (incl_refl _) (add reachable questionId)
                  (add visited questionId) r).
    assert (Hm : (List.length (unvisited ids (add visited questionId))
                  < fuel)%nat) by lia.
    specialize (Hloop Hm).
    destruct (forOfT _ options _ r) as [[[[reach' vis']|] r']|];
      cbn [Searched] in Hloop |- *; auto.
Qed.

End Search.

(** The fuel [validateReachability] hands to the search is enough. *)
Lemma search_terminates tree first r :
  Searched []
    (AnyTree.dfs (AnyTree.dfs_fuel tree) tree first [] ([], []) r).
Proof.
  apply (@search_enough tree (first :: map Some (AnyTree.targets tree))
           (fun x Hx => or_intror Hx)).
  - now left.
  - unfold AnyTree.dfs_fuel, unvisited.
    pose proof (filter_length_le (fun x => negb (has [] x))
                  (first :: map Some (AnyTree.targets tree))) as Hle.
    cbn [List.length] in Hle. rewrite length_map in Hle. lia.
Qed.

(** ** When a stage throws *)

Lemma forEachT_throws {A} (f : unit -> nat -> A -> T unit) (Bad : A -> Prop) :
  (forall i x r, f tt i x r = None <-> Bad x) ->
  forall xs i r, forEachT f xs i tt r = None <-> Exists Bad xs.
Proof.
  intros Hf. induction xs as [|x xs IH]; intros i r.
  - cbn. split; [discriminate|]. intros H. inversion H.
  - cbn [forEachT]. unfold bindT.
    destruct (f tt i x r) as [[[] r']|] eqn:Hx.
    + rewrite IH. split; [now right|].
      intros H. inversion H as [? ? Hbad|]; subst; [|assumption].
      apply (Hf i x r) in Hbad. congruence.
    + split; [|reflexivity]. intros _. left. now apply (Hf i x r).
Qed.

Lemma validateReferences_throws tree r :
  AnyTree.validateReferences tree r = None
  <-> Exists NoOptions (c_questions tree).
Proof.
  unfold AnyTree.validateReferences. cbv zeta. apply forEachT_throws.
  intros i q r'. unfold NoOptions.
  destruct (j_options q); [split; discriminate|split; reflexivity].
Qed.

Lemma dfs_returns tree :
  Forall (fun q => ~ NoOptions q) (c_questions tree) ->
  forall fuel questionId path sets r,
    AnyTree.dfs fuel tree questionId path sets r <> None.
Proof.
  intros Hall. induction fuel as [|fuel IH];
    intros questionId path [reachable visited] r; [discriminate|].
  cbn [AnyTree.dfs]. destruct (has visited questionId); [discriminate|].
  destruct (find _ (c_questions tree)) as [question|] eqn:Hfind;
    [|discriminate].
  apply find_some in Hfind. destruct Hfind as [Hin _].
  rewrite Forall_forall in Hall. specialize (Hall question Hin).
  unfold NoOptions in Hall.
  destruct (j_options question) as [os|]; [clear Hall|contradiction].
  generalize (add reachable questionId, add visited questionId) as sets.
  generalize r.
  induction os as [|o os IHos]; intros r0 sets; [discriminate|].
  cbn [forOfT]. unfold bindT.
  match goal with
  | |- match ?step r0 with _ => _ end <> None =>
      assert (Hstep : step r0 <> None);
      [|destruct (step r0) as [[[sets'|] r1]|];
        [apply IHos|discriminate|contradiction]]
  end.
  destruct (j_nextQuestionId o) as [| |next]; try discriminate.
  destruct (truthy next); [apply IH|discriminate].
Qed.

Lemma validateReachability_returns tree r :
  Forall (fun q => ~ NoOptions q) (c_questions tree) ->
  AnyTree.validateReachability tree r <> None.
Proof.
  intros Hall. unfold AnyTree.validateReachability.
  destruct (c_questions tree) as [|first rest] eqn:Hqs; [discriminate|].
  rewrite <- Hqs in Hall. unfold bindT.
  pose proof (@dfs_returns tree Hall (dfs_fuel tree) (j_q_id first) []
                ([], []) r) as Hdfs.
  destruct (AnyTree.dfs (dfs_fuel tree) tree (j_q_id first) [] ([], []) r)
    as [[[[reachable visited]|] r']|]; [discriminate|discriminate|].
  contradiction.
Qed.

Lemma validateScoreBalance_throws scoreImbalances tree r :
  Forall (fun q => ~ NoOptions q) (c_questions tree) ->
  AnyTree.validateScoreBalance scoreImbalances tree r = None
  <-> Exists NoScores (c_questions tree).
Proof.
  intros Hall. unfold AnyTree.validateScoreBalance. unfold bindT at 1.
  match goal with
  | |- match forEachT ?f _ _ _ _ with _ => _ end = None <-> _ =>
      pose proof (@forEachT_throws _ f
                    (fun q => NoOptions q \/ NoScores q)) as Hloop
  end.
  match type of Hloop with
  | ?P -> _ => assert (Hround : P); [|specialize (Hloop Hround)]
  end.
  { intros i q r'. unfold NoOptions, NoScores.
    destruct (j_options q) as [os|]; [|split; [now left|reflexivity]].
    rewrite (@forEachT_throws _ _ (fun o => j_scores o = None)).
    - rewrite Exists_exists. split.
      + intros (o & Ho & Hsc). right. exists os, o. auto.
      + intros [H|(os' & o & Hos & Ho & Hsc)]; [discriminate|].
        injection Hos as <-. eauto.
    - intros oi o r''. unfold retT, throwTypeError.
      destruct (j_scores o); split; (discriminate || reflexivity). }
  match goal with
  | |- match ?run with _ => _ end = None <-> _ =>
      destruct run as [[[] r']|] eqn:Hrun
  end.
  - split; [discriminate|]. intros Hex. exfalso.
    assert (Hnone : forEachT
                      (fun (_ : unit) (_ : nat) question =>
                         match j_options question with
                         | Some options =>
                             forEachT
                               (fun (_ : unit) (_ : nat) option =>
                                  match j_scores option with
                                  | Some _ => retT tt
                                  | None => throwTypeError
                                  end) options 0%nat tt
                         | None => throwTypeError
                         end) (c_questions tree) 0%nat tt r = None).
    { apply Hloop. apply Exists_exists. apply Exists_exists in Hex.
      destruct Hex as (q & Hq & Hbad). exists q. auto. }
    congruence.
  - split; [|reflexivity]. intros _.
    apply Hloop in Hrun. apply Exists_exists in Hrun.
    destruct Hrun as (q & Hq & [Hbad|Hbad]).
    + rewrite Forall_forall in Hall. now destruct (Hall q Hq).
    + apply Exists_exists. eauto.
Qed.

End AnyTreeFacts.

(* ===================================================================== *)
(** * The validator on trees that are not well formed                    *)
(* ===================================================================== *)

Module AnyTreeClaims.
Import DecisionTreeValidator AnyTree.

(** C5. [validate] does not report every structural problem of every
    tree: on a tree that passes the basic structure and is not well
    formed it can throw instead of returning. For [noOptionsTree] the
    question stage finds that the question has no option and the result
    stage that there is no result, but the reference stage, which runs
    in between, calls [forEach] on the missing [options]: the call of
    [validate] throws a [TypeError] and reports nothing. For
    [noScoresTree] the option stage finds the missing [scores], no other
    stage finds anything, and the score-balance stage throws on
    [Object.entries] of them. *)
Theorem validate_throws_on_malformed_tree
    (scoreImbalances : Checked -> list string) :
  (errors_of (AnyTree.validateBasicStructure (Some noOptionsTree)) = []
   /\ errors_of (AnyTree.validateQuestions (checked (Some noOptionsTree)))
      = [issue error "MISSING_OPTIONS"
           "Question must have at least one option" (Some "questions[0]")]
   /\ errors_of (AnyTree.validateResults (checked (Some noOptionsTree)))
      = [issue error "NO_RESULTS"
           "Tree must have at least one result definition" None]
   /\ AnyTree.validateReferences (checked (Some noOptionsTree))
        (snd (AnyTree.validateQuestions (checked (Some noOptionsTree)) empty))
      = None
   /\ AnyTree.validate scoreImbalances (Some noOptionsTree) = None)
  /\ (errors_of (AnyTree.validateBasicStructure (Some noScoresTree)) = []
      /\ errors_of (AnyTree.validateQuestions (checked (Some noScoresTree)))
         = [issue error "MISSING_SCORES" "Option missing scores object"
              (Some "questions[0].options[0]")]
      /\ AnyTree.validateScoreBalance scoreImbalances
           (checked (Some noScoresTree))
           (snd (AnyTree.validateQuestions (checked (Some noScoresTree))
                   empty))
         = None
      /\ AnyTree.validate scoreImbalances (Some noScoresTree) = None).
Proof. repeat split; reflexivity. Qed.

(** X10. For a tree of which any field may be missing, [validate]
    returns [isValid: true] exactly when the tree can be read at the
    declared shape (no question lacks its id, text or options array, no
    option lacks its id, label, [nextQuestionId] or scores, and every
    score is a number) and the tree read has a non-empty id and title,
    a question and a results object; questions and options with ids,
    texts and labels, an option for every question and no id used
    twice; options that lead nowhere or to another question of the tree
    and that score only keys at which [tree.results] holds something, a
    descriptor of its own or an inherited member; no cycle that can be
    reached; and results that are named and not empty. In every other
    case [validate] returns [isValid: false] or throws. The
    score-balance stage has no part in it. *)
Theorem valid_tree_iff (scoreImbalances : Checked -> list string)
    (tree : option TreeJson) :
  (exists v,
     AnyTree.validate scoreImbalances tree = Some v /\ isValid v = true)
  <-> exists j raw,
        tree = Some j
        /\ read j = Some raw
        /\ WellFormed.BasicOk (Some raw)
        /\ WellFormed.QuestionsOk (asDecisionTree (Some raw))
        /\ WellFormed.ReferencesOk (asDecisionTree (Some raw))
        /\ Graph.Acyclic (asDecisionTree (Some raw))
        /\ WellFormed.ResultsOk (asDecisionTree (Some raw)).
Proof.
  split.
  - intros (v & Hrun & Hvalid).
    destruct (AnyTreeFacts.valid_is_readable _ _ Hrun Hvalid)
      as (j & raw & -> & Hread).
    exists j, raw. split; [reflexivity|]. split; [exact Hread|].
    rewrite (@AnyTreeFacts.validate_read scoreImbalances
               (fun _ => scoreImbalances (checked (Some j))) j raw Hread
               eq_refl) in Hrun.
    injection Hrun as <-. now apply ValidFacts.isValid_iff in Hvalid.
  - intros (j & raw & -> & Hread & Hok).
    eexists. split.
    + apply (@AnyTreeFacts.validate_read scoreImbalances
               (fun _ => scoreImbalances (checked (Some j))) j raw Hread
               eq_refl).
    + apply ValidFacts.isValid_iff. exact Hok.
Qed.

(** X21. [validate] throws exactly when the tree passes the basic
    structure and one of its questions has no options array, or has an
    option whose scores are missing or [null]: the reference stage calls
    [forEach] on such options and the score-balance stage
    [Object.entries] on such scores. In every other case it returns a
    report; it never throws on [null]. *)
Theorem validate_throws_iff (scoreImbalances : Checked -> list string)
    (tree : option TreeJson) :
  AnyTree.validate scoreImbalances tree = None
  <-> errors_of (AnyTree.validateBasicStructure tree) = []
      /\ (Exists NoOptions (c_questions (checked tree))
          \/ Exists NoScores (c_questions (checked tree))).
Proof.
  unfold AnyTree.validate, errors_of.
  destruct (AnyTree.validateBasicStructure tree empty) as [[] r0].
  cbn [snd].
  destruct (errs r0) as [|e es] eqn:Herrs; cbn [List.length Nat.ltb Nat.leb].
  2:{ split; [discriminate|]. intros [H _]. discriminate. }
  set (c := checked tree).
  unfold bindT at 1. unfold lift at 1.
  destruct (AnyTree.validateQuestions c r0) as [[] r1].
  unfold bindT at 1.
  destruct (AnyTree.validateReferences c r1) as [[[] r2]|] eqn:Hrefs.
  - assert (Hall : Forall (fun q => ~ NoOptions q) (c_questions c)).
    { apply Forall_forall. intros q Hq Hbad.
      assert (Hex : Exists NoOptions (c_questions c))
        by (apply Exists_exists; eauto).
      apply (AnyTreeFacts.validateReferences_throws c r1) in Hex.
      congruence. }
    unfold bindT at 1.
    pose proof (@AnyTreeFacts.validateReachability_returns c r2 Hall)
      as Hreach.
    destruct (AnyTree.validateReachability c r2) as [[[] r3]|];
      [|contradiction].
    unfold bindT at 1. unfold lift at 1.
    destruct (AnyTree.validateResults c r3) as [[] r4].
    pose proof (@AnyTreeFacts.validateScoreBalance_throws scoreImbalances
                  c r4 Hall) as Hbalance.
    destruct (AnyTree.validateScoreBalance scoreImbalances c r4)
      as [[[] r5]|].
    + split; [discriminate|]. intros [_ [Hex|Hex]].
      * apply (AnyTreeFacts.validateReferences_throws c r1) in Hex.
        congruence.
      * apply Hbalance in Hex. discriminate.
    + split; [|reflexivity]. intros _. split; [reflexivity|].
      right. now apply Hbalance.
  - split; [|reflexivity]. intros _. split; [reflexivity|]. left.
    now apply (AnyTreeFacts.validateReferences_throws c r1).
Qed.

End AnyTreeClaims.

(* ===================================================================== *)
(** * The service and the routes                                         *)
(* ===================================================================== *)

Module ApiFacts.
Import RecommendationEngine Spec EngineSpec.
Import DecisionTreeValidator WellFormed.
Import ErrorHandler DecisionTreeService Routes ServiceSpec.

(** ** Maps built with [set] *)

Lemma Map_get_None {V} (m : JsMap V) k :
  ~ In k (map fst m) -> Map_get m k = None.
Proof.
  induction m as [|[k0 v0] m IH]; [reflexivity|].
  cbn [map fst In Map_get]. intros Hout.
  rewrite IH by tauto.
  destruct (String.eqb_spec k0 k) as [Heq|]; [|reflexivity].
  exfalso. apply Hout. now left.
Qed.

Lemma Map_get_key {V} (m : JsMap V) k v :
  Map_get m k = Some v -> In k (map fst m).
Proof.
  intros H. destruct (in_dec string_dec k (map fst m)) as [Hin|Hout];
    [exact Hin|].
  rewrite (Map_get_None _ _ Hout) in H. discriminate.
Qed.

Lemma Map_set_keys {V} (m : JsMap V) k v k' :
  In k' (map fst (Map_set m k v)) <-> In k' (map fst m) \/ k' = k.
Proof.
  induction m as [|[k0 v0] m IH]; cbn [Map_set map fst In].
  - split; [intros [<-|[]]; now right|intros [[]| ->]; now left].
  - destruct (String.eqb_spec k0 k) as [->|Hne]; cbn [map fst In].
    + split; [tauto|]. intros [H| ->]; [exact H|now left].
    + rewrite IH. tauto.
Qed.

Lemma Map_set_NoDup {V} (m : JsMap V) k v :
  NoDup (map fst m) -> NoDup (map fst (Map_set m k v)).
Proof.
  induction m as [|[k0 v0] m IH]; cbn [Map_set map fst]; intros Hnd.
  - repeat constructor. intros [].
  - inversion Hnd as [|? ? Hout Hnd']; subst.
    destruct (String.eqb_spec k0 k) as [->|Hne]; cbn [map fst].
    + now constructor.
    + constructor; [|now apply IH].
      rewrite Map_set_keys. intros [Hin|Heq]; [auto|congruence].
Qed.

(** Reading after [set]. *)
Lemma Map_get_set {V} (m : JsMap V) k v k' :
  NoDup (map fst m) ->
  Map_get (Map_set m k v) k'
  = if (k =? k')%string then Some v else Map_get m k'.
Proof.
  induction m as [|[k0 v0] m IH]; cbn [Map_set map fst]; intros Hnd.
  - reflexivity.
  - inversion Hnd as [|? ? Hout Hnd']; subst.
    destruct (String.eqb_spec k0 k) as [->|Hne]; cbn [Map_get].
    + destruct (String.eqb_spec k k') as [->|Hne'].
      * now rewrite (Map_get_None _ _ Hout).
      * reflexivity.
    + rewrite (IH Hnd').
      destruct (String.eqb_spec k k') as [->|Hne']; [reflexivity|].
      reflexivity.
Qed.

Lemma Map_get_of_entry {V} (m : JsMap V) k v :
  NoDup (map fst m) -> In (k, v) m -> Map_get m k = Some v.
Proof.
  induction m as [|[k0 v0] m IH]; [intros _ []|].
  cbn [map fst Map_get In]. intros Hnd Hin.
  inversion Hnd as [|? ? Hout Hnd']; subst.
  destruct Hin as [Heq|Hin].
  - injection Heq as -> ->. rewrite (Map_get_None _ _ Hout).
    now rewrite String.eqb_refl.
  - now rewrite (IH Hnd' Hin).
Qed.

Lemma keys_of_values {V} (f : V -> string) (m : JsMap V) :
  (forall k v, In (k, v) m -> f v = k) ->
  map f (map snd m) = map fst m.
Proof.
  induction m as [|[k v] m IH]; intros H; [reflexivity|].
  cbn [map fst snd]. f_equal; [apply H; now left|].
  apply IH. intros k' v' Hin. apply H. now right.
Qed.

Lemma last_or_nil {A} (l : list A) :
  l = [] \/ exists l' x, l = l' ++ [x].
Proof. induction l using rev_ind; eauto. Qed.

(** ** The trees [loadTrees] leaves *)

Section Service.
Variable scoreImbalances : DecisionTree -> list string.

Local Abbreviation Loads := (ServiceSpec.Loads scoreImbalances).
Local Abbreviation LastLoaded := (ServiceSpec.LastLoaded scoreImbalances).
Local Abbreviation service := (DecisionTreeService.service scoreImbalances).

Lemma Loads_fun f t t' : Loads f t -> Loads f t' -> t = t'.
Proof.
  intros (_ & raw & Hp & _ & ->) (_ & raw' & Hp' & _ & ->). congruence.
Qed.

(** What one more file does to the map. *)
Lemma service_step files f :
  (exists t, Loads f t
             /\ service (Some (files ++ [f]))
                = Map_set (service (Some files)) (t_id t) t)
  \/ ((forall t, ~ Loads f t)
      /\ service (Some (files ++ [f])) = service (Some files)).
Proof.
  unfold DecisionTreeService.service, loadTrees.
  rewrite filter_app, fold_left_app. cbn [filter].
  destruct (endsWith (fileName f) ".json") eqn:Hjson; cbn [fold_left app].
  - set (trees := fold_left (loadFile scoreImbalances) _ []).
    unfold loadFile.
    destruct (parsed f) as [raw|] eqn:Hp.
    + destruct (isValid (validate scoreImbalances raw)) eqn:Hv; cbn [negb].
      * left. exists (asDecisionTree raw). split; [|reflexivity].
        split; [exact Hjson|]. exists raw. auto.
      * right. split; [|reflexivity].
        intros t (_ & raw' & Hp' & Hv' & _). congruence.
    + right. split; [|reflexivity].
      intros t (_ & raw' & Hp' & _). congruence.
  - right. split; [|reflexivity]. intros t (Hj & _). congruence.
Qed.

Lemma LastLoaded_snoc files f id t :
  LastLoaded (files ++ [f]) id t
  <-> (Loads f t /\ t_id t = id)
      \/ (LastLoaded files id t /\ forall t', Loads f t' -> t_id t' <> id).
Proof.
  split.
  - intros (before & g & after & Heq & Hload & Hid & Hlater).
    destruct (last_or_nil after) as [->|(after' & x & ->)].
    + apply app_inj_tail in Heq. destruct Heq as [_ <-]. now left.
    + change (before ++ g :: after' ++ [x])
        with (before ++ (g :: after') ++ [x]) in Heq.
      rewrite app_assoc in Heq. apply app_inj_tail in Heq.
      destruct Heq as [-> <-]. right. split.
      * exists before, g, after'.
        split; [reflexivity|]. split; [exact Hload|]. split; [exact Hid|].
        intros f' t' Hin. apply Hlater. apply in_or_app. now left.
      * intros t'. apply Hlater. apply in_or_app. right. now left.
  - intros [[Hload Hid]|[(before & g & after & -> & Hload & Hid & Hlater) Hf]].
    + exists files, f, [].
      split; [reflexivity|]. split; [exact Hload|]. split; [exact Hid|].
      intros f' t' [].
    + exists before, g, (after ++ [f]). split.
      * now rewrite <- app_assoc.
      * split; [exact Hload|]. split; [exact Hid|].
        intros f' t' Hin. apply in_app_or in Hin.
        destruct Hin as [Hin|[<-|[]]]; [now apply Hlater|apply Hf].
Qed.

Lemma service_inv files :
  NoDup (map fst (service (Some files)))
  /\ forall id t, Map_get (service (Some files)) id = Some t
                  <-> LastLoaded files id t.
Proof.
  induction files as [|f files [IHnd IH]] using rev_ind.
  - split; [constructor|]. intros id t. split; [discriminate|].
    intros (before & g & after & Heq & _). now destruct before.
  - destruct (service_step files f) as [(t0 & Hload & ->)|[Hnone ->]].
    + split; [now apply Map_set_NoDup|].
      intros id t. rewrite (Map_get_set _ _ _ _ IHnd), LastLoaded_snoc.
      destruct (String.eqb_spec (t_id t0) id) as [Hid|Hne].
      * split.
        -- intros Heq. injection Heq as <-. now left.
        -- intros [[Hl _]|[_ Hf]]; [now rewrite (Loads_fun Hload Hl)|].
           now destruct (Hf t0 Hload).
      * rewrite IH. split.
        -- intros Hlast. right. split; [exact Hlast|].
           intros t' Hl. now rewrite <- (Loads_fun Hload Hl).
        -- intros [[Hl Hid]|[Hlast _]]; [|exact Hlast].
           rewrite <- (Loads_fun Hload Hl) in Hid. contradiction.
    + split; [exact IHnd|]. intros id t. rewrite IH, LastLoaded_snoc.
      split; [intros Hlast; right; split; [exact Hlast|]|].
      * intros t' Hl. now destruct (Hnone t' Hl).
      * intros [[Hl _]|[Hlast _]]; [now destruct (Hnone t Hl)|exact Hlast].
Qed.

Lemma LastLoaded_valid files id t :
  LastLoaded files id t ->
  t_id t = id
  /\ exists raw, isValid (validate scoreImbalances raw) = true
                 /\ t = asDecisionTree raw.
Proof.
  intros (_ & f & _ & _ & (_ & raw & _ & Hv & Ht) & Hid & _). eauto.
Qed.

(** Every tree the service returns was accepted by the validator. *)
Lemma getTree_valid directory id t :
  getTree (service directory) id = Returned t ->
  t_id t = id
  /\ exists raw, isValid (validate scoreImbalances raw) = true
                 /\ t = asDecisionTree raw.
Proof.
  unfold getTree. destruct directory as [files|]; [|discriminate].
  destruct (Map_get (service (Some files)) id) as [t'|] eqn:Hget;
    [|discriminate].
  intros Heq. injection Heq as ->.
  apply (proj2 (service_inv files)) in Hget.
  now apply (LastLoaded_valid Hget).
Qed.

End Service.

(** ** The [catch] block *)

Lemma knownCode_codeString c : knownCode (string_code (codeString c)) = Some c.
Proof. destruct c; reflexivity. Qed.

Lemma respondError_caught Any (ofString : string -> Any) T env name e :
  (name =? "ValidationError")%string = false ->
  (name =? "MongoError")%string = false ->
  (name =? "MongoServerError")%string = false ->
  @respondError Any ofString T env (caught Any name e)
  = match code e with
    | Some c =>
        (getStatusCode c,
         createErrorResponse env c
           (if truthy (message e) then message e else "An error occurred")
           None None)
    | None =>
        (500%nat,
         createErrorResponse env INTERNAL_ERROR "An unexpected error occurred"
           (developmentMessage ofString env (caught Any name e)) None)
    end.
Proof.
  intros H1 H2 H3. unfold respondError, handleError, caught.
  cbn [caught_code caught_name caught_message caught_details].
  destruct (code e) as [c|].
  - rewrite knownCode_codeString. reflexivity.
  - cbn [knownCode]. rewrite H1, H2, H3. reflexivity.
Qed.

Lemma developmentMessage_hidden Any (ofString : string -> Any) env
    (error : Caught Any) :
  NODE_ENV env <> Some "development" ->
  developmentMessage ofString env error = None.
Proof.
  unfold developmentMessage. intros Hmode.
  destruct (NODE_ENV env) as [mode|]; [|reflexivity].
  destruct (String.eqb_spec mode "development") as [->|]; [|reflexivity].
  now contradiction Hmode.
Qed.

(** ** The ways [/recommend] answers *)

Section Recommend.
Variable Any : Type.
Variable ofString : string -> Any.
Variable render : Exact.number -> string.
Variable env : Env.
Variable trees : JsMap DecisionTree.
Variable body : RecommendBody.

Local Abbreviation run := (recommend ofString render env trees body).

Local Abbreviation unexpected := (ServiceSpec.unexpected ofString env).

Lemma recommend_cases :
  (run = invalidRequest env)
  \/ (exists text,
        treeId body = other_id (Some text)
        /\ run = (404%nat,
                  createErrorResponse env TREE_NOT_FOUND
                    (message (treeNotFound text)) None None))
  \/ (treeId body = other_id None
      /\ run = unexpected "TypeError" notPrimitive)
  \/ (exists id answers,
        okBody body id answers
        /\ getTree trees id = Thrown (treeNotFound id)
        /\ run = (404%nat,
                  createErrorResponse env TREE_NOT_FOUND
                    (message (treeNotFound id)) None None))
  \/ (exists id answers tree e,
        okBody body id answers
        /\ getTree trees id = Returned tree
        /\ Exact.calculate render tree answers = Thrown e
        /\ run = match code e with
                 | Some c =>
                     (getStatusCode c,
                      createErrorResponse env c
                        (if truthy (message e) then message e
                         else "An error occurred")
                        None None)
                 | None => unexpected "Error" e
                 end)
  \/ (exists id answers tree r,
        okBody body id answers
        /\ getTree trees id = Returned tree
        /\ Exact.calculate render tree answers = Returned r
        /\ run = (200%nat, createSuccessResponse env r)).
Proof.
  unfold recommend, okBody.
  destruct (Routes.answers body) as [answers|] eqn:Hanswers; [|now left].
  destruct (treeId body) as [|id|[text|]] eqn:Hid; [now left| | |].
  - destruct (truthy id) eqn:Htruthy; [|now left].
    do 3 right. unfold getTree at 1.
    destruct (Map_get trees id) as [tree|] eqn:Hget.
    + right.
      destruct (Exact.calculate render tree answers) as [r|e] eqn:Hcalc.
      * right. exists id, answers, tree, r. unfold getTree. rewrite Hget.
        repeat split; try assumption; try reflexivity. now rewrite Hcalc.
      * left. exists id, answers, tree, e. unfold getTree. rewrite Hget.
        repeat split; try assumption; try reflexivity.
        rewrite Hcalc. now apply respondError_caught.
    + left. exists id, answers. unfold getTree. rewrite Hget.
      repeat split; try assumption; reflexivity.
  - right. left. exists text. split; reflexivity.
  - right. right. left. split; reflexivity.
Qed.

End Recommend.

End ApiFacts.

(* ===================================================================== *)
(** * Properties of the service and the routes                           *)
(* ===================================================================== *)

Module ApiExtras.
Import RecommendationEngine Spec EngineSpec ExactSpec TestData.
Import DecisionTreeValidator WellFormed ValidData.
Import ErrorHandler DecisionTreeService Routes ServiceSpec.
Import ApiFacts.

(** X14. [getTree] returns, for an id, the tree of the last JSON file of
    the directory that parses to a tree the validator accepts and that
    carries this id; when the directory is missing or no such file
    exists it throws the TREE_NOT_FOUND error naming the id. *)
Theorem service_getTree (scoreImbalances : DecisionTree -> list string)
    (directory : option (list TreeFile)) (id : string) :
  (forall t,
     getTree (service scoreImbalances directory) id = Returned t
     <-> exists files,
           directory = Some files /\ LastLoaded scoreImbalances files id t)
  /\ (forall e,
        getTree (service scoreImbalances directory) id = Thrown e
        <-> e = treeNotFound id
            /\ forall files t,
                 directory = Some files ->
                 ~ LastLoaded scoreImbalances files id t).
Proof.
  unfold getTree. destruct directory as [files|].
  - destruct (service_inv scoreImbalances files) as [_ Hget].
    destruct (Map_get (service scoreImbalances (Some files)) id) as [t0|] eqn:H0.
    + apply Hget in H0. split.
      * intros t. split.
        -- intros Heq. injection Heq as <-. eauto.
        -- intros (files' & Heq & Hlast). injection Heq as <-.
           apply Hget in Hlast. apply Hget in H0. congruence.
      * intros e. split; [discriminate|].
        intros [_ Hnone]. now destruct (Hnone files t0 eq_refl).
    + split.
      * intros t. split; [discriminate|].
        intros (files' & Heq & Hlast). injection Heq as <-.
        apply Hget in Hlast. congruence.
      * intros e. split.
        -- intros Heq. injection Heq as <-. split; [reflexivity|].
           intros files' t Heq Hlast. injection Heq as <-.
           apply Hget in Hlast. congruence.
        -- intros [-> _]. reflexivity.
  - cbn. split.
    + intros t. split; [discriminate|]. intros (files & Heq & _). discriminate.
    + intros e. split.
      * intros Heq. injection Heq as <-. split; [reflexivity|]. discriminate.
      * intros [-> _]. reflexivity.
Qed.

(** X15. Every tree [getAllTrees] lists was accepted by the validator,
    is the one [getTree] returns for its own id, and no two trees listed
    share an id. *)
Theorem served_trees_valid (scoreImbalances : DecisionTree -> list string)
    (directory : option (list TreeFile)) (t : DecisionTree) :
  In t (getAllTrees (service scoreImbalances directory)) ->
  (exists raw, isValid (validate scoreImbalances raw) = true
               /\ t = asDecisionTree raw)
  /\ getTree (service scoreImbalances directory) (t_id t) = Returned t
  /\ NoDup (map t_id (getAllTrees (service scoreImbalances directory))).
Proof.
  destruct directory as [files|]; [|intros []].
  destruct (service_inv scoreImbalances files) as [Hnd Hget].
  set (trees := service scoreImbalances (Some files)) in *.
  assert (Hentry : forall k v, In (k, v) trees ->
                               t_id v = k /\ Map_get trees k = Some v
                               /\ exists raw,
                                    isValid (validate scoreImbalances raw) = true
                                    /\ v = asDecisionTree raw).
  { intros k v Hin. pose proof (Map_get_of_entry _ _ _ Hnd Hin) as Hk.
    pose proof (proj1 (Hget k v) Hk) as Hlast.
    destruct (LastLoaded_valid Hlast) as [Hid Hraw]. auto. }
  intros Hin. unfold getAllTrees, Map_values in *.
  apply in_map_iff in Hin. destruct Hin as ([k v] & Hv & Hin).
  cbn [snd] in Hv. subst v.
  destruct (Hentry k t Hin) as (Hid & Hk & Hraw).
  split; [exact Hraw|]. split.
  - unfold getTree. now rewrite Hid, Hk.
  - assert (Hkeys : map t_id (map snd trees) = map fst trees).
    { apply keys_of_values. intros k' v' Hin'. apply (Hentry k' v' Hin'). }
    now rewrite Hkeys.
Qed.

Lemma served_trees_valid_witness :
  (exists raw, isValid (validate (fun _ => []) raw) = true
               /\ mockTree = asDecisionTree raw)
  /\ getTree (service (fun _ => []) (Some [mockFile])) (t_id mockTree)
     = Returned mockTree
  /\ NoDup (map t_id (getAllTrees (service (fun _ => []) (Some [mockFile])))).
Proof.
  apply (@served_trees_valid (fun _ => []) (Some [mockFile]) mockTree).
  left. reflexivity.
Defined.

(** X16. For a request body that is an object, whatever its [treeId]
    holds, and whose answers, when an array, hold objects with a string
    [questionId] and a string [optionId]: [POST /recommend] answers with
    status 200, 400, 404, 422 or 500. The status is 200 exactly when the
    response says [success], and its data is then what [calculate]
    returned for the tree [getTree] gives for the [treeId], a string.
    The status is 500 only when the [treeId] is a truthy value that is
    no string and cannot be made one, or when [calculate] threw its
    uncoded error about a result that is not found; the response then
    carries INTERNAL_ERROR with a fixed message, and details only when
    NODE_ENV is [development]. *)
Theorem recommend_response (Any : Type) (ofString : string -> Any)
    (render : Exact.number -> string) (env : Env)
    (trees : JsMap DecisionTree) (body : RecommendBody)
    (status : nat) (response : APIResponse Any Exact.RecommendationResult) :
  recommend ofString render env trees body = (status, response) ->
  In status [200; 400; 404; 422; 500]%nat
  /\ (status = 200%nat <-> success response = true)
  /\ (forall r,
        data response = Some r ->
        exists id answers tree,
          treeId body = string_id id
          /\ Routes.answers body = Some answers
          /\ getTree trees id = Returned tree
          /\ Exact.calculate render tree answers = Returned r)
  /\ (status = 500%nat ->
      exists e,
        api_error response = Some e
        /\ e_code e = INTERNAL_ERROR
        /\ e_message e = "An unexpected error occurred"
        /\ (NODE_ENV env <> Some "development" -> details e = None)
        /\ (treeId body = other_id None
            \/ exists id answers tree winner,
                 treeId body = string_id id
                 /\ Routes.answers body = Some answers
                 /\ getTree trees id = Returned tree
                 /\ Exact.calculate render tree answers
                    = Thrown (result_not_found (Exact.show winner)))).
Proof.
  intros Hrun.
  destruct (recommend_cases ofString render env trees body)
    as [Heq
       |[(text & _ & Heq)
        |[(Hid & Heq)
         |[(id & answers & _ & _ & Heq)
          |[(id & answers & tree & e & (Hid & _ & Hans) & Htree & Hcalc & Heq)
           |(id & answers & tree & r & (Hid & _ & Hans) & Htree & Hcalc
             & Heq)]]]]];
    rewrite Heq in Hrun.
  - injection Hrun as <- <-. cbn.
    split; [auto|]. split; [split; discriminate|].
    split; [discriminate|discriminate].
  - injection Hrun as <- <-. cbn.
    split; [auto|]. split; [split; discriminate|].
    split; [discriminate|discriminate].
  - injection Hrun as <- <-. cbn [success data api_error createErrorResponse].
    split; [simpl; auto 6|]. split; [split; discriminate|].
    split; [discriminate|]. intros _.
    eexists. split; [reflexivity|]. cbn [e_code e_message details].
    split; [reflexivity|]. split; [reflexivity|].
    split; [apply developmentMessage_hidden|now left].
  - injection Hrun as <- <-. cbn.
    split; [auto|]. split; [split; discriminate|].
    split; [discriminate|discriminate].
  - destruct (ExactClaims.calculate_thrown_cases _ _ _ Hcalc)
      as [Hcode|(winner & -> & _)].
    + destruct (code e) as [c|] eqn:Hc; [|simpl in Hcode; intuition discriminate].
      injection Hrun as <- <-.
      assert (Hstatus : In (getStatusCode c) [400; 404; 422]%nat
                        /\ getStatusCode c <> 200%nat
                        /\ getStatusCode c <> 500%nat).
      { simpl in Hcode.
        destruct Hcode as [H|[H|[H|[H|[H|[]]]]]]; injection H as <-;
          cbn; repeat split; auto; discriminate. }
      destruct Hstatus as (Hin & H200 & H500).
      cbn [success data snd fst createErrorResponse].
      split.
      { simpl in Hin |- *. tauto. }
      split; [split; [contradiction|discriminate]|].
      split; [discriminate|contradiction].
    + cbn [code result_not_found plainError] in Hrun.
      injection Hrun as <- <-. cbn [success data api_error createErrorResponse].
      split; [simpl; auto 6|]. split; [split; discriminate|].
      split; [discriminate|]. intros _.
      eexists. split; [reflexivity|]. cbn [e_code e_message details].
      split; [reflexivity|]. split; [reflexivity|].
      split; [apply developmentMessage_hidden|].
      right. exists id, answers, tree, winner. auto.
  - injection Hrun as <- <-. cbn.
    split; [auto|]. split; [split; reflexivity|].
    split; [|discriminate].
    intros r' Hr. injection Hr as <-. exists id, answers, tree. auto.
Qed.

Lemma recommend_response_witness :
  In 500%nat [200; 400; 404; 422; 500]%nat.
Proof.
  exact (proj1 (@recommend_response unit (fun _ => tt) decimal production
                  [(t_id mockTree, mockTree)]
                  {| treeId := other_id None;
                     answers := Some [] |}
                  500%nat _ eq_refl)).
Defined.

(** X17. Over the trees of the service, whatever the directory held,
    and for a request body as in X16, [POST /recommend] answers with
    status 200 and a success, or with status 400, 404 or 422 and one of
    VALIDATION_ERROR, TREE_NOT_FOUND, MISSING_ANSWERS,
    INVALID_ANSWER_PATH, OPTION_NOT_FOUND and NO_RECOMMENDATION, the
    status being the one [getStatusCode] gives for the code, or with
    status 500. It answers 500 only when the [treeId] is a truthy value
    that is no string and cannot be made one, or when [calculate] threw
    [Result not found for technology: undefined], which needs answers
    that give points to a key named like a member of [Object.prototype]
    or points whose absolute values add up to [2^52] or more. *)
Theorem recommend_on_service (Any : Type) (ofString : string -> Any)
    (render : Exact.number -> string)
    (scoreImbalances : DecisionTree -> list string) (env : Env)
    (directory : option (list TreeFile)) (body : RecommendBody)
    (status : nat) (response : APIResponse Any Exact.RecommendationResult) :
  recommend ofString render env (service scoreImbalances directory) body
  = (status, response) ->
  (status = 200%nat /\ success response = true)
  \/ (exists e,
        success response = false
        /\ api_error response = Some e
        /\ In (e_code e) served_codes
        /\ status = getStatusCode (e_code e)
        /\ In status [400; 404; 422]%nat)
  \/ (status = 500%nat
      /\ success response = false
      /\ (treeId body = other_id None
          \/ exists id answers tree,
               treeId body = string_id id
               /\ Routes.answers body = Some answers
               /\ getTree (service scoreImbalances directory) id
                  = Returned tree
               /\ Exact.calculate render tree answers
                  = Thrown (result_not_found "undefined")
               /\ ~ (PlainKeys (all_contributions tree answers)
                     /\ SmallPoints (all_contributions tree answers)))).
Proof.
  intros Hrun.
  destruct (recommend_cases ofString render env
              (service scoreImbalances directory) body)
    as [Heq
       |[(text & _ & Heq)
        |[(Hid & Heq)
         |[(id & answers & _ & _ & Heq)
          |[(id & answers & tree & e & (Hid & _ & Hans) & Htree & Hcalc & Heq)
           |(id & answers & tree & r & _ & _ & _ & Heq)]]]]];
    rewrite Heq in Hrun.
  - injection Hrun as <- <-. right. left.
    eexists. cbn. repeat split; auto.
  - injection Hrun as <- <-. right. left.
    eexists. cbn. repeat split; auto.
  - injection Hrun as <- <-. right. right.
    split; [reflexivity|]. split; [reflexivity|]. now left.
  - injection Hrun as <- <-. right. left.
    eexists. cbn. repeat split; auto.
  - destruct (getTree_valid _ _ _ Htree) as (_ & raw & Hvalid & Hraw).
    subst tree.
    destruct (ValidEngine.valid_engine_errors render _ _ _ Hvalid Hcalc)
      as [Hcode|(-> & _ & Hneeds)].
    + destruct (code e) as [c|] eqn:Hc; [|simpl in Hcode; intuition discriminate].
      injection Hrun as <- <-. simpl in Hcode. right. left.
      destruct Hcode as [H|[H|[H|[H|[]]]]]; injection H as <-;
        eexists; cbn; repeat split; auto 7.
    + cbn [code result_not_found plainError] in Hrun.
      injection Hrun as <- <-. right. right.
      split; [reflexivity|]. split; [reflexivity|]. right.
      exists id, answers, (asDecisionTree raw). auto.
  - injection Hrun as <- <-. now left.
Qed.

Lemma recommend_on_service_witness :
  (404%nat = 200%nat
   /\ success (snd (recommend (fun _ : string => tt) decimal production
                      (service (fun _ => []) (Some [mockFile]))
                      {| treeId := string_id "test-tree";
                         answers := Some [mkAnswer "q1" "invalid"] |}))
      = true)
  \/ (exists e,
        success (snd (recommend (fun _ : string => tt) decimal production
                        (service (fun _ => []) (Some [mockFile]))
                        {| treeId := string_id "test-tree";
                           answers := Some [mkAnswer "q1" "invalid"] |}))
        = false
        /\ api_error (snd (recommend (fun _ : string => tt) decimal production
                             (service (fun _ => []) (Some [mockFile]))
                             {| treeId := string_id "test-tree";
                                answers := Some [mkAnswer "q1" "invalid"] |}))
           = Some e
        /\ In (e_code e) served_codes
        /\ 404%nat = getStatusCode (e_code e)
        /\ In 404%nat [400; 404; 422]%nat)
  \/ (404%nat = 500%nat
      /\ success (snd (recommend (fun _ : string => tt) decimal production
                         (service (fun _ => []) (Some [mockFile]))
                         {| treeId := string_id "test-tree";
                            answers := Some [mkAnswer "q1" "invalid"] |}))
         = false
      /\ (string_id "test-tree" = other_id None
          \/ exists id answers tree,
               string_id "test-tree" = string_id id
               /\ Some [mkAnswer "q1" "invalid"] = Some answers
               /\ getTree (service (fun _ => []) (Some [mockFile])) id
                  = Returned tree
               /\ Exact.calculate decimal tree answers
                  = Thrown (result_not_found "undefined")
               /\ ~ (PlainKeys (all_contributions tree answers)
                     /\ SmallPoints (all_contributions tree answers)))).
Proof.
  exact (@recommend_on_service unit (fun _ => tt) decimal (fun _ => [])
           production (Some [mockFile])
           {| treeId := string_id "test-tree";
              answers := Some [mkAnswer "q1" "invalid"] |}
           404%nat _ eq_refl).
Defined.

(** X18. For a caught error object whose [code] is no member of
    [ErrorCode], and when NODE_ENV is not [development], the response of
    [handleError] does not depend on the message of the error: it is a
    failure that carries VALIDATION_ERROR with [error.errors] as
    details, SLUG_COLLISION with [error.keyValue] as details, or
    INTERNAL_ERROR without details, and one of four fixed messages; an
    error that differs in its message only gets the same response. *)
Theorem handleError_hides_message (Any T : Type) (ofString : string -> Any)
    (env : Env) (error : Caught Any) :
  NODE_ENV env <> Some "development" ->
  knownCode (caught_code error) = None ->
  (exists e,
     api_error (@handleError Any ofString T env error) = Some e
     /\ success (@handleError Any ofString T env error) = false
     /\ In (e_message e) fixed_messages
     /\ ((e_code e = VALIDATION_ERROR /\ details e = caught_errors error)
         \/ (e_code e = SLUG_COLLISION /\ details e = caught_keyValue error)
         \/ (e_code e = INTERNAL_ERROR /\ details e = None)))
  /\ forall message',
       @handleError Any ofString T env (with_message error message')
       = @handleError Any ofString T env error.
Proof.
  intros Hmode Hcode. split.
  - unfold handleError. rewrite Hcode.
    pose proof (@developmentMessage_hidden Any ofString env error Hmode)
      as Hdev.
    destruct (caught_name error =? "ValidationError")%string.
    { eexists. split; [reflexivity|]. cbn. repeat split; auto. }
    destruct ((caught_name error =? "MongoError")
              || (caught_name error =? "MongoServerError"))%string.
    + destruct (caught_code error) as [|s|n].
      1,2: eexists; (split; [reflexivity|]); cbn; rewrite Hdev;
        repeat split; auto.
      destruct (Z.eq_dec n 11000) as [->|Hne].
      * eexists. split; [reflexivity|]. cbn. repeat split; auto.
      * assert (Hcase : forall (a b : APIResponse Any T),
                  match n with 11000%Z => a | _ => b end = b).
        { intros a b. destruct n as [|p|p]; try reflexivity.
          do 14 (destruct p as [p|p|]; try reflexivity).
          now contradiction Hne. }
        rewrite Hcase. eexists. split; [reflexivity|]. cbn. rewrite Hdev.
        repeat split; auto.
    + eexists. split; [reflexivity|]. cbn. rewrite Hdev.
      repeat split; auto 6.
  - intros message'. unfold handleError, with_message.
    cbn [caught_code caught_name caught_message caught_details
         caught_errors caught_keyValue].
    rewrite Hcode.
    rewrite (@developmentMessage_hidden Any ofString env _ Hmode).
    rewrite (@developmentMessage_hidden Any ofString env error Hmode).
    reflexivity.
Qed.

Lemma handleError_hides_message_witness :
  @handleError unit (fun _ => tt) Exact.RecommendationResult production
    (with_message (caught unit "Error" (result_not_found "tech3"))
                  "Another message")
  = @handleError unit (fun _ => tt) Exact.RecommendationResult production
      (caught unit "Error" (result_not_found "tech3")).
Proof.
  refine (proj2 (@handleError_hides_message unit Exact.RecommendationResult
                   (fun _ => tt) production
                   (caught unit "Error" (result_not_found "tech3")) _ _)
                "Another message").
  - discriminate.
  - reflexivity.
Defined.

(** X19. [estimateTime] gives the count itself up to ten questions and
    beyond that a range of multiples of five that holds the count: both
    ends are the count when it is a multiple of five, and otherwise they
    are five apart. *)
Theorem estimateTime_range (questionCount : nat) :
  ((questionCount <= 10)%nat ->
   estimateTime questionCount
   = (string_of_nat questionCount ++ " minutes")%string)
  /\ ((10 < questionCount)%nat ->
      exists low high,
        estimateTime questionCount
        = (string_of_nat low ++ "-" ++ string_of_nat high ++ " minutes")%string
        /\ (low <= questionCount <= high)%nat
        /\ (low mod 5 = 0)%nat /\ (high mod 5 = 0)%nat
        /\ (high - low
            = if Nat.eqb (questionCount mod 5) 0 then 0 else 5)%nat).
Proof.
  unfold estimateTime. cbv zeta. rewrite Nat.mul_1_r. split.
  - intros Hle.
    destruct (Nat.ltb_spec questionCount 5); [reflexivity|].
    destruct (Nat.leb_spec questionCount 10); [reflexivity|lia].
  - intros Hgt.
    destruct (Nat.ltb_spec questionCount 5); [lia|].
    destruct (Nat.leb_spec questionCount 10); [lia|].
    exists (floor5 questionCount * 5)%nat, (ceil5 questionCount * 5)%nat.
    split; [reflexivity|].
    unfold floor5, ceil5.
    pose proof (Nat.div_mod_eq questionCount 5) as Hdiv.
    pose proof (Nat.mod_upper_bound questionCount 5) as Hmod.
    rewrite !Nat.Div0.mod_mul.
    destruct (Nat.eqb_spec (questionCount mod 5) 0) as [Hz|Hnz];
      repeat split; lia.
Qed.

(** X20. [GET /trees] over the trees of the service answers with
    status 200, a success and one summary for each tree held, in the
    order of [getAllTrees]: the summary of a tree holds its id, title
    and description, the number of its questions and the estimate for
    that number. An id is listed exactly when [getTree] returns a tree
    for it, no two summaries share an id, and every summary counts at
    least one question. *)
Theorem trees_listing (Any : Type)
    (scoreImbalances : DecisionTree -> list string) (env : Env)
    (directory : option (list TreeFile)) :
  fst (getTrees Any env (service scoreImbalances directory)) = 200%nat
  /\ success (snd (getTrees Any env (service scoreImbalances directory)))
     = true
  /\ exists summaries,
       data (snd (getTrees Any env (service scoreImbalances directory)))
       = Some {| Routes.trees := summaries |}
       /\ Forall2 Summarises summaries
                  (getAllTrees (service scoreImbalances directory))
       /\ (forall id,
             In id (map s_id summaries)
             <-> exists t,
                   getTree (service scoreImbalances directory) id
                   = Returned t)
       /\ NoDup (map s_id summaries)
       /\ forall s, In s summaries -> (1 <= questionCount s)%nat.
Proof.
  split; [reflexivity|]. split; [reflexivity|]. unfold getTrees.
  cbv zeta. cbn [snd data createSuccessResponse].
  eexists. split; [reflexivity|].
  unfold getAllTrees, Map_values.
  split.
  { induction (map snd (service scoreImbalances directory)) as [|t ts IH];
      cbn [map]; constructor; [|exact IH].
    repeat split. }
  destruct directory as [files|].
  2:{ cbn. split; [|split; [constructor|intros s []]].
      intros id. split; [intros []|intros [t Ht]; discriminate]. }
  destruct (service_inv scoreImbalances files) as [Hnd Hget].
  set (trees := service scoreImbalances (Some files)) in *.
  assert (Hentry : forall k v, In (k, v) trees ->
                               t_id v = k /\ Map_get trees k = Some v
                               /\ questions v <> []).
  { intros k v Hin. pose proof (Map_get_of_entry _ _ _ Hnd Hin) as Hk.
    pose proof (proj1 (Hget k v) Hk) as Hlast.
    destruct (LastLoaded_valid Hlast) as (Hid & raw & Hvalid & ->).
    split; [exact Hid|]. split; [exact Hk|].
    apply ValidFacts.isValid_iff in Hvalid.
    destruct Hvalid as ((t & -> & _ & _ & (qs & Hqs & Hne) & _) & _).
    cbn [asDecisionTree questions]. now rewrite Hqs. }
  assert (Hids : map s_id
                   (map (fun tree =>
                           {| s_id := t_id tree;
                              s_title := t_title tree;
                              s_description := t_description tree;
                              questionCount := List.length (questions tree);
                              estimatedTime :=
                                estimateTime (List.length (questions tree)) |})
                        (map snd trees))
                 = map fst trees).
  { rewrite map_map. cbn [s_id].
    change (map t_id (map snd trees) = map fst trees).
    apply keys_of_values. intros k v Hin. apply (Hentry k v Hin). }
  split; [|split].
  - intros id. rewrite Hids. unfold getTree. split.
    + intros Hin. apply in_map_iff in Hin. destruct Hin as ([k v] & <- & Hin).
      cbn [fst]. destruct (Hentry k v Hin) as (_ & -> & _). eauto.
    + intros [t Ht].
      destruct (Map_get trees id) as [t'|] eqn:Hk; [|discriminate].
      now apply Map_get_key in Hk.
  - now rewrite Hids.
  - intros s Hs. apply in_map_iff in Hs. destruct Hs as (t & <- & Ht).
    apply in_map_iff in Ht. destruct Ht as ([k v] & Hv & Hin).
    cbn [snd] in Hv. subst v.
    destruct (Hentry k t Hin) as (_ & _ & Hne).
    cbn [questionCount].
    destruct (questions t); [congruence|cbn; lia].
Qed.

End ApiExtras.
